(** * Blackjack round engine (src/main.cpp): a shallow embedding and its properties

    The C++ program keeps the undealt cards in a global [std::list<Card> deck],
    the spent cards in a global [std::stack<Card> disPile], and passes players
    and hands by reference.  The embedding below threads that state
    explicitly:

    - [int] values are [Z] and the arithmetic is that of [Z]: signed
      overflow is undefined behaviour in C++, so the program has no defined
      result past the 32-bit range.  The model describes the runs that stay
      within it, and the theorems about balances and payouts say so: they
      assume that the sums involved are at most [INT_MAX], or prove it;
    - [std::string] is [string]; [std::list] is [list], front first;
    - the global containers, the random source and standard input form a
      [World] record that every operation takes and returns;
    - a function that can throw returns a [Status] next to the state reached,
      so the state at the moment of the throw is still observable;
    - text written to [std::cout] changes no state and is left out. *)

From Stdlib Require Import ZArith String Ascii List Bool Lia Permutation Sorted.
Import ListNotations.
Open Scope string_scope.
Open Scope list_scope.
Open Scope Z_scope.

(* ================================================================= *)
(** * Part I: the program *)
(* ================================================================= *)

(** ** Cards, hands, players (main.cpp 31-85) *)

Record Card := mkCard {
  rank : string;   (* "A", "2", ..., "K" *)
  suit : string;
  value : Z        (* primary value, ace = 11 *)
}.

Record Hand := mkHand {
  cards : list Card;
  bet : Z;
  isplit : bool;   (* this hand is the result of a split *)
  ddown : bool     (* double down *)
}.

Record Player := mkPlayer {
  id : Z;
  name : string;
  chips : Z;
  hands : list Hand
}.

(** The range of [int] (32 bits, two's complement). *)
Definition INT_MAX : Z := 2147483647.
Definition INT_MIN : Z := - 2147483648.

(** A hand as [Hand h;] or [emplace_back()] creates it. *)
Definition newHand : Hand := mkHand [] 0 false false.

Definition setCards (h : Hand) (cs : list Card) : Hand :=
  mkHand cs (bet h) (isplit h) (ddown h).

Definition setBet (h : Hand) (b : Z) : Hand :=
  mkHand (cards h) b (isplit h) (ddown h).

Definition setChips (p : Player) (c : Z) : Player :=
  mkPlayer (id p) (name p) c (hands p).

Definition setHands (p : Player) (hs : list Hand) : Player :=
  mkPlayer (id p) (name p) (chips p) hs.

(** [CRDVALS] is a [std::map<std::string,int>]: iterating it visits the keys
    in increasing string order, which is the order written here. *)
Definition CRDVALS : list (string * Z) :=
  [("10", 10); ("2", 2); ("3", 3); ("4", 4); ("5", 5); ("6", 6); ("7", 7);
   ("8", 8); ("9", 9); ("A", 11); ("J", 10); ("K", 10); ("Q", 10)].

Definition SUITS : list string := ["♠"; "♥"; "♦"; "♣"].

(** ** Global state (main.cpp 109-111) *)

Record World := mkWorld {
  deck : list Card;        (* undealt cards, front first *)
  disPile : list Card;     (* discard stack, top first *)
  gen : nat -> nat;        (* the successive values g() returns *)
  used : nat;              (* how many of them have been consumed *)
  cinInts : list Z;        (* what each [cin >> betAmt] will read *)
  cinWords : list string   (* what each [cin >> choice] will read *)
}.

Definition setDeck (w : World) (d : list Card) : World :=
  mkWorld d (disPile w) (gen w) (used w) (cinInts w) (cinWords w).

Definition setDisPile (w : World) (d : list Card) : World :=
  mkWorld (deck w) d (gen w) (used w) (cinInts w) (cinWords w).

Definition setUsed (w : World) (n : nat) : World :=
  mkWorld (deck w) (disPile w) (gen w) n (cinInts w) (cinWords w).

Definition setCinInts (w : World) (l : list Z) : World :=
  mkWorld (deck w) (disPile w) (gen w) (used w) l (cinWords w).

Definition setCinWords (w : World) (l : list string) : World :=
  mkWorld (deck w) (disPile w) (gen w) (used w) (cinInts w) l.

(** How a call ended.  [SupplyExhausted] is the [std::runtime_error] thrown
    by [dealCrd]; [NeedInput] means standard input held no further value for
    a prompt; [OutOfFuel] is the bounded model of a loop giving up (shown
    below not to happen); [Undefined] marks an access the language leaves
    undefined: [front()] on an empty list, or a dereference of [end()]. *)
Inductive Status := Ok | SupplyExhausted | NeedInput | OutOfFuel | Undefined.

(** ** Scoring (main.cpp 123-163) *)

(** The lambda given to [std::accumulate]:
    [first] sums the non-ace values, [second] counts the aces. *)
Definition accStep (acc : Z * Z) (c : Card) : Z * Z :=
  if (rank c =? "A")%string then (fst acc, snd acc + 1)
  else (fst acc + value c, snd acc).

(** [while (score > 21 && ace_cnt > 0) { score -= 10; ace_cnt--; }] *)
Fixpoint adjust (fuel : nat) (score ace_cnt : Z) : Z :=
  match fuel with
  | O => score
  | S fuel' =>
      if (score >? 21) && (ace_cnt >? 0)
      then adjust fuel' (score - 10) (ace_cnt - 1)
      else score
  end.

Definition calcScr (hand : Hand) : Z :=
  match cards hand with
  | [] => 0
  | _ =>
      let result := fold_left accStep (cards hand) (0, 0) in
      let initial := fst result in
      let ace_cnt := snd result in
      let score := initial + ace_cnt * 11 in
      adjust (Z.to_nat ace_cnt) score ace_cnt
  end.

Definition is_nat (hand : Hand) : bool :=
  (calcScr hand =? 21) && (length (cards hand) =? 2)%nat && negb (isplit hand).

(** ** Deck management (main.cpp 167-251) *)

Definition oneDeck : list Card :=
  flat_map (fun r_pair => map (fun s => mkCard (fst r_pair) s (snd r_pair)) SUITS)
           CRDVALS.

Definition createDk (num_dk : Z) (w : World) : World :=
  setDisPile (setDeck w (concat (repeat oneDeck (Z.to_nat num_dk)))) [].

(** [tmpDk.erase(it_from)] and [tmpDk.insert(it_to, c)] with the iterator
    [k] steps from [begin()]. *)
Definition eraseAt (k : nat) (l : list Card) : list Card :=
  firstn k l ++ skipn (S k) l.

Definition insertAt (k : nat) (c : Card) (l : list Card) : list Card :=
  firstn k l ++ c :: skipn k l.

(** The [for] loop of [shufDk]; [n] is [tmpDk.size()], which every iteration
    restores.  [g() % n < n], so the card at [from] exists: the [None] branch
    is never taken. *)
Fixpoint shufLoop (iters n : nat) (tmpDk : list Card) (g : nat -> nat) (u : nat)
  : list Card * nat :=
  match iters with
  | O => (tmpDk, u)
  | S iters' =>
      let from := (g u mod n)%nat in
      match nth_error tmpDk from with
      | Some c =>
          let tmpDk := eraseAt from tmpDk in
          let trgPos := (g (S u) mod n)%nat in
          shufLoop iters' n (insertAt trgPos c tmpDk) g (S (S u))
      | None => (tmpDk, u)
      end
  end.

(** [shufDk] builds a generator of its own from the clock at every call.
    The model takes the values of all calls from the one unknown sequence
    [gen], which is as general: the properties below hold for every [gen]. *)
Definition shufDk (w : World) : World :=
  match deck w with
  | [] => w
  | _ =>
      let n := length (deck w) in
      let r := shufLoop (n * 2) n (deck w) (gen w) (used w) in
      setUsed (setDeck w (fst r)) (snd r)
  end.

(** [dealCrd(trgLst)]: the list passed by reference is returned updated.
    Emptying the stack with [top()]/[pop()] appends its cards top first. *)
Definition dealCrd (trgLst : list Card) (w : World) : Status * list Card * World :=
  let w :=
    match deck w with
    | [] => shufDk (setDisPile (setDeck w (deck w ++ disPile w)) [])
    | _ :: _ => w
    end in
  match deck w with
  | [] => (SupplyExhausted, trgLst, w)
  | c :: rest => (Ok, trgLst ++ [c], setDeck w rest)
  end.

(** [discHnd]: [for_each] pushes the cards in hand order, so the last card of
    the hand ends on top. *)
Definition discHnd (hand : Hand) (w : World) : Hand * World :=
  (setBet (setCards hand []) 0, setDisPile w (rev (cards hand) ++ disPile w)).

(** ** Player actions (main.cpp 298-382) *)

Definition playHit (hand : Hand) (w : World) : Status * Hand * World :=
  let '(st, cs, w') := dealCrd (cards hand) w in
  (st, setCards hand cs, w').

(** [front()] and [back()] of a card list.  The program consults them only
    behind a [size() == 2] test, so the filler card is never looked at. *)
Definition noCard : Card := mkCard "" "" 0.
Definition front (l : list Card) : Card := hd noCard l.
Definition back (l : list Card) : Card := last l noCard.

(** Whether [playSplt] gets past its two early returns (lines 309 and
    315). *)
Definition spltRuns (p : Player) (origHnd : Hand) : bool :=
  negb (negb (length (cards origHnd) =? 2)%nat
        || negb (rank (front (cards origHnd)) =? rank (back (cards origHnd)))%string)
  && negb (chips p <? bet origHnd).

(** [playSplt(p, curIt)].  [origHnd] is the hand under the iterator on
    entry and [rest] the hands after it; the function returns the hand at
    that place and the hands after it as the list holds them afterwards, so
    that an inserted hand is the head of the returned [rest].

    The iterator is passed by reference.  [curIt++] puts it on the node
    after the original hand; [insert] puts the new hand before that node and
    leaves the iterator on the node; [curIt--] therefore steps back onto the
    inserted hand, not onto the original one.  The first deal goes through
    the reference [origHnd] and reaches the original hand.  The second,
    after [curIt++], goes to the node after the inserted hand: the hand that
    followed the original, or [end()] when there was none, which no program
    may dereference ([Undefined]).  The last [curIt--] leaves the iterator
    on the inserted hand: when [spltRuns] holds and the function returns,
    the hand under the iterator is the head of the returned [rest].

    A throw in one of the two deals leaves the insertion and the chip
    deduction in place, as in the program. *)
Definition playSplt (p : Player) (origHnd : Hand) (rest : list Hand) (w : World)
  : Status * Player * Hand * list Hand * World :=
  if negb (length (cards origHnd) =? 2)%nat
     || negb (rank (front (cards origHnd)) =? rank (back (cards origHnd)))%string
  then (Ok, p, origHnd, rest, w)
  else if chips p <? bet origHnd
  then (Ok, p, origHnd, rest, w)
  else
    let newHnd := mkHand [nth 1 (cards origHnd) noCard] (bet origHnd) true false in
    let origHnd := setCards origHnd (eraseAt 1 (cards origHnd)) in
    let p := setChips p (chips p - bet newHnd) in
    let '(st, cs, w) := dealCrd (cards origHnd) w in
    match st with
    | Ok =>
        let origHnd := setCards origHnd cs in
        match rest with
        | [] => (Undefined, p, origHnd, [newHnd], w)
        | nxtHnd :: more =>
            let '(st, cs, w) := dealCrd (cards nxtHnd) w in
            (st, p, origHnd, newHnd :: setCards nxtHnd cs :: more, w)
        end
    | _ => (st, p, origHnd, newHnd :: rest, w)
    end.

Definition playDD (p : Player) (hand : Hand) (w : World)
  : Status * Player * Hand * World :=
  if negb (length (cards hand) =? 2)%nat then (Ok, p, hand, w)
  else if chips p <? bet hand then (Ok, p, hand, w)
  else
    let p := setChips p (chips p - bet hand) in
    let hand := mkHand (cards hand) (bet hand * 2) (isplit hand) true in
    let '(st, hand, w) := playHit hand w in
    (st, p, hand, w).

(** ** Settlement of one hand (main.cpp 387-433) *)

(** [static_cast<int>(hand.bet * 1.5)]: the product is exact in a [double]
    for every [int], and the cast truncates toward zero. *)
Definition winAmtOf (b : Z) : Z := Z.quot (b * 3) 2.

Definition setHnd (p : Player) (hand dlHnd : Hand) (w : World)
  : Player * Hand * World :=
  let p_score := calcScr hand in
  let d_score := calcScr dlHnd in
  let p :=
    if p_score >? 21 then p
    else if is_nat hand && is_nat dlHnd then setChips p (chips p + bet hand)
    else if is_nat hand then
      let winAmt := winAmtOf (bet hand) in
      setChips p (chips p + (bet hand + winAmt))
    else if d_score >? 21 then setChips p (chips p + bet hand * 2)
    else if is_nat dlHnd then p
    else if p_score >? d_score then setChips p (chips p + bet hand * 2)
    else if p_score <? d_score then p
    else setChips p (chips p + bet hand) in
  let '(hand, w) := discHnd hand w in
  (p, hand, w).

(** ** The decision phase of one player (main.cpp 439-535) *)

(** [::toupper] in the "C" locale, applied to every character. *)
Definition toupper (c : ascii) : ascii :=
  let n := nat_of_ascii c in
  if (97 <=? n)%nat && (n <=? 122)%nat then ascii_of_nat (n - 32) else c.

Fixpoint upcase (s : string) : string :=
  match s with
  | EmptyString => EmptyString
  | String c s' => String (toupper c) (upcase s')
  end.

Definition canSplt (curHnd : Hand) : bool :=
  (length (cards curHnd) =? 2)%nat
  && (rank (front (cards curHnd)) =? rank (back (cards curHnd)))%string
  && negb (isplit curHnd).

Definition canDbl (p : Player) (curHnd : Hand) : bool :=
  (length (cards curHnd) =? 2)%nat && (chips p >=? bet curHnd).

(** The test of line 459, "Handle a split pair of Aces". *)
Definition splitAces (curHnd : Hand) : bool :=
  isplit curHnd
  && (length (cards curHnd) =? 2)%nat
  && (rank (front (cards curHnd)) =? "A")%string
  && (rank (back (cards curHnd)) =? "A")%string.

(** Where the inner loop leaves the iterator for the outer loop, which does
    [++it] unless [split] is set.  [NextHand]: [split] is false.
    [SameHand]: [split] is true and [playSplt] returned early, so [it] is
    where it was.  [InsertedHand]: [split] is true and [playSplt] ran, so
    [it] is on the hand it inserted. *)
Inductive Resume := NextHand | SameHand | InsertedHand.

(** The inner [while (!done)] loop on the hand under the iterator.  [rest]
    are the hands after the iterator on entry; the hand and the [rest]
    returned are the hand at that place and the hands after it.  One unit
    of fuel pays for one pass of the loop. *)
Fixpoint playHand (fuel : nat) (p : Player) (curHnd : Hand) (rest : list Hand)
                  (w : World)
  : Status * Resume * Player * Hand * list Hand * World :=
  match fuel with
  | O => (OutOfFuel, NextHand, p, curHnd, rest, w)
  | S fuel' =>
      let score := calcScr curHnd in
      if score >? 21 then (Ok, NextHand, p, curHnd, rest, w)
      else if score =? 21 then (Ok, NextHand, p, curHnd, rest, w)
      else
        match cinWords w with
        | [] => (NeedInput, NextHand, p, curHnd, rest, w)
        | word :: more =>
            let choice := upcase word in
            let w := setCinWords w more in
            if (choice =? "H")%string then
              let '(st, hand, w) := playHit curHnd w in
              match st with
              | Ok => playHand fuel' p hand rest w
              | _ => (st, NextHand, p, hand, rest, w)
              end
            else if (choice =? "S")%string then
              (Ok, NextHand, p, curHnd, rest, w)
            else if (choice =? "D")%string && canDbl p curHnd then
              let '(st, p', hand, w) := playDD p curHnd w in
              (st, NextHand, p', hand, rest, w)
            else if (choice =? "P")%string && canSplt curHnd then
              let resume := if spltRuns p curHnd then InsertedHand else SameHand in
              let '(st, p', hand, rest, w) := playSplt p curHnd rest w in
              (st, resume, p', hand, rest, w)
            else playHand fuel' p curHnd rest w
        end
  end.

(** The outer loop over [p.hands].  The iterator [it] cuts the list in two:
    [prev] are the hands before it, [todo] the hands from it on, so
    [it == p.hands.end()] is [todo = []].  After a split that ran, the
    iterator is on the inserted hand, the head of the hands returned after
    the original one: the original hand is behind the iterator.  The list is
    returned whole. *)
Fixpoint hdlLoop (fuel : nat) (p : Player) (prev todo : list Hand) (w : World)
  : Status * Player * list Hand * World :=
  match todo with
  | [] => (Ok, p, prev, w)
  | curHnd :: rest =>
      match fuel with
      | O => (OutOfFuel, p, prev ++ todo, w)
      | S fuel' =>
          if ddown curHnd then hdlLoop fuel' p (prev ++ [curHnd]) rest w
          else if splitAces curHnd then hdlLoop fuel' p (prev ++ [curHnd]) rest w
          else
            let '(st, resume, p, hand, rest, w) := playHand fuel' p curHnd rest w in
            match st with
            | Ok =>
                match resume with
                | NextHand => hdlLoop fuel' p (prev ++ [hand]) rest w
                | SameHand => hdlLoop fuel' p prev (hand :: rest) w
                | InsertedHand => hdlLoop fuel' p (prev ++ [hand]) rest w
                end
            | _ => (st, p, prev ++ hand :: rest, w)
            end
      end
  end.

(** Fuel that always suffices.  A pass of the inner loop that goes round
    again has consumed a word of input; a pass of the outer loop that does
    not shorten the hands from the iterator on has too. *)
Definition handFuel (w : World) : nat := S (length (cinWords w)).

Definition loopFuel (todo : list Hand) (w : World) : nat :=
  S (2 * length (cinWords w) + length todo).

(** The two loops with that fuel. *)
Definition playTurn (p : Player) (curHnd : Hand) (rest : list Hand) (w : World)
  : Status * Resume * Player * Hand * list Hand * World :=
  playHand (handFuel w) p curHnd rest w.

Definition hdlRun (p : Player) (prev todo : list Hand) (w : World)
  : Status * Player * list Hand * World :=
  hdlLoop (loopFuel todo w) p prev todo w.

(** [hdlPlay(p, dlHnd)]: the iterator starts at [p.hands.begin()].  The body
    never looks at [dlHnd]. *)
Definition hdlPlay (p : Player) (dlHnd : Hand) (w : World)
  : Status * Player * World :=
  let '(st, p', hs, w') := hdlRun p [] (hands p) w in
  (st, setHands p' hs, w').

(** ** One round (main.cpp 538-670) *)

(** [plyrs] and [dealr] are locals of [runGame] handed to [playRnd] by
    reference; together with the globals they are the state of a round. *)
Record Game := mkGame {
  plyrs : list Player;
  dealr : Player;
  world : World
}.

(** Sequencing of two steps: the second runs only when the first did not
    throw (or block), and the state reached is kept either way. *)
Definition andThen (f g : Game -> Status * Game) : Game -> Status * Game :=
  fun t =>
    let '(st, t') := f t in
    match st with
    | Ok => g t'
    | _ => (st, t')
    end.

Notation "f ;; g" := (andThen f g) (at level 61, right associativity).

(** A loop over the players in list order that stops at the first throw.
    [playQue] receives the address of every player in this order and is
    drained before the round ends, so walking the queue is walking the list. *)
Fixpoint forEachPlayer (f : Player -> World -> Status * Player * World)
                       (ps : list Player) (w : World)
  : Status * list Player * World :=
  match ps with
  | [] => (Ok, [], w)
  | p :: more =>
      let '(st, p', w') := f p w in
      match st with
      | Ok =>
          let '(st', more', w'') := forEachPlayer f more w' in
          (st', p' :: more', w'')
      | _ => (st, p' :: more, w')
      end
  end.

Definition onPlayers (f : Player -> World -> Status * Player * World)
  : Game -> Status * Game :=
  fun t =>
    let '(st, ps, w) := forEachPlayer f (plyrs t) (world t) in
    (st, mkGame ps (dealr t) w).

(** A step on [dealr.hands.front()]. *)
Definition onDealerHand (f : Hand -> World -> Status * Hand * World)
  : Game -> Status * Game :=
  fun t =>
    match hands (dealr t) with
    | [] => (Undefined, t)
    | dealrH :: others =>
        let '(st, h, w) := f dealrH (world t) in
        (st, mkGame (plyrs t) (setHands (dealr t) (h :: others)) w)
    end.

(** Lines 546-550: the low-water rebuild. *)
Definition reshuffleCheck : Game -> Status * Game :=
  fun t =>
    let w := world t in
    let w := if (length (deck w) <? 60)%nat then shufDk (createDk 4 w) else w in
    (Ok, mkGame (plyrs t) (dealr t) w).

(** The bet prompt: [betAmt] starts at 0, so at least one value is read, and
    values are read until one lies in [1, chips]. *)
Fixpoint promptBet (chips : Z) (cin : list Z) : option Z * list Z :=
  match cin with
  | [] => (None, [])
  | betAmt :: cin' =>
      if (betAmt <? 1) || (betAmt >? chips) then promptBet chips cin'
      else (Some betAmt, cin')
  end.

Definition placeBet (p : Player) (w : World) : Status * Player * World :=
  match promptBet (chips p) (cinInts w) with
  | (None, cin') => (NeedInput, p, setCinInts w cin')
  | (Some betAmt, cin') =>
      let hs := hands p ++ [newHand] in
      let hs := match hs with
                | h :: t => setBet h betAmt :: t
                | [] => []
                end in
      (Ok, setChips (setHands p hs) (chips p - betAmt), setCinInts w cin')
  end.

(** [dealCrd(q->hands.front().cards)] *)
Definition dealToFront (p : Player) (w : World) : Status * Player * World :=
  match hands p with
  | [] => (Undefined, p, w)
  | h :: t =>
      let '(st, cs, w') := dealCrd (cards h) w in
      (st, setHands p (setCards h cs :: t), w')
  end.

Definition dealToDealer : Game -> Status * Game :=
  onDealerHand (fun h w => let '(st, cs, w') := dealCrd (cards h) w in
                           (st, setCards h cs, w')).

Definition dealrNatOf (t : Game) : bool :=
  match hands (dealr t) with
  | [] => false
  | dealrH :: _ => is_nat dealrH
  end.

Definition dealrHOf (t : Game) : Hand := hd newHand (hands (dealr t)).

(** Lines 613-623. *)
Definition actionsPhase (dealrNat : bool) : Game -> Status * Game :=
  fun t =>
    onPlayers (fun p w => if negb dealrNat then hdlPlay p (dealrHOf t) w
                          else (Ok, p, w)) t.

(** Lines 636-643: [while (d_score < 17)]. *)
Fixpoint dealerLoop (fuel : nat) (dealrH : Hand) (w : World)
  : Status * Hand * World :=
  if calcScr dealrH <? 17 then
    match fuel with
    | O => (OutOfFuel, dealrH, w)
    | S fuel' =>
        let '(st, cs, w') := dealCrd (cards dealrH) w in
        match st with
        | Ok => dealerLoop fuel' (setCards dealrH cs) w'
        | _ => (st, dealrH, w')
        end
    end
  else (Ok, dealrH, w).

(** Every pass takes a card out of the supply, so the supply's size bounds
    the number of passes. *)
Definition dealerPlay (dealrNat : bool) (dealrH : Hand) (w : World)
  : Status * Hand * World :=
  if negb dealrNat
  then dealerLoop (S (length (deck w) + length (disPile w))) dealrH w
  else (Ok, dealrH, w).

(** Lines 656-660: the body of the loop over one player's hands. *)
Definition settleOne (p : Player) (hand dealrH : Hand) (w : World)
  : Player * Hand * World :=
  if bet hand >? 0 then setHnd p hand dealrH w
  else let '(hand, w) := discHnd hand w in (p, hand, w).

(** Lines 655-661: the loop itself. *)
Fixpoint settleLoop (p : Player) (hs : list Hand) (dealrH : Hand) (w : World)
  : Player * list Hand * World :=
  match hs with
  | [] => (p, [], w)
  | hand :: more =>
      let '(p, hand, w) := settleOne p hand dealrH w in
      let '(p, more, w) := settleLoop p more dealrH w in
      (p, hand :: more, w)
  end.

(** Lines 653-666, for one player: settle, then [remove_if] the hands that
    hold no card. *)
Definition settlePlayer (dealrH : Hand) (p : Player) (w : World)
  : Status * Player * World :=
  let '(p, hs, w) := settleLoop p (hands p) dealrH w in
  let hs := filter (fun h => negb (length (cards h) =? 0)%nat) hs in
  (Ok, setHands p hs, w).

Definition settlementPhase : Game -> Status * Game :=
  fun t => onPlayers (settlePlayer (dealrHOf t)) t.

Definition discardDealer : Game -> Status * Game :=
  onDealerHand (fun h w => let '(h', w') := discHnd h w in (Ok, h', w')).

(** Lines 604-645: [dealrNat] is computed once, before anyone plays; the
    players act, then the dealer. *)
Definition playPhases : Game -> Status * Game :=
  fun t =>
    let dealrNat := dealrNatOf t in
    (actionsPhase dealrNat ;; onDealerHand (dealerPlay dealrNat)) t.

(** Everything [playRnd] does before the settlement loop. *)
Definition beforeSettlement : Game -> Status * Game :=
  reshuffleCheck ;;
  onPlayers placeBet ;;
  onPlayers dealToFront ;; dealToDealer ;;
  onPlayers dealToFront ;; dealToDealer ;;
  playPhases.

Definition playRnd : Game -> Status * Game :=
  beforeSettlement ;; settlementPhase ;; discardDealer.

(** ** The session loop (main.cpp 699-754) *)

(** Lines 721-725. *)
Definition resetDealer (dealr : Player) (w : World) : Player * World :=
  match hands dealr with
  | [] => (setHands dealr [newHand], w)
  | h :: others =>
      if bet h >? 0
      then let '(h', w') := discHnd h w in (setHands dealr (h' :: others), w')
      else (dealr, w)
  end.

(** [while (playAgn == "Y")].  The [catch] clause leaves the loop; the status
    [SupplyExhausted] records that the session ended that way. *)
Fixpoint gameLoop (fuel : nat) (playAgn : string) (t : Game) : Status * Game :=
  if (playAgn =? "Y")%string then
    match fuel with
    | O => (OutOfFuel, t)
    | S fuel' =>
        let ps := filter (fun p => negb (chips p <? 1)) (plyrs t) in
        match ps with
        | [] => (Ok, mkGame ps (dealr t) (world t))
        | _ :: _ =>
            let '(d, w) := resetDealer (dealr t) (world t) in
            let '(st, t') := playRnd (mkGame ps d w) in
            match st with
            | Ok =>
                match cinWords (world t') with
                | [] => (NeedInput, t')
                | word :: more =>
                    gameLoop fuel' (upcase word)
                      (mkGame (plyrs t') (dealr t') (setCinWords (world t') more))
                end
            | _ => (st, t')
            end
        end
    end
  else (Ok, t).

(** [runGame] once the player names have been read: players start with 1000
    chips, the dealer with one hand, the supply with four shuffled decks. *)
Definition seatPlayers (names : list string) : list Player :=
  map (fun ni => mkPlayer (Z.of_nat (S (fst ni))) (snd ni) 1000 [])
      (combine (seq 0 (length names)) names).

Definition runGame (names : list string) (w : World) : Status * Game :=
  let dealr := mkPlayer 0 "Dealer" 0 [newHand] in
  let w := shufDk (createDk 4 w) in
  gameLoop (S (length (cinWords w))) "Y" (mkGame (seatPlayers names) dealr w).

(** ** Comparison operators (main.cpp 38-45, 82-84) *)

(** [Card::operator==]: rank and suit; the value is not compared. *)
Definition cardEq (a b : Card) : bool :=
  (rank a =? rank b)%string && (suit a =? suit b)%string.

(** [Card::operator<]: by rank first, then by suit, each with the
    [operator<] of [std::string], the lexicographic order on the bytes. *)
Definition cardLt (a b : Card) : bool :=
  if negb (rank a =? rank b)%string then (rank a <? rank b)%string
  else (suit a <? suit b)%string.

(** [Player::operator<]: the player with more chips comes first. *)
Definition playerLt (a b : Player) : bool := chips a >? chips b.

(** [VALRANKS], a [std::set<std::string>], in its iteration order. *)
Definition VALRANKS : list string :=
  ["10"; "2"; "3"; "4"; "5"; "6"; "7"; "8"; "9"; "A"; "J"; "K"; "Q"].

(** ** Lookup by position (main.cpp 92-106) *)

(** [getNthCard(deck, n)]: [None] is the null pointer; otherwise the card
    under the iterator that [std::advance] moved [n] steps from [begin()]. *)
Definition getNthCard (deck : list Card) (n : Z) : option Card :=
  if (n <? 0) || (n >=? Z.of_nat (length deck)) then None
  else hd_error (skipn (Z.to_nat n) deck).

(** ** Display (main.cpp 47-49, 256-272) *)

(** [operator<<] on a card. *)
Definition showCard (c : Card) : string := (rank c ++ suit c)%string.

(** The loop of [prntHnd], with its card counter: the text it writes. *)
Fixpoint prntCards (hide_1 : bool) (count : nat) (cs : list Card) : string :=
  match cs with
  | [] => ""
  | c :: more =>
      ((if hide_1 && (count =? 1)%nat then "XX " else showCard c ++ " ")
       ++ prntCards hide_1 (S count) more)%string
  end.

Definition prntHnd (hand : Hand) (hide_1 : bool) : string :=
  ("[ " ++ prntCards hide_1 0 (cards hand) ++ "]")%string.

(** ** Setting up a session (main.cpp 674-697) *)

(** Lines 681-686: [numPlay] starts at 0, so at least one value is read, and
    values are read until one lies in [1, 3]. *)
Fixpoint promptNum (cin : list Z) : option Z * list Z :=
  match cin with
  | [] => (None, [])
  | numPlay :: cin' =>
      if (numPlay <? 1) || (numPlay >? 3) then promptNum cin'
      else (Some numPlay, cin')
  end.

(** Lines 688-693: one [getline] per player, [i] counting from 1.  A
    [getline] that finds no line leaves the name empty. *)
Fixpoint readNames (count : nat) (lines : list string) : list string :=
  match count with
  | O => []
  | S count' => hd "" lines :: readNames count' (tl lines)
  end.

(** [runGame] from its first prompt; [lines] are the lines of input that
    the calls of [getline] find. *)
Definition runSession (lines : list string) (w : World) : Status * Game :=
  match promptNum (cinInts w) with
  | (None, cin') =>
      (NeedInput, mkGame [] (mkPlayer 0 "Dealer" 0 [newHand]) (setCinInts w cin'))
  | (Some numPlay, cin') =>
      runGame (readNames (Z.to_nat numPlay) lines) (setCinInts w cin')
  end.

(* ================================================================= *)
(** * Part II: the specification's vocabulary *)
(* ================================================================= *)

(** ** Scoring as the specification words it *)

Definition isAce (c : Card) : bool := (rank c =? "A")%string.

Definition sumValues (l : list Card) : Z := fold_right Z.add 0 (map value l).

(** "the numeric values of all non-ace cards" *)
Definition nonAces (l : list Card) : list Card :=
  filter (fun c => negb (isAce c)) l.

(** the number of ace cards *)
Definition aceCount (l : list Card) : nat := length (filter isAce l).

(** "While the running total exceeds 21 and at least one ace has not yet been
    softened, subtract 10 and mark one ace softened." *)
Fixpoint soften (unsoftened : nat) (total : Z) : Z :=
  match unsoftened with
  | O => total
  | S k => if total >? 21 then soften k (total - 10) else total
  end.

Definition scoreSpec (l : list Card) : Z :=
  soften (aceCount l) (sumValues (nonAces l) + 11 * Z.of_nat (aceCount l)).

(** ** Settlement as the specification words it *)

(** The payout rules in their order of precedence, each a condition on the
    two hands and the amount credited when it is the first that holds.
    [floor(1.5 x wager)] is [(3 * wager) / 2] with [Z]'s flooring division. *)
Definition payoutRules (hand dealrH : Hand) : list (bool * Z) :=
  let wager := bet hand in
  let ps := calcScr hand in
  let ds := calcScr dealrH in
  [ (ps >? 21,                                   0);
    (is_nat hand && is_nat dealrH,               1 * wager);
    (is_nat hand && negb (is_nat dealrH),        wager + (3 * wager) / 2);
    ((ds >? 21) && negb (ps >? 21),              2 * wager);
    (is_nat dealrH && negb (is_nat hand),        0);
    (ps >? ds,                                   2 * wager);
    (ps <? ds,                                   0);
    (ps =? ds,                                   1 * wager) ].

Fixpoint firstMatch (rules : list (bool * Z)) : option Z :=
  match rules with
  | [] => None
  | (cond, amount) :: more => if cond then Some amount else firstMatch more
  end.

(** What settling one hand adds to the player's balance. *)
Definition credited (p : Player) (hand dealrH : Hand) (w : World) : Z :=
  chips (fst (fst (settleOne p hand dealrH w))) - chips p.

(** The amount the rules give a hand, and the sum over a hand sequence. *)
Definition payoutOf (dealrH hand : Hand) : Z :=
  match firstMatch (payoutRules hand dealrH) with
  | Some amount => amount
  | None => 0
  end.

Definition payoutSum (dealrH : Hand) (hs : list Hand) : Z :=
  fold_right Z.add 0 (map (payoutOf dealrH) hs).

(** ** Sample cards and hands *)

Definition aceSpades : Card := mkCard "A" "♠" 11.
Definition aceHearts : Card := mkCard "A" "♥" 11.
Definition kingSpades : Card := mkCard "K" "♠" 10.
Definition jackHearts : Card := mkCard "J" "♥" 10.
Definition tenSpades : Card := mkCard "10" "♠" 10.
Definition tenHearts : Card := mkCard "10" "♥" 10.
Definition nineSpades : Card := mkCard "9" "♠" 9.
Definition nineClubs : Card := mkCard "9" "♣" 9.
Definition eightDiamonds : Card := mkCard "8" "♦" 8.
Definition sixDiamonds : Card := mkCard "6" "♦" 6.
Definition fiveClubs : Card := mkCard "5" "♣" 5.

(** A fresh hand holding [cs] with a wager of 10. *)
Definition staked (cs : list Card) : Hand := mkHand cs 10 false false.

(** A world with the given undealt cards and typed words, an empty discard
    stack and some fixed random source. *)
Definition worldOf (d : list Card) (words : list string) : World :=
  mkWorld d [] (fun n => (n * 7 + 3)%nat) 0 [] words.

Definition ann : Player := mkPlayer 1 "Ann" 990 [].

(** Ann after staking 10 of her 1000 chips on a pair of aces. *)
Definition annAces : Player :=
  mkPlayer 1 "Ann" 990 [staked [aceSpades; aceHearts]].

(** ** The supply and the live hands *)

(** Every card the engine holds: undealt, discarded, or in a hand. *)
Definition allCards (hs : list Hand) (w : World) : list Card :=
  deck w ++ disPile w ++ flat_map cards hs.

Definition totalCards (hs : list Hand) (w : World) : nat :=
  length (deck w) + length (disPile w)
  + list_sum (map (fun h => length (cards h)) hs).

(** The operations on the supply: a draw into the [i]-th live hand (which
    may throw), the discard of the [i]-th hand, a shuffle.  An index past the
    last hand names no hand, and the operation does nothing. *)
Inductive SupplyOp :=
| Draw (i : nat)
| DiscardHand (i : nat)
| Reshuffle.

Fixpoint onHand (i : nat) (f : Hand -> World -> Hand * World)
                (hs : list Hand) (w : World) {struct hs} : list Hand * World :=
  match hs, i with
  | [], _ => ([], w)
  | h :: t, O => let '(h', w') := f h w in (h' :: t, w')
  | h :: t, S j => let '(t', w') := onHand j f t w in (h :: t', w')
  end.

Definition applyOp (op : SupplyOp) (hs : list Hand) (w : World)
  : list Hand * World :=
  match op with
  | Draw i => onHand i (fun h w => let '(_, h', w') := playHit h w in (h', w')) hs w
  | DiscardHand i => onHand i discHnd hs w
  | Reshuffle => (hs, shufDk w)
  end.

Fixpoint runOps (ops : list SupplyOp) (hs : list Hand) (w : World)
  : list Hand * World :=
  match ops with
  | [] => (hs, w)
  | op :: more => let '(hs', w') := applyOp op hs w in runOps more hs' w'
  end.

(** ** The decision phase as the specification words it *)

(** The hand under the iterator reaches the prompt and the player types
    [word]: the hand was not completed by a double, is not passed over as a
    "split pair of aces", and scores below 21. *)
Definition prompted (curHnd : Hand) (w : World) (word : string) (more : list string)
  : Prop :=
  ddown curHnd = false
  /\ splitAces curHnd = false
  /\ calcScr curHnd < 21
  /\ cinWords w = word :: more.

(** "eligible iff hand has exactly 2 cards, both cards share the same rank,
    and the hand is not already derivedFromSplit, and participant's chip
    balance >= current wager" *)
Definition splitEligible (p : Player) (hand : Hand) : Prop :=
  (exists c1 c2, cards hand = [c1; c2] /\ rank c1 = rank c2)
  /\ isplit hand = false
  /\ bet hand <= chips p.

(** "eligible iff hand has exactly 2 cards and balance >= wager" *)
Definition doubleEligible (p : Player) (hand : Hand) : Prop :=
  length (cards hand) = 2%nat /\ bet hand <= chips p.

(** "a hand with wagerDoubled=true has exactly 3 cards" *)
Definition doubledHasThree (hand : Hand) : Prop :=
  ddown hand = true -> length (cards hand) = 3%nat.

Definition notDoubled (hand : Hand) : Prop := ddown hand = false.

(** The hands a decision phase starts from, as far as doubling goes: a
    doubled hand holds three cards, and no hand after the first is doubled.
    The program enters the phase with one hand, not doubled. *)
Definition doublesInOrder (hs : list Hand) : Prop :=
  Forall doubledHasThree hs /\ Forall notDoubled (tl hs).

(** Ann with a wager of 10 on a pair of tens, and on a ten and a jack. *)
Definition annTens : Player :=
  mkPlayer 1 "Ann" 990 [staked [tenSpades; tenHearts]].

Definition annTenJack : Player :=
  mkPlayer 1 "Ann" 990 [staked [tenSpades; jackHearts]].

(** Ann with her last 5 chips staked on a pair of tens. *)
Definition annBroke : Player :=
  mkPlayer 1 "Ann" 0 [mkHand [tenSpades; tenHearts] 5 false false].

(** The supply holds no card at all: where the fatal error leaves it. *)
Definition exhausted (w : World) : Prop := deck w = [] /\ disPile w = [].

(** What a player has at stake: the balance plus the wagers on the table. *)
Definition betSum (hs : list Hand) : Z := fold_right Z.add 0 (map bet hs).

Definition stake (p : Player) : Z := chips p + betSum (hands p).

(** ** The dealer as the specification words it *)

(** The dealer's hand after [k] of the cards it went on to draw. *)
Definition dealerAfter (dealrH : Hand) (drawn : list Card) (k : nat) : Hand :=
  setCards dealrH (cards dealrH ++ firstn k drawn).

(** "no split/double eligibility, no wager": across a step the dealer keeps
    its balance, the number of its hands and their flags, and a hand without
    a wager stays without one. *)
Definition dealerKept (d d' : Player) : Prop :=
  chips d' = chips d
  /\ map isplit (hands d') = map isplit (hands d)
  /\ map ddown (hands d') = map ddown (hands d)
  /\ (Forall (fun h => bet h = 0) (hands d) ->
      Forall (fun h => bet h = 0) (hands d')).

(** A table with Ann and the dealer, whose two cards are an ace and a king. *)
Definition dealerNaturalGame : Game :=
  mkGame [mkPlayer 1 "Ann" 990 [staked [tenSpades; sixDiamonds]]]
         (mkPlayer 0 "Dealer" 0 [mkHand [aceHearts; kingSpades] 0 false false])
         (worldOf [fiveClubs; nineSpades] ["H"; "S"]).

(** ** Properties of the steps of a round *)

(** A step keeps a relation between the state before and the state after,
    however it ends. *)
Definition keeps (R : Game -> Game -> Prop) (f : Game -> Status * Game) : Prop :=
  forall t, R t (snd (f t)).

(** A step that ends in the fatal error leaves the supply exhausted. *)
Definition failsExhausted (f : Game -> Status * Game) : Prop :=
  forall t t', f t = (SupplyExhausted, t') -> exhausted (world t').

Definition sameStakes (t t' : Game) : Prop :=
  map stake (plyrs t') = map stake (plyrs t).

Definition sameDealer (t t' : Game) : Prop := dealerKept (dealr t) (dealr t').

Definition twoOfClubs : Card := mkCard "2" "♣" 2.

(** A crowded table: thirty players seated with 1000 chips each, who will
    bet 1 each, and a supply of sixty cards, none discarded.  ("an unrecoverable
    configuration error, e.g., too many participants for too few decks".)
    The session of [runGame] seats three players at most; this is [playRnd]
    called on a longer list. *)
Definition crowdedGame : Game :=
  mkGame (seatPlayers (repeat "Ann" 30))
         (mkPlayer 0 "Dealer" 0 [newHand])
         (mkWorld (repeat twoOfClubs 60) [] (fun n => n) 0 (repeat 1 30) []).

(** ** States of one player's decision phase *)

(** The player, the whole hand sequence and the globals, as one state. *)
Definition Seat : Type := Player * list Hand * World.

(** "wager ... 0 meaning inactive": a hand in play carries at least 1. *)
Definition wagered (hand : Hand) : Prop := 1 <= bet hand.

(** The cards a seat accounts for: the supply and the player's hands. *)
Definition seatCards (s : Seat) : list Card :=
  let '(p, hs, w) := s in deck w ++ disPile w ++ flat_map cards hs.

(** ** Counting cards *)

Definition Card_eq_dec (a b : Card) : {a = b} + {a <> b}.
Proof.
  decide equality; try apply Z.eq_dec; apply string_dec.
Defined.

(** How many copies of [c] a list holds. *)
Definition copies (c : Card) (l : list Card) : nat := count_occ Card_eq_dec l c.

Definition supplyCopies (c : Card) (w : World) : nat :=
  copies c (deck w) + copies c (disPile w).

Definition handsCopies (c : Card) (hs : list Hand) : nat :=
  copies c (flat_map cards hs).

(** The copies of [c] anywhere at the table: undealt, discarded, in a
    player's hand or in the dealer's. *)
Definition gameCopies (c : Card) (t : Game) : nat :=
  supplyCopies c (world t)
  + copies c (flat_map (fun p => flat_map cards (hands p)) (plyrs t))
  + handsCopies c (hands (dealr t)).

Definition sameCards (t t' : Game) : Prop :=
  forall c, gameCopies c t' = gameCopies c t.

(** No player holds a hand: the state between rounds. *)
Definition noHands (t : Game) : Prop :=
  Forall (fun p => hands p = []) (plyrs t).

(** A quiet table: sixty twos undealt, Ann bets 10 and stands. *)
Definition quietGame : Game :=
  mkGame [mkPlayer 1 "Ann" 1000 []]
         (mkPlayer 0 "Dealer" 0 [newHand])
         (mkWorld (repeat twoOfClubs 60) [] (fun n => n) 0 [10] ["S"]).

(** A table set for a split of aces: Ann bets 10 of her 1000 chips; the
    undealt sequence gives her the two aces and the dealer a ten and a nine,
    continues with [next], and then with two full decks. *)
Definition acesGame (next : list Card) (words : list string) : Game :=
  mkGame [mkPlayer 1 "Ann" 1000 []]
         (mkPlayer 0 "Dealer" 0 [newHand])
         (mkWorld ([aceSpades; tenHearts; aceHearts; nineSpades] ++ next
                   ++ concat (repeat oneDeck 2))
                  [] (fun n => n) 0 [10] words).

(** A step reads input, if at all, from the front: it leaves no more words
    waiting than it found. *)
Definition inputShrinks (t t' : Game) : Prop :=
  (length (cinWords (world t')) <= length (cinWords (world t)))%nat.

(** The definitions from here on are the vocabulary of Part IV. *)

(** ** Scoring in closed form *)

(** The total with every ace counted as 1. *)
Definition hardTotal (l : list Card) : Z :=
  sumValues (nonAces l) + Z.of_nat (aceCount l).

(** No card counts for less than nothing. *)
Definition valuesNonneg (l : list Card) : Prop :=
  Forall (fun c => 0 <= value c) l.

(** ** Display as the reader sees it *)

(** Every card of a list written out, each followed by a blank. *)
Definition showAll (cs : list Card) : string :=
  String.concat "" (map (fun c => (showCard c ++ " ")%string) cs).

(** ** Hands the decision phase passes over *)

(** The hand is not prompted for: completed by a double, passed over as a
    split pair of aces, or at 21 or more. *)
Definition settledHand (h : Hand) : Prop :=
  ddown h = true \/ splitAces h = true \/ 21 <= calcScr h.

Definition betsNonneg (hs : list Hand) : Prop := Forall (fun h => 0 <= bet h) hs.

(** ** Bets and payouts *)

(** A value the bet prompt turns down. *)
Definition badBet (balance x : Z) : Prop := x < 1 \/ balance < x.

(** Who a player is: id and name. *)
Definition seatOf (p : Player) : Z * string := (id p, name p).

(** The same players sit at the table, in the same order. *)
Definition sameSeats (t t' : Game) : Prop :=
  map seatOf (plyrs t') = map seatOf (plyrs t).

(** ** Card values the dealer can meet *)

(** No card but an ace counts for more than 10. *)
Definition atMostTen (c : Card) : Prop := isAce c = true \/ value c <= 10.

(** ** A session *)

(** The dealer has a hand to deal to; every player has one. *)
Definition dealerSeated (t : Game) : Prop := hands (dealr t) <> [].

Definition allDealtIn (t : Game) : Prop :=
  Forall (fun p => hands p <> []) (plyrs t).

(** From a state in [P] the step never takes [front()] of an empty list,
    and when it runs to its end the state is in [Q]. *)
Definition safeStep (P Q : Game -> Prop) (f : Game -> Status * Game) : Prop :=
  forall t, P t ->
    fst (f t) <> Undefined /\ (fst (f t) = Ok -> Q (snd (f t))).

(** The ways a session can end: the players said so or went broke; the
    supply ran dry; the input ran out at a prompt. *)
Definition sessionEnd (st : Status) : Prop :=
  st = Ok \/ st = SupplyExhausted \/ st = NeedInput.

(** The state [runGame] enters its loop with. *)
Definition startGame (names : list string) (w : World) : Game :=
  mkGame (seatPlayers names) (mkPlayer 0 "Dealer" 0 [newHand])
         (shufDk (createDk 4 w)).

(** Four decks: what the table holds of a card. *)
Definition fourDecks (c : Card) : nat := copies c (concat (repeat oneDeck 4)).

Definition tableComplete (t : Game) : Prop :=
  forall c, gameCopies c t = fourDecks c.

(** Between rounds: no player holds a hand, the dealer has one hand and it
    is empty. *)
Definition betweenRounds (t : Game) : Prop :=
  noHands t
  /\ exists h, hands (dealr t) = [h] /\ cards h = [] /\ bet h = 0.

Definition solvent (t : Game) : Prop :=
  Forall (fun p => 0 <= chips p) (plyrs t).

(** Every player at the table in [t'] sat there in [t], under the same id
    and name. *)
Definition noNewcomer (t t' : Game) : Prop :=
  incl (map seatOf (plyrs t')) (map seatOf (plyrs t)).

(** A player whose balance and wagers are not negative. *)
Definition fundedSeat (p : Player) : Prop :=
  0 <= chips p /\ betsNonneg (hands p).

Definition funded (t : Game) : Prop := Forall fundedSeat (plyrs t).

(** The players with a chip left, as [remove_if] leaves them (lines
    706-712), and the table the next round is played at. *)
Definition stillIn (ps : list Player) : list Player :=
  filter (fun p => negb (chips p <? 1)) ps.

Definition nextTable (t : Game) : Game :=
  mkGame (stillIn (plyrs t))
         (fst (resetDealer (dealr t) (world t)))
         (snd (resetDealer (dealr t) (world t))).

(** A value the prompt for the number of players turns down. *)
Definition badCount (x : Z) : Prop := x < 1 \/ 3 < x.

(** ** The initial deal (lines 579-597) *)

(** "Initial Deal (Player, Dealer, Player, Dealer)". *)
Definition initialDeal : Game -> Status * Game :=
  onPlayers dealToFront ;; dealToDealer ;;
  onPlayers dealToFront ;; dealToDealer.

(** The player with card [c] added to the first hand. *)
Definition dealtTo (c : Card) (p : Player) : Player :=
  match hands p with
  | h :: others => setHands p (setCards h (cards h ++ [c]) :: others)
  | [] => p
  end.

(** Each player in turn is given the next card of [d]. *)
Fixpoint dealRow (ps : list Player) (d : list Card) : list Player :=
  match ps, d with
  | p :: ps', c :: d' => dealtTo c p :: dealRow ps' d'
  | _, _ => ps
  end.

(** Ann and Bob have bet; six cards are undealt. *)
Definition dealTable : Game :=
  mkGame [mkPlayer 1 "Ann" 990 [staked []]; mkPlayer 2 "Bob" 990 [staked []]]
         (mkPlayer 0 "Dealer" 0 [newHand])
         (worldOf [aceSpades; tenHearts; aceHearts;
                   nineSpades; kingSpades; sixDiamonds] []).

(** ** From the start of a round to the end of the deal *)

(** Lines 546-597: the low-water check, the bets, the initial deal. *)
Definition dealPhase : Game -> Status * Game :=
  reshuffleCheck ;; onPlayers placeBet ;; initialDeal.

(** A hand as the deal leaves it: two cards, a wager of at least 1, no
    flag set. *)
Definition freshlyDealt (h : Hand) : Prop :=
  length (cards h) = 2%nat /\ 1 <= bet h /\ isplit h = false /\ ddown h = false.

(** ** Sessions without a split *)

(** The input holds no request to split. *)
Definition noSplitAsked (w : World) : Prop :=
  Forall (fun word => upcase word <> "P") (cinWords w).

(** The dealer has a hand to deal to, and nobody will ask to split. *)
Definition calm (t : Game) : Prop := dealerSeated t /\ noSplitAsked (world t).

(** A step that reads no word of input. *)
Definition silent (f : Game -> Status * Game) : Prop :=
  forall t, cinWords (world (snd (f t))) = cinWords (world t).

(** ** The range of [int] *)

Definition inInt (z : Z) : Prop := INT_MIN <= z <= INT_MAX.

(** Settling [hand] for [p] stays within [int] whichever rule applies:
    neither the balance nor the wager is negative, and the balance has room
    for the largest payout there is, the wager plus one and a half times the
    wager.  Then [hand.bet * 2], [hand.bet * 1.5] and their sums with
    [p.chips] are all in range. *)
Definition payoutFits (p : Player) (hand : Hand) : Prop :=
  0 <= chips p
  /\ 0 <= bet hand
  /\ chips p + (bet hand + winAmtOf (bet hand)) <= INT_MAX.

(** ** Balances and the range of [int] through rounds *)

(** The settlement of the hands [hs] for [p] stays within [int] at every
    hand: each is settled from a balance that has room for its largest
    payout. *)
Fixpoint settlesInInt (p : Player) (hs : list Hand) (dealrH : Hand) (w : World)
  : Prop :=
  match hs with
  | [] => True
  | hand :: more =>
      payoutFits p hand
      /\ settlesInInt (fst (fst (settleOne p hand dealrH w))) more dealrH
                      (snd (settleOne p hand dealrH w))
  end.

(** The largest balance of which two and a half times is still an [int]. *)
Definition roundCap : Z := 858993458.

(** A balance a round can start from. *)
Definition roundFits (p : Player) : Prop := 0 <= chips p <= roundCap.

(** What a player has at the table is at most [B]: the balance and the
    wagers are not negative, and together they come to [B] or less. *)
Definition within (B : Z) (p : Player) : Prop :=
  0 <= chips p /\ betsNonneg (hands p) /\ stake p <= B.

(** The most a balance of 1000 can have become after a number of rounds,
    a round at most multiplying it by two and a half. *)
Fixpoint ceiling (rounds : nat) : Z :=
  match rounds with
  | O => 1000
  | S k => (5 * ceiling k) / 2
  end.

(** A short session: Ann alone, who bets 10, stands and declines another
    round. *)
Definition shortSession : World :=
  mkWorld [] [] (fun n => (n * 7 + 3)%nat) 0 [10] ["S"; "N"].

(** ** Hands on the table before a split *)

(** Two hands on the table before any request, 10 on each: a pair and a
    seven.  The functions of the decision phase accept such a player; a
    round never produces one, a second hand existing only after a split. *)
Definition annAcesAndSeven : Player :=
  mkPlayer 1 "Ann" 980
           [staked [aceSpades; aceHearts]; staked [twoOfClubs; fiveClubs]].

Definition annTensAndSeven : Player :=
  mkPlayer 1 "Ann" 980
           [staked [tenSpades; tenHearts]; staked [twoOfClubs; fiveClubs]].

(* ================================================================= *)
(** * Part III: properties *)
(* ================================================================= *)

(** ** Scoring *)

Lemma accStep_fold (l : list Card) (a k : Z) :
  fold_left accStep l (a, k)
  = (a + sumValues (nonAces l), k + Z.of_nat (aceCount l)).
Proof.
  revert a k.
  induction l as [|c l IH]; intros a k; cbn [fold_left].
  - cbn. f_equal; lia.
  - unfold accStep at 2. fold (isAce c). cbn [fst snd].
    unfold nonAces, aceCount, sumValues in *. cbn [filter].
    destruct (isAce c); cbn [negb map fold_right length];
      rewrite IH; f_equal; lia.
Qed.

(** The bounded loop of the model runs the [while] loop to its end: with as
    much fuel as there are aces, it stops because the loop test fails. *)
Lemma adjust_soften (k : nat) (score : Z) :
  adjust (Z.to_nat (Z.of_nat k)) score (Z.of_nat k) = soften k score.
Proof.
  rewrite Nat2Z.id.
  revert score.
  induction k as [|k IH]; intro score; [reflexivity|].
  cbn [adjust soften].
  destruct (score >? 21); cbn [andb]; [|reflexivity].
  replace (Z.of_nat (S k) >? 0) with true by (symmetry; apply Z.gtb_lt; lia).
  replace (Z.of_nat (S k) - 1) with (Z.of_nat k) by lia.
  apply IH.
Qed.

Lemma adjust_more_fuel (extra k : nat) (score : Z) :
  adjust (k + extra) score (Z.of_nat k) = soften k score.
Proof.
  revert score.
  induction k as [|k IH]; intro score.
  - destruct extra; cbn [adjust soften Nat.add]; [reflexivity|].
    rewrite andb_false_r. reflexivity.
  - cbn [adjust soften Nat.add].
    destruct (score >? 21); cbn [andb]; [|reflexivity].
    replace (Z.of_nat (S k) >? 0) with true by (symmetry; apply Z.gtb_lt; lia).
    replace (Z.of_nat (S k) - 1) with (Z.of_nat k) by lia.
    apply IH.
Qed.

Lemma calcScr_scoreSpec (hand : Hand) : calcScr hand = scoreSpec (cards hand).
Proof.
  unfold calcScr, scoreSpec.
  destruct (cards hand) as [|c l] eqn:E; [reflexivity|].
  rewrite accStep_fold. cbn [fst snd].
  rewrite !Z.add_0_l, adjust_soften. f_equal. lia.
Qed.

(** What the softening loop computes, without running it: the total less 10
    for each of the first [j] aces, where [j] is the least count that brings
    the total to 21 or below, or all the aces when none does. *)
Lemma soften_least (k : nat) (total : Z) :
  exists j : nat,
    (j <= k)%nat
    /\ soften k total = total - 10 * Z.of_nat j
    /\ ((j < k)%nat -> soften k total <= 21)
    /\ (forall i : nat, (i < j)%nat -> total - 10 * Z.of_nat i > 21).
Proof.
  revert total.
  induction k as [|k IH]; intro total.
  - exists 0%nat. cbn [soften]. split; [|split; [|split]]; intros; lia.
  - cbn [soften]. destruct (total >? 21) eqn:E.
    + destruct (IH (total - 10)) as (j & Hle & Heq & Hlt & Hall).
      exists (S j). split; [|split; [|split]]; try lia.
      intros i Hi. destruct i as [|i].
      * apply Z.gtb_lt in E. lia.
      * specialize (Hall i ltac:(lia)). lia.
    + exists 0%nat. split; [|split; [|split]]; lia.
Qed.

Lemma no_aces_filter (l : list Card) :
  Forall (fun c => rank c <> "A") l -> nonAces l = l /\ aceCount l = 0%nat.
Proof.
  induction 1 as [|c l Hc _ [IH1 IH2]]; [split; reflexivity|].
  assert (E : isAce c = false) by (apply String.eqb_neq; exact Hc).
  unfold nonAces, aceCount in *. cbn [filter]. rewrite E. cbn [negb].
  rewrite IH1. split; [reflexivity | exact IH2].
Qed.

(** C1.  For every hand, [calcScr] is the specification's score: the sum of
    the values of the non-ace cards plus 11 per ace, less 10 for one ace at a
    time while the total exceeds 21 and an unsoftened ace remains.  The
    number [j] of softened aces is the least that reaches 21 or below (all of
    them if none does).  A hand without aces scores the sum of its card
    values, and the empty hand scores 0. *)
Theorem C1_calcScr_is_softened_sum (hand : Hand) :
  let l := cards hand in
  let total := sumValues (nonAces l) + 11 * Z.of_nat (aceCount l) in
  calcScr hand = scoreSpec l
  /\ (exists j : nat,
         (j <= aceCount l)%nat
         /\ calcScr hand = total - 10 * Z.of_nat j
         /\ ((j < aceCount l)%nat -> calcScr hand <= 21)
         /\ (forall i : nat, (i < j)%nat -> total - 10 * Z.of_nat i > 21))
  /\ (Forall (fun c => rank c <> "A") l -> calcScr hand = sumValues l)
  /\ (l = [] -> calcScr hand = 0).
Proof.
  intros l total.
  pose proof (calcScr_scoreSpec hand) as Hs. fold l in Hs.
  split; [exact Hs|]. split; [|split].
  - rewrite Hs. unfold scoreSpec. fold total. apply soften_least.
  - intro Hno. rewrite Hs. unfold scoreSpec.
    destruct (no_aces_filter l Hno) as [-> ->]. cbn [soften]. lia.
  - intro E. unfold calcScr. fold l. rewrite E. reflexivity.
Qed.

(** ** Settlement *)

Lemma winAmt_floor (b : Z) : 0 <= b -> winAmtOf b = (3 * b) / 2.
Proof.
  intro Hb. unfold winAmtOf.
  rewrite Z.quot_div_nonneg by lia. f_equal. lia.
Qed.

(** The balance after [setHnd], branch by branch of its [if] chain. *)
Lemma setHnd_chips (p : Player) (hand dealrH : Hand) (w : World) :
  chips (fst (fst (setHnd p hand dealrH w)))
  = chips p +
    (if calcScr hand >? 21 then 0
     else if is_nat hand && is_nat dealrH then bet hand
     else if is_nat hand then bet hand + winAmtOf (bet hand)
     else if calcScr dealrH >? 21 then bet hand * 2
     else if is_nat dealrH then 0
     else if calcScr hand >? calcScr dealrH then bet hand * 2
     else if calcScr hand <? calcScr dealrH then 0
     else bet hand).
Proof.
  unfold setHnd, discHnd. cbn [fst].
  repeat match goal with
         | |- context [if ?b then _ else _] => destruct b
         end; cbn [chips setChips]; lia.
Qed.

Lemma settleOne_first_match (p : Player) (hand dealrH : Hand) (w : World) :
  0 <= bet hand ->
  bet hand <> 0 ->
  firstMatch (payoutRules hand dealrH)
  = Some (chips (fst (fst (settleOne p hand dealrH w))) - chips p).
Proof.
  intros Hnn Hnz.
  unfold settleOne.
  replace (bet hand >? 0) with true by (symmetry; apply Z.gtb_lt; lia).
  rewrite setHnd_chips, winAmt_floor by exact Hnn.
  unfold payoutRules. cbn [firstMatch].
  destruct (calcScr hand >? 21) eqn:Ebust; [f_equal; lia|].
  destruct (is_nat hand) eqn:Ep, (is_nat dealrH) eqn:Ed; cbn [andb negb];
    try (f_equal; lia);
    destruct (calcScr dealrH >? 21) eqn:Edb; cbn [andb negb];
    try (f_equal; lia).
  destruct (calcScr hand >? calcScr dealrH) eqn:Egt; [f_equal; lia|].
  destruct (calcScr hand <? calcScr dealrH) eqn:Elt; [f_equal; lia|].
  replace (calcScr hand =? calcScr dealrH) with true
    by (symmetry; apply Z.eqb_eq; lia).
  f_equal; lia.
Qed.

Lemma winAmt_bounds (b : Z) : 0 <= b -> b <= winAmtOf b <= 2 * b.
Proof.
  intro Hb. rewrite winAmt_floor by exact Hb. split.
  - apply Z.div_le_lower_bound; lia.
  - apply Z.div_le_upper_bound; lia.
Qed.

Lemma settleOne_credit_bounds (p : Player) (hand dealrH : Hand) (w : World) :
  0 <= bet hand ->
  0 <= chips (fst (fst (settleOne p hand dealrH w))) - chips p
    <= bet hand + winAmtOf (bet hand).
Proof.
  intro Hb. pose proof (winAmt_bounds (bet hand) Hb) as Hw.
  unfold settleOne. destruct (bet hand >? 0).
  - rewrite setHnd_chips.
    repeat match goal with
           | |- context [if ?b then _ else _] => destruct b
           end; lia.
  - unfold discHnd. cbn [fst]. lia.
Qed.

(** C2.  Settling a hand that carries a wager credits the player's balance
    with the amount of the first payout rule that matches, in the order:
    player bust 0; both natural 1x; player natural alone wager +
    floor(1.5 x wager); dealer bust 2x; dealer natural alone 0; higher score
    2x; lower score 0; equal scores 1x.  The balance and the wager are
    [int]s: the statement is about the settlements that stay in range
    ([payoutFits]), and for those every value the program computes on the
    way is in range too: twice the wager, one and a half times the wager,
    the largest payout, and the new balance, which is the old one plus an
    amount between 0 and that largest payout. *)
Theorem C2_settlement_first_matching_rule
    (p : Player) (hand dealrH : Hand) (w : World) :
  payoutFits p hand ->
  bet hand <> 0 ->
  firstMatch (payoutRules hand dealrH) = Some (credited p hand dealrH w)
  /\ 0 <= credited p hand dealrH w <= bet hand + winAmtOf (bet hand)
  /\ inInt (bet hand * 2)
  /\ inInt (winAmtOf (bet hand))
  /\ inInt (bet hand + winAmtOf (bet hand))
  /\ inInt (chips (fst (fst (settleOne p hand dealrH w)))).
Proof.
  intros (Hc & Hb & Hmax) Hnz.
  pose proof (winAmt_bounds (bet hand) Hb) as Hw.
  pose proof (settleOne_credit_bounds p hand dealrH w Hb) as Hcr.
  unfold credited, inInt, INT_MIN in *.
  split; [exact (settleOne_first_match p hand dealrH w Hb Hnz)|].
  repeat split; lia.
Qed.

(** Over all the hands of a player, each carrying a wager, the settlement
    loop adds up the payouts. *)
Lemma settleLoop_chips (dealrH : Hand) :
  forall hs p w,
    Forall wagered hs ->
    chips (fst (fst (settleLoop p hs dealrH w))) = chips p + payoutSum dealrH hs.
Proof.
  induction hs as [|hand more IH]; intros p w Hall; cbn [settleLoop].
  - unfold payoutSum. cbn. lia.
  - inversion Hall as [|? ? Hh Hmore]; subst. unfold wagered in Hh.
    pose proof (settleOne_first_match p hand dealrH w ltac:(lia) ltac:(lia)) as H1.
    destruct (settleOne p hand dealrH w) as [[p1 h1] w1]. cbn [fst] in H1.
    specialize (IH p1 w1 Hmore).
    destruct (settleLoop p1 more dealrH w1) as [[p2 m2] w2]. cbn [fst] in *.
    unfold payoutSum in *. cbn [map fold_right]. unfold payoutOf at 1.
    rewrite H1, IH. lia.
Qed.

(** The scenarios of the specification, wager 10: 19 against 18 credits 20;
    a natural against a three-card 28 credits 25; natural against natural
    credits 10; a bust credits 0. *)
Lemma C2_settlement_scenarios :
  credited ann (staked [tenSpades; nineSpades])
           (staked [tenHearts; eightDiamonds]) (worldOf [] []) = 20
  /\ credited ann (staked [aceSpades; kingSpades])
              (staked [nineSpades; nineClubs; jackHearts]) (worldOf [] []) = 25
  /\ credited ann (staked [aceSpades; kingSpades])
              (staked [aceHearts; jackHearts]) (worldOf [] []) = 10
  /\ credited ann (staked [tenSpades; fiveClubs; eightDiamonds])
              (staked [tenHearts; eightDiamonds]) (worldOf [] []) = 0.
Proof. repeat split; vm_compute; reflexivity. Qed.

Lemma C2_settlement_witness :
  firstMatch (payoutRules (staked [aceSpades; kingSpades])
                          (staked [nineSpades; nineClubs; jackHearts]))
  = Some (credited ann (staked [aceSpades; kingSpades])
                   (staked [nineSpades; nineClubs; jackHearts]) (worldOf [] []))
  /\ chips (fst (fst (settleOne ann (staked [aceSpades; kingSpades])
                        (staked [nineSpades; nineClubs; jackHearts])
                        (worldOf [] [])))) = chips ann + 25.
Proof.
  assert (Hfits : payoutFits ann (staked [aceSpades; kingSpades]))
    by (vm_compute; repeat split; congruence).
  assert (Hnz : bet (staked [aceSpades; kingSpades]) <> 0)
    by (vm_compute; congruence).
  destruct (C2_settlement_first_matching_rule ann
              (staked [aceSpades; kingSpades])
              (staked [nineSpades; nineClubs; jackHearts]) (worldOf [] [])
              Hfits Hnz) as (H & _).
  split; [exact H | reflexivity].
Defined.

(** ** Naturals *)


Lemma flagged_hand_not_natural (hand : Hand) :
  isplit hand = true -> is_nat hand = false.
Proof.
  intro H. unfold is_nat. rewrite H. cbn [negb]. apply andb_false_r.
Qed.

(** ** Split aces in the decision phase *)

(** The one situation in which line 459 does force a stand: a flagged hand
    that is itself a pair of aces is passed over without a prompt. *)
Lemma flagged_ace_pair_is_passed_over
    (fuel : nat) (p : Player) (prev rest : list Hand) (curHnd : Hand) (w : World) :
  ddown curHnd = false ->
  splitAces curHnd = true ->
  hdlLoop (S fuel) p prev (curHnd :: rest) w
  = hdlLoop fuel p (prev ++ [curHnd]) rest w.
Proof. intros Hd Hs. cbn [hdlLoop]. rewrite Hd, Hs. reflexivity. Qed.

(** ** The supply: shuffling, dealing, discarding *)

Lemma eraseAt_perm (k : nat) (l : list Card) (c : Card) :
  nth_error l k = Some c -> Permutation (c :: eraseAt k l) l.
Proof.
  intro H. unfold eraseAt.
  destruct (nth_error_split l k H) as (l1 & l2 & -> & <-).
  rewrite firstn_app, firstn_all, Nat.sub_diag, firstn_O, app_nil_r.
  rewrite skipn_app, skipn_all2 by lia.
  replace (S (length l1) - length l1)%nat with 1%nat by lia.
  apply Permutation_middle.
Qed.

Lemma insertAt_perm (k : nat) (c : Card) (l : list Card) :
  Permutation (insertAt k c l) (c :: l).
Proof.
  unfold insertAt. symmetry.
  rewrite <- (firstn_skipn k l) at 1.
  apply Permutation_middle.
Qed.

Lemma shufLoop_perm (iters n : nat) (g : nat -> nat) :
  forall (l : list Card) (u : nat),
    Permutation (fst (shufLoop iters n l g u)) l.
Proof.
  induction iters as [|iters IH]; intros l u; cbn [shufLoop]; [reflexivity|].
  destruct (nth_error l (g u mod n)) as [c|] eqn:E; [|reflexivity].
  rewrite IH, insertAt_perm. apply eraseAt_perm, E.
Qed.

(** A shuffle permutes the undealt cards and touches nothing else but the
    random source. *)
Lemma shufDk_frame (w : World) :
  Permutation (deck (shufDk w)) (deck w)
  /\ disPile (shufDk w) = disPile w
  /\ cinInts (shufDk w) = cinInts w
  /\ cinWords (shufDk w) = cinWords w.
Proof.
  unfold shufDk. destruct (deck w) as [|c d] eqn:E.
  - rewrite E. repeat split; reflexivity.
  - cbn [deck setUsed setDeck disPile cinInts cinWords].
    split; [apply shufLoop_perm | repeat split; reflexivity].
Qed.

Lemma shufDk_nil (w : World) : deck w = [] -> shufDk w = w.
Proof. intro E. unfold shufDk. rewrite E. reflexivity. Qed.

(** The three ways a draw can go. *)
Lemma dealCrd_front (trgLst : list Card) (w : World) (c : Card) (d : list Card) :
  deck w = c :: d ->
  dealCrd trgLst w = (Ok, trgLst ++ [c], setDeck w d).
Proof. intro E. unfold dealCrd. rewrite E. cbn. rewrite E. reflexivity. Qed.

Lemma dealCrd_recovery (trgLst : list Card) (w : World) :
  deck w = [] ->
  disPile w <> [] ->
  let w1 := shufDk (setDisPile (setDeck w (disPile w)) []) in
  exists c d,
    deck w1 = c :: d
    /\ dealCrd trgLst w = (Ok, trgLst ++ [c], setDeck w1 d)
    /\ Permutation (c :: d) (disPile w)
    /\ disPile (setDeck w1 d) = [].
Proof.
  intros E Hne w1.
  destruct (shufDk_frame (setDisPile (setDeck w (disPile w)) []))
    as (Hperm & Hpile & _).
  fold w1 in Hperm, Hpile. cbn [deck disPile setDisPile setDeck] in Hperm, Hpile.
  destruct (deck w1) as [|c d] eqn:E1.
  - apply Permutation_nil in Hperm. contradiction.
  - exists c, d. split; [reflexivity|]. split; [|split].
    + unfold dealCrd. rewrite E. cbn [app]. fold w1. rewrite E1. reflexivity.
    + exact Hperm.
    + cbn [disPile setDeck]. exact Hpile.
Qed.

Lemma dealCrd_exhausted (trgLst : list Card) (w : World) :
  deck w = [] ->
  disPile w = [] ->
  dealCrd trgLst w = (SupplyExhausted, trgLst, w).
Proof.
  intros E1 E2. unfold dealCrd. rewrite E1, E2. cbn [app].
  destruct w as [d p g u i s]. cbn in E1, E2. subst. reflexivity.
Qed.

(** A draw never ends otherwise than with a card or with the fatal error. *)
Lemma dealCrd_status (trgLst : list Card) (w : World) :
  forall st l' w', dealCrd trgLst w = (st, l', w') ->
    (st = Ok /\ exists c, l' = trgLst ++ [c])
    \/ (st = SupplyExhausted /\ l' = trgLst /\ deck w' = [] /\ disPile w' = []
        /\ deck w = [] /\ disPile w = []).
Proof.
  intros st l' w' H.
  destruct (deck w) as [|c d] eqn:E.
  - destruct (disPile w) as [|c p] eqn:Ep.
    + rewrite (dealCrd_exhausted _ _ E Ep) in H. injection H as <- <- <-.
      right. repeat split; assumption.
    + destruct (dealCrd_recovery trgLst w E) as (c' & d' & _ & Hd & _).
      { rewrite Ep. discriminate. }
      rewrite Hd in H. injection H as <- <- <-. left. split; [reflexivity|].
      exists c'. reflexivity.
  - rewrite (dealCrd_front _ _ _ _ E) in H. injection H as <- <- <-.
    left. split; [reflexivity|]. exists c. reflexivity.
Qed.

(** A draw, thrown or not, neither loses nor duplicates a card. *)
Lemma dealCrd_perm (trgLst : list Card) (w : World) :
  forall st l' w', dealCrd trgLst w = (st, l', w') ->
    Permutation (deck w' ++ disPile w' ++ l') (deck w ++ disPile w ++ trgLst).
Proof.
  intros st l' w' H.
  destruct (deck w) as [|c d] eqn:E.
  - destruct (disPile w) as [|c p] eqn:Ep.
    + rewrite (dealCrd_exhausted _ _ E Ep) in H. injection H as <- <- <-.
      rewrite E, Ep. reflexivity.
    + destruct (dealCrd_recovery trgLst w E) as (c' & d' & _ & Hd & Hp & Hnil).
      { rewrite Ep. discriminate. }
      rewrite Hd in H. injection H as <- <- <-.
      rewrite Hnil. cbn [deck setDeck app]. rewrite Ep in Hp.
      transitivity (c' :: d' ++ trgLst).
      * rewrite app_assoc. symmetry. apply Permutation_cons_append.
      * apply (Permutation_app_tail trgLst Hp).
  - rewrite (dealCrd_front _ _ _ _ E) in H. injection H as <- <- <-.
    cbn [deck disPile setDeck app].
    rewrite !app_assoc. rewrite <- Permutation_middle.
    rewrite app_nil_r. reflexivity.
Qed.

Lemma discHnd_perm (hand : Hand) (w : World) :
  Permutation
    (deck (snd (discHnd hand w)) ++ disPile (snd (discHnd hand w))
     ++ cards (fst (discHnd hand w)))
    (deck w ++ disPile w ++ cards hand).
Proof.
  cbn. rewrite app_nil_r. apply Permutation_app_head.
  rewrite <- Permutation_rev. apply Permutation_app_comm.
Qed.

Lemma totalCards_length (hs : list Hand) (w : World) :
  totalCards hs w = length (allCards hs w).
Proof.
  unfold totalCards, allCards. rewrite !length_app, length_flat_map. lia.
Qed.

Lemma onHand_perm (f : Hand -> World -> Hand * World) :
  (forall h w,
      Permutation (deck (snd (f h w)) ++ disPile (snd (f h w))
                   ++ cards (fst (f h w)))
                  (deck w ++ disPile w ++ cards h)) ->
  forall i hs w,
    Permutation (allCards (fst (onHand i f hs w)) (snd (onHand i f hs w)))
                (allCards hs w).
Proof.
  intros Hf i hs. revert i.
  induction hs as [|h t IH]; intros i w; [reflexivity|].
  destruct i as [|j]; cbn [onHand].
  - specialize (Hf h w). destruct (f h w) as [h' w']. cbn [fst snd] in *.
    unfold allCards. cbn [flat_map].
    rewrite !(app_assoc (disPile _) (cards _)), !(app_assoc (deck _)).
    apply Permutation_app_tail. rewrite <- !app_assoc. exact Hf.
  - specialize (IH j w). destruct (onHand j f t w) as [t' w'].
    cbn [fst snd] in *. unfold allCards in *. cbn [flat_map].
    rewrite !(app_assoc (disPile _) (cards h)),
            !(app_assoc (deck _) (_ ++ cards h)).
    rewrite !(app_assoc (deck _) (disPile _) (cards h)).
    rewrite <- !(app_assoc _ (cards h)).
    rewrite 2!(Permutation_app_swap_app (deck _ ++ disPile _) (cards h)).
    apply Permutation_app_head. rewrite <- !app_assoc. exact IH.
Qed.

Lemma applyOp_perm (op : SupplyOp) (hs : list Hand) (w : World) :
  Permutation (allCards (fst (applyOp op hs w)) (snd (applyOp op hs w)))
              (allCards hs w).
Proof.
  destruct op as [i|i|]; cbn [applyOp].
  - apply onHand_perm. intros h w0. unfold playHit.
    destruct (dealCrd (cards h) w0) as [[st l'] w'] eqn:E. cbn [fst snd cards setCards].
    exact (dealCrd_perm _ _ _ _ _ E).
  - apply onHand_perm. exact discHnd_perm.
  - cbn [fst snd]. unfold allCards.
    destruct (shufDk_frame w) as (Hp & -> & _).
    apply Permutation_app_tail. exact Hp.
Qed.

Lemma runOps_perm (ops : list SupplyOp) :
  forall hs w,
    Permutation (allCards (fst (runOps ops hs w)) (snd (runOps ops hs w)))
                (allCards hs w).
Proof.
  induction ops as [|op more IH]; intros hs w; cbn [runOps]; [reflexivity|].
  pose proof (applyOp_perm op hs w) as H.
  destruct (applyOp op hs w) as [hs' w']. cbn [fst snd] in H.
  rewrite IH. exact H.
Qed.

Lemma oneDeck_length : length oneDeck = 52%nat.
Proof. reflexivity. Qed.

Lemma createDk_count (num_dk : Z) (w : World) :
  length (deck (createDk num_dk w)) = (52 * Z.to_nat num_dk)%nat
  /\ disPile (createDk num_dk w) = [].
Proof.
  split; [|reflexivity].
  cbn [createDk deck setDisPile setDeck].
  induction (Z.to_nat num_dk) as [|k IH]; [reflexivity|].
  cbn [repeat concat]. rewrite length_app, IH, oneDeck_length. lia.
Qed.

(** C7.  Start from a supply freshly built from [numSets] decks and any
    number of empty hands, and run any sequence of draws (thrown or not),
    whole-hand discards and shuffles.  The cards held across the undealt
    sequence, the discard stack and the hands are then a rearrangement of
    the cards at the start: none lost, none duplicated.  Their count stays
    52 x numSets (a negative [numSets] builds no deck). *)
Theorem C7_supply_conservation
    (numSets : Z) (seats : nat) (ops : list SupplyOp) (w0 : World) :
  let hs := repeat newHand seats in
  let w := createDk numSets w0 in
  let final := runOps ops hs w in
  Permutation (allCards (fst final) (snd final)) (allCards hs w)
  /\ totalCards (fst final) (snd final) = (52 * Z.to_nat numSets)%nat.
Proof.
  intros hs w final.
  pose proof (runOps_perm ops hs w) as Hp. fold final in Hp.
  split; [exact Hp|].
  rewrite totalCards_length, (Permutation_length Hp), <- totalCards_length.
  unfold totalCards.
  destruct (createDk_count numSets w0) as [Hd Hpile]. fold w in Hd, Hpile.
  rewrite Hd, Hpile. cbn [length].
  replace (list_sum (map (fun h => length (cards h)) hs)) with 0%nat; [lia|].
  unfold hs. clear. induction seats as [|k IH]; [reflexivity|].
  cbn [repeat map list_sum fold_right cards newHand length Nat.add]. exact IH.
Qed.

(** ** The decision loops: enough fuel, and the equations of the loops *)

Lemma dealCrd_cin (trgLst : list Card) (w : World) :
  cinWords (snd (dealCrd trgLst w)) = cinWords w
  /\ cinInts (snd (dealCrd trgLst w)) = cinInts w.
Proof.
  unfold dealCrd.
  destruct (deck w) as [|c d] eqn:E.
  - destruct (shufDk_frame (setDisPile (setDeck w ([] ++ disPile w)) []))
      as (_ & _ & Hi & Hw).
    destruct (deck (shufDk _)); cbn [snd cinWords cinInts setDeck];
      rewrite Hi, Hw; split; reflexivity.
  - rewrite E. split; reflexivity.
Qed.

Lemma playHit_cin (hand : Hand) (w : World) :
  cinWords (snd (playHit hand w)) = cinWords w.
Proof.
  unfold playHit. pose proof (proj1 (dealCrd_cin (cards hand) w)) as H.
  destruct (dealCrd (cards hand) w) as [[st l] w']. exact H.
Qed.

Lemma playDD_cin (p : Player) (hand : Hand) (w : World) :
  cinWords (snd (playDD p hand w)) = cinWords w.
Proof.
  unfold playDD.
  destruct (negb _); [reflexivity|]. destruct (_ <? _); [reflexivity|].
  match goal with |- context [playHit ?h w] =>
    pose proof (playHit_cin h w) as H; destruct (playHit h w) as [[st h'] w'] end.
  exact H.
Qed.

Lemma playSplt_cin (p : Player) (origHnd : Hand) (rest : list Hand) (w : World) :
  cinWords (snd (playSplt p origHnd rest w)) = cinWords w.
Proof.
  unfold playSplt.
  destruct (_ || _); [reflexivity|]. destruct (_ <? _); [reflexivity|].
  cbn [cards setCards].
  match goal with |- context [dealCrd ?l w] =>
    pose proof (proj1 (dealCrd_cin l w)) as H1;
    destruct (dealCrd l w) as [[st l1] w1] end.
  cbn [snd] in H1.
  destruct st; try exact H1.
  destruct rest as [|nxtHnd more]; [exact H1|].
  match goal with |- context [dealCrd ?l w1] =>
    pose proof (proj1 (dealCrd_cin l w1)) as H2;
    destruct (dealCrd l w1) as [[st2 l2] w2] end.
  cbn [snd] in *. congruence.
Qed.

(** What [playSplt] can do to the number of hands after the original one:
    nothing, or add one. *)
Lemma playSplt_rest (p : Player) (origHnd : Hand) (rest : list Hand) (w : World) :
  forall st p' h' rest' w',
    playSplt p origHnd rest w = (st, p', h', rest', w') ->
    (spltRuns p origHnd = false /\ rest' = rest)
    \/ (spltRuns p origHnd = true /\ length rest' = S (length rest)).
Proof.
  intros st p' h' rest' w'. unfold playSplt, spltRuns.
  destruct (_ || _);
    [intro H; injection H as <- <- <- <- <-; left; split; reflexivity|].
  destruct (_ <? _);
    [intro H; injection H as <- <- <- <- <-; left; split; reflexivity|].
  cbn [cards setCards negb andb].
  match goal with |- context [dealCrd ?l w] =>
    destruct (dealCrd l w) as [[st1 l1] w1] end.
  destruct st1;
    try (intro H; injection H as <- <- <- <- <-; right; split; reflexivity).
  destruct rest as [|nxtHnd more];
    [intro H; injection H as <- <- <- <- <-; right; split; reflexivity|].
  match goal with |- context [dealCrd ?l w1] =>
    destruct (dealCrd l w1) as [[st2 l2] w2] end.
  intro H; injection H as <- <- <- <- <-; right; split; reflexivity.
Qed.

(** The inner loop does not depend on its fuel once there is more of it than
    words left to read. *)
Lemma playHand_fuel :
  forall f1 f2 p curHnd rest w,
    (length (cinWords w) < f1)%nat ->
    (length (cinWords w) < f2)%nat ->
    playHand f1 p curHnd rest w = playHand f2 p curHnd rest w.
Proof.
  induction f1 as [|f1 IH]; intros f2 p curHnd rest w H1 H2; [lia|].
  destruct f2 as [|f2]; [lia|].
  cbn [playHand].
  destruct (calcScr curHnd >? 21); [reflexivity|].
  destruct (calcScr curHnd =? 21); [reflexivity|].
  destruct (cinWords w) as [|word more] eqn:E; [reflexivity|].
  cbn [length] in H1, H2.
  destruct (upcase word =? "H")%string.
  - pose proof (playHit_cin curHnd (setCinWords w more)) as Hc.
    destruct (playHit curHnd (setCinWords w more)) as [[st h'] w'].
    cbn [snd cinWords setCinWords] in Hc.
    destruct st; try reflexivity.
    apply IH; rewrite Hc; lia.
  - destruct (upcase word =? "S")%string; [reflexivity|].
    destruct ((upcase word =? "D")%string && canDbl p curHnd); [reflexivity|].
    destruct ((upcase word =? "P")%string && canSplt curHnd); [reflexivity|].
    apply IH; cbn [cinWords setCinWords]; lia.
Qed.

(** How the inner loop leaves the input and the hands after the iterator:
    when it reports a split, a word has been read and at most one hand
    added; otherwise the hands after the iterator are as they were. *)
Lemma playHand_bounds :
  forall fuel p curHnd rest w st resume p' h' rest' w',
    playHand fuel p curHnd rest w = (st, resume, p', h', rest', w') ->
    (length (cinWords w') <= length (cinWords w))%nat
    /\ (resume <> NextHand ->
        (length (cinWords w') < length (cinWords w))%nat
        /\ (length rest' <= S (length rest))%nat)
    /\ (resume <> InsertedHand -> rest' = rest).
Proof.
  induction fuel as [|fuel IH]; intros p curHnd rest w st resume p' h' rest' w';
    cbn [playHand].
  { intro H; injection H as <- <- <- <- <- <-.
    split; [lia|]. split; [congruence|reflexivity]. }
  destruct (calcScr curHnd >? 21).
  { intro H; injection H as <- <- <- <- <- <-.
    split; [lia|]. split; [congruence|reflexivity]. }
  destruct (calcScr curHnd =? 21).
  { intro H; injection H as <- <- <- <- <- <-.
    split; [lia|]. split; [congruence|reflexivity]. }
  destruct (cinWords w) as [|word more] eqn:E.
  { intro H; injection H as <- <- <- <- <- <-.
    rewrite E. split; [cbn; lia|]. split; [congruence|reflexivity]. }
  cbn [length].
  destruct (upcase word =? "H")%string.
  - pose proof (playHit_cin curHnd (setCinWords w more)) as Hc.
    destruct (playHit curHnd (setCinWords w more)) as [[st1 h1] w1].
    cbn [snd cinWords setCinWords] in Hc.
    destruct st1;
      try (intro H; injection H as <- <- <- <- <- <-; rewrite Hc;
           split; [lia|]; split; [congruence|reflexivity]).
    intro H. apply IH in H. rewrite Hc in H.
    destruct H as (Ha & Hb & Hc'). split; [lia|]. split; [|exact Hc'].
    intro Hs. destruct (Hb Hs). split; lia.
  - destruct (upcase word =? "S")%string.
    { intro H; injection H as <- <- <- <- <- <-. cbn [cinWords setCinWords].
      split; [lia|]. split; [congruence|reflexivity]. }
    destruct ((upcase word =? "D")%string && canDbl p curHnd).
    { pose proof (playDD_cin p curHnd (setCinWords w more)) as Hc.
      destruct (playDD p curHnd (setCinWords w more)) as [[[st1 p1] h1] w1].
      cbn [snd cinWords setCinWords] in Hc.
      intro H; injection H as <- <- <- <- <- <-. rewrite Hc.
      split; [lia|]. split; [congruence|reflexivity]. }
    destruct ((upcase word =? "P")%string && canSplt curHnd).
    { pose proof (playSplt_cin p curHnd rest (setCinWords w more)) as Hc.
      pose proof (playSplt_rest p curHnd rest (setCinWords w more)) as Hr.
      destruct (playSplt p curHnd rest (setCinWords w more))
        as [[[[st1 p1] h1] r1] w1].
      cbn [snd cinWords setCinWords] in Hc.
      specialize (Hr _ _ _ _ _ eq_refl).
      intro H; injection H as <- <- <- <- <- <-. rewrite Hc.
      split; [lia|].
      destruct Hr as [[-> ->] | [-> Hl]].
      - split; [intros _; split; lia | reflexivity].
      - split; [intros _; split; lia | congruence]. }
    intro H. apply IH in H. cbn [cinWords setCinWords] in H.
    destruct H as (Ha & Hb & Hc'). split; [lia|]. split; [|exact Hc'].
    intro Hs. destruct (Hb Hs). split; lia.
Qed.

Lemma playHand_enough (fuel : nat) p curHnd rest w :
  (length (cinWords w) < fuel)%nat ->
  playHand fuel p curHnd rest w = playTurn p curHnd rest w.
Proof.
  intro H. unfold playTurn, handFuel. apply playHand_fuel; lia.
Qed.

(** The outer loop does not depend on its fuel either, above [loopFuel]. *)
Lemma hdlLoop_fuel :
  forall f1 f2 p prev todo w,
    (2 * length (cinWords w) + length todo < f1)%nat ->
    (2 * length (cinWords w) + length todo < f2)%nat ->
    hdlLoop f1 p prev todo w = hdlLoop f2 p prev todo w.
Proof.
  induction f1 as [|f1 IH]; intros f2 p prev todo w H1 H2; [lia|].
  destruct f2 as [|f2]; [lia|].
  destruct todo as [|curHnd rest]; [reflexivity|].
  cbn [hdlLoop]. cbn [length] in H1, H2.
  destruct (ddown curHnd); [apply IH; lia|].
  destruct (splitAces curHnd); [apply IH; lia|].
  rewrite (playHand_fuel f1 f2) by lia.
  destruct (playHand f2 p curHnd rest w) as [[[[[st resume] p'] h'] rest'] w'] eqn:E.
  apply playHand_bounds in E. destruct E as (Ha & Hb & Hc).
  destruct st; try reflexivity.
  destruct resume.
  - rewrite (Hc ltac:(congruence)). apply IH; lia.
  - destruct (Hb ltac:(congruence)). apply IH; cbn [length]; lia.
  - destruct (Hb ltac:(congruence)). apply IH; lia.
Qed.

Lemma hdlLoop_enough (fuel : nat) p prev todo w :
  (2 * length (cinWords w) + length todo < fuel)%nat ->
  hdlLoop fuel p prev todo w = hdlRun p prev todo w.
Proof.
  intro H. unfold hdlRun, loopFuel. apply hdlLoop_fuel; lia.
Qed.

(** With that fuel neither loop gives up: the decision phase always ends,
    in a result, in the fatal error, at an undefined access, or waiting for
    input. *)
Lemma playHand_total :
  forall fuel p curHnd rest w,
    (length (cinWords w) < fuel)%nat ->
    fst (fst (fst (fst (fst (playHand fuel p curHnd rest w))))) <> OutOfFuel.
Proof.
  induction fuel as [|fuel IH]; intros p curHnd rest w H; [lia|].
  cbn [playHand].
  destruct (calcScr curHnd >? 21); [discriminate|].
  destruct (calcScr curHnd =? 21); [discriminate|].
  destruct (cinWords w) as [|word more] eqn:E; [discriminate|].
  cbn [length] in H.
  destruct (upcase word =? "H")%string.
  - unfold playHit.
    pose proof (dealCrd_status (cards curHnd) (setCinWords w more)) as Hs.
    pose proof (proj1 (dealCrd_cin (cards curHnd) (setCinWords w more))) as Hc.
    destruct (dealCrd (cards curHnd) (setCinWords w more)) as [[st l'] w'].
    cbn [snd cinWords setCinWords] in Hc.
    destruct (Hs _ _ _ eq_refl) as [[-> _] | [-> _]]; [|discriminate].
    apply IH. rewrite Hc. lia.
  - destruct (upcase word =? "S")%string; [discriminate|].
    destruct ((upcase word =? "D")%string && canDbl p curHnd).
    { unfold playDD, playHit.
      destruct (negb _); [discriminate|]. destruct (_ <? _); [discriminate|].
      cbn [cards].
      match goal with |- context [dealCrd ?l ?w0] =>
        pose proof (dealCrd_status l w0) as Hs;
        destruct (dealCrd l w0) as [[st l'] w'] end.
      destruct (Hs _ _ _ eq_refl) as [[-> _] | [-> _]]; discriminate. }
    destruct ((upcase word =? "P")%string && canSplt curHnd).
    { unfold playSplt.
      destruct (_ || _); [discriminate|]. destruct (_ <? _); [discriminate|].
      cbn [cards setCards].
      match goal with |- context [dealCrd ?l ?w0] =>
        pose proof (dealCrd_status l w0) as Hs;
        destruct (dealCrd l w0) as [[st l'] w'] end.
      destruct (Hs _ _ _ eq_refl) as [[-> _] | [-> _]]; [|discriminate].
      destruct rest as [|nxtHnd rest]; [discriminate|].
      match goal with |- context [dealCrd ?l ?w0] =>
        pose proof (dealCrd_status l w0) as Hs2;
        destruct (dealCrd l w0) as [[st2 l2] w2] end.
      destruct (Hs2 _ _ _ eq_refl) as [[-> _] | [-> _]]; discriminate. }
    apply IH. cbn [cinWords setCinWords]. lia.
Qed.

Lemma hdlLoop_total :
  forall fuel p prev todo w,
    (2 * length (cinWords w) + length todo < fuel)%nat ->
    fst (fst (fst (hdlLoop fuel p prev todo w))) <> OutOfFuel.
Proof.
  induction fuel as [|fuel IH]; intros p prev todo w H; [lia|].
  destruct todo as [|curHnd rest]; [discriminate|].
  cbn [hdlLoop]. cbn [length] in H.
  destruct (ddown curHnd); [apply IH; lia|].
  destruct (splitAces curHnd); [apply IH; lia|].
  pose proof (playHand_total fuel p curHnd rest w ltac:(lia)) as Ht.
  destruct (playHand fuel p curHnd rest w) as [[[[[st resume] p'] h'] rest'] w'] eqn:E.
  apply playHand_bounds in E. destruct E as (Ha & Hb & Hc).
  cbn [fst] in Ht.
  destruct st; try (cbn [fst]; congruence).
  destruct resume.
  - rewrite (Hc ltac:(congruence)). apply IH; lia.
  - destruct (Hb ltac:(congruence)). apply IH; cbn [length]; lia.
  - destruct (Hb ltac:(congruence)). apply IH; lia.
Qed.

Lemma hdlPlay_total (p : Player) (dlHnd : Hand) (w : World) :
  fst (fst (hdlPlay p dlHnd w)) <> OutOfFuel.
Proof.
  unfold hdlPlay, hdlRun.
  pose proof (hdlLoop_total (loopFuel (hands p) w) p [] (hands p) w) as H.
  destruct (hdlLoop _ _ _ _ _) as [[[st p'] hs] w'].
  apply H. unfold loopFuel. lia.
Qed.

(** The loops as equations, free of fuel. *)
Lemma playTurn_eq (p : Player) (curHnd : Hand) (rest : list Hand) (w : World) :
  playTurn p curHnd rest w =
  if calcScr curHnd >? 21 then (Ok, NextHand, p, curHnd, rest, w)
  else if calcScr curHnd =? 21 then (Ok, NextHand, p, curHnd, rest, w)
  else
    match cinWords w with
    | [] => (NeedInput, NextHand, p, curHnd, rest, w)
    | word :: more =>
        let choice := upcase word in
        let w := setCinWords w more in
        if (choice =? "H")%string then
          let '(st, hand, w) := playHit curHnd w in
          match st with
          | Ok => playTurn p hand rest w
          | _ => (st, NextHand, p, hand, rest, w)
          end
        else if (choice =? "S")%string then (Ok, NextHand, p, curHnd, rest, w)
        else if (choice =? "D")%string && canDbl p curHnd then
          let '(st, p, hand, w) := playDD p curHnd w in
          (st, NextHand, p, hand, rest, w)
        else if (choice =? "P")%string && canSplt curHnd then
          let resume := if spltRuns p curHnd then InsertedHand else SameHand in
          let '(st, p, hand, rest, w) := playSplt p curHnd rest w in
          (st, resume, p, hand, rest, w)
        else playTurn p curHnd rest w
    end.
Proof.
  unfold playTurn at 1. unfold handFuel. cbn [playHand].
  destruct (calcScr curHnd >? 21); [reflexivity|].
  destruct (calcScr curHnd =? 21); [reflexivity|].
  destruct (cinWords w) as [|word more] eqn:E; [reflexivity|].
  cbn zeta. cbn [length].
  destruct (upcase word =? "H")%string.
  - pose proof (playHit_cin curHnd (setCinWords w more)) as Hc.
    destruct (playHit curHnd (setCinWords w more)) as [[st h'] w'].
    cbn [snd cinWords setCinWords] in Hc.
    destruct st; try reflexivity.
    apply playHand_enough. rewrite Hc. lia.
  - destruct (upcase word =? "S")%string; [reflexivity|].
    destruct ((upcase word =? "D")%string && canDbl p curHnd); [reflexivity|].
    destruct ((upcase word =? "P")%string && canSplt curHnd); [reflexivity|].
    apply playHand_enough. cbn [cinWords setCinWords]. lia.
Qed.

Lemma hdlRun_nil (p : Player) (prev : list Hand) (w : World) :
  hdlRun p prev [] w = (Ok, p, prev, w).
Proof. reflexivity. Qed.

Lemma hdlRun_cons (p : Player) (prev rest : list Hand) (curHnd : Hand) (w : World) :
  hdlRun p prev (curHnd :: rest) w =
  if ddown curHnd then hdlRun p (prev ++ [curHnd]) rest w
  else if splitAces curHnd then hdlRun p (prev ++ [curHnd]) rest w
  else
    let '(st, resume, p', hand, rest', w') := playTurn p curHnd rest w in
    match st with
    | Ok =>
        match resume with
        | NextHand => hdlRun p' (prev ++ [hand]) rest' w'
        | SameHand => hdlRun p' prev (hand :: rest') w'
        | InsertedHand => hdlRun p' (prev ++ [hand]) rest' w'
        end
    | _ => (st, p', prev ++ hand :: rest', w')
    end.
Proof.
  unfold hdlRun at 1. unfold loopFuel. cbn [hdlLoop length].
  destruct (ddown curHnd); [apply hdlLoop_enough; lia|].
  destruct (splitAces curHnd); [apply hdlLoop_enough; lia|].
  rewrite playHand_enough by lia.
  destruct (playTurn p curHnd rest w) as [[[[[st resume] p'] h'] rest'] w'] eqn:E.
  unfold playTurn in E. apply playHand_bounds in E. destruct E as (Ha & Hb & Hc).
  destruct st; try reflexivity.
  destruct resume.
  - rewrite (Hc ltac:(congruence)). apply hdlLoop_enough; lia.
  - destruct (Hb ltac:(congruence)). apply hdlLoop_enough; cbn [length]; lia.
  - destruct (Hb ltac:(congruence)). apply hdlLoop_enough; lia.
Qed.

(** ** Split and double at the prompt *)

Lemma two_cards (l : list Card) :
  length l = 2%nat -> exists c1 c2, l = [c1; c2].
Proof.
  destruct l as [|c1 [|c2 [|c3 l]]]; try discriminate.
  intros _. exists c1, c2. reflexivity.
Qed.

Lemma canSplt_iff (hand : Hand) :
  canSplt hand = true
  <-> (exists c1 c2, cards hand = [c1; c2] /\ rank c1 = rank c2)
      /\ isplit hand = false.
Proof.
  unfold canSplt.
  rewrite !andb_true_iff, Nat.eqb_eq, String.eqb_eq, negb_true_iff.
  split.
  - intros [[Hl Hr] Hs]. split; [|exact Hs].
    destruct (two_cards _ Hl) as (c1 & c2 & E). rewrite E in Hr.
    exists c1, c2. split; [exact E | exact Hr].
  - intros [(c1 & c2 & E & Hr) Hs]. rewrite E. cbn. auto.
Qed.

Lemma canDbl_iff (p : Player) (hand : Hand) :
  canDbl p hand = true <-> doubleEligible p hand.
Proof.
  unfold canDbl, doubleEligible.
  rewrite andb_true_iff, Nat.eqb_eq, Z.geb_le. tauto.
Qed.

(** The request as the inner loop sees it, for a hand at the prompt. *)
Lemma playTurn_prompted p curHnd rest w word more :
  prompted curHnd w word more ->
  playTurn p curHnd rest w =
  let choice := upcase word in
  let w := setCinWords w more in
  if (choice =? "H")%string then
    let '(st, hand, w) := playHit curHnd w in
    match st with
    | Ok => playTurn p hand rest w
    | _ => (st, NextHand, p, hand, rest, w)
    end
  else if (choice =? "S")%string then (Ok, NextHand, p, curHnd, rest, w)
  else if (choice =? "D")%string && canDbl p curHnd then
    let '(st, p, hand, w) := playDD p curHnd w in
    (st, NextHand, p, hand, rest, w)
  else if (choice =? "P")%string && canSplt curHnd then
    let resume := if spltRuns p curHnd then InsertedHand else SameHand in
    let '(st, p, hand, rest, w) := playSplt p curHnd rest w in
    (st, resume, p, hand, rest, w)
  else playTurn p curHnd rest w.
Proof.
  intros (_ & _ & Hs & Hw).
  rewrite playTurn_eq at 1.
  destruct (Z.gtb_spec (calcScr curHnd) 21) as [H1|_]; [lia|].
  destruct (Z.eqb_spec (calcScr curHnd) 21) as [H2|_]; [lia|].
  rewrite Hw. reflexivity.
Qed.

Lemma hdlRun_prompted p prev curHnd rest w word more :
  prompted curHnd w word more ->
  hdlRun p prev (curHnd :: rest) w =
  let '(st, resume, p', hand, rest', w') := playTurn p curHnd rest w in
  match st with
  | Ok =>
      match resume with
      | NextHand => hdlRun p' (prev ++ [hand]) rest' w'
      | SameHand => hdlRun p' prev (hand :: rest') w'
      | InsertedHand => hdlRun p' (prev ++ [hand]) rest' w'
      end
  | _ => (st, p', prev ++ hand :: rest', w')
  end.
Proof.
  intros (Hd & Ha & _). rewrite hdlRun_cons, Hd, Ha. reflexivity.
Qed.

Lemma prompted_next curHnd w word more word' more' :
  prompted curHnd w word more ->
  more = word' :: more' ->
  prompted curHnd (setCinWords w more) word' more'.
Proof.
  intros (Hd & Ha & Hs & _) ->. repeat split; assumption.
Qed.

(** [playSplt] gets past its early returns exactly for two cards of one
    rank and a balance that covers the wager. *)
Lemma spltRuns_iff (p : Player) (hand : Hand) :
  spltRuns p hand = true
  <-> (exists c1 c2, cards hand = [c1; c2] /\ rank c1 = rank c2)
      /\ bet hand <= chips p.
Proof.
  unfold spltRuns.
  rewrite andb_true_iff, !negb_true_iff, orb_false_iff, !negb_false_iff,
    Nat.eqb_eq, String.eqb_eq, Z.ltb_ge.
  split.
  - intros [[Hl Hr] Hb]. split; [|exact Hb].
    destruct (two_cards _ Hl) as (c1 & c2 & E). rewrite E in Hr.
    exists c1, c2. split; [exact E | exact Hr].
  - intros [(c1 & c2 & E & Hr) Hb]. rewrite E. cbn. auto.
Qed.

(** The two tests a request to split goes through, the one at the prompt
    and the one inside [playSplt], are together the specification's
    eligibility. *)
Lemma splitEligible_iff (p : Player) (hand : Hand) :
  splitEligible p hand <-> canSplt hand = true /\ spltRuns p hand = true.
Proof.
  unfold splitEligible. rewrite canSplt_iff, spltRuns_iff. tauto.
Qed.

Lemma spltRuns_not_eligible (p : Player) (hand : Hand) :
  canSplt hand = true -> ~ splitEligible p hand -> spltRuns p hand = false.
Proof.
  intros Hc Hne. destruct (spltRuns p hand) eqn:E; [|reflexivity].
  exfalso. apply Hne, splitEligible_iff. split; assumption.
Qed.

Lemma playSplt_denied (p : Player) (origHnd : Hand) (rest : list Hand) (w : World) :
  ~ (exists c1 c2, cards origHnd = [c1; c2] /\ rank c1 = rank c2)
  \/ chips p < bet origHnd ->
  playSplt p origHnd rest w = (Ok, p, origHnd, rest, w).
Proof.
  intro H. unfold playSplt.
  destruct (Nat.eqb_spec (length (cards origHnd)) 2) as [Hl|Hl]; cbn [negb orb];
    [|reflexivity].
  destruct (two_cards _ Hl) as (c1 & c2 & E). rewrite E. cbn [front back hd last].
  destruct (String.eqb_spec (rank c1) (rank c2)) as [Hr|Hr]; cbn [negb];
    [|reflexivity].
  destruct H as [H|H].
  - exfalso. apply H. exists c1, c2. split; assumption.
  - replace (chips p <? bet origHnd) with true by (symmetry; apply Z.ltb_lt; exact H).
    reflexivity.
Qed.

Lemma playSplt_not_run (p : Player) (origHnd : Hand) (rest : list Hand) (w : World) :
  spltRuns p origHnd = false ->
  playSplt p origHnd rest w = (Ok, p, origHnd, rest, w).
Proof.
  intro H. apply playSplt_denied.
  destruct (Z.lt_ge_cases (chips p) (bet origHnd)) as [Hb|Hb]; [right; exact Hb|].
  left. intro Hp.
  assert (E : spltRuns p origHnd = true)
    by (apply spltRuns_iff; split; [exact Hp | exact Hb]).
  congruence.
Qed.

(** A request to split that is not honoured: the loop is back at the same
    hand, in the same state, with the rest of the input. *)
Lemma split_denied_run p prev curHnd rest w word more :
  prompted curHnd w word more ->
  upcase word = "P" ->
  ~ splitEligible p curHnd ->
  hdlRun p prev (curHnd :: rest) w
  = hdlRun p prev (curHnd :: rest) (setCinWords w more).
Proof.
  intros Hp Hu Hne.
  rewrite (hdlRun_prompted _ _ _ _ _ _ _ Hp).
  rewrite (playTurn_prompted _ _ _ _ _ _ Hp). cbn zeta. rewrite Hu.
  cbn [String.eqb Ascii.eqb Bool.eqb andb].
  destruct Hp as (Hd & Ha & Hs & Hw).
  destruct (canSplt curHnd) eqn:Ec.
  - pose proof (spltRuns_not_eligible p curHnd Ec Hne) as Er.
    rewrite Er, (playSplt_not_run _ _ _ _ Er). reflexivity.
  - rewrite (hdlRun_cons p prev rest curHnd (setCinWords w more)), Hd, Ha.
    reflexivity.
Qed.

(** The same for a request to double. *)
Lemma double_denied_run p prev curHnd rest w word more :
  prompted curHnd w word more ->
  upcase word = "D" ->
  ~ doubleEligible p curHnd ->
  hdlRun p prev (curHnd :: rest) w
  = hdlRun p prev (curHnd :: rest) (setCinWords w more).
Proof.
  intros Hp Hu Hne.
  rewrite (hdlRun_prompted _ _ _ _ _ _ _ Hp).
  rewrite (playTurn_prompted _ _ _ _ _ _ Hp). cbn zeta. rewrite Hu.
  cbn [String.eqb Ascii.eqb Bool.eqb andb].
  destruct Hp as (Hd & Ha & Hs & Hw).
  destruct (canDbl p curHnd) eqn:Ec.
  - apply canDbl_iff in Ec. contradiction.
  - rewrite (hdlRun_cons p prev rest curHnd (setCinWords w more)), Hd, Ha.
    reflexivity.
Qed.

(** [playSplt] when it runs and the first draw delivers: with no hand after
    the original one, the second draw is made through [end()]; with one, it
    goes to that hand. *)
Lemma playSplt_last (p : Player) (origHnd : Hand) (w : World) c1 c2 l1 w1 :
  spltRuns p origHnd = true ->
  cards origHnd = [c1; c2] ->
  dealCrd [c1] w = (Ok, l1, w1) ->
  playSplt p origHnd [] w
  = (Undefined, setChips p (chips p - bet origHnd), setCards origHnd l1,
     [mkHand [c2] (bet origHnd) true false], w1).
Proof.
  intros Hr Hc H1. unfold spltRuns in Hr. unfold playSplt.
  apply andb_true_iff in Hr. destruct Hr as [Hg Hb].
  apply negb_true_iff in Hg, Hb. rewrite Hg, Hb. rewrite Hc.
  cbn [eraseAt firstn skipn app nth cards setCards bet].
  rewrite H1. reflexivity.
Qed.

Lemma playSplt_followed (p : Player) (origHnd nxtHnd : Hand) (more : list Hand)
      (w : World) c1 c2 l1 w1 st l2 w2 :
  spltRuns p origHnd = true ->
  cards origHnd = [c1; c2] ->
  dealCrd [c1] w = (Ok, l1, w1) ->
  dealCrd (cards nxtHnd) w1 = (st, l2, w2) ->
  playSplt p origHnd (nxtHnd :: more) w
  = (st, setChips p (chips p - bet origHnd), setCards origHnd l1,
     mkHand [c2] (bet origHnd) true false :: setCards nxtHnd l2 :: more, w2).
Proof.
  intros Hr Hc H1 H2. unfold spltRuns in Hr. unfold playSplt.
  apply andb_true_iff in Hr. destruct Hr as [Hg Hb].
  apply negb_true_iff in Hg, Hb. rewrite Hg, Hb. rewrite Hc.
  cbn [eraseAt firstn skipn app nth cards setCards bet].
  rewrite H1. cbn [cards setCards]. rewrite H2. reflexivity.
Qed.

(** A split that is honoured on the last hand of the player: the run ends at
    the access through [end()], with the original hand holding its first
    card and the card drawn, and the inserted hand its one card. *)
Lemma split_undefined_run p prev curHnd w word more c1 c2 l1 w1 :
  prompted curHnd w word more ->
  upcase word = "P" ->
  splitEligible p curHnd ->
  cards curHnd = [c1; c2] ->
  dealCrd [c1] (setCinWords w more) = (Ok, l1, w1) ->
  hdlRun p prev [curHnd] w
  = (Undefined, setChips p (chips p - bet curHnd),
     prev ++ [setCards curHnd l1; mkHand [c2] (bet curHnd) true false], w1).
Proof.
  intros Hp Hu He Hc H1.
  rewrite (hdlRun_prompted _ _ _ _ _ _ _ Hp).
  rewrite (playTurn_prompted _ _ _ _ _ _ Hp). cbn zeta. rewrite Hu.
  cbn [String.eqb Ascii.eqb Bool.eqb andb].
  apply splitEligible_iff in He. destruct He as [Ec Er]. rewrite Ec, Er.
  rewrite (playSplt_last _ _ _ _ _ _ _ Er Hc H1). reflexivity.
Qed.

(** A split that is honoured on a hand that has a hand after it, when both
    draws deliver: the second card drawn goes to that following hand, and
    the loop goes on with the inserted hand, the original one being behind
    the iterator. *)
Lemma split_executed_run p prev curHnd nxtHnd others w word more c1 c2 l1 l2 w1 w2 :
  prompted curHnd w word more ->
  upcase word = "P" ->
  splitEligible p curHnd ->
  cards curHnd = [c1; c2] ->
  dealCrd [c1] (setCinWords w more) = (Ok, l1, w1) ->
  dealCrd (cards nxtHnd) w1 = (Ok, l2, w2) ->
  hdlRun p prev (curHnd :: nxtHnd :: others) w
  = hdlRun (setChips p (chips p - bet curHnd)) (prev ++ [setCards curHnd l1])
           (mkHand [c2] (bet curHnd) true false :: setCards nxtHnd l2 :: others)
           w2.
Proof.
  intros Hp Hu He Hc H1 H2.
  rewrite (hdlRun_prompted _ _ _ _ _ _ _ Hp).
  rewrite (playTurn_prompted _ _ _ _ _ _ Hp). cbn zeta. rewrite Hu.
  cbn [String.eqb Ascii.eqb Bool.eqb andb].
  apply splitEligible_iff in He. destruct He as [Ec Er]. rewrite Ec, Er.
  rewrite (playSplt_followed _ _ _ _ _ _ _ _ _ _ _ _ Er Hc H1 H2). reflexivity.
Qed.

(** A double that is honoured, when the draw delivers: the hand joins the
    hands already played, whatever it scores now. *)
Lemma double_executed_run p prev curHnd rest w word more l1 w1 :
  prompted curHnd w word more ->
  upcase word = "D" ->
  doubleEligible p curHnd ->
  dealCrd (cards curHnd) (setCinWords w more) = (Ok, l1, w1) ->
  hdlRun p prev (curHnd :: rest) w
  = hdlRun (setChips p (chips p - bet curHnd))
           (prev ++ [mkHand l1 (bet curHnd * 2) (isplit curHnd) true]) rest w1.
Proof.
  intros Hp Hu He H1.
  rewrite (hdlRun_prompted _ _ _ _ _ _ _ Hp).
  rewrite (playTurn_prompted _ _ _ _ _ _ Hp). cbn zeta. rewrite Hu.
  cbn [String.eqb Ascii.eqb Bool.eqb andb].
  replace (canDbl p curHnd) with true by (symmetry; apply canDbl_iff; exact He).
  destruct He as [Hl Hb].
  unfold playDD, playHit. rewrite Hl. cbn [Nat.eqb negb].
  replace (chips p <? bet curHnd) with false by (symmetry; apply Z.ltb_ge; exact Hb).
  cbn [cards]. rewrite H1. reflexivity.
Qed.

(** ** The actions, outcome by outcome *)

Lemma setCards_same (h : Hand) : setCards h (cards h) = h.
Proof. destruct h. reflexivity. Qed.

Lemma playHit_cases (hand : Hand) (w : World) :
  forall st h' w', playHit hand w = (st, h', w') ->
    (st = Ok /\ exists c, h' = setCards hand (cards hand ++ [c]))
    \/ (st = SupplyExhausted /\ h' = hand /\ exhausted w').
Proof.
  intros st h' w'. unfold playHit.
  pose proof (dealCrd_status (cards hand) w) as Hs.
  destruct (dealCrd (cards hand) w) as [[st1 l1] w1].
  intro H. injection H as <- <- <-.
  destruct (Hs _ _ _ eq_refl) as [[-> [c ->]] | (-> & -> & Hd & Hp & _)].
  - left. split; [reflexivity|]. exists c. reflexivity.
  - right. split; [reflexivity|]. split; [apply setCards_same | split; assumption].
Qed.

Lemma playDD_cases (p : Player) (hand : Hand) (w : World) :
  forall st p' h' w', playDD p hand w = (st, p', h', w') ->
    (~ doubleEligible p hand /\ st = Ok /\ p' = p /\ h' = hand /\ w' = w)
    \/ (doubleEligible p hand
        /\ p' = setChips p (chips p - bet hand)
        /\ ((st = Ok
             /\ exists c, h' = mkHand (cards hand ++ [c]) (bet hand * 2)
                                      (isplit hand) true)
            \/ (st = SupplyExhausted
                /\ h' = mkHand (cards hand) (bet hand * 2) (isplit hand) true
                /\ exhausted w'))).
Proof.
  intros st p' h' w'. unfold playDD, doubleEligible.
  destruct (Nat.eqb_spec (length (cards hand)) 2) as [Hl|Hl]; cbn [negb].
  2:{ intro H. injection H as <- <- <- <-. left. repeat split; tauto. }
  destruct (Z.ltb_spec (chips p) (bet hand)) as [Hb|Hb].
  { intro H. injection H as <- <- <- <-. left. repeat split; lia. }
  match goal with |- context [playHit ?h w] =>
    pose proof (playHit_cases h w) as Hc;
    destruct (playHit h w) as [[st1 h1] w1] end.
  intro H. injection H as <- <- <- <-. right.
  split; [split; assumption|]. split; [reflexivity|].
  destruct (Hc _ _ _ eq_refl) as [[-> [c ->]] | (-> & -> & He)].
  - left. split; [reflexivity|]. exists c. reflexivity.
  - right. repeat split; try reflexivity; apply He.
Qed.

(** [playSplt], outcome by outcome.  It returns early, or it moves the
    second card to a new, flagged hand inserted after the original one and
    takes the wager from the balance; then the first draw fails, or it gives
    the original hand a card and the second draw is made: through [end()]
    when no hand followed the original one, else into the hand that did,
    where it fails or delivers.  The inserted hand holds the moved card
    alone in every case. *)
Lemma playSplt_cases (p : Player) (origHnd : Hand) (rest : list Hand) (w : World) :
  forall st p' h' rest' w', playSplt p origHnd rest w = (st, p', h', rest', w') ->
    (spltRuns p origHnd = false
     /\ st = Ok /\ p' = p /\ h' = origHnd /\ rest' = rest /\ w' = w)
    \/ (spltRuns p origHnd = true
        /\ exists c1 c2,
          cards origHnd = [c1; c2]
          /\ p' = setChips p (chips p - bet origHnd)
          /\ ((st = SupplyExhausted
               /\ h' = setCards origHnd [c1]
               /\ rest' = mkHand [c2] (bet origHnd) true false :: rest
               /\ exhausted w')
              \/ (exists d1,
                    h' = setCards origHnd [c1; d1]
                    /\ ((rest = []
                         /\ st = Undefined
                         /\ rest' = [mkHand [c2] (bet origHnd) true false])
                        \/ (exists nxtHnd others,
                              rest = nxtHnd :: others
                              /\ ((st = SupplyExhausted
                                   /\ rest' = mkHand [c2] (bet origHnd) true false
                                              :: rest
                                   /\ exhausted w')
                                  \/ (st = Ok
                                      /\ exists d2,
                                        rest' = mkHand [c2] (bet origHnd) true false
                                                :: setCards nxtHnd
                                                     (cards nxtHnd ++ [d2])
                                                :: others))))))).
Proof.
  intros st p' h' rest' w'.
  destruct (spltRuns p origHnd) eqn:Er.
  2:{ rewrite (playSplt_not_run _ _ _ _ Er). intro H.
      injection H as <- <- <- <- <-. left. repeat split. }
  pose proof Er as Hr. apply spltRuns_iff in Hr.
  destruct Hr as [(c1 & c2 & E & _) _].
  intro H. right. split; [reflexivity|]. exists c1, c2. split; [exact E|].
  pose proof (dealCrd_status [c1] w) as Hs1.
  destruct (dealCrd [c1] w) as [[st1 l1] w1] eqn:E1.
  destruct (Hs1 _ _ _ eq_refl) as [[-> [d1 ->]] | (-> & -> & Hd & Hp & _)].
  - destruct rest as [|nxtHnd others].
    + rewrite (playSplt_last _ _ _ _ _ _ _ Er E E1) in H.
      injection H as <- <- <- <- <-. split; [reflexivity|]. right. exists d1.
      split; [reflexivity|]. left. repeat split.
    + pose proof (dealCrd_status (cards nxtHnd) w1) as Hs2.
      destruct (dealCrd (cards nxtHnd) w1) as [[st2 l2] w2] eqn:E2.
      rewrite (playSplt_followed _ _ _ _ _ _ _ _ _ _ _ _ Er E E1 E2) in H.
      injection H as <- <- <- <- <-. split; [reflexivity|]. right. exists d1.
      split; [reflexivity|]. right. exists nxtHnd, others.
      split; [reflexivity|].
      destruct (Hs2 _ _ _ eq_refl) as [[-> [d2 ->]] | (-> & -> & Hd & Hp & _)].
      * right. split; [reflexivity|]. exists d2. reflexivity.
      * left. rewrite setCards_same. repeat split; assumption.
  - revert H. unfold playSplt.
    unfold spltRuns in Er. apply andb_true_iff in Er. destruct Er as [Hg Hb].
    apply negb_true_iff in Hg, Hb. rewrite Hg, Hb, E.
    cbn [eraseAt firstn skipn app nth cards setCards bet].
    rewrite E1. intro H. injection H as <- <- <- <- <-.
    split; [reflexivity|]. left. repeat split; assumption.
Qed.

(** ** What the decision loops preserve *)

Lemma betSum_app (l1 l2 : list Hand) : betSum (l1 ++ l2) = betSum l1 + betSum l2.
Proof.
  unfold betSum. induction l1 as [|h l IH]; cbn [app map fold_right]; lia.
Qed.

Lemma betSum_cons (h : Hand) (l : list Hand) : betSum (h :: l) = bet h + betSum l.
Proof. reflexivity. Qed.

(** The inner loop: the stake is kept (whatever the status); the fatal error
    leaves an exhausted supply; a hand that ends its turn doubled holds three
    cards; the hands after the iterator stay undoubled if they were. *)
Lemma playHand_inv :
  forall fuel p curHnd rest w st resume p' h' rest' w',
    playHand fuel p curHnd rest w = (st, resume, p', h', rest', w') ->
    chips p' + bet h' + betSum rest' = chips p + bet curHnd + betSum rest
    /\ (st = SupplyExhausted -> exhausted w')
    /\ (ddown curHnd = false -> st = Ok -> doubledHasThree h')
    /\ (Forall notDoubled rest -> Forall notDoubled rest')
    /\ id p' = id p /\ name p' = name p.
Proof.
  induction fuel as [|fuel IH]; intros p curHnd rest w st resume p' h' rest' w';
    cbn [playHand].
  { intro H; injection H as <- <- <- <- <- <-.
    split; [reflexivity|]. split; [discriminate|].
    split; [intros Hd _ Hd'; congruence | split; [tauto | split; reflexivity]]. }
  destruct (calcScr curHnd >? 21).
  { intro H; injection H as <- <- <- <- <- <-.
    split; [reflexivity|]. split; [discriminate|].
    split; [intros Hd _ Hd'; congruence | split; [tauto | split; reflexivity]]. }
  destruct (calcScr curHnd =? 21).
  { intro H; injection H as <- <- <- <- <- <-.
    split; [reflexivity|]. split; [discriminate|].
    split; [intros Hd _ Hd'; congruence | split; [tauto | split; reflexivity]]. }
  destruct (cinWords w) as [|word more] eqn:E.
  { intro H; injection H as <- <- <- <- <- <-.
    split; [reflexivity|]. split; [discriminate|].
    split; [intros Hd _ Hd'; congruence | split; [tauto | split; reflexivity]]. }
  destruct (upcase word =? "H")%string.
  - pose proof (playHit_cases curHnd (setCinWords w more)) as Hc.
    destruct (playHit curHnd (setCinWords w more)) as [[st1 h1] w1].
    destruct (Hc _ _ _ eq_refl) as [[-> [c ->]] | (-> & -> & He)].
    + intro H. apply IH in H. exact H.
    + intro H; injection H as <- <- <- <- <- <-.
      split; [reflexivity|]. split; [intros _; exact He|].
      split; [discriminate | split; [tauto | split; reflexivity]].
  - destruct (upcase word =? "S")%string.
    { intro H; injection H as <- <- <- <- <- <-.
      split; [reflexivity|]. split; [discriminate|].
      split; [intros Hd _ Hd'; congruence | split; [tauto | split; reflexivity]]. }
    destruct ((upcase word =? "D")%string && canDbl p curHnd).
    { pose proof (playDD_cases p curHnd (setCinWords w more)) as Hc.
      destruct (playDD p curHnd (setCinWords w more)) as [[[st1 p1] h1] w1].
      intro H; injection H as <- <- <- <- <- <-.
      destruct (Hc _ _ _ _ eq_refl)
        as [(_ & -> & -> & -> & ->)
           | ([Hl Hb] & -> & [[-> [c ->]] | (-> & -> & He)])].
      - split; [reflexivity|]. split; [discriminate|].
        split; [intros Hd _ Hd'; congruence | split; [tauto | split; reflexivity]].
      - split; [cbn [chips setChips bet]; lia|]. split; [discriminate|].
        split; [|split; [tauto | split; reflexivity]].
        intros _ _ _. cbn [cards]. rewrite length_app, Hl. reflexivity.
      - split; [cbn [chips setChips bet]; lia|]. split; [intros _; exact He|].
        split; [discriminate | split; [tauto | split; reflexivity]]. }
    destruct ((upcase word =? "P")%string && canSplt curHnd).
    { pose proof (playSplt_cases p curHnd rest (setCinWords w more)) as Hc.
      destruct (playSplt p curHnd rest (setCinWords w more))
        as [[[[st1 p1] h1] r1] w1].
      intro H; injection H as <- <- <- <- <- <-.
      destruct (Hc _ _ _ _ _ eq_refl)
        as [(_ & -> & -> & -> & -> & ->)
           | (_ & c1 & c2 & Ec & -> &
              [(-> & -> & -> & He)
              | (d1 & -> &
                 [(-> & -> & ->)
                 | (nxtHnd & others & -> &
                    [(-> & -> & He) | (-> & d2 & ->)])])])].
      - split; [reflexivity|]. split; [discriminate|].
        split; [intros Hd _ Hd'; congruence | split; [tauto | split; reflexivity]].
      - split; [rewrite betSum_cons; cbn [chips setChips bet setCards]; lia|].
        split; [intros _; exact He|]. split; [discriminate|].
        split; [intro Hr; constructor; [reflexivity | exact Hr] | split; reflexivity].
      - split; [rewrite betSum_cons; cbn [chips setChips bet setCards betSum map fold_right]; lia|].
        split; [discriminate|]. split; [discriminate|].
        split; [intro Hr; constructor; [reflexivity | exact Hr] | split; reflexivity].
      - split; [rewrite betSum_cons; cbn [chips setChips bet setCards]; lia|].
        split; [intros _; exact He|]. split; [discriminate|].
        split; [intro Hr; constructor; [reflexivity | exact Hr] | split; reflexivity].
      - split; [rewrite !betSum_cons; cbn [chips setChips bet setCards]; lia|].
        split; [discriminate|].
        split; [intros Hd _ Hd'; cbn [ddown setCards] in Hd'; congruence|].
        split; [|split; reflexivity].
        intro Hr. inversion Hr; subst.
        constructor; [reflexivity|]. constructor; assumption. }
    intro H. apply IH in H. exact H.
Qed.

Lemma notDoubled_hasThree (hs : list Hand) :
  Forall notDoubled hs -> Forall doubledHasThree hs.
Proof.
  apply Forall_impl. intros h Hn Hd. unfold notDoubled in Hn. congruence.
Qed.

Lemma hdlLoop_inv :
  forall fuel p prev todo w st p' hs w',
    hdlLoop fuel p prev todo w = (st, p', hs, w') ->
    chips p' + betSum hs = chips p + betSum prev + betSum todo
    /\ (st = SupplyExhausted -> exhausted w')
    /\ (Forall doubledHasThree prev -> doublesInOrder todo ->
        st = Ok -> Forall doubledHasThree hs)
    /\ (exists tail, hs = prev ++ tail)
    /\ id p' = id p /\ name p' = name p.
Proof.
  induction fuel as [|fuel IH]; intros p prev todo w st p' hs w'.
  { destruct todo as [|curHnd rest]; cbn [hdlLoop];
      intro H; injection H as <- <- <- <-.
    - cbn [betSum map fold_right]. split; [lia|]. split; [discriminate|].
      split; [intros Hp _ _; exact Hp|]. split; [exists []; symmetry; apply app_nil_r|].
      split; reflexivity.
    - rewrite betSum_app. split; [lia|]. split; [discriminate|].
      split; [discriminate|]. split; [eexists; reflexivity|]. split; reflexivity. }
  destruct todo as [|curHnd rest]; cbn [hdlLoop].
  { intro H; injection H as <- <- <- <-.
    cbn [betSum map fold_right]. split; [lia|]. split; [discriminate|].
    split; [intros Hp _ _; exact Hp|]. split; [exists []; symmetry; apply app_nil_r|].
    split; reflexivity. }
  assert (Hnext : forall r, Forall notDoubled r -> doublesInOrder r).
  { intros r Hr. split; [apply notDoubled_hasThree; exact Hr|].
    destruct r; [constructor | inversion Hr; assumption]. }
  assert (Hskip :
    hdlLoop fuel p (prev ++ [curHnd]) rest w = (st, p', hs, w') ->
    chips p' + betSum hs = chips p + betSum prev + betSum (curHnd :: rest)
    /\ (st = SupplyExhausted -> exhausted w')
    /\ (Forall doubledHasThree prev -> doublesInOrder (curHnd :: rest) ->
        st = Ok -> Forall doubledHasThree hs)
    /\ (exists tail, hs = prev ++ tail)
    /\ id p' = id p /\ name p' = name p).
  { intro H. apply IH in H. destruct H as (H1 & H2 & H3 & [tail H4] & H5).
    rewrite betSum_app in H1. rewrite betSum_cons.
    cbn [betSum map fold_right] in H1. fold (betSum rest) in H1.
    split; [lia|]. split; [exact H2|]. split.
    - intros Hp [Ht Hu]. cbn [tl] in Hu. inversion Ht; subst.
      apply H3; [|apply Hnext; exact Hu].
      apply Forall_app. split; [assumption | constructor; [assumption | constructor]].
    - split; [|exact H5]. exists (curHnd :: tail). rewrite H4, <- app_assoc. reflexivity. }
  destruct (ddown curHnd) eqn:Edd; [exact Hskip|].
  destruct (splitAces curHnd); [exact Hskip|]. clear Hskip.
  destruct (playHand fuel p curHnd rest w) as [[[[[st1 resume] p1] h1] r1] w1] eqn:E.
  apply playHand_inv in E. destruct E as (E1 & E2 & E3 & E4 & E5 & E6).
  specialize (E3 Edd). rewrite betSum_cons.
  destruct st1;
    try (intro H; injection H as <- <- <- <-;
         rewrite betSum_app, betSum_cons;
         split; [lia|]; split; [exact E2|]; split; [discriminate|];
         split; [eexists; reflexivity | split; assumption]).
  assert (Hadv :
    hdlLoop fuel p1 (prev ++ [h1]) r1 w1 = (st, p', hs, w') ->
    chips p' + betSum hs = chips p + betSum prev + (bet curHnd + betSum rest)
    /\ (st = SupplyExhausted -> exhausted w')
    /\ (Forall doubledHasThree prev -> doublesInOrder (curHnd :: rest) ->
        st = Ok -> Forall doubledHasThree hs)
    /\ (exists tail, hs = prev ++ tail)
    /\ id p' = id p /\ name p' = name p).
  { intro H. apply IH in H. destruct H as (H1 & H2 & H3 & [tail H4] & H5).
    rewrite betSum_app in H1. cbn [betSum map fold_right] in H1.
    fold (betSum r1) in H1.
    split; [unfold betSum in *; lia|]. split; [exact H2|].
    split; [|split; [|split; [destruct H5; congruence | destruct H5; congruence]]].
    + intros Hp [Ht Hu]. cbn [tl] in Hu. apply H3; [|apply Hnext, E4, Hu].
      apply Forall_app. split; [assumption|].
      constructor; [apply E3; reflexivity | constructor].
    + exists (h1 :: tail). rewrite H4, <- app_assoc. reflexivity. }
  destruct resume; [exact Hadv | | exact Hadv].
  intro H. apply IH in H. destruct H as (H1 & H2 & H3 & H4 & H5).
  rewrite betSum_cons in H1.
  split; [lia|]. split; [exact H2|].
  split; [|split; [exact H4 | split; [destruct H5; congruence | destruct H5; congruence]]].
  intros Hp [Ht Hu]. cbn [tl] in Hu. apply H3; [assumption|].
  split; [|cbn [tl]; apply E4, Hu].
  constructor; [apply E3; reflexivity | apply notDoubled_hasThree, E4, Hu].
Qed.

Lemma stake_setHands (p : Player) (hs : list Hand) :
  stake (setHands p hs) = chips p + betSum hs.
Proof. reflexivity. Qed.

Lemma hdlPlay_inv (p : Player) (dlHnd : Hand) (w : World) :
  forall st p' w', hdlPlay p dlHnd w = (st, p', w') ->
    stake p' = stake p
    /\ (st = SupplyExhausted -> exhausted w')
    /\ (doublesInOrder (hands p) -> st = Ok ->
        Forall doubledHasThree (hands p'))
    /\ st <> OutOfFuel.
Proof.
  intros st p' w' H.
  pose proof (hdlPlay_total p dlHnd w) as Ht. rewrite H in Ht. cbn [fst] in Ht.
  unfold hdlPlay, hdlRun in H.
  destruct (hdlLoop _ _ _ _ _) as [[[st1 p1] hs] w1] eqn:E.
  injection H as <- <- <-.
  apply hdlLoop_inv in E. destruct E as (E1 & E2 & E3 & _ & _).
  rewrite stake_setHands. unfold stake. cbn [betSum map fold_right] in E1.
  split; [unfold betSum in *; lia|]. split; [exact E2|]. split; [|exact Ht].
  intros Hh Hok. cbn [hands setHands]. apply E3; [constructor | exact Hh | exact Hok].
Qed.

(** ** Split, double and denied requests: the claims *)

Lemma playDD_denied (p : Player) (hand : Hand) (w : World) :
  ~ doubleEligible p hand -> playDD p hand w = (Ok, p, hand, w).
Proof.
  intro H. pose proof (playDD_cases p hand w) as Hc.
  destruct (playDD p hand w) as [[[st p'] h'] w'].
  destruct (Hc _ _ _ _ eq_refl) as [(_ & -> & -> & -> & ->) | (He & _)];
    [reflexivity | contradiction].
Qed.

(** A hit that is honoured at the prompt: the inner loop goes on with the
    hand and the card drawn. *)
Lemma hit_turn p curHnd rest w word more l1 w1 :
  prompted curHnd w word more ->
  upcase word = "H" ->
  dealCrd (cards curHnd) (setCinWords w more) = (Ok, l1, w1) ->
  playTurn p curHnd rest w = playTurn p (setCards curHnd l1) rest w1.
Proof.
  intros Hp Hu H1.
  rewrite (playTurn_prompted _ _ _ _ _ _ Hp). cbn zeta. rewrite Hu.
  cbn [String.eqb Ascii.eqb Bool.eqb].
  unfold playHit. rewrite H1. reflexivity.
Qed.

(** A hand at the prompt with nothing left to read: the run waits. *)
Lemma prompt_without_input p prev curHnd rest w :
  ddown curHnd = false ->
  splitAces curHnd = false ->
  calcScr curHnd < 21 ->
  cinWords w = [] ->
  hdlRun p prev (curHnd :: rest) w = (NeedInput, p, prev ++ curHnd :: rest, w).
Proof.
  intros Hd Ha Hs Hw.
  rewrite hdlRun_cons, Hd, Ha, playTurn_eq.
  destruct (Z.gtb_spec (calcScr curHnd) 21) as [H1|_]; [lia|].
  destruct (Z.eqb_spec (calcScr curHnd) 21) as [H2|_]; [lia|].
  rewrite Hw. reflexivity.
Qed.

Lemma lone_ace_scores_11 (c : Card) (b : Z) (f d : bool) :
  rank c = "A" -> calcScr (mkHand [c] b f d) = 11.
Proof.
  intro Hr. rewrite calcScr_scoreSpec.
  unfold scoreSpec, nonAces, aceCount, isAce. cbn [cards filter].
  rewrite Hr. reflexivity.
Qed.

(** C4 (the program departs from the claim).  The eligibility is the
    claim's: at the prompt, a request to split is honoured exactly when the
    hand is two cards of one rank, is not flagged as split, and the balance
    covers the wager ([canSplt] at the prompt, then the two tests of
    [playSplt]); otherwise nothing changes and the prompt comes again.  The
    effect is not.  When the split is honoured and the first draw delivers,
    the balance drops by the wager, the original hand is its first card and
    the card drawn, and a new hand with the same wager and the split flag,
    holding the second card, stands right after it.  But the second draw
    does not go to that new hand, which keeps its one card: the iterator is
    already on it when the program steps "to the new hand", so the card goes
    to the hand after it.  When the original hand was the player's last, as
    it is whenever a round reaches a split, there is no such hand and the
    program dereferences [end()].  When a hand does follow, that hand takes
    the card, and play continues on the inserted hand: the original one is
    behind the iterator and is not played again, so that it is in the final
    hand sequence as the split left it. *)
Theorem C4_split_eligibility_and_effect
    (p : Player) (prev rest : list Hand) (curHnd : Hand) (w : World)
    (word : string) (more : list string) :
  prompted curHnd w word more ->
  upcase word = "P" ->
  (splitEligible p curHnd <-> canSplt curHnd = true /\ spltRuns p curHnd = true)
  /\ (~ splitEligible p curHnd ->
      hdlRun p prev (curHnd :: rest) w
      = hdlRun p prev (curHnd :: rest) (setCinWords w more))
  /\ (splitEligible p curHnd ->
      exists c1 c2,
        cards curHnd = [c1; c2]
        /\ forall l1 w1,
            dealCrd [c1] (setCinWords w more) = (Ok, l1, w1) ->
            let p' := setChips p (chips p - bet curHnd) in
            let kept := setCards curHnd l1 in
            let inserted := mkHand [c2] (bet curHnd) true false in
            (exists d1, l1 = [c1; d1])
            /\ (rest = [] ->
                playSplt p curHnd rest (setCinWords w more)
                = (Undefined, p', kept, [inserted], w1)
                /\ hdlRun p prev (curHnd :: rest) w
                   = (Undefined, p', prev ++ [kept; inserted], w1))
            /\ (forall nxtHnd others l2 w2,
                  rest = nxtHnd :: others ->
                  dealCrd (cards nxtHnd) w1 = (Ok, l2, w2) ->
                  (exists d2, l2 = cards nxtHnd ++ [d2])
                  /\ playSplt p curHnd rest (setCinWords w more)
                     = (Ok, p', kept, inserted :: setCards nxtHnd l2 :: others, w2)
                  /\ hdlRun p prev (curHnd :: rest) w
                     = hdlRun p' (prev ++ [kept])
                              (inserted :: setCards nxtHnd l2 :: others) w2
                  /\ exists tail,
                      snd (fst (hdlRun p prev (curHnd :: rest) w))
                      = prev ++ kept :: tail)).
Proof.
  intros Hp Hu. split; [apply splitEligible_iff|]. split.
  - intro Hne. exact (split_denied_run _ _ _ _ _ _ _ Hp Hu Hne).
  - intro He. pose proof He as ((c1 & c2 & E & Hr) & Hf & Hb).
    pose proof (proj2 (proj1 (splitEligible_iff p curHnd) He)) as Er.
    exists c1, c2. split; [exact E|].
    intros l1 w1 H1 p' kept inserted. split; [|split].
    + destruct (dealCrd_status _ _ _ _ _ H1) as [[_ [d1 ->]] | [Hx _]];
        [|discriminate].
      exists d1. reflexivity.
    + intros ->. split.
      * exact (playSplt_last _ _ _ _ _ _ _ Er E H1).
      * exact (split_undefined_run _ _ _ _ _ _ _ _ _ _ Hp Hu He E H1).
    + intros nxtHnd others l2 w2 -> H2.
      pose proof (split_executed_run _ prev _ _ others _ _ _ _ _ _ _ _ _
                    Hp Hu He E H1 H2) as Hrun.
      split; [|split; [|split]].
      * destruct (dealCrd_status _ _ _ _ _ H2) as [[_ [d2 ->]] | [Hx _]];
          [|discriminate].
        exists d2. reflexivity.
      * exact (playSplt_followed _ _ _ _ _ _ _ _ _ _ _ _ Er E H1 H2).
      * exact Hrun.
      * rewrite Hrun. unfold hdlRun.
        destruct (hdlLoop _ _ _ _ _) as [[[st p2] hs] w3] eqn:El.
        apply hdlLoop_inv in El. destruct El as (_ & _ & _ & [tail Ht] & _).
        exists tail. cbn [fst snd]. rewrite Ht, <- app_assoc. reflexivity.
Qed.

Lemma tens_prompted :
  prompted (staked [tenSpades; tenHearts])
           (worldOf [fiveClubs; sixDiamonds] ["P"; "S"; "S"]) "P" ["S"; "S"].
Proof. repeat split; vm_compute; reflexivity. Qed.

Lemma tens_eligible : splitEligible annTens (staked [tenSpades; tenHearts]).
Proof.
  split; [exists tenSpades, tenHearts; split; reflexivity|].
  split; [reflexivity | vm_compute; discriminate].
Qed.

(** A ten and a jack score like two tens but cannot be split. *)
Lemma ten_jack_not_eligible :
  calcScr (staked [tenSpades; jackHearts]) = calcScr (staked [tenSpades; tenHearts])
  /\ ~ splitEligible annTenJack (staked [tenSpades; jackHearts]).
Proof.
  split; [reflexivity|].
  intros [(c1 & c2 & E & Hr) _]. injection E as <- <-. discriminate.
Qed.

(** Ann splits her pair of tens, her only hand: the five goes to the
    original hand, and the program then reaches for a hand that does not
    exist. *)
Lemma C4_split_witness :
  hdlRun annTens [] [staked [tenSpades; tenHearts]]
         (worldOf [fiveClubs; sixDiamonds] ["P"; "S"; "S"])
  = (Undefined, setChips annTens 980,
     [staked [tenSpades; fiveClubs]; mkHand [tenHearts] 10 true false],
     worldOf [sixDiamonds] ["S"; "S"]).
Proof.
  destruct (C4_split_eligibility_and_effect annTens [] []
              (staked [tenSpades; tenHearts])
              (worldOf [fiveClubs; sixDiamonds] ["P"; "S"; "S"]) "P" ["S"; "S"]
              tens_prompted eq_refl) as (_ & _ & Hexec).
  destruct (Hexec tens_eligible) as (c1 & c2 & E & Hrun).
  injection E as <- <-.
  exact (proj2 (proj1 (proj2 (Hrun [tenSpades; fiveClubs]
                                   (worldOf [sixDiamonds] ["S"; "S"]) eq_refl))
                      eq_refl)).
Defined.

(** The same request with a seven on the table after the tens: the six goes
    to the seven, the inserted ten is asked next and stands on its one card,
    then the seven, now thirteen, is asked.  The original hand, a fifteen, is
    not asked at all. *)
Lemma split_before_another_hand :
  hdlPlay annTensAndSeven newHand
          (worldOf [fiveClubs; sixDiamonds] ["P"; "S"; "S"])
  = (Ok,
     mkPlayer 1 "Ann" 970
              [staked [tenSpades; fiveClubs];
               mkHand [tenHearts] 10 true false;
               staked [twoOfClubs; fiveClubs; sixDiamonds]],
     worldOf [] []).
Proof. vm_compute. reflexivity. Qed.

(** ** The split of a pair of aces *)

(** C3 (the program departs from the claim).  A pair of aces is split at the
    prompt and the first draw delivers.  The hand inserted by the split holds
    one ace, scores 11, and is not a "split pair of aces" for the test of
    line 459.  It receives no replacement card: the second draw is made
    through [end()] when no hand follows the original one, which is the case
    whenever a round reaches a split, and otherwise goes to the hand that
    follows.  In that case the run goes on with the inserted hand under the
    iterator, and if there is input left the hand is at the prompt; a hit
    asked for it is honoured.  It is not forced to stand. *)
Theorem C3_split_aces_second_hand_gets_no_card
    (p : Player) (prev rest : list Hand) (curHnd : Hand) (w : World)
    (word : string) (more : list string) (c1 c2 : Card)
    (l1 : list Card) (w1 : World) :
  prompted curHnd w word more ->
  upcase word = "P" ->
  splitEligible p curHnd ->
  cards curHnd = [c1; c2] ->
  rank c1 = "A" ->
  dealCrd [c1] (setCinWords w more) = (Ok, l1, w1) ->
  let p' := setChips p (chips p - bet curHnd) in
  let kept := setCards curHnd l1 in
  let inserted := mkHand [c2] (bet curHnd) true false in
  splitAces inserted = false
  /\ calcScr inserted = 11
  /\ (rest = [] ->
      hdlRun p prev (curHnd :: rest) w
      = (Undefined, p', prev ++ [kept; inserted], w1))
  /\ (forall nxtHnd others l2 w2,
        rest = nxtHnd :: others ->
        dealCrd (cards nxtHnd) w1 = (Ok, l2, w2) ->
        let after := setCards nxtHnd l2 :: others in
        hdlRun p prev (curHnd :: rest) w
        = hdlRun p' (prev ++ [kept]) (inserted :: after) w2
        /\ (cinWords w2 = [] ->
            hdlRun p prev (curHnd :: rest) w
            = (NeedInput, p', (prev ++ [kept]) ++ inserted :: after, w2))
        /\ (forall word' more',
              cinWords w2 = word' :: more' ->
              prompted inserted w2 word' more'
              /\ (upcase word' = "H" ->
                  forall l3 w3,
                    dealCrd [c2] (setCinWords w2 more') = (Ok, l3, w3) ->
                    playTurn p' inserted after w2
                    = playTurn p' (setCards inserted l3) after w3))).
Proof.
  intros Hp Hu He Hc Ha H1 p' kept inserted.
  assert (Ha2 : rank c2 = "A").
  { destruct He as ((c1' & c2' & E & Hr) & _). rewrite Hc in E.
    injection E as <- <-. congruence. }
  assert (Hs : calcScr inserted = 11) by (apply lone_ace_scores_11; exact Ha2).
  split; [reflexivity|]. split; [exact Hs|]. split.
  - intros ->. exact (split_undefined_run _ _ _ _ _ _ _ _ _ _ Hp Hu He Hc H1).
  - intros nxtHnd others l2 w2 -> H2 after.
    pose proof (split_executed_run _ prev _ _ others _ _ _ _ _ _ _ _ _
                  Hp Hu He Hc H1 H2) as Hrun.
    split; [exact Hrun|]. split.
    + intro Hw. rewrite Hrun.
      apply prompt_without_input; [reflexivity | reflexivity | lia | exact Hw].
    + intros word' more' Hw.
      assert (Hp' : prompted inserted w2 word' more').
      { split; [reflexivity|]. split; [reflexivity|]. split; [lia | exact Hw]. }
      split; [exact Hp'|].
      intros Hu' l3 w3 H3. exact (hit_turn _ _ _ _ _ _ _ _ Hp' Hu' H3).
Qed.

Lemma aces_prompted :
  prompted (staked [aceSpades; aceHearts])
           (worldOf [fiveClubs; sixDiamonds; nineClubs] ["P"; "H"; "S"; "S"])
           "P" ["H"; "S"; "S"].
Proof. repeat split; vm_compute; reflexivity. Qed.

Lemma aces_eligible :
  splitEligible annAcesAndSeven (staked [aceSpades; aceHearts]).
Proof.
  split; [exists aceSpades, aceHearts; split; reflexivity|].
  split; [reflexivity | vm_compute; discriminate].
Qed.

(** With a seven on the table after the aces: the split gives the five to
    the original hand and the six to the seven; the inserted hand, one ace,
    is at the prompt with the words that are left, and takes the nine it
    asks for.  At the end of the phase it holds the ace and the nine; the
    original hand keeps its ace and five without having been asked. *)
Lemma C3_split_aces_witness :
  hdlRun annAcesAndSeven []
         [staked [aceSpades; aceHearts]; staked [twoOfClubs; fiveClubs]]
         (worldOf [fiveClubs; sixDiamonds; nineClubs] ["P"; "H"; "S"; "S"])
  = hdlRun (setChips annAcesAndSeven 970) [staked [aceSpades; fiveClubs]]
           [mkHand [aceHearts] 10 true false;
            staked [twoOfClubs; fiveClubs; sixDiamonds]]
           (worldOf [nineClubs] ["H"; "S"; "S"])
  /\ prompted (mkHand [aceHearts] 10 true false)
              (worldOf [nineClubs] ["H"; "S"; "S"]) "H" ["S"; "S"]
  /\ playTurn (setChips annAcesAndSeven 970) (mkHand [aceHearts] 10 true false)
              [staked [twoOfClubs; fiveClubs; sixDiamonds]]
              (worldOf [nineClubs] ["H"; "S"; "S"])
     = playTurn (setChips annAcesAndSeven 970)
                (mkHand [aceHearts; nineClubs] 10 true false)
                [staked [twoOfClubs; fiveClubs; sixDiamonds]]
                (worldOf [] ["S"; "S"])
  /\ hdlPlay annAcesAndSeven newHand
             (worldOf [fiveClubs; sixDiamonds; nineClubs] ["P"; "H"; "S"; "S"])
     = (Ok,
        mkPlayer 1 "Ann" 970
                 [staked [aceSpades; fiveClubs];
                  mkHand [aceHearts; nineClubs] 10 true false;
                  staked [twoOfClubs; fiveClubs; sixDiamonds]],
        worldOf [] []).
Proof.
  destruct (C3_split_aces_second_hand_gets_no_card annAcesAndSeven []
              [staked [twoOfClubs; fiveClubs]]
              (staked [aceSpades; aceHearts])
              (worldOf [fiveClubs; sixDiamonds; nineClubs] ["P"; "H"; "S"; "S"])
              "P" ["H"; "S"; "S"] aceSpades aceHearts
              [aceSpades; fiveClubs]
              (worldOf [sixDiamonds; nineClubs] ["H"; "S"; "S"])
              aces_prompted eq_refl aces_eligible eq_refl eq_refl eq_refl)
    as (_ & _ & _ & Hnext).
  destruct (Hnext (staked [twoOfClubs; fiveClubs]) []
                  [twoOfClubs; fiveClubs; sixDiamonds]
                  (worldOf [nineClubs] ["H"; "S"; "S"]) eq_refl eq_refl)
    as (Hrun & _ & Hask).
  destruct (Hask "H" ["S"; "S"] eq_refl) as (Hp & Hhit).
  split; [exact Hrun|]. split; [exact Hp|].
  split; [|vm_compute; reflexivity].
  exact (Hhit eq_refl [aceHearts; nineClubs] (worldOf [] ["S"; "S"]) eq_refl).
Defined.

(** The split of aces as a round reaches it, Ann holding the one hand: the
    five goes to the original hand and the second draw is made through
    [end()].  Nothing of the round is defined from there on. *)
Lemma split_aces_on_the_only_hand :
  hdlPlay annAces newHand
          (worldOf [fiveClubs; sixDiamonds; nineClubs; kingSpades]
                   ["P"; "H"; "S"; "H"; "S"])
  = (Undefined,
     mkPlayer 1 "Ann" 980
              [staked [aceSpades; fiveClubs]; mkHand [aceHearts] 10 true false],
     worldOf [sixDiamonds; nineClubs; kingSpades] ["H"; "S"; "H"; "S"])
  /\ fst (playRnd (acesGame [fiveClubs; sixDiamonds; nineClubs; kingSpades]
                            ["P"; "H"; "S"; "H"; "S"])) = Undefined.
Proof. split; vm_compute; reflexivity. Qed.

(** ** Naturals after a split *)


(** The same split as a round reaches it, with the aces Ann's only hand: at
    the access through [end()] the original hand is the ace and the king,
    unflagged. *)
Lemma kept_natural_on_the_only_hand :
  let '(st, p, origHnd, rest, w) :=
    playSplt annAces (staked [aceSpades; aceHearts]) []
             (worldOf [kingSpades; sixDiamonds] []) in
  st = Undefined
  /\ cards origHnd = [aceSpades; kingSpades]
  /\ is_nat origHnd = true
  /\ rest = [mkHand [aceHearts] 10 true false].
Proof. vm_compute. repeat split; reflexivity. Qed.

(** C10.  A request to split or to double that is denied, because the hand
    does not qualify or because the balance is below the wager, changes
    nothing: [playSplt] and [playDD] return the player, the hands and the
    supply as they got them, and the decision loop carries on from the very
    same state, the same hand under the iterator, with the next word of
    input, that is, by prompting again. *)
Theorem C10_denied_request_changes_nothing
    (p : Player) (prev rest : list Hand) (curHnd : Hand) (w : World)
    (word : string) (more : list string) :
  prompted curHnd w word more ->
  (upcase word = "P" -> ~ splitEligible p curHnd ->
   hdlRun p prev (curHnd :: rest) w
   = hdlRun p prev (curHnd :: rest) (setCinWords w more))
  /\ (upcase word = "D" -> ~ doubleEligible p curHnd ->
      hdlRun p prev (curHnd :: rest) w
      = hdlRun p prev (curHnd :: rest) (setCinWords w more))
  /\ (forall word' more', more = word' :: more' ->
        prompted curHnd (setCinWords w more) word' more')
  /\ (forall w0,
        ~ (exists c1 c2, cards curHnd = [c1; c2] /\ rank c1 = rank c2)
        \/ chips p < bet curHnd ->
        playSplt p curHnd rest w0 = (Ok, p, curHnd, rest, w0))
  /\ (forall w0, ~ doubleEligible p curHnd ->
        playDD p curHnd w0 = (Ok, p, curHnd, w0)).
Proof.
  intro Hp. split; [|split; [|split; [|split]]].
  - intros Hu Hne. exact (split_denied_run _ _ _ _ _ _ _ Hp Hu Hne).
  - intros Hu Hne. exact (double_denied_run _ _ _ _ _ _ _ Hp Hu Hne).
  - intros word' more' E. exact (prompted_next _ _ _ _ _ _ Hp E).
  - intros w0 H. apply playSplt_denied, H.
  - intros w0 H. apply playDD_denied, H.
Qed.

Lemma broke_prompted :
  prompted (mkHand [tenSpades; tenHearts] 5 false false)
           (worldOf [fiveClubs] ["P"; "D"; "S"]) "P" ["D"; "S"].
Proof. repeat split; vm_compute; reflexivity. Qed.

Lemma C10_denied_witness :
  hdlRun annBroke [] [mkHand [tenSpades; tenHearts] 5 false false]
         (worldOf [fiveClubs] ["P"; "D"; "S"])
  = hdlRun annBroke [] [mkHand [tenSpades; tenHearts] 5 false false]
           (worldOf [fiveClubs] ["D"; "S"]).
Proof.
  refine (proj1 (C10_denied_request_changes_nothing annBroke [] []
                   (mkHand [tenSpades; tenHearts] 5 false false)
                   (worldOf [fiveClubs] ["P"; "D"; "S"]) "P" ["D"; "S"]
                   broke_prompted) eq_refl _).
  intros (_ & _ & H). vm_compute in H. apply H. reflexivity.
Defined.

(** ** The dealer *)

Lemma dealCrd_supply (trgLst : list Card) (w : World) :
  forall l' w', dealCrd trgLst w = (Ok, l', w') ->
    (S (length (deck w') + length (disPile w'))
     = length (deck w) + length (disPile w))%nat.
Proof.
  intros l' w' H.
  pose proof (Permutation_length (dealCrd_perm _ _ _ _ _ H)) as Hl.
  destruct (dealCrd_status _ _ _ _ _ H) as [[_ [c ->]] | [Hx _]]; [|discriminate].
  rewrite !length_app in Hl. cbn [length] in Hl. lia.
Qed.

Lemma calcScr_cards (h1 h2 : Hand) : cards h1 = cards h2 -> calcScr h1 = calcScr h2.
Proof. intro E. rewrite !calcScr_scoreSpec, E. reflexivity. Qed.

Lemma perm_draw (D P D0 P0 held : list Card) (c : Card) :
  Permutation (D ++ P ++ held ++ [c]) (D0 ++ P0 ++ held) ->
  Permutation (c :: D ++ P) (D0 ++ P0).
Proof.
  intro H. apply Permutation_app_inv_r with (l := held).
  rewrite <- (app_assoc D0), <- H.
  transitivity (c :: D ++ P ++ held).
  - cbn [app]. rewrite <- app_assoc. reflexivity.
  - rewrite !app_assoc. apply Permutation_cons_append.
Qed.

Lemma perm_drawn (D P drawn D1 P1 : list Card) (c : Card) :
  Permutation (D ++ P ++ drawn) (D1 ++ P1) ->
  Permutation (D ++ P ++ c :: drawn) (c :: D1 ++ P1).
Proof.
  intro H. rewrite <- H. rewrite !app_assoc. symmetry. apply Permutation_middle.
Qed.

(** The dealer's loop: it keeps the flags and the wager; what it adds to the
    hand is what it drew; every hand it drew on scored below 17; it ends on
    17 or more, or with the supply exhausted. *)
Lemma dealerLoop_spec :
  forall fuel dealrH w st h' w',
    dealerLoop fuel dealrH w = (st, h', w') ->
    exists drawn,
      h' = setCards dealrH (cards dealrH ++ drawn)
      /\ (forall k, (k < length drawn)%nat ->
            calcScr (dealerAfter dealrH drawn k) < 17)
      /\ (st = Ok -> 17 <= calcScr h')
      /\ (st = SupplyExhausted -> exhausted w' /\ calcScr h' < 17)
      /\ (st = Ok \/ st = SupplyExhausted \/ st = OutOfFuel)
      /\ cinWords w' = cinWords w /\ cinInts w' = cinInts w
      /\ Permutation (deck w' ++ disPile w' ++ drawn) (deck w ++ disPile w).
Proof.
  assert (Hstop : forall dealrH w st,
    (st = Ok -> 17 <= calcScr dealrH) ->
    (st = SupplyExhausted -> exhausted w /\ calcScr dealrH < 17) ->
    (st = Ok \/ st = SupplyExhausted \/ st = OutOfFuel) ->
    exists drawn,
      dealrH = setCards dealrH (cards dealrH ++ drawn)
      /\ (forall k, (k < length drawn)%nat ->
            calcScr (dealerAfter dealrH drawn k) < 17)
      /\ (st = Ok -> 17 <= calcScr dealrH)
      /\ (st = SupplyExhausted -> exhausted w /\ calcScr dealrH < 17)
      /\ (st = Ok \/ st = SupplyExhausted \/ st = OutOfFuel)
      /\ cinWords w = cinWords w /\ cinInts w = cinInts w
      /\ Permutation (deck w ++ disPile w ++ drawn) (deck w ++ disPile w)).
  { intros dealrH w st H1 H2 H3. exists [].
    rewrite !app_nil_r, setCards_same.
    split; [reflexivity|]. split; [cbn [length]; intros k Hk; lia|].
    split; [exact H1|]. split; [exact H2|]. split; [exact H3|].
    split; [reflexivity|]. split; reflexivity. }
  induction fuel as [|fuel IH]; intros dealrH w st h' w'; cbn [dealerLoop];
    destruct (Z.ltb_spec (calcScr dealrH) 17) as [Hlt|Hge].
  - intro H; injection H as <- <- <-.
    apply Hstop; [discriminate | discriminate | auto].
  - intro H; injection H as <- <- <-.
    apply Hstop; [intros _; lia | discriminate | auto].
  - destruct (dealCrd (cards dealrH) w) as [[st1 l1] w1] eqn:E.
    pose proof (dealCrd_cin (cards dealrH) w) as [Hcw Hci].
    pose proof (dealCrd_perm _ _ _ _ _ E) as Hperm.
    rewrite E in Hcw, Hci. cbn [snd] in Hcw, Hci.
    destruct (dealCrd_status _ _ _ _ _ E)
      as [[-> [c ->]] | (-> & -> & Hd & Hp & _)].
    + intro H. apply IH in H.
      destruct H as (drawn & Hh & Hpre & Hok & Hse & Hst & Hw1 & Hi1 & Hp1).
      cbn [cards setCards bet isplit ddown] in Hh.
      rewrite <- app_assoc in Hh. cbn [app] in Hh.
      exists (c :: drawn).
      split; [exact Hh|]. split; [|split; [exact Hok|]].
      * intros k Hk. destruct k as [|k].
        -- unfold dealerAfter. cbn [firstn]. rewrite app_nil_r, setCards_same.
           exact Hlt.
        -- cbn [length] in Hk. specialize (Hpre k ltac:(lia)).
           erewrite calcScr_cards; [exact Hpre|].
           unfold dealerAfter. cbn [cards setCards firstn].
           rewrite <- app_assoc. reflexivity.
      * split; [exact Hse|]. split; [exact Hst|].
        split; [congruence|]. split; [congruence|].
        rewrite (perm_drawn _ _ _ _ _ c Hp1).
        exact (perm_draw _ _ _ _ _ _ Hperm).
    + intro H; injection H as <- <- <-.
      exists []. rewrite app_nil_r, setCards_same. split; [reflexivity|].
      split; [cbn [length]; intros k Hk; lia|]. split; [discriminate|].
      split; [intros _; split; [split; assumption | exact Hlt]|].
      split; [auto|]. split; [exact Hcw|]. split; [exact Hci|].
      rewrite app_nil_r.
      apply Permutation_app_inv_r with (l := cards dealrH).
      rewrite <- !app_assoc. exact Hperm.
  - intro H; injection H as <- <- <-.
    apply Hstop; [intros _; lia | discriminate | auto].
Qed.

Lemma dealerLoop_total :
  forall fuel dealrH w,
    (length (deck w) + length (disPile w) < fuel)%nat ->
    fst (fst (dealerLoop fuel dealrH w)) <> OutOfFuel.
Proof.
  induction fuel as [|fuel IH]; intros dealrH w Hf; [lia|].
  cbn [dealerLoop]. destruct (calcScr dealrH <? 17); [|discriminate].
  destruct (dealCrd (cards dealrH) w) as [[st l] w1] eqn:E.
  destruct (dealCrd_status _ _ _ _ _ E) as [[-> _] | [-> _]]; [|discriminate].
  apply IH. pose proof (dealCrd_supply _ _ _ _ E). lia.
Qed.

(** ** Steps of a round: what composes *)

Lemma keeps_andThen (R : Game -> Game -> Prop) (f g : Game -> Status * Game) :
  (forall a b c, R a b -> R b c -> R a c) ->
  keeps R f -> keeps R g -> keeps R (f ;; g).
Proof.
  intros Htrans Hf Hg t. unfold andThen.
  specialize (Hf t). destruct (f t) as [st t1]. cbn [snd] in Hf.
  destruct st; try exact Hf.
  exact (Htrans _ _ _ Hf (Hg t1)).
Qed.

Lemma failsExhausted_andThen (f g : Game -> Status * Game) :
  failsExhausted f -> failsExhausted g -> failsExhausted (f ;; g).
Proof.
  intros Hf Hg t t'. unfold andThen.
  specialize (Hf t). destruct (f t) as [st t1].
  destruct st; intro H; try discriminate.
  - exact (Hg _ _ H).
  - injection H as <-. apply Hf. reflexivity.
Qed.

Lemma forEachPlayer_map {A : Type} (g : Player -> A) (P : Player -> Prop)
    (f : Player -> World -> Status * Player * World) :
  (forall p w, P p -> g (snd (fst (f p w))) = g p) ->
  forall ps w, Forall P ps ->
    map g (snd (fst (forEachPlayer f ps w))) = map g ps.
Proof.
  intros Hf ps. induction ps as [|p more IH]; intros w HP; [reflexivity|].
  inversion HP as [|? ? Hp Hmore]; subst.
  cbn [forEachPlayer]. specialize (Hf p w Hp).
  destruct (f p w) as [[st p'] w']. cbn [fst snd] in Hf.
  destruct st; cbn [fst snd map]; try (rewrite Hf; reflexivity).
  specialize (IH w' Hmore).
  destruct (forEachPlayer f more w') as [[st' more'] w''].
  cbn [fst snd map] in *. rewrite Hf, IH. reflexivity.
Qed.

Lemma forEachPlayer_exhausted (f : Player -> World -> Status * Player * World) :
  (forall p w p' w', f p w = (SupplyExhausted, p', w') -> exhausted w') ->
  forall ps w ps' w',
    forEachPlayer f ps w = (SupplyExhausted, ps', w') -> exhausted w'.
Proof.
  intros Hf ps. induction ps as [|p more IH]; intros w ps' w'; cbn [forEachPlayer].
  - discriminate.
  - specialize (Hf p w). destruct (f p w) as [[st p1] w1].
    destruct st; intro H; try discriminate.
    + destruct (forEachPlayer f more w1) as [[st' more'] w''] eqn:E.
      injection H as -> <- <-. exact (IH _ _ _ E).
    + injection H as <- <-. exact (Hf _ _ eq_refl).
Qed.

Lemma forEachPlayer_ok (f : Player -> World -> Status * Player * World) :
  (forall p w, fst (fst (f p w)) = Ok) ->
  forall ps w, fst (fst (forEachPlayer f ps w)) = Ok.
Proof.
  intros Hf ps. induction ps as [|p more IH]; intro w; [reflexivity|].
  cbn [forEachPlayer]. specialize (Hf p w).
  destruct (f p w) as [[st p1] w1]. cbn [fst] in Hf. subst st.
  specialize (IH w1). destruct (forEachPlayer f more w1) as [[st' more'] w''].
  exact IH.
Qed.

Lemma forEachPlayer_id (ps : list Player) (w : World) :
  forEachPlayer (fun p w => (Ok, p, w)) ps w = (Ok, ps, w).
Proof.
  induction ps as [|p more IH]; [reflexivity|].
  cbn [forEachPlayer]. rewrite IH. reflexivity.
Qed.

Lemma onPlayers_dealr f t : dealr (snd (onPlayers f t)) = dealr t.
Proof.
  unfold onPlayers. destruct (forEachPlayer f (plyrs t) (world t)) as [[st ps] w].
  reflexivity.
Qed.

Lemma onDealerHand_plyrs f t : plyrs (snd (onDealerHand f t)) = plyrs t.
Proof.
  unfold onDealerHand. destruct (hands (dealr t)) as [|h others]; [reflexivity|].
  destruct (f h (world t)) as [[st h'] w]. reflexivity.
Qed.

Lemma dealerKept_refl (d : Player) : dealerKept d d.
Proof. repeat split; auto. Qed.

Lemma dealerKept_trans (a b c : Player) :
  dealerKept a b -> dealerKept b c -> dealerKept a c.
Proof.
  intros (A1 & A2 & A3 & A4) (B1 & B2 & B3 & B4).
  repeat split; try congruence. auto.
Qed.

Lemma sameDealer_trans (a b c : Game) :
  sameDealer a b -> sameDealer b c -> sameDealer a c.
Proof. apply dealerKept_trans. Qed.

Lemma onPlayers_sameDealer f : keeps sameDealer (onPlayers f).
Proof.
  intro t. unfold sameDealer. rewrite onPlayers_dealr. apply dealerKept_refl.
Qed.

Lemma onDealerHand_sameDealer (f : Hand -> World -> Status * Hand * World) :
  (forall h w, let h' := snd (fst (f h w)) in
               isplit h' = isplit h /\ ddown h' = ddown h
               /\ (bet h = 0 -> bet h' = 0)) ->
  keeps sameDealer (onDealerHand f).
Proof.
  intros Hf t. unfold sameDealer, onDealerHand.
  destruct (hands (dealr t)) as [|h others] eqn:E; [apply dealerKept_refl|].
  specialize (Hf h (world t)). destruct (f h (world t)) as [[st h'] w].
  cbn [fst snd] in *. destruct Hf as (H1 & H2 & H3).
  unfold dealerKept. cbn [dealr chips hands setHands]. rewrite E. cbn [map].
  split; [reflexivity|]. split; [congruence|]. split; [congruence|].
  intro Hz. inversion Hz; subst. constructor; auto.
Qed.

Lemma dealerPlay_hand (dealrNat : bool) (dealrH : Hand) (w : World) :
  let h' := snd (fst (dealerPlay dealrNat dealrH w)) in
  isplit h' = isplit dealrH /\ ddown h' = ddown dealrH
  /\ (bet dealrH = 0 -> bet h' = 0).
Proof.
  unfold dealerPlay. destruct dealrNat; cbn [negb]; [cbn; auto|].
  destruct (dealerLoop _ dealrH w) as [[st h'] w'] eqn:E.
  apply dealerLoop_spec in E. destruct E as (drawn & -> & _).
  cbn. auto.
Qed.

Lemma playRnd_sameDealer : keeps sameDealer playRnd.
Proof.
  assert (Hdeal : keeps sameDealer dealToDealer).
  { apply onDealerHand_sameDealer. intros h w.
    destruct (dealCrd (cards h) w) as [[st cs] w']. cbn. auto. }
  unfold playRnd, beforeSettlement.
  repeat (apply keeps_andThen;
          [exact sameDealer_trans | try apply onPlayers_sameDealer; try exact Hdeal |]).
  - intro t. apply dealerKept_refl.
  - intro t. unfold playPhases.
    apply (keeps_andThen sameDealer _ _ sameDealer_trans).
    + unfold actionsPhase. intro t0. apply onPlayers_sameDealer.
    + apply onDealerHand_sameDealer. apply dealerPlay_hand.
  - unfold settlementPhase. intro t. apply onPlayers_sameDealer.
  - apply onDealerHand_sameDealer. intros h w. cbn. auto.
Qed.

(** C9.  If the dealer's two cards are a natural, the play phases change
    nothing: no decision phase runs, no word of input is read, no card is
    drawn.  Otherwise the players act and then the dealer draws: every hand
    the dealer drew on scored below 17, and what it added to its hand is
    what left the supply.  It stops in one of two ways, never for lack of
    fuel: normally, on the first score of 17 or more; or on the fatal error,
    still below 17 and with not a card left in the supply.  So a dealer
    below 17 draws whenever the supply has a card to give.  Across a whole
    round the dealer's
    balance, hand count and flags stay as they were and its hand carries no
    wager: the dealer never splits, doubles or wagers. *)
Theorem C9_dealer_policy :
  (forall t dealrH others,
      hands (dealr t) = dealrH :: others ->
      is_nat dealrH = true ->
      playPhases t = (Ok, t))
  /\ (forall t dealrH others,
         hands (dealr t) = dealrH :: others ->
         is_nat dealrH = false ->
         playPhases t = (actionsPhase false ;; onDealerHand (dealerPlay false)) t)
  /\ (forall dealrH w st h' w',
         dealerPlay false dealrH w = (st, h', w') ->
         (st = Ok \/ st = SupplyExhausted)
         /\ exists drawn,
             h' = setCards dealrH (cards dealrH ++ drawn)
             /\ (forall k, (k < length drawn)%nat ->
                   calcScr (dealerAfter dealrH drawn k) < 17)
             /\ (st = Ok -> 17 <= calcScr h')
             /\ (st = SupplyExhausted -> exhausted w' /\ calcScr h' < 17)
             /\ (calcScr dealrH < 17 -> ~ exhausted w -> drawn <> [])
             /\ Permutation (deck w' ++ disPile w' ++ drawn)
                            (deck w ++ disPile w))
  /\ (forall t, dealerKept (dealr t) (dealr (snd (playRnd t)))).
Proof.
  split; [|split; [|split]].
  - intros t dealrH others E Hn.
    unfold playPhases, dealrNatOf. rewrite E, Hn. unfold andThen, actionsPhase.
    cbn [negb]. unfold onPlayers. rewrite forEachPlayer_id.
    unfold onDealerHand. cbn [dealr world plyrs]. rewrite E.
    cbn [dealerPlay negb]. rewrite <- E.
    destruct t as [ps d w]. destruct d as [i n c hs]. reflexivity.
  - intros t dealrH others E Hn.
    unfold playPhases, dealrNatOf. rewrite E, Hn. reflexivity.
  - intros dealrH w st h' w' H. unfold dealerPlay in H. cbn [negb] in H.
    pose proof (dealerLoop_total (S (length (deck w) + length (disPile w)))
                  dealrH w ltac:(lia)) as Ht.
    rewrite H in Ht. cbn [fst] in Ht.
    apply dealerLoop_spec in H.
    destruct H as (drawn & Hh & Hpre & Hok & Hse & Hst & _ & _ & Hp).
    split; [destruct Hst as [?|[?|?]]; [auto | auto | contradiction]|].
    exists drawn.
    split; [exact Hh|]. split; [exact Hpre|]. split; [exact Hok|].
    split; [exact Hse|]. split; [|exact Hp].
    intros Hlt Hne ->. rewrite app_nil_r, setCards_same in Hh. subst h'.
    rewrite !app_nil_r in Hp.
    destruct Hst as [Hs | [Hs | Hs]]; [|apply Hne|contradiction].
    + specialize (Hok Hs). lia.
    + destruct (Hse Hs) as [[Hd Hpile] _]. rewrite Hd, Hpile in Hp.
      apply Permutation_nil in Hp. apply app_eq_nil in Hp. exact Hp.
  - exact playRnd_sameDealer.
Qed.

(** A dealer on sixteen with a five and a nine to come: it draws the five,
    and stops on twenty-one. *)
Lemma C9_dealer_draws_witness :
  dealerPlay false (mkHand [tenHearts; sixDiamonds] 0 false false)
             (worldOf [fiveClubs; nineSpades] [])
  = (Ok, mkHand [tenHearts; sixDiamonds; fiveClubs] 0 false false,
     worldOf [nineSpades] [])
  /\ exists drawn,
      [tenHearts; sixDiamonds; fiveClubs] = [tenHearts; sixDiamonds] ++ drawn
      /\ drawn <> []
      /\ 17 <= calcScr (mkHand [tenHearts; sixDiamonds; fiveClubs] 0 false false).
Proof.
  assert (E : dealerPlay false (mkHand [tenHearts; sixDiamonds] 0 false false)
                         (worldOf [fiveClubs; nineSpades] [])
              = (Ok, mkHand [tenHearts; sixDiamonds; fiveClubs] 0 false false,
                 worldOf [nineSpades] [])) by (vm_compute; reflexivity).
  split; [exact E|].
  destruct (proj1 (proj2 (proj2 C9_dealer_policy)) _ _ _ _ _ E)
    as (_ & drawn & Hh & _ & Hok & _ & Hne & _).
  exists drawn.
  split; [exact (f_equal cards Hh)|].
  split; [|exact (Hok eq_refl)].
  apply Hne; [vm_compute; reflexivity | intros [Hd _]; discriminate Hd].
Defined.

(** A dealer natural: the play phases change nothing. *)
Lemma dealer_natural_example :
  playPhases dealerNaturalGame = (Ok, dealerNaturalGame).
Proof. vm_compute. reflexivity. Qed.

(** ** The fatal error in a round *)

Lemma onPlayers_failsExhausted (f : Player -> World -> Status * Player * World) :
  (forall p w p' w', f p w = (SupplyExhausted, p', w') -> exhausted w') ->
  failsExhausted (onPlayers f).
Proof.
  intros Hf t t'. unfold onPlayers.
  destruct (forEachPlayer f (plyrs t) (world t)) as [[st ps] w] eqn:E.
  intro H. injection H as -> <-. cbn [world].
  exact (forEachPlayer_exhausted f Hf _ _ _ _ E).
Qed.

Lemma onDealerHand_failsExhausted (f : Hand -> World -> Status * Hand * World) :
  (forall h w h' w', f h w = (SupplyExhausted, h', w') -> exhausted w') ->
  failsExhausted (onDealerHand f).
Proof.
  intros Hf t t'. unfold onDealerHand.
  destruct (hands (dealr t)) as [|h others]; [discriminate|].
  destruct (f h (world t)) as [[st h'] w] eqn:E.
  intro H. injection H as -> <-. cbn [world]. exact (Hf _ _ _ _ E).
Qed.

Lemma dealToFront_exhausted p w p' w' :
  dealToFront p w = (SupplyExhausted, p', w') -> exhausted w'.
Proof.
  unfold dealToFront. destruct (hands p) as [|h t]; [discriminate|].
  destruct (dealCrd (cards h) w) as [[st cs] w1] eqn:E.
  intro H. injection H as -> <- <-.
  destruct (dealCrd_status _ _ _ _ _ E) as [[Hx _] | (_ & _ & Hd & Hp & _)];
    [discriminate | split; assumption].
Qed.

Lemma dealToDealer_failsExhausted : failsExhausted dealToDealer.
Proof.
  apply onDealerHand_failsExhausted. intros h w h' w'.
  destruct (dealCrd (cards h) w) as [[st cs] w1] eqn:E.
  intro H. injection H as -> <- <-.
  destruct (dealCrd_status _ _ _ _ _ E) as [[Hx _] | (_ & _ & Hd & Hp & _)];
    [discriminate | split; assumption].
Qed.

Lemma placeBet_status p w : fst (fst (placeBet p w)) <> SupplyExhausted.
Proof.
  unfold placeBet. destruct (promptBet (chips p) (cinInts w)) as [[b|] cin'];
    discriminate.
Qed.

Lemma playPhases_failsExhausted : failsExhausted playPhases.
Proof.
  intros t t'. unfold playPhases. apply failsExhausted_andThen.
  - unfold actionsPhase. intros t0 t0'. apply onPlayers_failsExhausted.
    intros p w p' w'. destruct (negb (dealrNatOf t)); [|discriminate].
    intro H. destruct (hdlPlay_inv _ _ _ _ _ _ H) as (_ & He & _).
    apply He. reflexivity.
  - apply onDealerHand_failsExhausted. intros h w h' w'.
    unfold dealerPlay. destruct (negb (dealrNatOf t)); [|discriminate].
    intro H. apply dealerLoop_spec in H.
    destruct H as (drawn & _ & _ & _ & Hse & _). apply Hse. reflexivity.
Qed.

Lemma beforeSettlement_failsExhausted : failsExhausted beforeSettlement.
Proof.
  unfold beforeSettlement.
  apply failsExhausted_andThen; [intros t t'; discriminate|].
  apply failsExhausted_andThen.
  { apply onPlayers_failsExhausted. intros p w p' w' H.
    pose proof (placeBet_status p w) as Hs. rewrite H in Hs. contradiction. }
  apply failsExhausted_andThen;
    [apply onPlayers_failsExhausted; exact dealToFront_exhausted|].
  apply failsExhausted_andThen; [exact dealToDealer_failsExhausted|].
  apply failsExhausted_andThen;
    [apply onPlayers_failsExhausted; exact dealToFront_exhausted|].
  apply failsExhausted_andThen; [exact dealToDealer_failsExhausted|].
  exact playPhases_failsExhausted.
Qed.

(** Settlement and the final discard never end in the fatal error: neither
    draws a card. *)
Lemma settlement_status (t : Game) :
  fst ((settlementPhase ;; discardDealer) t) <> SupplyExhausted.
Proof.
  unfold andThen, settlementPhase, onPlayers.
  pose proof (forEachPlayer_ok (settlePlayer (dealrHOf t))) as Hok.
  specialize (Hok ltac:(intros p w; unfold settlePlayer;
                        destruct (settleLoop _ _ _ _) as [[p1 hs] w1]; reflexivity)
                  (plyrs t) (world t)).
  destruct (forEachPlayer _ (plyrs t) (world t)) as [[st ps] w].
  cbn [fst] in Hok. subst st.
  unfold discardDealer, onDealerHand. cbn [dealr].
  destruct (hands (dealr t)) as [|h others]; discriminate.
Qed.

Lemma playRnd_fatal_before_settlement (t t' : Game) :
  playRnd t = (SupplyExhausted, t') <-> beforeSettlement t = (SupplyExhausted, t').
Proof.
  unfold playRnd. unfold andThen at 1.
  destruct (beforeSettlement t) as [st t1].
  split.
  - destruct st; intro H; try discriminate; [|exact H].
    pose proof (settlement_status t1) as Hs. rewrite H in Hs. contradiction.
  - intro H. injection H as -> ->. reflexivity.
Qed.

(** ** Stakes before settlement *)

Lemma sameStakes_trans (a b c : Game) :
  sameStakes a b -> sameStakes b c -> sameStakes a c.
Proof. unfold sameStakes. congruence. Qed.

Lemma onPlayers_sameStakes (f : Player -> World -> Status * Player * World) :
  (forall p w, stake (snd (fst (f p w))) = stake p) ->
  keeps sameStakes (onPlayers f).
Proof.
  intros Hf t. unfold sameStakes, onPlayers.
  pose proof (forEachPlayer_map stake (fun _ => True) f
                (fun p w _ => Hf p w) (plyrs t) (world t)) as H.
  destruct (forEachPlayer f (plyrs t) (world t)) as [[st ps] w].
  cbn [fst snd plyrs] in *. apply H. apply Forall_forall. auto.
Qed.

Lemma onDealerHand_sameStakes f : keeps sameStakes (onDealerHand f).
Proof. intro t. unfold sameStakes. rewrite onDealerHand_plyrs. reflexivity. Qed.

Lemma dealToFront_stake p w : stake (snd (fst (dealToFront p w))) = stake p.
Proof.
  unfold dealToFront, stake. destruct (hands p) as [|h t] eqn:E.
  - cbn [fst snd]. rewrite E. reflexivity.
  - destruct (dealCrd (cards h) w) as [[st cs] w']. reflexivity.
Qed.

Lemma playPhases_sameStakes : keeps sameStakes playPhases.
Proof.
  intro t. unfold playPhases.
  apply (keeps_andThen sameStakes _ _ sameStakes_trans).
  - unfold actionsPhase. intro t0. apply onPlayers_sameStakes.
    intros p w. destruct (negb (dealrNatOf t)); [|reflexivity].
    destruct (hdlPlay p (dealrHOf t0) w) as [[st p'] w'] eqn:E.
    destruct (hdlPlay_inv _ _ _ _ _ _ E) as (Hs & _). exact Hs.
  - apply onDealerHand_sameStakes.
Qed.

Lemma placeBet_stake p w : hands p = [] -> stake (snd (fst (placeBet p w))) = stake p.
Proof.
  intro E. unfold placeBet.
  destruct (promptBet (chips p) (cinInts w)) as [[b|] cin']; [|reflexivity].
  unfold stake. cbn [fst snd chips hands setChips setHands]. rewrite E.
  cbn [app betSum map fold_right bet setBet newHand]. lia.
Qed.

Lemma beforeSettlement_stakes (t : Game) :
  Forall (fun p => hands p = []) (plyrs t) ->
  map stake (plyrs (snd (beforeSettlement t))) = map chips (plyrs t).
Proof.
  intro Hno.
  assert (Hstart : map stake (plyrs t) = map chips (plyrs t)).
  { apply map_ext_Forall. eapply Forall_impl; [|exact Hno].
    intros p E. unfold stake. rewrite E. cbn. lia. }
  rewrite <- Hstart. clear Hstart.
  assert (Hrest : keeps sameStakes
            (onPlayers dealToFront ;; dealToDealer ;;
             onPlayers dealToFront ;; dealToDealer ;; playPhases)).
  { repeat (apply keeps_andThen;
            [exact sameStakes_trans
            | try (apply onPlayers_sameStakes; exact dealToFront_stake);
              try apply onDealerHand_sameStakes |]).
    exact playPhases_sameStakes. }
  unfold beforeSettlement. unfold andThen at 1. unfold reshuffleCheck at 1.
  unfold andThen at 1. unfold onPlayers at 1. cbn [plyrs world dealr].
  pose proof (forEachPlayer_map stake (fun p => hands p = []) placeBet
                (fun p w E => placeBet_stake p w E) (plyrs t)) as Hbet.
  match goal with |- context [forEachPlayer placeBet (plyrs t) ?w0] =>
    specialize (Hbet w0 Hno);
    destruct (forEachPlayer placeBet (plyrs t) w0) as [[st ps] w1] end.
  cbn [fst snd] in Hbet.
  destruct st; cbn [snd plyrs]; try exact Hbet.
  rewrite <- Hbet. exact (Hrest (mkGame ps (dealr t) w1)).
Qed.

Lemma gameLoop_fatal (fuel : nat) (t t' : Game) :
  let ps := filter (fun p => negb (chips p <? 1)) (plyrs t) in
  let dw := resetDealer (dealr t) (world t) in
  ps <> [] ->
  playRnd (mkGame ps (fst dw) (snd dw)) = (SupplyExhausted, t') ->
  gameLoop (S fuel) "Y" t = (SupplyExhausted, t').
Proof.
  intros ps dw Hne H. cbn [gameLoop String.eqb Ascii.eqb Bool.eqb].
  fold ps. destruct ps as [|p more] eqn:E; [contradiction|].
  fold dw. destruct dw as [d w]. cbn [fst snd] in H. rewrite H. reflexivity.
Qed.

(** C8.  A draw takes the front card of the undealt sequence.  With the
    undealt sequence empty it first moves the whole discard stack into it and
    shuffles, and then takes the front card; the discard stack is empty
    afterwards.  No other operation moves a discarded card back: a shuffle
    permutes the undealt cards and leaves the stack alone, a discard leaves
    the undealt cards alone, a rebuild replaces both by fresh decks.  With
    both empty the draw fails with the fatal error and changes nothing.  In a
    round the error can only come before settlement; [playRnd] then returns
    the state of the throw: the supply exhausted (so no hand was discarded),
    every player's balance plus wagers on the table equal to the balance at
    the start of the round (so nothing was paid out or forfeited); and the
    session loop stops there. *)
Theorem C8_draw_and_fatal_error :
  (forall trgLst w c d,
      deck w = c :: d ->
      dealCrd trgLst w = (Ok, trgLst ++ [c], setDeck w d))
  /\ (forall trgLst w,
         deck w = [] -> disPile w <> [] ->
         let w1 := shufDk (setDisPile (setDeck w (disPile w)) []) in
         exists c d,
           deck w1 = c :: d
           /\ dealCrd trgLst w = (Ok, trgLst ++ [c], setDeck w1 d)
           /\ Permutation (c :: d) (disPile w)
           /\ disPile (setDeck w1 d) = [])
  /\ (forall trgLst w,
         deck w = [] -> disPile w = [] ->
         dealCrd trgLst w = (SupplyExhausted, trgLst, w))
  /\ (forall w hand num_dk,
         (Permutation (deck (shufDk w)) (deck w) /\ disPile (shufDk w) = disPile w)
         /\ deck (snd (discHnd hand w)) = deck w
         /\ deck (createDk num_dk w) = concat (repeat oneDeck (Z.to_nat num_dk))
         /\ disPile (createDk num_dk w) = [])
  /\ (forall t t',
         playRnd t = (SupplyExhausted, t') ->
         beforeSettlement t = (SupplyExhausted, t')
         /\ exhausted (world t')
         /\ (Forall (fun p => hands p = []) (plyrs t) ->
             map stake (plyrs t') = map chips (plyrs t)))
  /\ (forall fuel t t',
         let ps := filter (fun p => negb (chips p <? 1)) (plyrs t) in
         let dw := resetDealer (dealr t) (world t) in
         ps <> [] ->
         playRnd (mkGame ps (fst dw) (snd dw)) = (SupplyExhausted, t') ->
         gameLoop (S fuel) "Y" t = (SupplyExhausted, t')).
Proof.
  split; [exact dealCrd_front|].
  split; [exact dealCrd_recovery|].
  split; [exact dealCrd_exhausted|].
  split; [|split].
  - intros w hand num_dk.
    destruct (shufDk_frame w) as (Hp & Hd & _).
    repeat split; try assumption; reflexivity.
  - intros t t' H. apply playRnd_fatal_before_settlement in H.
    split; [exact H|]. split; [exact (beforeSettlement_failsExhausted _ _ H)|].
    intro Hno. pose proof (beforeSettlement_stakes t Hno) as Hs.
    rewrite H in Hs. exact Hs.
  - exact gameLoop_fatal.
Qed.

(** The crowded table: thirty players and sixty cards.  The second card of
    the thirtieth player is the sixty-first draw, and there is nothing to
    draw.  The round ends in the fatal error with the supply exhausted and
    every player's 1000 chips accounted for, 999 in the balance and 1 in the
    wager still on the table. *)
Lemma C8_fatal_round_witness :
  fst (playRnd crowdedGame) = SupplyExhausted
  /\ exhausted (world (snd (playRnd crowdedGame)))
  /\ map chips (plyrs (snd (playRnd crowdedGame))) = repeat 999 30
  /\ map stake (plyrs (snd (playRnd crowdedGame))) = repeat 1000 30.
Proof.
  assert (E : playRnd crowdedGame = (SupplyExhausted, snd (playRnd crowdedGame)))
    by (vm_compute; reflexivity).
  destruct (proj1 (proj2 (proj2 (proj2 (proj2 C8_draw_and_fatal_error))))
              crowdedGame _ E) as (_ & He & Hs).
  split; [vm_compute; reflexivity|]. split; [exact He|].
  split; [vm_compute; reflexivity|].
  rewrite Hs; [vm_compute; reflexivity|].
  unfold crowdedGame, seatPlayers. cbn [plyrs]. apply Forall_forall.
  intros p Hin. apply in_map_iff in Hin. destruct Hin as (ni & <- & _).
  reflexivity.
Defined.

(** ** A relation kept by every action is kept by the decision phase *)

Section LoopRelation.

Variable R : Seat -> Seat -> Prop.

Hypothesis R_refl : forall s, R s s.
Hypothesis R_trans : forall a b c, R a b -> R b c -> R a c.

Hypothesis R_read :
  forall p hs w word more,
    cinWords w = word :: more -> R (p, hs, w) (p, hs, setCinWords w more).

Hypothesis R_hit :
  forall p prev curHnd rest w st h' w',
    playHit curHnd w = (st, h', w') ->
    R (p, prev ++ curHnd :: rest, w) (p, prev ++ h' :: rest, w').

Hypothesis R_double :
  forall p prev curHnd rest w st p' h' w',
    playDD p curHnd w = (st, p', h', w') ->
    R (p, prev ++ curHnd :: rest, w) (p', prev ++ h' :: rest, w').

Hypothesis R_split :
  forall p prev curHnd rest w st p' h' rest' w',
    playSplt p curHnd rest w = (st, p', h', rest', w') ->
    R (p, prev ++ curHnd :: rest, w) (p', prev ++ h' :: rest', w').

Lemma playHand_rel :
  forall fuel prev p curHnd rest w st resume p' h' rest' w',
    playHand fuel p curHnd rest w = (st, resume, p', h', rest', w') ->
    R (p, prev ++ curHnd :: rest, w) (p', prev ++ h' :: rest', w').
Proof.
  induction fuel as [|fuel IH];
    intros prev p curHnd rest w st resume p' h' rest' w'; cbn [playHand].
  { intro H; injection H as <- <- <- <- <- <-. apply R_refl. }
  destruct (calcScr curHnd >? 21).
  { intro H; injection H as <- <- <- <- <- <-. apply R_refl. }
  destruct (calcScr curHnd =? 21).
  { intro H; injection H as <- <- <- <- <- <-. apply R_refl. }
  destruct (cinWords w) as [|word more] eqn:Ew.
  { intro H; injection H as <- <- <- <- <- <-. apply R_refl. }
  pose proof (R_read p (prev ++ curHnd :: rest) w word more Ew) as Hread.
  destruct (upcase word =? "H")%string.
  - destruct (playHit curHnd (setCinWords w more)) as [[st1 h1] w1] eqn:E.
    pose proof (R_hit p prev _ rest _ _ _ _ E) as Hh.
    destruct st1;
      try (intro H; injection H as <- <- <- <- <- <-;
           exact (R_trans _ _ _ Hread Hh)).
    intro H. apply (IH prev) in H.
    exact (R_trans _ _ _ (R_trans _ _ _ Hread Hh) H).
  - destruct (upcase word =? "S")%string.
    { intro H; injection H as <- <- <- <- <- <-. exact Hread. }
    destruct ((upcase word =? "D")%string && canDbl p curHnd).
    { destruct (playDD p curHnd (setCinWords w more)) as [[[st1 p1] h1] w1] eqn:E.
      pose proof (R_double p prev _ rest _ _ _ _ _ E) as Hd.
      intro H; injection H as <- <- <- <- <- <-.
      exact (R_trans _ _ _ Hread Hd). }
    destruct ((upcase word =? "P")%string && canSplt curHnd).
    { destruct (playSplt p curHnd rest (setCinWords w more))
        as [[[[st1 p1] h1] r1] w1] eqn:E.
      pose proof (R_split p prev _ _ _ _ _ _ _ _ E) as Hs.
      intro H; injection H as <- <- <- <- <- <-.
      exact (R_trans _ _ _ Hread Hs). }
    intro H. apply (IH prev) in H. exact (R_trans _ _ _ Hread H).
Qed.

Lemma hdlLoop_rel :
  forall fuel p prev todo w st p' hs w',
    hdlLoop fuel p prev todo w = (st, p', hs, w') ->
    R (p, prev ++ todo, w) (p', hs, w').
Proof.
  induction fuel as [|fuel IH]; intros p prev todo w st p' hs w'.
  { destruct todo as [|curHnd rest]; cbn [hdlLoop];
      intro H; injection H as <- <- <- <-;
      rewrite ?app_nil_r; apply R_refl. }
  destruct todo as [|curHnd rest]; cbn [hdlLoop].
  { intro H; injection H as <- <- <- <-. rewrite app_nil_r. apply R_refl. }
  assert (Hskip : hdlLoop fuel p (prev ++ [curHnd]) rest w = (st, p', hs, w') ->
                  R (p, prev ++ curHnd :: rest, w) (p', hs, w')).
  { intro H. apply IH in H. rewrite <- app_assoc in H. exact H. }
  destruct (ddown curHnd); [exact Hskip|].
  destruct (splitAces curHnd); [exact Hskip|]. clear Hskip.
  destruct (playHand fuel p curHnd rest w) as [[[[[st1 resume] p1] h1] r1] w1] eqn:E.
  apply (playHand_rel _ prev) in E.
  destruct st1;
    try (intro H; injection H as <- <- <- <-; exact E).
  destruct resume; intro H; apply IH in H.
  - rewrite <- app_assoc in H. exact (R_trans _ _ _ E H).
  - exact (R_trans _ _ _ E H).
  - rewrite <- app_assoc in H. exact (R_trans _ _ _ E H).
Qed.

Hypothesis R_hands :
  forall p hs w hs', R (p, hs, w) (setHands p hs', hs, w).

Lemma hdlPlay_rel (p : Player) (dlHnd : Hand) (w : World) :
  forall st p' w', hdlPlay p dlHnd w = (st, p', w') ->
    R (p, hands p, w) (p', hands p', w').
Proof.
  intros st p' w'. unfold hdlPlay, hdlRun.
  destruct (hdlLoop _ _ _ _ _) as [[[st1 p1] hs] w1] eqn:E.
  intro H. injection H as <- <- <-.
  apply hdlLoop_rel in E. cbn [app] in E.
  cbn [hands setHands]. exact (R_trans _ _ _ E (R_hands p1 hs w1 hs)).
Qed.

End LoopRelation.

(** Every hand in play keeps a wager of at least 1 through the decision
    phase: a wager is only ever doubled, or copied to the hand a split
    inserts. *)
Lemma hdlPlay_wagered (p : Player) (dlHnd : Hand) (w : World) :
  forall st p' w', hdlPlay p dlHnd w = (st, p', w') ->
    Forall wagered (hands p) -> Forall wagered (hands p').
Proof.
  intros st p' w' H.
  refine (hdlPlay_rel
            (fun s s' => Forall wagered (snd (fst s)) -> Forall wagered (snd (fst s')))
            _ _ _ _ _ _ _ p dlHnd w st p' w' H); cbn [fst snd]; clear.
  - auto.
  - auto.
  - auto.
  - intros p prev curHnd rest w st h' w' E Hall.
    apply Forall_app in Hall. destruct Hall as [Hp Hc].
    inversion Hc as [|? ? Hcur Hrest]; subst.
    apply Forall_app. split; [exact Hp|]. constructor; [|exact Hrest].
    destruct (playHit_cases _ _ _ _ _ E) as [[_ [c ->]] | (_ & -> & _)];
      exact Hcur.
  - intros p prev curHnd rest w st p' h' w' E Hall.
    apply Forall_app in Hall. destruct Hall as [Hp Hc].
    inversion Hc as [|? ? Hcur Hrest]; subst.
    apply Forall_app. split; [exact Hp|]. constructor; [|exact Hrest].
    unfold wagered in *.
    destruct (playDD_cases _ _ _ _ _ _ _ E)
      as [(_ & _ & _ & -> & _) | (_ & _ & [[_ [c ->]] | (_ & -> & _)])];
      cbn [bet]; lia.
  - intros p prev curHnd rest w st p' h' rest' w' E Hall.
    apply Forall_app in Hall. destruct Hall as [Hp Hc].
    inversion Hc as [|? ? Hcur Hrest]; subst.
    apply Forall_app. split; [exact Hp|].
    unfold wagered in *.
    destruct (playSplt_cases _ _ _ _ _ _ _ _ _ E)
      as [(_ & _ & _ & -> & -> & _)
         | (_ & c1 & c2 & _ & _ &
            [(_ & -> & -> & _)
            | (d1 & -> &
               [(-> & _ & ->)
               | (nxtHnd & others & -> &
                  [(_ & -> & _) | (_ & d2 & ->)])])])];
      try (inversion Hrest; subst);
      repeat constructor; cbn [bet setCards]; assumption.
  - auto.
Qed.

(** ** Every card stays at the table *)

Lemma copies_app (c : Card) (l1 l2 : list Card) :
  copies c (l1 ++ l2) = (copies c l1 + copies c l2)%nat.
Proof. apply count_occ_app. Qed.

Lemma copies_perm (l l' : list Card) :
  Permutation l l' -> forall c, copies c l = copies c l'.
Proof. intros H c. apply Permutation_count_occ, H. Qed.

Lemma copies_rev (c : Card) (l : list Card) : copies c (rev l) = copies c l.
Proof. apply copies_perm. symmetry. apply Permutation_rev. Qed.

Lemma dealCrd_copies (trgLst : list Card) (w : World) :
  forall st l' w', dealCrd trgLst w = (st, l', w') ->
    forall c, (supplyCopies c w' + copies c l' = supplyCopies c w + copies c trgLst)%nat.
Proof.
  intros st l' w' H c.
  pose proof (copies_perm _ _ (dealCrd_perm _ _ _ _ _ H) c) as Hc.
  rewrite !copies_app in Hc. unfold supplyCopies. lia.
Qed.

Lemma discHnd_copies (hand : Hand) (w : World) (c : Card) :
  (supplyCopies c (snd (discHnd hand w)) + copies c (cards (fst (discHnd hand w)))
   = supplyCopies c w + copies c (cards hand))%nat.
Proof.
  pose proof (copies_perm _ _ (discHnd_perm hand w) c) as Hc.
  rewrite !copies_app in Hc. unfold supplyCopies. lia.
Qed.

Lemma handsCopies_app (c : Card) (l1 l2 : list Hand) :
  handsCopies c (l1 ++ l2) = (handsCopies c l1 + handsCopies c l2)%nat.
Proof. unfold handsCopies. rewrite flat_map_app. apply copies_app. Qed.

Lemma handsCopies_cons (c : Card) (h : Hand) (l : list Hand) :
  handsCopies c (h :: l) = (copies c (cards h) + handsCopies c l)%nat.
Proof. unfold handsCopies. cbn [flat_map]. apply copies_app. Qed.

Lemma playHit_copies hand w st h' w' :
  playHit hand w = (st, h', w') ->
  forall c, (supplyCopies c w' + copies c (cards h')
             = supplyCopies c w + copies c (cards hand))%nat.
Proof.
  unfold playHit. destruct (dealCrd (cards hand) w) as [[st1 l1] w1] eqn:E.
  intro H. injection H as <- <- <-. exact (dealCrd_copies _ _ _ _ _ E).
Qed.

Lemma playDD_copies p hand w st p' h' w' :
  playDD p hand w = (st, p', h', w') ->
  forall c, (supplyCopies c w' + copies c (cards h')
             = supplyCopies c w + copies c (cards hand))%nat.
Proof.
  unfold playDD.
  destruct (negb _); [intro H; injection H as <- <- <- <-; reflexivity|].
  destruct (_ <? _); [intro H; injection H as <- <- <- <-; reflexivity|].
  match goal with |- context [playHit ?h w] =>
    destruct (playHit h w) as [[st1 h1] w1] eqn:E end.
  intro H. injection H as <- <- <- <-.
  exact (playHit_copies _ _ _ _ _ E).
Qed.

Lemma playSplt_copies p origHnd rest w st p' h' rest' w' :
  playSplt p origHnd rest w = (st, p', h', rest', w') ->
  forall c, (supplyCopies c w' + copies c (cards h') + handsCopies c rest'
             = supplyCopies c w + copies c (cards origHnd) + handsCopies c rest)%nat.
Proof.
  unfold playSplt.
  destruct (Nat.eqb_spec (length (cards origHnd)) 2) as [Hl|Hl]; cbn [negb orb].
  2:{ intro H; injection H as <- <- <- <- <-; reflexivity. }
  destruct (two_cards _ Hl) as (c1 & c2 & E). rewrite E.
  cbn [front back hd last].
  destruct (negb (rank c1 =? rank c2)%string).
  { intro H; injection H as <- <- <- <- <-. rewrite E. reflexivity. }
  destruct (chips p <? bet origHnd).
  { intro H; injection H as <- <- <- <- <-. rewrite E. reflexivity. }
  cbn [eraseAt firstn skipn app nth cards setCards bet].
  destruct (dealCrd [c1] w) as [[st1 l1] w1] eqn:E1.
  pose proof (dealCrd_copies _ _ _ _ _ E1) as H1.
  destruct (dealCrd_status _ _ _ _ _ E1) as [[-> [d1 ->]] | (-> & -> & _)].
  - destruct rest as [|nxtHnd others].
    + intros H c; injection H as <- <- <- <- <-.
      specialize (H1 c). cbn [app] in H1.
      rewrite handsCopies_cons. cbn [cards setCards].
      change [c1; c2] with ([c1] ++ [c2]). rewrite copies_app. lia.
    + destruct (dealCrd (cards nxtHnd) w1) as [[st2 l2] w2] eqn:E2.
      pose proof (dealCrd_copies _ _ _ _ _ E2) as H2.
      intros H c; injection H as <- <- <- <- <-.
      specialize (H1 c). specialize (H2 c). cbn [app] in H1.
      rewrite !handsCopies_cons. cbn [cards setCards].
      change [c1; c2] with ([c1] ++ [c2]). rewrite copies_app. lia.
  - intros H c; injection H as <- <- <- <- <-. specialize (H1 c).
    rewrite handsCopies_cons. cbn [cards setCards].
    change [c1; c2] with ([c1] ++ [c2]). rewrite copies_app. lia.
Qed.

(** The decision phase of a player moves cards between the supply and the
    player's hands and nowhere else. *)
Lemma hdlPlay_copies (p : Player) (dlHnd : Hand) (w : World) :
  forall st p' w', hdlPlay p dlHnd w = (st, p', w') ->
    forall c, (supplyCopies c w' + handsCopies c (hands p')
               = supplyCopies c w + handsCopies c (hands p))%nat.
Proof.
  intros st p' w' H.
  refine (hdlPlay_rel
            (fun s s' => forall c,
                 (supplyCopies c (snd s') + handsCopies c (snd (fst s'))
                  = supplyCopies c (snd s) + handsCopies c (snd (fst s)))%nat)
            _ _ _ _ _ _ _ p dlHnd w st p' w' H); cbn [fst snd]; clear.
  - reflexivity.
  - intros a b c0 H1 H2 c. rewrite H2, H1. reflexivity.
  - reflexivity.
  - intros p prev curHnd rest w st h' w' E c.
    pose proof (playHit_copies _ _ _ _ _ E c).
    rewrite !handsCopies_app, !handsCopies_cons. lia.
  - intros p prev curHnd rest w st p' h' w' E c.
    pose proof (playDD_copies _ _ _ _ _ _ _ E c).
    rewrite !handsCopies_app, !handsCopies_cons. lia.
  - intros p prev curHnd rest w st p' h' rest' w' E c.
    pose proof (playSplt_copies _ _ _ _ _ _ _ _ _ E c).
    rewrite !handsCopies_app, !handsCopies_cons. lia.
  - reflexivity.
Qed.

(** ** The whole round: cards, wagers, and the state between rounds *)

Lemma forEachPlayer_copies (f : Player -> World -> Status * Player * World) :
  (forall p w st p' w', f p w = (st, p', w') ->
     forall c, (supplyCopies c w' + handsCopies c (hands p')
                = supplyCopies c w + handsCopies c (hands p))%nat) ->
  forall ps w st ps' w', forEachPlayer f ps w = (st, ps', w') ->
    forall c,
      (supplyCopies c w'
       + copies c (flat_map (fun p => flat_map cards (hands p)) ps')
       = supplyCopies c w
         + copies c (flat_map (fun p => flat_map cards (hands p)) ps))%nat.
Proof.
  intros Hf ps. induction ps as [|p more IH]; intros w st ps' w';
    cbn [forEachPlayer].
  - intro H. injection H as <- <- <-. reflexivity.
  - destruct (f p w) as [[st1 p1] w1] eqn:E. pose proof (Hf _ _ _ _ _ E) as H1.
    unfold handsCopies in H1.
    destruct st1;
      try (intros H c; injection H as <- <- <-; specialize (H1 c);
           cbn [flat_map]; rewrite !copies_app; lia).
    destruct (forEachPlayer f more w1) as [[st2 more2] w2] eqn:E2.
    pose proof (IH _ _ _ _ E2) as H2.
    intros H c. injection H as <- <- <-. specialize (H1 c). specialize (H2 c).
    cbn [flat_map]. rewrite !copies_app. lia.
Qed.

Lemma onPlayers_sameCards (f : Player -> World -> Status * Player * World) :
  (forall p w st p' w', f p w = (st, p', w') ->
     forall c, (supplyCopies c w' + handsCopies c (hands p')
                = supplyCopies c w + handsCopies c (hands p))%nat) ->
  keeps sameCards (onPlayers f).
Proof.
  intros Hf t c. unfold onPlayers.
  destruct (forEachPlayer f (plyrs t) (world t)) as [[st ps] w] eqn:E.
  pose proof (forEachPlayer_copies f Hf _ _ _ _ _ E c) as H.
  unfold gameCopies. cbn [snd plyrs dealr world]. lia.
Qed.

Lemma onDealerHand_sameCards (f : Hand -> World -> Status * Hand * World) :
  (forall h w st h' w', f h w = (st, h', w') ->
     forall c, (supplyCopies c w' + copies c (cards h')
                = supplyCopies c w + copies c (cards h))%nat) ->
  keeps sameCards (onDealerHand f).
Proof.
  intros Hf t c. unfold onDealerHand.
  destruct (hands (dealr t)) as [|h others] eqn:Eh; [reflexivity|].
  destruct (f h (world t)) as [[st h'] w] eqn:E.
  pose proof (Hf _ _ _ _ _ E c) as H.
  unfold gameCopies. cbn [snd plyrs dealr world hands setHands].
  rewrite Eh, !handsCopies_cons. lia.
Qed.

Lemma sameCards_trans (a b c : Game) :
  sameCards a b -> sameCards b c -> sameCards a c.
Proof. intros H1 H2 x. rewrite H2, H1. reflexivity. Qed.

Lemma placeBet_copies p w st p' w' :
  placeBet p w = (st, p', w') ->
  forall c, (supplyCopies c w' + handsCopies c (hands p')
             = supplyCopies c w + handsCopies c (hands p))%nat.
Proof.
  unfold placeBet.
  destruct (promptBet (chips p) (cinInts w)) as [[b|] cin'];
    intros H c; injection H as <- <- <-; [|reflexivity].
  cbn [hands setChips setHands].
  destruct (hands p) as [|h t]; cbn [app]; [reflexivity|].
  rewrite !handsCopies_cons, handsCopies_app. cbn [cards setBet].
  change (handsCopies c [newHand]) with 0%nat.
  change (supplyCopies c (setCinInts w cin')) with (supplyCopies c w). lia.
Qed.

Lemma dealToFront_copies p w st p' w' :
  dealToFront p w = (st, p', w') ->
  forall c, (supplyCopies c w' + handsCopies c (hands p')
             = supplyCopies c w + handsCopies c (hands p))%nat.
Proof.
  unfold dealToFront. destruct (hands p) as [|h t] eqn:Eh.
  - intros H c. injection H as <- <- <-. rewrite Eh. reflexivity.
  - destruct (dealCrd (cards h) w) as [[st1 cs] w1] eqn:E.
    intros H c. injection H as <- <- <-.
    pose proof (dealCrd_copies _ _ _ _ _ E c).
    cbn [hands setHands]. rewrite !handsCopies_cons. cbn [cards setCards]. lia.
Qed.

Lemma settleOne_discards p hand dealrH w :
  let r := settleOne p hand dealrH w in
  cards (snd (fst r)) = []
  /\ forall c, (supplyCopies c (snd r) = supplyCopies c w + copies c (cards hand))%nat.
Proof.
  unfold settleOne, setHnd.
  assert (H : forall c, (supplyCopies c (snd (discHnd hand w))
                         = supplyCopies c w + copies c (cards hand))%nat).
  { intro c. pose proof (discHnd_copies hand w c) as H. cbn in H. cbn. lia. }
  destruct (bet hand >? 0); cbn [discHnd fst snd cards setCards setBet] in *;
    split; try reflexivity; exact H.
Qed.

Lemma settleLoop_discards dealrH :
  forall hs p w,
    let r := settleLoop p hs dealrH w in
    Forall (fun h => cards h = []) (snd (fst r))
    /\ forall c, (supplyCopies c (snd r) = supplyCopies c w + handsCopies c hs)%nat.
Proof.
  induction hs as [|hand more IH]; intros p w; cbn [settleLoop].
  - split; [constructor | intro c; unfold handsCopies; cbn; lia].
  - pose proof (settleOne_discards p hand dealrH w) as H1.
    destruct (settleOne p hand dealrH w) as [[p1 h1] w1].
    cbn [fst snd] in H1. destruct H1 as [Hc H1].
    specialize (IH p1 w1).
    destruct (settleLoop p1 more dealrH w1) as [[p2 more2] w2].
    cbn [fst snd] in *. destruct IH as [Hall H2].
    split; [constructor; assumption|].
    intro c. rewrite handsCopies_cons, H2, H1. lia.
Qed.

Lemma filter_no_cards (hs : list Hand) :
  Forall (fun h => cards h = []) hs ->
  filter (fun h => negb (length (cards h) =? 0)%nat) hs = [].
Proof.
  induction 1 as [|h t Hh _ IH]; [reflexivity|].
  cbn [filter]. rewrite Hh. cbn. exact IH.
Qed.

(** Settling a player discards every hand and leaves the player with none. *)
Lemma settlePlayer_spec dealrH p w :
  let r := settlePlayer dealrH p w in
  fst (fst r) = Ok
  /\ hands (snd (fst r)) = []
  /\ forall c, (supplyCopies c (snd r) = supplyCopies c w + handsCopies c (hands p))%nat.
Proof.
  unfold settlePlayer.
  pose proof (settleLoop_discards dealrH (hands p) p w) as H.
  destruct (settleLoop p (hands p) dealrH w) as [[p1 hs] w1].
  cbn [fst snd] in *. destruct H as [Hall Hc].
  rewrite (filter_no_cards _ Hall). repeat split. exact Hc.
Qed.

Lemma forEachPlayer_all (Q : Player -> Prop)
    (f : Player -> World -> Status * Player * World) :
  (forall p w, Q (snd (fst (f p w)))) ->
  forall ps w ps' w', forEachPlayer f ps w = (Ok, ps', w') -> Forall Q ps'.
Proof.
  intros Hf ps. induction ps as [|p more IH]; intros w ps' w'; cbn [forEachPlayer].
  - intro H. injection H as <- <-. constructor.
  - specialize (Hf p w). destruct (f p w) as [[st p1] w1]. cbn [fst snd] in Hf.
    destruct st; try discriminate.
    destruct (forEachPlayer f more w1) as [[st2 more2] w2] eqn:E.
    intro H. injection H as -> <- <-. constructor; [exact Hf | exact (IH _ _ _ E)].
Qed.

Lemma forEachPlayer_Forall (P Q : Player -> Prop)
    (f : Player -> World -> Status * Player * World) :
  (forall p, P p -> Q p) ->
  (forall p w, P p -> Q (snd (fst (f p w)))) ->
  forall ps w, Forall P ps -> Forall Q (snd (fst (forEachPlayer f ps w))).
Proof.
  intros Hpq Hf ps. induction ps as [|p more IH]; intros w HP; [constructor|].
  inversion HP as [|? ? Hp Hmore]; subst. cbn [forEachPlayer].
  specialize (Hf p w Hp). destruct (f p w) as [[st p1] w1]. cbn [fst snd] in Hf.
  assert (Hrest : Forall Q more) by (eapply Forall_impl; [exact Hpq | exact Hmore]).
  destruct st; cbn [fst snd]; try (constructor; assumption).
  specialize (IH w1 Hmore).
  destruct (forEachPlayer f more w1) as [[st2 more2] w2]. cbn [fst snd] in *.
  constructor; assumption.
Qed.

Lemma dealerPlay_copies dealrNat dealrH w st h' w' :
  dealerPlay dealrNat dealrH w = (st, h', w') ->
  forall c, (supplyCopies c w' + copies c (cards h')
             = supplyCopies c w + copies c (cards dealrH))%nat.
Proof.
  unfold dealerPlay. destruct (negb dealrNat).
  - intros H c. apply dealerLoop_spec in H.
    destruct H as (drawn & -> & _ & _ & _ & _ & _ & _ & Hp).
    pose proof (copies_perm _ _ Hp c) as Hc. rewrite !copies_app in Hc.
    cbn [cards setCards]. rewrite copies_app. unfold supplyCopies. lia.
  - intros H c. injection H as <- <- <-. reflexivity.
Qed.

Lemma afterReshuffle_sameCards :
  keeps sameCards
    (onPlayers placeBet ;;
     onPlayers dealToFront ;; dealToDealer ;;
     onPlayers dealToFront ;; dealToDealer ;;
     playPhases ;; settlementPhase ;; discardDealer).
Proof.
  assert (Hdeal : keeps sameCards dealToDealer).
  { apply onDealerHand_sameCards. intros h w st h' w'.
    destruct (dealCrd (cards h) w) as [[st1 cs] w1] eqn:E.
    intros H c. injection H as <- <- <-. exact (dealCrd_copies _ _ _ _ _ E c). }
  repeat (apply keeps_andThen;
          [exact sameCards_trans
          | try (apply onPlayers_sameCards; first [exact placeBet_copies
                                                  | exact dealToFront_copies]);
            try exact Hdeal |]).
  - intro t. unfold playPhases.
    apply (keeps_andThen sameCards _ _ sameCards_trans).
    + unfold actionsPhase. intro t0. apply onPlayers_sameCards.
      intros p w st p' w'. destruct (negb (dealrNatOf t)).
      * apply hdlPlay_copies.
      * intros H c. injection H as <- <- <-. reflexivity.
    + apply onDealerHand_sameCards. intros h w st h' w'. apply dealerPlay_copies.
  - unfold settlementPhase. intro t. apply onPlayers_sameCards.
    intros p w st p' w' H c.
    destruct (settlePlayer_spec (dealrHOf t) p w) as (_ & Hh & Hc).
    rewrite H in Hh, Hc. cbn [fst snd] in Hh, Hc.
    rewrite Hh, Hc. change (handsCopies c []) with 0%nat. lia.
  - apply onDealerHand_sameCards. intros h w st h' w' H c.
    injection H as <- <- <-. apply discHnd_copies.
Qed.

Lemma andThen_assoc (f g h : Game -> Status * Game) (t : Game) :
  ((f ;; g) ;; h) t = (f ;; g ;; h) t.
Proof.
  unfold andThen. destruct (f t) as [st t1]. destruct st; try reflexivity.
Qed.

Lemma andThen_ext (f g g' : Game -> Status * Game) :
  (forall t, g t = g' t) -> forall t, (f ;; g) t = (f ;; g') t.
Proof.
  intros H t. unfold andThen. destruct (f t) as [st t1].
  destruct st; try reflexivity. apply H.
Qed.

(** [playRnd] is the low-water check followed by the rest of the round. *)
Lemma playRnd_after_reshuffle (t : Game) :
  playRnd t
  = (onPlayers placeBet ;;
     onPlayers dealToFront ;; dealToDealer ;;
     onPlayers dealToFront ;; dealToDealer ;;
     playPhases ;; settlementPhase ;; discardDealer) (snd (reshuffleCheck t)).
Proof.
  unfold playRnd, beforeSettlement.
  rewrite andThen_assoc. unfold andThen at 1. cbn [reshuffleCheck snd].
  do 5 (rewrite andThen_assoc; apply andThen_ext; intro).
  reflexivity.
Qed.

(** The low-water check: with 60 cards or more undealt nothing changes;
    with fewer, the supply becomes four fresh decks, shuffled, and the
    players and the dealer are left alone. *)
Lemma reshuffleCheck_spec (t : Game) :
  let t0 := snd (reshuffleCheck t) in
  plyrs t0 = plyrs t /\ dealr t0 = dealr t
  /\ forall c,
      supplyCopies c (world t0)
      = if (length (deck (world t)) <? 60)%nat
        then copies c (concat (repeat oneDeck 4))
        else supplyCopies c (world t).
Proof.
  cbn [reshuffleCheck snd plyrs dealr world].
  split; [reflexivity|]. split; [reflexivity|]. intro c.
  destruct (length (deck (world t)) <? 60)%nat; [|reflexivity].
  destruct (shufDk_frame (createDk 4 (world t))) as (Hp & Hd & _).
  unfold supplyCopies. rewrite Hd, (copies_perm _ _ Hp c).
  cbn [createDk deck disPile setDeck setDisPile].
  change (Z.to_nat 4) with 4%nat. change (copies c []) with 0%nat. lia.
Qed.

(** The cards of a round, in the state the model returns: those held by the
    supply and the hands are those held after the low-water check. *)
Lemma playRnd_copies (t : Game) (c : Card) :
  gameCopies c (snd (playRnd t))
  = if (length (deck (world t)) <? 60)%nat
    then (copies c (concat (repeat oneDeck 4))
          + copies c (flat_map (fun p => flat_map cards (hands p)) (plyrs t))
          + handsCopies c (hands (dealr t)))%nat
    else gameCopies c t.
Proof.
  rewrite playRnd_after_reshuffle, (afterReshuffle_sameCards _ c).
  destruct (reshuffleCheck_spec t) as (Hp & Hd & Hs).
  unfold gameCopies at 1. rewrite Hp, Hd, Hs.
  destruct (length (deck (world t)) <? 60)%nat; reflexivity.
Qed.

(** Across a whole round, whether it completes, stops in the fatal error or
    waits for input, every card stays at the table: the cards held by the
    supply and the hands after the round are those held after the low-water
    check.  (A round that runs into the access through [end()] has no
    defined state to speak of.) *)
Theorem playRnd_conserves_cards (t : Game) (c : Card) :
  fst (playRnd t) <> Undefined ->
  gameCopies c (snd (playRnd t))
  = if (length (deck (world t)) <? 60)%nat
    then (copies c (concat (repeat oneDeck 4))
          + copies c (flat_map (fun p => flat_map cards (hands p)) (plyrs t))
          + handsCopies c (hands (dealr t)))%nat
    else gameCopies c t.
Proof. intros _. exact (playRnd_copies t c). Qed.

Lemma playRnd_conserves_cards_witness :
  fst (playRnd quietGame) = Ok
  /\ gameCopies twoOfClubs (snd (playRnd quietGame)) = 60%nat.
Proof.
  split; [vm_compute; reflexivity|].
  rewrite (playRnd_conserves_cards quietGame twoOfClubs);
    [vm_compute; reflexivity | vm_compute; discriminate].
Defined.

Lemma promptBet_valid (balance : Z) (cin : list Z) :
  forall b cin', promptBet balance cin = (Some b, cin') -> 1 <= b <= balance.
Proof.
  induction cin as [|x cin IH]; intros b cin'; cbn [promptBet]; [discriminate|].
  destruct (Z.ltb_spec x 1) as [H1|H1]; cbn [orb]; [apply IH|].
  destruct (Z.gtb_spec x balance) as [H2|H2]; [apply IH|].
  intro H. injection H as <- <-. lia.
Qed.

(** The wagers on the table when the settlement begins: a bet is at least
    1, a double doubles it, a split copies it. *)
Lemma beforeSettlement_wagered (t : Game) :
  noHands t ->
  Forall (fun p => Forall wagered (hands p)) (plyrs (snd (beforeSettlement t))).
Proof.
  intro Hno.
  set (Q := fun p : Player => Forall wagered (hands p)).
  assert (Hon : forall f,
             (forall p w, Q p -> Q (snd (fst (f p w)))) ->
             forall t0, Forall Q (plyrs t0) -> Forall Q (plyrs (snd (onPlayers f t0)))).
  { intros f Hf t0 H0. unfold onPlayers.
    pose proof (forEachPlayer_Forall Q Q f (fun p H => H) Hf (plyrs t0) (world t0) H0).
    destruct (forEachPlayer f (plyrs t0) (world t0)) as [[st ps] w]. exact H. }
  assert (Hdl : forall f t0, Forall Q (plyrs t0) ->
                             Forall Q (plyrs (snd (onDealerHand f t0)))).
  { intros f t0 H0. rewrite onDealerHand_plyrs. exact H0. }
  assert (Hseq : forall f g : Game -> Status * Game,
             (forall t0, Forall Q (plyrs t0) -> Forall Q (plyrs (snd (f t0)))) ->
             (forall t0, Forall Q (plyrs t0) -> Forall Q (plyrs (snd (g t0)))) ->
             forall t0, Forall Q (plyrs t0) -> Forall Q (plyrs (snd ((f ;; g) t0)))).
  { intros f g Hf Hg t0 H0. unfold andThen. specialize (Hf t0 H0).
    destruct (f t0) as [st t1]. destruct st; try exact Hf. apply Hg, Hf. }
  assert (Hfront : forall p w, Q p -> Q (snd (fst (dealToFront p w)))).
  { intros p w Hq. unfold dealToFront, Q in *.
    destruct (hands p) as [|h tl] eqn:E; [cbn; rewrite E; exact Hq|].
    destruct (dealCrd (cards h) w) as [[st cs] w']. cbn [fst snd hands setHands].
    inversion Hq; subst. constructor; assumption. }
  unfold beforeSettlement. unfold andThen at 1. cbn [reshuffleCheck].
  unfold andThen at 1.
  match goal with |- context [onPlayers placeBet ?t0] =>
    assert (Hbet : Forall Q (plyrs (snd (onPlayers placeBet t0)))) end.
  { unfold onPlayers. cbn [plyrs world].
    match goal with |- context [forEachPlayer placeBet (plyrs t) ?w0] =>
      pose proof (forEachPlayer_Forall (fun p => hands p = []) Q placeBet) as H;
      specialize (H ltac:(intros p E; unfold Q; rewrite E; constructor));
      specialize (fun Hf => H Hf (plyrs t) w0 Hno);
      destruct (forEachPlayer placeBet (plyrs t) w0) as [[st ps] w1] end.
    apply H. intros p w E. unfold placeBet, Q.
    destruct (promptBet (chips p) (cinInts w)) as [[b|] cin'] eqn:Eb;
      cbn [fst snd hands setChips setHands]; rewrite E; [|constructor].
    apply promptBet_valid in Eb. cbn [app]. repeat constructor.
    unfold wagered. cbn [bet setBet]. lia. }
  match goal with |- context [onPlayers placeBet ?t0] =>
    destruct (onPlayers placeBet t0) as [st t1] end.
  cbn [snd] in Hbet. destruct st; try exact Hbet.
  revert t1 Hbet.
  repeat (apply Hseq; [first [apply Hon; exact Hfront | apply Hdl]|]).
  intros t1 H1. unfold playPhases. cbn zeta.
  generalize (dealrNatOf t1). intro dealrNat. revert t1 H1.
  apply Hseq; [|apply Hdl].
  intros t2 H2. unfold actionsPhase. apply Hon; [|exact H2].
  intros p w Hq. destruct (negb dealrNat); [|exact Hq].
  destruct (hdlPlay p (dealrHOf t2) w) as [[st p'] w'] eqn:E.
  exact (hdlPlay_wagered _ _ _ _ _ _ E Hq).
Qed.

(** Every hand that reaches settlement carries a wager of at least 1. *)
Lemma wagers_before_settlement (t : Game) :
  noHands t ->
  Forall (fun p => Forall wagered (hands p)) (plyrs (snd (beforeSettlement t))).
Proof. exact (beforeSettlement_wagered t). Qed.

(** What a round that ran to its end has done with the hands. *)
Lemma playRnd_clears_hands (t t' : Game) :
  playRnd t = (Ok, t') ->
  noHands t'
  /\ exists others, hands (dealr t') = mkHand [] 0 (isplit (dealrHOf t')) (ddown (dealrHOf t')) :: others.
Proof.
  unfold playRnd. unfold andThen at 1.
  destruct (beforeSettlement t) as [st t1]. destruct st; try discriminate.
  unfold andThen, settlementPhase, onPlayers.
  destruct (forEachPlayer (settlePlayer (dealrHOf t1)) (plyrs t1) (world t1))
    as [[st ps] w] eqn:E.
  pose proof (forEachPlayer_ok (settlePlayer (dealrHOf t1))
                (fun p w => proj1 (settlePlayer_spec (dealrHOf t1) p w))
                (plyrs t1) (world t1)) as Hok.
  rewrite E in Hok. cbn [fst] in Hok. subst st.
  pose proof (forEachPlayer_all (fun p => hands p = [])
                (settlePlayer (dealrHOf t1))
                (fun p w => proj1 (proj2 (settlePlayer_spec (dealrHOf t1) p w)))
                _ _ _ _ E) as Hall.
  unfold discardDealer, onDealerHand. cbn [dealr plyrs world].
  destruct (hands (dealr t1)) as [|h others]; [discriminate|].
  intro H. injection H as <-. split; [exact Hall|].
  exists others. reflexivity.
Qed.

(** A round that completes leaves no player with a hand and the dealer's
    hand empty: the next round starts from the state the first one did. *)
Lemma playRnd_leaves_no_hands (t t' : Game) :
  playRnd t = (Ok, t') ->
  noHands t'
  /\ exists others, hands (dealr t') = mkHand [] 0 (isplit (dealrHOf t')) (ddown (dealrHOf t')) :: others.
Proof. exact (playRnd_clears_hands t t'). Qed.

Lemma wagers_before_settlement_witness :
  Forall (fun p => Forall wagered (hands p))
         (plyrs (snd (beforeSettlement quietGame))).
Proof.
  apply (wagers_before_settlement quietGame). repeat constructor.
Defined.

Lemma playRnd_leaves_no_hands_witness :
  map chips (plyrs (snd (playRnd quietGame))) = [990]
  /\ noHands (snd (playRnd quietGame)).
Proof.
  assert (E : playRnd quietGame = (Ok, snd (playRnd quietGame)))
    by (vm_compute; reflexivity).
  split; [vm_compute; reflexivity|].
  exact (proj1 (playRnd_leaves_no_hands quietGame _ E)).
Defined.

(** The table of the specification: two aces score 12; two aces and a nine
    21; three aces and a nine 12. *)
Lemma calcScr_ace_table :
  calcScr (staked [aceSpades; aceHearts]) = 12
  /\ calcScr (staked [aceSpades; aceHearts; nineSpades]) = 21
  /\ calcScr (staked [aceSpades; aceHearts; aceSpades; nineSpades]) = 12.
Proof. repeat split; vm_compute; reflexivity. Qed.

(** ** The session loop never gives up *)

Lemma hdlPlay_input (p : Player) (dlHnd : Hand) (w : World) :
  forall st p' w', hdlPlay p dlHnd w = (st, p', w') ->
    (length (cinWords w') <= length (cinWords w))%nat.
Proof.
  intros st p' w' H.
  refine (hdlPlay_rel
            (fun s s' => (length (cinWords (snd s')) <= length (cinWords (snd s)))%nat)
            _ _ _ _ _ _ _ p dlHnd w st p' w' H); cbn [fst snd]; clear.
  - intros; lia.
  - intros; lia.
  - intros p hs w word more E. rewrite E. cbn. lia.
  - intros p prev curHnd rest w st h' w' E.
    pose proof (playHit_cin curHnd w) as H. rewrite E in H. cbn [snd] in H.
    rewrite H. lia.
  - intros p prev curHnd rest w st p' h' w' E.
    pose proof (playDD_cin p curHnd w) as H. rewrite E in H. cbn [snd] in H.
    rewrite H. lia.
  - intros p prev curHnd rest w st p' h' rest' w' E.
    pose proof (playSplt_cin p curHnd rest w) as H. rewrite E in H. cbn [snd] in H.
    rewrite H. lia.
  - intros; lia.
Qed.

Lemma forEachPlayer_input (f : Player -> World -> Status * Player * World) :
  (forall p w, (length (cinWords (snd (f p w))) <= length (cinWords w))%nat) ->
  forall ps w,
    (length (cinWords (snd (forEachPlayer f ps w))) <= length (cinWords w))%nat.
Proof.
  intros Hf ps. induction ps as [|p more IH]; intro w; cbn [forEachPlayer];
    [cbn; lia|].
  specialize (Hf p w). destruct (f p w) as [[st p1] w1]. cbn [snd] in Hf.
  destruct st; cbn [snd]; try exact Hf.
  specialize (IH w1). destruct (forEachPlayer f more w1) as [[st2 more2] w2].
  cbn [snd] in *. lia.
Qed.

Lemma inputShrinks_trans (a b c : Game) :
  inputShrinks a b -> inputShrinks b c -> inputShrinks a c.
Proof. unfold inputShrinks. lia. Qed.

Lemma onPlayers_input (f : Player -> World -> Status * Player * World) :
  (forall p w, (length (cinWords (snd (f p w))) <= length (cinWords w))%nat) ->
  keeps inputShrinks (onPlayers f).
Proof.
  intros Hf t. unfold inputShrinks, onPlayers.
  pose proof (forEachPlayer_input f Hf (plyrs t) (world t)) as H.
  destruct (forEachPlayer f (plyrs t) (world t)) as [[st ps] w]. exact H.
Qed.

Lemma onDealerHand_input (f : Hand -> World -> Status * Hand * World) :
  (forall h w, cinWords (snd (f h w)) = cinWords w) ->
  keeps inputShrinks (onDealerHand f).
Proof.
  intros Hf t. unfold inputShrinks, onDealerHand.
  destruct (hands (dealr t)) as [|h others]; [cbn; lia|].
  specialize (Hf h (world t)). destruct (f h (world t)) as [[st h'] w].
  cbn [snd world] in *. rewrite Hf. lia.
Qed.

Lemma playRnd_input : keeps inputShrinks playRnd.
Proof.
  assert (Hfront : forall p w,
             (length (cinWords (snd (dealToFront p w))) <= length (cinWords w))%nat).
  { intros p w. unfold dealToFront. destruct (hands p) as [|h t]; [cbn; lia|].
    pose proof (proj1 (dealCrd_cin (cards h) w)) as H.
    destruct (dealCrd (cards h) w) as [[st cs] w']. cbn [snd] in *. rewrite H. lia. }
  assert (Hdeal : keeps inputShrinks dealToDealer).
  { apply onDealerHand_input. intros h w.
    pose proof (proj1 (dealCrd_cin (cards h) w)) as H.
    destruct (dealCrd (cards h) w) as [[st cs] w']. exact H. }
  unfold playRnd, beforeSettlement.
  repeat (apply keeps_andThen;
          [exact inputShrinks_trans
          | try (apply onPlayers_input; exact Hfront); try exact Hdeal |]).
  - intro t. unfold inputShrinks. cbn [reshuffleCheck snd world].
    destruct (length (deck (world t)) <? 60)%nat; [|lia].
    destruct (shufDk_frame (createDk 4 (world t))) as (_ & _ & _ & ->).
    cbn. lia.
  - apply onPlayers_input. intros p w. unfold placeBet.
    destruct (promptBet (chips p) (cinInts w)) as [[b|] cin']; cbn; lia.
  - intro t. unfold playPhases.
    apply (keeps_andThen inputShrinks _ _ inputShrinks_trans).
    + unfold actionsPhase. intro t0. apply onPlayers_input.
      intros p w. destruct (negb (dealrNatOf t)); [|cbn; lia].
      destruct (hdlPlay p (dealrHOf t0) w) as [[st p'] w'] eqn:E.
      exact (hdlPlay_input _ _ _ _ _ _ E).
    + apply onDealerHand_input. intros h w. unfold dealerPlay.
      destruct (negb (dealrNatOf t)); [|reflexivity].
      destruct (dealerLoop _ h w) as [[st h'] w'] eqn:E.
      apply dealerLoop_spec in E.
      destruct E as (drawn & _ & _ & _ & _ & _ & Hw & _). exact Hw.
  - unfold settlementPhase. intro t. apply onPlayers_input.
    intros p w. unfold settlePlayer.
    assert (H : forall hs p0 w0,
               cinWords (snd (settleLoop p0 hs (dealrHOf t) w0)) = cinWords w0).
    { induction hs as [|h more IH]; intros p0 w0; cbn [settleLoop]; [reflexivity|].
      assert (H1 : cinWords (snd (settleOne p0 h (dealrHOf t) w0)) = cinWords w0).
      { unfold settleOne, setHnd. destruct (bet h >? 0); reflexivity. }
      destruct (settleOne p0 h (dealrHOf t) w0) as [[p1 h1] w1].
      specialize (IH p1 w1).
      destruct (settleLoop p1 more (dealrHOf t) w1) as [[p2 m2] w2].
      cbn [snd] in *. congruence. }
    specialize (H (hands p) p w).
    destruct (settleLoop p (hands p) (dealrHOf t) w) as [[p1 hs] w1].
    cbn [snd] in *. rewrite H. lia.
  - apply onDealerHand_input. intros h w. reflexivity.
Qed.

Lemma forEachPlayer_fuel (f : Player -> World -> Status * Player * World) :
  (forall p w, fst (fst (f p w)) <> OutOfFuel) ->
  forall ps w, fst (fst (forEachPlayer f ps w)) <> OutOfFuel.
Proof.
  intros Hf ps. induction ps as [|p more IH]; intro w; cbn [forEachPlayer];
    [discriminate|].
  specialize (Hf p w). destruct (f p w) as [[st p1] w1]. cbn [fst] in Hf.
  destruct st; cbn [fst]; try discriminate; try contradiction.
  specialize (IH w1). destruct (forEachPlayer f more w1) as [[st2 more2] w2].
  exact IH.
Qed.

Lemma andThen_fuel (f g : Game -> Status * Game) :
  (forall t, fst (f t) <> OutOfFuel) ->
  (forall t, fst (g t) <> OutOfFuel) ->
  forall t, fst ((f ;; g) t) <> OutOfFuel.
Proof.
  intros Hf Hg t. unfold andThen. specialize (Hf t).
  destruct (f t) as [st t1]. cbn [fst] in Hf.
  destruct st; cbn [fst]; try discriminate; try contradiction. apply Hg.
Qed.

Lemma onPlayers_fuel (f : Player -> World -> Status * Player * World) :
  (forall p w, fst (fst (f p w)) <> OutOfFuel) ->
  forall t, fst (onPlayers f t) <> OutOfFuel.
Proof.
  intros Hf t. unfold onPlayers.
  pose proof (forEachPlayer_fuel f Hf (plyrs t) (world t)) as H.
  destruct (forEachPlayer f (plyrs t) (world t)) as [[st ps] w]. exact H.
Qed.

Lemma onDealerHand_fuel (f : Hand -> World -> Status * Hand * World) :
  (forall h w, fst (fst (f h w)) <> OutOfFuel) ->
  forall t, fst (onDealerHand f t) <> OutOfFuel.
Proof.
  intros Hf t. unfold onDealerHand.
  destruct (hands (dealr t)) as [|h others]; [discriminate|].
  specialize (Hf h (world t)). destruct (f h (world t)) as [[st h'] w]. exact Hf.
Qed.

(** A round never stops for lack of fuel. *)
Lemma playRnd_total (t : Game) : fst (playRnd t) <> OutOfFuel.
Proof.
  assert (Hdraw : forall l w, fst (fst (dealCrd l w)) <> OutOfFuel).
  { intros l w. destruct (dealCrd l w) as [[st l'] w'] eqn:E.
    destruct (dealCrd_status _ _ _ _ _ E) as [[-> _] | [-> _]]; discriminate. }
  assert (Hfront : forall p w, fst (fst (dealToFront p w)) <> OutOfFuel).
  { intros p w. unfold dealToFront. destruct (hands p) as [|h tl]; [discriminate|].
    specialize (Hdraw (cards h) w).
    destruct (dealCrd (cards h) w) as [[st cs] w']. exact Hdraw. }
  assert (Hdeal : forall t0, fst (dealToDealer t0) <> OutOfFuel).
  { apply onDealerHand_fuel. intros h w. specialize (Hdraw (cards h) w).
    destruct (dealCrd (cards h) w) as [[st cs] w']. exact Hdraw. }
  revert t. unfold playRnd, beforeSettlement.
  repeat (apply andThen_fuel;
          [first [apply onPlayers_fuel; exact Hfront | exact Hdeal | idtac] |]).
  - intro t. discriminate.
  - apply onPlayers_fuel. intros p w. unfold placeBet.
    destruct (promptBet (chips p) (cinInts w)) as [[b|] cin']; discriminate.
  - intro t. unfold playPhases. cbn zeta.
    generalize (dealrNatOf t). intro dealrNat. revert t.
    apply andThen_fuel.
    + intro t. unfold actionsPhase. apply onPlayers_fuel.
      intros p w. destruct (negb dealrNat); [apply hdlPlay_total | discriminate].
    + apply onDealerHand_fuel. intros h w. unfold dealerPlay.
      destruct (negb dealrNat); [|discriminate].
      apply dealerLoop_total. lia.
  - intro t. unfold settlementPhase. apply onPlayers_fuel.
    intros p w. rewrite (proj1 (settlePlayer_spec (dealrHOf t) p w)). discriminate.
  - apply onDealerHand_fuel. intros h w. discriminate.
Qed.

Lemma gameLoop_total :
  forall fuel playAgn t,
    (length (cinWords (world t)) < fuel)%nat ->
    fst (gameLoop fuel playAgn t) <> OutOfFuel.
Proof.
  induction fuel as [|fuel IH]; intros playAgn t Hf; [lia|].
  cbn [gameLoop]. destruct (playAgn =? "Y")%string; [|discriminate].
  destruct (filter _ (plyrs t)) as [|p0 ps]; [discriminate|].
  assert (Hr : cinWords (snd (resetDealer (dealr t) (world t)))
               = cinWords (world t)).
  { unfold resetDealer. destruct (hands (dealr t)) as [|h others]; [reflexivity|].
    destruct (bet h >? 0); reflexivity. }
  destruct (resetDealer (dealr t) (world t)) as [d w]. cbn [snd] in Hr.
  pose proof (playRnd_input (mkGame (p0 :: ps) d w)) as Hin.
  pose proof (playRnd_total (mkGame (p0 :: ps) d w)) as Htot.
  unfold inputShrinks in Hin. cbn [world] in Hin. rewrite Hr in Hin.
  destruct (playRnd (mkGame (p0 :: ps) d w)) as [st t'] eqn:E.
  cbn [fst snd] in Hin, Htot.
  destruct st; try discriminate; try contradiction.
  destruct (cinWords (world t')) as [|word more] eqn:Ew; [discriminate|].
  apply IH. cbn [world cinWords setCinWords]. cbn [length] in Hin. lia.
Qed.

(** A session never stops for lack of fuel: it ends because the players
    said so or went broke, in the fatal error, or waiting for input. *)
Lemma runGame_total (names : list string) (w : World) :
  fst (runGame names w) <> OutOfFuel.
Proof.
  unfold runGame. apply gameLoop_total. cbn [world]. lia.
Qed.

(* ================================================================= *)
(** * Part IV: further properties of the program *)
(* ================================================================= *)

(** ** Scoring: order of the cards, closed form *)

Lemma nonAces_perm (l l' : list Card) :
  Permutation l l' -> sumValues (nonAces l) = sumValues (nonAces l').
Proof.
  unfold sumValues, nonAces.
  induction 1 as [|c l l' _ IH|a b l|l l' l'' _ IH1 _ IH2].
  - reflexivity.
  - cbn [filter]. destruct (negb (isAce c)); cbn [map fold_right]; lia.
  - cbn [filter].
    destruct (negb (isAce a)), (negb (isAce b)); cbn [map fold_right]; lia.
  - lia.
Qed.

Lemma aceCount_perm (l l' : list Card) :
  Permutation l l' -> aceCount l = aceCount l'.
Proof.
  unfold aceCount.
  induction 1 as [|c l l' _ IH|a b l|l l' l'' _ IH1 _ IH2].
  - reflexivity.
  - cbn [filter]. destruct (isAce c); cbn [length]; lia.
  - cbn [filter]. destruct (isAce a), (isAce b); reflexivity.
  - lia.
Qed.

(** The score of a hand does not depend on the order in which its cards
    came. *)
Theorem calcScr_order_irrelevant (h1 h2 : Hand) :
  Permutation (cards h1) (cards h2) -> calcScr h1 = calcScr h2.
Proof.
  intro Hp. rewrite !calcScr_scoreSpec. unfold scoreSpec.
  rewrite (nonAces_perm _ _ Hp), (aceCount_perm _ _ Hp). reflexivity.
Qed.

Lemma calcScr_order_irrelevant_witness :
  calcScr (staked [aceSpades; sixDiamonds; kingSpades])
  = calcScr (mkHand [kingSpades; aceSpades; sixDiamonds] 0 true true).
Proof.
  apply calcScr_order_irrelevant. cbn [cards].
  apply Permutation_sym, (Permutation_cons_app [aceSpades; sixDiamonds] []).
  apply Permutation_refl.
Defined.

Lemma calcScr_hard (hand : Hand) :
  hardTotal (cards hand) <= calcScr hand
  /\ (21 < calcScr hand -> calcScr hand = hardTotal (cards hand)).
Proof.
  rewrite calcScr_scoreSpec. unfold scoreSpec, hardTotal.
  destruct (soften_least (aceCount (cards hand))
              (sumValues (nonAces (cards hand))
               + 11 * Z.of_nat (aceCount (cards hand))))
    as (j & Hj & -> & Hlt & _).
  split; [lia|]. intro Hbust.
  assert (j = aceCount (cards hand)) by lia. lia.
Qed.

Lemma soften_closed (k : nat) (hard : Z) :
  Z.of_nat k <= hard ->
  soften k (hard + 10 * Z.of_nat k)
  = if (0 <? k)%nat && (hard <=? 11) then hard + 10 else hard.
Proof.
  revert hard. induction k as [|k IH]; intros hard Hk.
  - cbn [soften Nat.ltb Nat.leb andb]. lia.
  - cbn [soften].
    replace (0 <? S k)%nat with true by reflexivity. cbn [andb].
    destruct (Z.gtb_spec (hard + 10 * Z.of_nat (S k)) 21) as [Hgt|Hle].
    + replace (hard + 10 * Z.of_nat (S k) - 10) with (hard + 10 * Z.of_nat k) by lia.
      rewrite IH by lia.
      destruct k as [|k].
      * cbn [Nat.ltb Nat.leb andb]. destruct (Z.leb_spec hard 11); lia.
      * reflexivity.
    + destruct (Z.leb_spec hard 11); lia.
Qed.

Lemma sumValues_nonneg (l : list Card) :
  valuesNonneg l -> 0 <= sumValues (nonAces l).
Proof.
  unfold valuesNonneg, sumValues, nonAces.
  induction 1 as [|c l Hc _ IH]; cbn [filter map fold_right]; [lia|].
  destruct (negb (isAce c)); cbn [map fold_right]; lia.
Qed.

(** The score lies at or above the total with every ace counted as 1, and
    a hand is bust exactly when that total exceeds 21.  With no card of
    negative value, the score is that total plus 10 when the hand holds an
    ace and the 10 keeps it at 21 or below, and that total otherwise: at
    most one ace ever counts 11. *)
Theorem calcScr_closed_form (hand : Hand) :
  let hard := hardTotal (cards hand) in
  hard <= calcScr hand
  /\ (calcScr hand > 21 <-> hard > 21)
  /\ (valuesNonneg (cards hand) ->
      calcScr hand
      = if (0 <? aceCount (cards hand))%nat && (hard <=? 11)
        then hard + 10 else hard).
Proof.
  intro hard. destruct (calcScr_hard hand) as [Hlow Hbust]. fold hard in Hlow, Hbust.
  split; [exact Hlow|]. split; [split; intro H; [rewrite <- Hbust; lia | lia]|].
  intro Hv. pose proof (sumValues_nonneg _ Hv) as Hs.
  rewrite calcScr_scoreSpec. unfold scoreSpec.
  replace (sumValues (nonAces (cards hand)) + 11 * Z.of_nat (aceCount (cards hand)))
    with (hard + 10 * Z.of_nat (aceCount (cards hand)))
    by (unfold hard, hardTotal; lia).
  apply soften_closed. unfold hard, hardTotal. lia.
Qed.

Lemma calcScr_closed_form_witness :
  calcScr (staked [aceSpades; aceHearts; nineSpades]) = 11 + 10.
Proof.
  apply (proj2 (proj2 (calcScr_closed_form
                         (staked [aceSpades; aceHearts; nineSpades])))).
  repeat constructor; vm_compute; discriminate.
Defined.

(** ** The deck: what [createDk] builds and how [shufDk] moves it *)

Lemma oneDeck_In (c : Card) :
  In c oneDeck <-> In (rank c, value c) CRDVALS /\ In (suit c) SUITS.
Proof.
  unfold oneDeck. rewrite in_flat_map. split.
  - intros ([r v] & Hr & Hc). apply in_map_iff in Hc.
    destruct Hc as (s & <- & Hs). cbn [rank value suit fst snd]. auto.
  - intros [Hr Hs]. exists (rank c, value c). split; [exact Hr|].
    apply in_map_iff. exists (suit c). split; [|exact Hs].
    destruct c. reflexivity.
Qed.

Lemma oneDeck_NoDup : NoDup oneDeck.
Proof.
  apply (NoDup_count_occ' Card_eq_dec). intros c Hin.
  vm_compute in Hin.
  repeat (destruct Hin as [<-|Hin]; [vm_compute; reflexivity|]).
  contradiction.
Qed.

Lemma copies_decks (c : Card) (n : nat) :
  copies c (concat (repeat oneDeck n)) = (n * copies c oneDeck)%nat.
Proof.
  induction n as [|n IH]; [reflexivity|].
  cbn [repeat concat]. rewrite copies_app, IH. lia.
Qed.

(** [createDk num_dk] leaves the discard stack empty and the undealt
    sequence holding [num_dk] copies of each card of the standard deck, and
    nothing else; none when [num_dk] is zero or negative.  The standard deck
    is the 52 distinct cards that pair a rank of [CRDVALS], with its value,
    and a suit of [SUITS]; the ranks of [CRDVALS] are those of [VALRANKS],
    listed in the increasing order in which the program's [std::map] and
    [std::set] are traversed (so the first cards made are the tens). *)
Theorem createDk_contents (num_dk : Z) (w : World) :
  (forall c, copies c (deck (createDk num_dk w))
             = if in_dec Card_eq_dec c oneDeck then Z.to_nat num_dk else 0%nat)
  /\ disPile (createDk num_dk w) = []
  /\ (num_dk <= 0 -> deck (createDk num_dk w) = [])
  /\ NoDup oneDeck
  /\ length oneDeck = 52%nat
  /\ (forall c, In c oneDeck
                <-> In (rank c, value c) CRDVALS /\ In (suit c) SUITS)
  /\ map fst CRDVALS = VALRANKS
  /\ StronglySorted (fun r s => (r <? s)%string = true) VALRANKS.
Proof.
  split; [|split; [|split; [|split; [|split; [|split; [|split]]]]]].
  - intro c. cbn [createDk deck setDeck setDisPile]. rewrite copies_decks.
    destruct (in_dec Card_eq_dec c oneDeck) as [Hin|Hout].
    + unfold copies.
      rewrite (proj1 (NoDup_count_occ' Card_eq_dec oneDeck) oneDeck_NoDup c Hin).
      lia.
    + unfold copies.
      rewrite (proj1 (count_occ_not_In Card_eq_dec oneDeck c) Hout). lia.
  - reflexivity.
  - intro Hn. cbn [createDk deck setDeck setDisPile].
    replace (Z.to_nat num_dk) with 0%nat by lia. reflexivity.
  - exact oneDeck_NoDup.
  - reflexivity.
  - exact oneDeck_In.
  - reflexivity.
  - unfold VALRANKS.
    repeat (apply SSorted_cons; [|repeat (apply Forall_cons; [reflexivity|]);
                                  apply Forall_nil]).
    apply SSorted_nil.
Qed.

Lemma eraseAt_length (k : nat) (l : list Card) :
  (k < length l)%nat -> length (eraseAt k l) = (length l - 1)%nat.
Proof.
  intro Hk. unfold eraseAt.
  rewrite length_app, length_firstn, length_skipn. lia.
Qed.

Lemma insertAt_length (k : nat) (c : Card) (l : list Card) :
  length (insertAt k c l) = S (length l).
Proof.
  unfold insertAt.
  rewrite length_app. cbn [length]. rewrite length_firstn, length_skipn. lia.
Qed.

(** With the list at its full size [n] every pass of the loop finds a card
    at [g() % n], and restores the size. *)
Lemma shufLoop_runs (iters n : nat) (g : nat -> nat) :
  forall tmpDk u,
    length tmpDk = n -> (0 < n)%nat ->
    length (fst (shufLoop iters n tmpDk g u)) = n
    /\ snd (shufLoop iters n tmpDk g u) = (u + 2 * iters)%nat.
Proof.
  induction iters as [|iters IH]; intros tmpDk u Hl Hn; cbn [shufLoop fst snd].
  - split; [exact Hl | lia].
  - assert (Hfrom : (g u mod n < length tmpDk)%nat)
      by (rewrite Hl; apply Nat.mod_upper_bound; lia).
    destruct (nth_error tmpDk (g u mod n)) as [c|] eqn:E.
    2:{ apply nth_error_None in E. lia. }
    destruct (IH (insertAt (g (S u) mod n) c (eraseAt (g u mod n) tmpDk))
                 (S (S u))) as [H1 H2].
    + rewrite insertAt_length, eraseAt_length by exact Hfrom. lia.
    + exact Hn.
    + split; [exact H1 | lia].
Qed.

(** [shufDk] on [n] undealt cards carries out all of its [2n] moves: each
    finds a card at the position it picked, so four random values per card
    are consumed.  The result is a rearrangement of the same cards; the
    discard stack and the input are not touched.  An empty sequence is left
    as it is, with no random value consumed. *)
Theorem shufDk_moves (w : World) :
  Permutation (deck (shufDk w)) (deck w)
  /\ length (deck (shufDk w)) = length (deck w)
  /\ used (shufDk w) = (used w + 4 * length (deck w))%nat
  /\ disPile (shufDk w) = disPile w
  /\ cinInts (shufDk w) = cinInts w
  /\ cinWords (shufDk w) = cinWords w
  /\ gen (shufDk w) = gen w.
Proof.
  destruct (shufDk_frame w) as (Hp & Hd & Hi & Hw).
  split; [exact Hp|]. split; [exact (Permutation_length Hp)|].
  split; [|split; [exact Hd|split; [exact Hi|split; [exact Hw|]]]].
  - unfold shufDk. destruct (deck w) as [|c d] eqn:E.
    + cbn [length]. lia.
    + cbn [used setUsed setDeck].
      destruct (shufLoop_runs (length (c :: d) * 2) (length (c :: d)) (gen w)
                  (c :: d) (used w) eq_refl) as [_ H2].
      { cbn [length]. lia. }
      rewrite H2. lia.
  - unfold shufDk. destruct (deck w); reflexivity.
Qed.

(** ** The comparison operators *)

Lemma string_compare_refl (s : string) : (s ?= s)%string = Eq.
Proof.
  induction s as [|a s IH]; cbn [String.compare]; [reflexivity|].
  unfold Ascii.compare. rewrite N.compare_refl. exact IH.
Qed.

Lemma string_compare_trans (s1 : string) :
  forall s2 s3,
    (s1 ?= s2)%string = Lt -> (s2 ?= s3)%string = Lt -> (s1 ?= s3)%string = Lt.
Proof.
  induction s1 as [|a s1 IH]; intros [|b s2] [|c s3]; cbn [String.compare];
    try discriminate; try reflexivity.
  unfold Ascii.compare.
  destruct (N.compare_spec (N_of_ascii a) (N_of_ascii b)) as [Eab|Lab|Gab];
    try discriminate;
    destruct (N.compare_spec (N_of_ascii b) (N_of_ascii c)) as [Ebc|Lbc|Gbc];
    try discriminate; intros H1 H2.
  - rewrite Eab, Ebc, N.compare_refl. exact (IH _ _ H1 H2).
  - rewrite Eab. apply N.compare_lt_iff in Lbc. rewrite Lbc. reflexivity.
  - rewrite <- Ebc. apply N.compare_lt_iff in Lab. rewrite Lab. reflexivity.
  - assert (L : (N_of_ascii a < N_of_ascii c)%N) by lia.
    apply N.compare_lt_iff in L. rewrite L. reflexivity.
Qed.

Lemma string_ltb_lt (s1 s2 : string) :
  (s1 <? s2)%string = true <-> (s1 ?= s2)%string = Lt.
Proof.
  unfold String.ltb. destruct (s1 ?= s2)%string; split; congruence.
Qed.

Lemma string_ltb_irrefl (s : string) : (s <? s)%string = false.
Proof. unfold String.ltb. rewrite string_compare_refl. reflexivity. Qed.

Lemma string_ltb_trans (s1 s2 s3 : string) :
  (s1 <? s2)%string = true -> (s2 <? s3)%string = true ->
  (s1 <? s3)%string = true.
Proof.
  rewrite !string_ltb_lt. apply string_compare_trans.
Qed.

(** Two strings neither of which is below the other are the same string;
    of two different ones, one is below the other. *)
Lemma string_ltb_total (s1 s2 : string) :
  (s1 <? s2)%string = false -> (s2 <? s1)%string = false -> s1 = s2.
Proof.
  unfold String.ltb. rewrite (String.compare_antisym s2 s1).
  destruct (s1 ?= s2)%string eqn:E; cbn [CompOpp]; try discriminate.
  intros _ _. exact (String.compare_eq_iff _ _ E).
Qed.

Lemma cardLt_cases (a b : Card) :
  cardLt a b = true
  <-> (rank a <? rank b)%string = true
      \/ (rank a = rank b /\ (suit a <? suit b)%string = true).
Proof.
  unfold cardLt. destruct (String.eqb_spec (rank a) (rank b)) as [E|N];
    cbn [negb].
  - rewrite E, string_ltb_irrefl. split.
    + intro H. right. split; [reflexivity | exact H].
    + intros [H|[_ H]]; [discriminate | exact H].
  - split.
    + intro H. left. exact H.
    + intros [H|[E _]]; [exact H | contradiction].
Qed.

(** [Card::operator<] is a strict weak ordering, as [std::sort] and the
    ordered containers require: no card is below itself, the relation is
    transitive, and two cards neither of which is below the other are
    exactly those that [Card::operator==] calls equal, that is, those of the
    same rank and suit, whatever their values.  On the cards [createDk]
    makes, [operator==] is identity.  [Player::operator<] is a strict weak
    ordering too; it puts more chips first and holds two players with the
    same chips for equivalent. *)
Theorem comparison_operators_strict_weak :
  (forall a, cardLt a a = false)
  /\ (forall a b c, cardLt a b = true -> cardLt b c = true -> cardLt a c = true)
  /\ (forall a b, cardLt a b = false /\ cardLt b a = false <-> cardEq a b = true)
  /\ (forall a b, cardEq a b = true <-> rank a = rank b /\ suit a = suit b)
  /\ (forall a b, In a oneDeck -> In b oneDeck ->
                  (cardEq a b = true <-> a = b))
  /\ (forall p, playerLt p p = false)
  /\ (forall p q r, playerLt p q = true -> playerLt q r = true ->
                    playerLt p r = true)
  /\ (forall p q, playerLt p q = false /\ playerLt q p = false
                  <-> chips p = chips q).
Proof.
  assert (Heq : forall a b,
             cardEq a b = true <-> rank a = rank b /\ suit a = suit b).
  { intros a b. unfold cardEq.
    rewrite andb_true_iff, !String.eqb_eq. reflexivity. }
  split; [|split; [|split; [|split; [exact Heq|split; [|split; [|split]]]]]].
  - intro a. unfold cardLt. rewrite String.eqb_refl. cbn [negb].
    apply string_ltb_irrefl.
  - intros a b c Hab Hbc. apply cardLt_cases in Hab, Hbc. apply cardLt_cases.
    destruct Hab as [Hab|[Eab Hab]], Hbc as [Hbc|[Ebc Hbc]].
    + left. exact (string_ltb_trans _ _ _ Hab Hbc).
    + left. rewrite <- Ebc. exact Hab.
    + left. rewrite Eab. exact Hbc.
    + right. split; [congruence | exact (string_ltb_trans _ _ _ Hab Hbc)].
  - intros a b. rewrite Heq. split.
    + intros [Hab Hba].
      assert (Er : rank a = rank b).
      { apply string_ltb_total.
        - destruct (rank a <? rank b)%string eqn:E; [|reflexivity].
          rewrite (proj2 (cardLt_cases a b) (or_introl E)) in Hab. discriminate.
        - destruct (rank b <? rank a)%string eqn:E; [|reflexivity].
          rewrite (proj2 (cardLt_cases b a) (or_introl E)) in Hba. discriminate. }
      split; [exact Er|]. apply string_ltb_total.
      * destruct (suit a <? suit b)%string eqn:E; [|reflexivity].
        rewrite (proj2 (cardLt_cases a b) (or_intror (conj Er E))) in Hab.
        discriminate.
      * destruct (suit b <? suit a)%string eqn:E; [|reflexivity].
        rewrite (proj2 (cardLt_cases b a) (or_intror (conj (eq_sym Er) E))) in Hba.
        discriminate.
    + intros [Er Es]. unfold cardLt. rewrite Er, Es, String.eqb_refl.
      cbn [negb]. rewrite string_ltb_irrefl. split; reflexivity.
  - intros a b Ha Hb. rewrite Heq. split; [|intros ->; split; reflexivity].
    intros [Er Es]. apply oneDeck_In in Ha, Hb.
    destruct Ha as [Ha _], Hb as [Hb _]. rewrite Er in Ha.
    assert (Ev : value a = value b).
    { revert Ha Hb. generalize (rank b), (value a), (value b). clear.
      intros r va vb Ha Hb. vm_compute in Ha, Hb.
      repeat (destruct Ha as [Ha|Ha]; [injection Ha as <- <-|]);
        try contradiction;
        repeat (destruct Hb as [Hb|Hb];
                [try discriminate Hb; injection Hb as <-; reflexivity|]);
        contradiction. }
    destruct a, b. cbn in *. congruence.
  - intro p. unfold playerLt. rewrite Z.gtb_ltb. apply Z.ltb_irrefl.
  - intros p q r. unfold playerLt. rewrite !Z.gtb_ltb, !Z.ltb_lt. lia.
  - intros p q. unfold playerLt. rewrite !Z.gtb_ltb, !Z.ltb_ge. lia.
Qed.

(** ** Lookup by position *)

Lemma hd_skipn (n : nat) (l : list Card) :
  hd_error (skipn n l) = nth_error l n.
Proof.
  revert l. induction n as [|n IH]; intros [|c l]; cbn; auto.
Qed.

Lemma getNthCard_nth (l : list Card) (k : nat) :
  (k < length l)%nat -> getNthCard l (Z.of_nat k) = nth_error l k.
Proof.
  intro Hk. unfold getNthCard.
  destruct (Z.ltb_spec (Z.of_nat k) 0) as [H|_]; [lia|].
  destruct (Z.geb_spec (Z.of_nat k) (Z.of_nat (length l))) as [H|_]; [lia|].
  cbn [orb]. rewrite Nat2Z.id. apply hd_skipn.
Qed.

(** [getNthCard] returns the null pointer exactly for a negative index and
    for one at or past the size of the list, the empty list included;
    otherwise it returns the card at that position, a card of the list.
    Looked up at the position where [insert] put it, the card inserted is
    found; after [erase] at a position, the card found there is the one that
    followed. *)
Theorem getNthCard_bounds (l : list Card) (n : Z) :
  (getNthCard l n = None <-> n < 0 \/ Z.of_nat (length l) <= n)
  /\ (forall c, getNthCard l n = Some c ->
                nth_error l (Z.to_nat n) = Some c /\ In c l)
  /\ (forall k c, (k <= length l)%nat ->
                  getNthCard (insertAt k c l) (Z.of_nat k) = Some c)
  /\ (forall k, (S k < length l)%nat ->
                getNthCard (eraseAt k l) (Z.of_nat k)
                = getNthCard l (Z.of_nat (S k))).
Proof.
  split; [|split; [|split]].
  - unfold getNthCard.
    destruct (Z.ltb_spec n 0) as [H|H]; cbn [orb]; [split; [lia | reflexivity]|].
    destruct (Z.geb_spec n (Z.of_nat (length l))) as [H1|H1];
      [split; [lia | reflexivity]|].
    rewrite hd_skipn. split; [|lia].
    intro E. apply nth_error_None in E. lia.
  - intros c. unfold getNthCard.
    destruct ((n <? 0) || (n >=? Z.of_nat (length l))); [discriminate|].
    rewrite hd_skipn. intro E. split; [exact E|].
    exact (nth_error_In _ _ E).
  - intros k c Hk. rewrite getNthCard_nth by (rewrite insertAt_length; lia).
    unfold insertAt.
    rewrite nth_error_app2 by (rewrite length_firstn; lia).
    rewrite length_firstn.
    replace (k - Nat.min k (length l))%nat with 0%nat by lia. reflexivity.
  - intros k Hk.
    rewrite getNthCard_nth by (rewrite eraseAt_length; lia).
    rewrite getNthCard_nth by lia.
    unfold eraseAt.
    rewrite nth_error_app2 by (rewrite length_firstn; lia).
    rewrite length_firstn.
    replace (k - Nat.min k (length l))%nat with 0%nat by lia.
    rewrite <- (hd_skipn (S k) l). destruct (skipn (S k) l); reflexivity.
Qed.

(** ** Display *)

Lemma string_app_assoc (a b c : string) :
  ((a ++ b) ++ c = a ++ (b ++ c))%string.
Proof.
  induction a as [|x a IH]; cbn [String.append]; [reflexivity|].
  rewrite IH. reflexivity.
Qed.

Lemma showAll_cons (c : Card) (cs : list Card) :
  showAll (c :: cs) = ((showCard c ++ " ") ++ showAll cs)%string.
Proof.
  unfold showAll. cbn [map String.concat].
  destruct (map (fun c0 => (showCard c0 ++ " ")%string) cs) as [|s l] eqn:E.
  - cbn [String.concat].
    induction (showCard c ++ " ")%string as [|x s IH]; cbn [String.append];
      [reflexivity | rewrite <- IH; reflexivity].
  - reflexivity.
Qed.

Lemma prntCards_shown (hide_1 : bool) (cs : list Card) :
  forall count,
    hide_1 = false \/ (2 <= count)%nat ->
    prntCards hide_1 count cs = showAll cs.
Proof.
  induction cs as [|c cs IH]; intros count H; [reflexivity|].
  cbn [prntCards]. rewrite showAll_cons, IH
    by (destruct H as [H|H]; [left; exact H | right; lia]).
  destruct H as [-> | H]; [reflexivity|].
  replace (count =? 1)%nat with false by (symmetry; apply Nat.eqb_neq; lia).
  rewrite andb_false_r. reflexivity.
Qed.

(** [prntHnd] writes every card of the hand, each followed by a blank,
    between brackets.  Asked to hide, it writes [XX] in place of the second
    card and every other card as before: what it shows of the dealer's hand
    after the deal does not depend on the hole card.  A hand of fewer than
    two cards is shown whole either way. *)
Theorem prntHnd_hides_second_card (hand : Hand) :
  prntHnd hand false = ("[ " ++ showAll (cards hand) ++ "]")%string
  /\ (forall c1 c2 more,
         cards hand = c1 :: c2 :: more ->
         prntHnd hand true
         = ("[ " ++ showCard c1 ++ " " ++ "XX " ++ showAll more ++ "]")%string
         /\ forall c2', prntHnd (setCards hand (c1 :: c2' :: more)) true
                        = prntHnd hand true)
  /\ ((length (cards hand) < 2)%nat -> prntHnd hand true = prntHnd hand false).
Proof.
  split; [|split].
  - unfold prntHnd. rewrite prntCards_shown by (left; reflexivity). reflexivity.
  - intros c1 c2 more E.
    assert (Hshow : forall h c, cards h = c1 :: c :: more ->
              prntHnd h true
              = ("[ " ++ showCard c1 ++ " " ++ "XX " ++ showAll more ++ "]")%string).
    { intros h c Eh. unfold prntHnd. rewrite Eh.
      cbn [prntCards Nat.eqb andb].
      rewrite prntCards_shown by (right; lia).
      rewrite !string_app_assoc. reflexivity. }
    split; [exact (Hshow hand c2 E)|].
    intro c2'. rewrite (Hshow hand c2 E).
    apply (Hshow _ c2'). reflexivity.
  - intro Hl. unfold prntHnd.
    destruct (cards hand) as [|c1 [|c2 more]]; cbn [length] in Hl; try lia;
      reflexivity.
Qed.

Lemma prntHnd_hides_second_card_witness :
  prntHnd (mkHand [aceHearts; kingSpades] 0 false false) true = "[ A♥ XX ]"
  /\ prntHnd (mkHand [aceHearts; sixDiamonds] 0 false false) true = "[ A♥ XX ]".
Proof.
  destruct (proj1 (proj2 (prntHnd_hides_second_card
                            (mkHand [aceHearts; kingSpades] 0 false false)))
              aceHearts kingSpades [] eq_refl) as [H1 H2].
  split; [exact H1|].
  exact (eq_trans (H2 sixDiamonds) H1).
Defined.

(** ** Upper case *)

Lemma toupper_idem (c : ascii) : toupper (toupper c) = toupper c.
Proof.
  destruct c as [[] [] [] [] [] [] [] []]; reflexivity.
Qed.

Lemma toupper_letter (c : ascii) :
  (toupper c = "H"%char -> c = "H"%char \/ c = "h"%char)
  /\ (toupper c = "S"%char -> c = "S"%char \/ c = "s"%char)
  /\ (toupper c = "D"%char -> c = "D"%char \/ c = "d"%char)
  /\ (toupper c = "P"%char -> c = "P"%char \/ c = "p"%char)
  /\ (toupper c = "Y"%char -> c = "Y"%char \/ c = "y"%char).
Proof.
  destruct c as [[] [] [] [] [] [] [] []];
    repeat split; intro H;
    first [discriminate H | left; reflexivity | right; reflexivity].
Qed.

Lemma upcase_single (word : string) (u : ascii) :
  upcase word = String u "" <-> exists c, word = String c "" /\ toupper c = u.
Proof.
  split.
  - destruct word as [|c [|c' word]]; cbn [upcase]; try discriminate.
    intro H. injection H as H. exists c. split; [reflexivity | exact H].
  - intros (c & -> & <-). reflexivity.
Qed.

(** The words the prompts compare against are recognised in either case and
    in no other spelling: a choice counts as [H] exactly when it is [H] or
    [h], and likewise for [S], [D] and [P] and for the [Y] that asks for
    another round.  Converting twice converts once. *)
Theorem upcase_choices (word : string) :
  (upcase word = "H" <-> word = "H" \/ word = "h")
  /\ (upcase word = "S" <-> word = "S" \/ word = "s")
  /\ (upcase word = "D" <-> word = "D" \/ word = "d")
  /\ (upcase word = "P" <-> word = "P" \/ word = "p")
  /\ (upcase word = "Y" <-> word = "Y" \/ word = "y")
  /\ upcase (upcase word) = upcase word
  /\ String.length (upcase word) = String.length word.
Proof.
  assert (Hone : forall u l : ascii,
    toupper u = u -> toupper l = u ->
    (forall c, toupper c = u -> c = u \/ c = l) ->
    (upcase word = String u "" <-> word = String u "" \/ word = String l "")).
  { intros u l Hu Hl Hc. rewrite upcase_single. split.
    - intros (c & -> & H). destruct (Hc c H) as [-> | ->]; auto.
    - intros [-> | ->]; [exists u | exists l]; auto. }
  do 5 (split; [apply Hone;
                 [reflexivity | reflexivity | intro c; apply toupper_letter]|]).
  clear Hone.
  split; induction word as [|c word IH]; cbn [upcase String.length];
    try reflexivity; rewrite ?toupper_idem, IH; reflexivity.
Qed.

(** ** Hit, stand and unrecognised words at the prompt *)

(** At the prompt, [S] (or [s]) leaves the hand as it is and moves on to
    the next hand.  [H] draws one card onto the hand, which stays under the
    iterator (for a hand of two cards or more, the loop is where it would be
    had it started on the longer hand); if the supply is exhausted, the phase
    ends there with the fatal error and the hands unchanged.  Any word that
    is none of [H], [S], [D], [P] changes nothing, and the prompt comes
    again with the next word. *)
Theorem hit_stand_or_prompt_again
    (p : Player) (prev rest : list Hand) (curHnd : Hand) (w : World)
    (word : string) (more : list string) :
  prompted curHnd w word more ->
  (upcase word = "S" ->
   hdlRun p prev (curHnd :: rest) w
   = hdlRun p (prev ++ [curHnd]) rest (setCinWords w more))
  /\ (upcase word = "H" ->
      forall st l1 w1,
        dealCrd (cards curHnd) (setCinWords w more) = (st, l1, w1) ->
        (st = Ok ->
         (exists c, l1 = cards curHnd ++ [c])
         /\ playTurn p curHnd rest w = playTurn p (setCards curHnd l1) rest w1
         /\ ((2 <= length (cards curHnd))%nat ->
             hdlRun p prev (curHnd :: rest) w
             = hdlRun p prev (setCards curHnd l1 :: rest) w1))
        /\ (st <> Ok ->
            st = SupplyExhausted /\ exhausted w1
            /\ hdlRun p prev (curHnd :: rest) w
               = (SupplyExhausted, p, prev ++ curHnd :: rest, w1)))
  /\ (upcase word <> "H" -> upcase word <> "S" ->
      upcase word <> "D" -> upcase word <> "P" ->
      hdlRun p prev (curHnd :: rest) w
      = hdlRun p prev (curHnd :: rest) (setCinWords w more)).
Proof.
  intro Hp.
  pose proof (hdlRun_prompted p prev curHnd rest w word more Hp) as Hrun.
  pose proof (playTurn_prompted p curHnd rest w word more Hp) as Hturn.
  cbn zeta in Hturn.
  destruct Hp as (Hd & Ha & Hs & Hw).
  split; [|split].
  - intro Hu. rewrite Hrun, Hturn, Hu.
    cbn [String.eqb Ascii.eqb Bool.eqb]. reflexivity.
  - intros Hu st l1 w1 E.
    rewrite Hu in Hturn. cbn [String.eqb Ascii.eqb Bool.eqb] in Hturn.
    unfold playHit in Hturn. rewrite E in Hturn.
    destruct (dealCrd_status _ _ _ _ _ E)
      as [[-> [c ->]] | (-> & -> & Hd1 & Hp1 & _)].
    + split; [|intro H; contradiction]. intros _.
      split; [exists c; reflexivity|]. split; [exact Hturn|].
      intro Hlen. rewrite Hrun, Hturn.
      rewrite (hdlRun_cons p prev rest (setCards curHnd (cards curHnd ++ [c])) w1).
      cbn [ddown setCards]. rewrite Hd.
      replace (splitAces (setCards curHnd (cards curHnd ++ [c]))) with false;
        [reflexivity|].
      unfold splitAces. cbn [cards setCards isplit].
      replace (length (cards curHnd ++ [c]) =? 2)%nat with false
        by (symmetry; apply Nat.eqb_neq; rewrite length_app; cbn [length]; lia).
      rewrite andb_false_r. reflexivity.
    + split; [intro H; discriminate|]. intros _.
      split; [reflexivity|]. split; [split; assumption|].
      rewrite Hrun, Hturn, setCards_same. reflexivity.
  - intros H1 H2 H3 H4.
    apply String.eqb_neq in H1, H2, H3, H4.
    rewrite H1, H2, H3, H4 in Hturn. cbn [andb] in Hturn.
    rewrite Hrun, Hturn.
    rewrite (hdlRun_cons p prev rest curHnd (setCinWords w more)), Hd, Ha.
    reflexivity.
Qed.

Lemma hit_stand_or_prompt_again_witness :
  hdlRun annTens [] [staked [tenSpades; sixDiamonds]]
         (worldOf [fiveClubs] ["x"; "s"])
  = hdlRun annTens [] [staked [tenSpades; sixDiamonds]]
           (worldOf [fiveClubs] ["s"]).
Proof.
  refine (proj2 (proj2 (hit_stand_or_prompt_again annTens [] []
                   (staked [tenSpades; sixDiamonds])
                   (worldOf [fiveClubs] ["x"; "s"]) "x" ["s"] _)) _ _ _ _);
    try (vm_compute; discriminate).
  repeat split; vm_compute; reflexivity.
Defined.

(** ** Hands that are never prompted for *)

Lemma hdlRun_settled (p : Player) (w : World) :
  forall todo prev,
    Forall settledHand todo ->
    hdlRun p prev todo w = (Ok, p, prev ++ todo, w).
Proof.
  induction todo as [|curHnd rest IH]; intros prev Hall.
  - rewrite hdlRun_nil, app_nil_r. reflexivity.
  - inversion Hall as [|? ? Hcur Hrest]; subst.
    assert (Hskip : hdlRun p (prev ++ [curHnd]) rest w
                    = (Ok, p, prev ++ curHnd :: rest, w)).
    { rewrite (IH _ Hrest), <- app_assoc. reflexivity. }
    rewrite hdlRun_cons.
    destruct (ddown curHnd) eqn:Ed; [exact Hskip|].
    destruct (splitAces curHnd) eqn:Ea; [exact Hskip|].
    destruct Hcur as [H|[H|H]]; try congruence.
    rewrite playTurn_eq.
    destruct (Z.gtb_spec (calcScr curHnd) 21) as [H1|H1]; [exact Hskip|].
    destruct (Z.eqb_spec (calcScr curHnd) 21) as [H2|H2]; [exact Hskip|].
    lia.
Qed.

(** A player whose hands are all doubled, passed over as split aces, or at
    21 or more is not asked anything: the decision phase returns at once,
    with the player, the supply and the input as they were.  So a player
    dealt 21 makes no choice. *)
Theorem hdlPlay_asks_nothing_at_21 (p : Player) (dlHnd : Hand) (w : World) :
  Forall settledHand (hands p) ->
  hdlPlay p dlHnd w = (Ok, p, w).
Proof.
  intro Hall. unfold hdlPlay. rewrite (hdlRun_settled p w _ [] Hall).
  destruct p. reflexivity.
Qed.

Lemma hdlPlay_asks_nothing_at_21_witness :
  hdlPlay (mkPlayer 1 "Ann" 990 [staked [aceSpades; kingSpades]]) newHand
          (worldOf [fiveClubs] ["H"])
  = (Ok, mkPlayer 1 "Ann" 990 [staked [aceSpades; kingSpades]],
     worldOf [fiveClubs] ["H"]).
Proof.
  apply hdlPlay_asks_nothing_at_21.
  constructor; [|constructor]. right. right. vm_compute. discriminate.
Defined.

(** ** Money in the decision phase *)

Lemma playSplt_chips (p : Player) (origHnd : Hand) (rest : list Hand) (w : World) :
  forall st p' h' rest' w',
    playSplt p origHnd rest w = (st, p', h', rest', w') ->
    chips p' = chips p
    \/ (bet origHnd <= chips p /\ chips p' = chips p - bet origHnd).
Proof.
  intros st p' h' rest' w' H.
  destruct (playSplt_cases _ _ _ _ _ _ _ _ _ H)
    as [(_ & _ & -> & _) | (Er & c1 & c2 & _ & -> & _)]; [left; reflexivity|].
  right. apply spltRuns_iff in Er. split; [apply Er | reflexivity].
Qed.

Lemma hdlPlay_money
    (p : Player) (dlHnd : Hand) (w : World) (st : Status) (p' : Player) (w' : World) :
  hdlPlay p dlHnd w = (st, p', w') ->
  stake p' = stake p
  /\ id p' = id p /\ name p' = name p
  /\ (betsNonneg (hands p) ->
      betsNonneg (hands p')
      /\ chips p' <= chips p
      /\ (0 <= chips p -> 0 <= chips p')).
Proof.
  intro H.
  split; [exact (proj1 (hdlPlay_inv _ _ _ _ _ _ H))|].
  split; [|split].
  - unfold hdlPlay, hdlRun in H.
    destruct (hdlLoop _ _ _ _ _) as [[[st1 p1] hs] w1] eqn:E.
    injection H as <- <- <-. apply hdlLoop_inv in E. apply E.
  - unfold hdlPlay, hdlRun in H.
    destruct (hdlLoop _ _ _ _ _) as [[[st1 p1] hs] w1] eqn:E.
    injection H as <- <- <-. apply hdlLoop_inv in E. apply E.
  - refine (hdlPlay_rel
              (fun s s' =>
                 betsNonneg (snd (fst s)) ->
                 betsNonneg (snd (fst s'))
                 /\ chips (fst (fst s')) <= chips (fst (fst s))
                 /\ (0 <= chips (fst (fst s)) -> 0 <= chips (fst (fst s'))))
              _ _ _ _ _ _ _ p dlHnd w st p' w' H); cbn [fst snd]; clear;
      unfold betsNonneg.
    + intros [[p hs] w] Hb. cbn [fst snd]. split; [exact Hb|]. split; [lia|auto].
    + intros [[p1 h1] w1] [[p2 h2] w2] [[p3 h3] w3]. cbn [fst snd].
      intros H12 H23 Hb. destruct (H12 Hb) as (Hb2 & Hc2 & Hn2).
      destruct (H23 Hb2) as (Hb3 & Hc3 & Hn3).
      split; [exact Hb3|]. split; [lia|auto].
    + intros p hs w word more _ Hb. split; [exact Hb|]. split; [lia|auto].
    + intros p prev curHnd rest w st h' w' E Hb.
      split; [|split; [lia|auto]].
      apply Forall_app in Hb. destruct Hb as [Hp Hc].
      inversion Hc as [|? ? Hcur Hrest]; subst.
      apply Forall_app. split; [exact Hp|]. constructor; [|exact Hrest].
      destruct (playHit_cases _ _ _ _ _ E) as [[_ [c ->]] | (_ & -> & _)];
        exact Hcur.
    + intros p prev curHnd rest w st p' h' w' E Hb.
      apply Forall_app in Hb. destruct Hb as [Hp Hc].
      inversion Hc as [|? ? Hcur Hrest]; subst.
      destruct (playDD_cases _ _ _ _ _ _ _ E)
        as [(_ & _ & -> & -> & _) | ([_ Hfund] & -> & Hh)].
      * split; [|split; [lia|auto]].
        apply Forall_app. split; [exact Hp|]. constructor; assumption.
      * cbn [chips setChips]. split; [|split; [lia|lia]].
        apply Forall_app. split; [exact Hp|]. constructor; [|exact Hrest].
        destruct Hh as [[_ [c ->]] | (_ & -> & _)]; cbn [bet]; lia.
    + intros p prev curHnd rest w st p' h' rest' w' E Hb.
      apply Forall_app in Hb. destruct Hb as [Hp Hc].
      inversion Hc as [|? ? Hcur Hrest]; subst.
      destruct (playSplt_cases _ _ _ _ _ _ _ _ _ E)
        as [(_ & _ & -> & -> & -> & _) | (_ & c1 & c2 & Ec & _ & Hh)].
      * split; [|split; [lia|auto]].
        apply Forall_app. split; [exact Hp|]. constructor; assumption.
      * destruct (playSplt_chips _ _ _ _ _ _ _ _ _ E) as [Hc1 | [Hf Hc1]];
          rewrite Hc1; (split; [|split; [lia|lia]]);
          apply Forall_app; (split; [exact Hp|]);
          destruct Hh as [(_ & -> & -> & _)
                         | (d1 & -> &
                            [(-> & _ & ->)
                            | (nxtHnd & others & -> &
                               [(_ & -> & _) | (_ & d2 & ->)])])];
          try (inversion Hrest; subst);
          repeat constructor; cbn [bet setCards]; assumption.
    + intros p hs w hs' Hb. cbn [chips setHands]. split; [exact Hb|].
      split; [lia|auto].
Qed.

(** Whatever the player types, and whether the phase completes, stops in
    the fatal error or waits for input, it moves chips only from the balance
    into wagers: the balance plus the wagers on the table is what it was,
    and the player keeps id and name.  With no negative wager to start from,
    none arises, the balance does not grow, and a balance that was not
    negative does not become so: a double is never paid for with chips the
    player does not have.  (A phase that runs into the access through
    [end()] has no defined state to speak of.) *)
Theorem hdlPlay_moves_chips_into_wagers
    (p : Player) (dlHnd : Hand) (w : World) (st : Status) (p' : Player) (w' : World) :
  hdlPlay p dlHnd w = (st, p', w') ->
  st <> Undefined ->
  stake p' = stake p
  /\ id p' = id p /\ name p' = name p
  /\ (betsNonneg (hands p) ->
      betsNonneg (hands p')
      /\ chips p' <= chips p
      /\ (0 <= chips p -> 0 <= chips p')).
Proof. intros H _. exact (hdlPlay_money p dlHnd w st p' w' H). Qed.

(** Ann doubles on her pair of tens: 10 more chips go from her balance to
    the wager. *)
Lemma hdlPlay_moves_chips_into_wagers_witness :
  let r := hdlPlay annTens newHand (worldOf [fiveClubs; sixDiamonds] ["d"]) in
  fst (fst r) = Ok
  /\ map bet (hands (snd (fst r))) = [20]
  /\ chips (snd (fst r)) = 980
  /\ stake (snd (fst r)) = stake annTens.
Proof.
  intro r.
  split; [vm_compute; reflexivity|].
  split; [vm_compute; reflexivity|]. split; [vm_compute; reflexivity|].
  refine (proj1 (hdlPlay_moves_chips_into_wagers annTens newHand
                   (worldOf [fiveClubs; sixDiamonds] ["d"])
                   (fst (fst r)) (snd (fst r)) (snd r) eq_refl _)).
  vm_compute. discriminate.
Defined.

(** ** The bet prompt *)

Lemma promptBet_first_valid (balance : Z) (cin : list Z) :
  match promptBet balance cin with
  | (Some betAmt, rest) =>
      exists skipped,
        cin = skipped ++ betAmt :: rest
        /\ Forall (badBet balance) skipped
        /\ 1 <= betAmt <= balance
  | (None, rest) => rest = [] /\ Forall (badBet balance) cin
  end.
Proof.
  induction cin as [|x cin IH]; cbn [promptBet].
  - split; [reflexivity | constructor].
  - destruct (Z.ltb_spec x 1) as [H1|H1]; cbn [orb].
    + destruct (promptBet balance cin) as [[b|] rest].
      * destruct IH as (skipped & -> & Hs & Hb).
        exists (x :: skipped). split; [reflexivity|].
        split; [constructor; [left; exact H1 | exact Hs] | exact Hb].
      * destruct IH as [-> Hs]. split; [reflexivity|].
        constructor; [left; exact H1 | exact Hs].
    + destruct (Z.gtb_spec x balance) as [H2|H2].
      * destruct (promptBet balance cin) as [[b|] rest].
        -- destruct IH as (skipped & -> & Hs & Hb).
           exists (x :: skipped). split; [reflexivity|].
           split; [constructor; [right; lia | exact Hs] | exact Hb].
        -- destruct IH as [-> Hs]. split; [reflexivity|].
           constructor; [right; lia | exact Hs].
      * exists []. split; [reflexivity|]. split; [constructor | lia].
Qed.

(** The bet prompt takes the first value typed that lies between 1 and the
    player's balance, having turned down every value before it, and no value
    after it is read.  The player, who had no hand, then has one fresh hand
    carrying that wager, and a balance lower by it, so not negative.  If no
    value typed is acceptable (always so for a balance below 1), the prompt
    has read them all and still waits; the player is unchanged.  Either way
    the cards and the words of input are untouched. *)
Theorem placeBet_first_valid_bet
    (p : Player) (w : World) (st : Status) (p' : Player) (w' : World) :
  hands p = [] ->
  placeBet p w = (st, p', w') ->
  ((st = Ok
    /\ exists skipped betAmt,
        cinInts w = skipped ++ betAmt :: cinInts w'
        /\ Forall (badBet (chips p)) skipped
        /\ 1 <= betAmt <= chips p
        /\ p' = mkPlayer (id p) (name p) (chips p - betAmt)
                         [mkHand [] betAmt false false])
   \/ (st = NeedInput /\ p' = p /\ cinInts w' = []
       /\ Forall (badBet (chips p)) (cinInts w)))
  /\ deck w' = deck w /\ disPile w' = disPile w /\ cinWords w' = cinWords w.
Proof.
  intros Eh. unfold placeBet.
  pose proof (promptBet_first_valid (chips p) (cinInts w)) as Hb.
  destruct (promptBet (chips p) (cinInts w)) as [[b|] rest];
    intro H; injection H as <- <- <-;
    (split; [|repeat split; reflexivity]).
  - left. split; [reflexivity|].
    destruct Hb as (skipped & Hc & Hs & Hr).
    exists skipped, b. cbn [cinInts setCinInts].
    split; [exact Hc|]. split; [exact Hs|]. split; [exact Hr|].
    rewrite Eh. reflexivity.
  - right. destruct Hb as [-> Hs]. repeat split. exact Hs.
Qed.

Lemma placeBet_first_valid_bet_witness :
  exists skipped betAmt,
    [0; 51; -5; 50; 7] = skipped ++ betAmt :: [7]
    /\ Forall (badBet 50) skipped
    /\ 1 <= betAmt <= 50.
Proof.
  destruct (proj1 (placeBet_first_valid_bet (mkPlayer 1 "Ann" 50 [])
              (mkWorld [] [] (fun n => n) 0 [0; 51; -5; 50; 7] [])
              Ok (mkPlayer 1 "Ann" 0 [mkHand [] 50 false false])
              (mkWorld [] [] (fun n => n) 0 [7] [])
              eq_refl eq_refl))
    as [(_ & skipped & betAmt & Hc & Hs & Hr & _) | (Hx & _)];
    [|discriminate Hx].
  exists skipped, betAmt. split; [exact Hc|]. split; [exact Hs | exact Hr].
Defined.

(** ** Settlement never takes chips *)

Lemma settleOne_effect (p : Player) (hand dealrH : Hand) (w : World) :
  let p' := fst (fst (settleOne p hand dealrH w)) in
  let hand' := snd (fst (settleOne p hand dealrH w)) in
  let w' := snd (settleOne p hand dealrH w) in
  chips p <= chips p'
  /\ chips p' <= chips p + Z.max 0 (bet hand + (3 * bet hand) / 2)
  /\ (bet hand <= 0 -> chips p' = chips p)
  /\ id p' = id p /\ name p' = name p /\ hands p' = hands p
  /\ hand' = mkHand [] 0 (isplit hand) (ddown hand)
  /\ disPile w' = rev (cards hand) ++ disPile w
  /\ deck w' = deck w.
Proof.
  cbn zeta. unfold settleOne.
  destruct (Z.gtb_spec (bet hand) 0) as [Hpos|Hle].
  - pose proof (setHnd_chips p hand dealrH w) as Hc.
    rewrite (winAmt_floor (bet hand)) in Hc by lia.
    assert (Hh : bet hand <= (3 * bet hand) / 2)
      by (apply Z.div_le_lower_bound; lia).
    split; [|split; [|split]].
    + rewrite Hc. repeat match goal with
             | |- context [if ?b then _ else _] => destruct b
             end; lia.
    + rewrite Hc. repeat match goal with
             | |- context [if ?b then _ else _] => destruct b
             end; lia.
    + lia.
    + unfold setHnd, discHnd. cbn [fst snd].
      repeat match goal with
             | |- context [if ?b then _ else _] => destruct b
             end; repeat split.
  - cbn [discHnd fst snd]. repeat split; lia.
Qed.

(** Settling a hand never lowers the balance: the wager left it when it was
    placed, and settlement only pays.  It pays at most the wager back and
    one and a half times the wager on top, and nothing at all on a hand
    without a wager.  The balance is an [int]: this is about the settlements
    that stay in range ([payoutFits]), and the new balance is in range then.
    The hand ends with no cards and no wager, its flags as they were; its
    cards lie on the discard stack, the last card of the hand on top; the
    undealt cards are not touched. *)
Theorem settleOne_never_debits (p : Player) (hand dealrH : Hand) (w : World) :
  payoutFits p hand ->
  let p' := fst (fst (settleOne p hand dealrH w)) in
  let hand' := snd (fst (settleOne p hand dealrH w)) in
  let w' := snd (settleOne p hand dealrH w) in
  chips p <= chips p' <= chips p + (bet hand + winAmtOf (bet hand))
  /\ inInt (chips p')
  /\ (bet hand = 0 -> chips p' = chips p)
  /\ id p' = id p /\ name p' = name p /\ hands p' = hands p
  /\ hand' = mkHand [] 0 (isplit hand) (ddown hand)
  /\ disPile w' = rev (cards hand) ++ disPile w
  /\ deck w' = deck w.
Proof.
  intros (Hc & Hb & Hmax). cbn zeta.
  pose proof (settleOne_effect p hand dealrH w) as H. cbn zeta in H.
  destruct H as (_ & _ & H0 & Hrest).
  pose proof (settleOne_credit_bounds p hand dealrH w Hb) as Hcr.
  unfold inInt, INT_MIN.
  split; [lia|]. split; [lia|]. split; [intro E; apply H0; lia | exact Hrest].
Qed.

(** A natural on a wager of 10 against a dealer 28: the balance goes from
    990 to 1015. *)
Lemma settleOne_never_debits_witness :
  chips (fst (fst (settleOne ann (staked [aceSpades; kingSpades])
                     (staked [nineSpades; nineClubs; jackHearts])
                     (worldOf [] [])))) = 1015
  /\ 990 <= 1015 <= 990 + (10 + 15).
Proof.
  assert (Hfits : payoutFits ann (staked [aceSpades; kingSpades]))
    by (vm_compute; repeat split; congruence).
  split; [reflexivity|].
  exact (proj1 (settleOne_never_debits ann (staked [aceSpades; kingSpades])
                  (staked [nineSpades; nineClubs; jackHearts]) (worldOf [] [])
                  Hfits)).
Defined.

(** ** A whole round: who sits, what they end with *)

Lemma sameSeats_trans (a b c : Game) :
  sameSeats a b -> sameSeats b c -> sameSeats a c.
Proof. unfold sameSeats. congruence. Qed.

Lemma onPlayers_sameSeats (f : Player -> World -> Status * Player * World) :
  (forall p w, seatOf (snd (fst (f p w))) = seatOf p) ->
  keeps sameSeats (onPlayers f).
Proof.
  intros Hf t. unfold sameSeats, onPlayers.
  pose proof (forEachPlayer_map seatOf (fun _ => True) f
                (fun p w _ => Hf p w) (plyrs t) (world t)) as H.
  destruct (forEachPlayer f (plyrs t) (world t)) as [[st ps] w].
  cbn [fst snd plyrs] in *. apply H. apply Forall_forall. auto.
Qed.

Lemma onDealerHand_sameSeats f : keeps sameSeats (onDealerHand f).
Proof. intro t. unfold sameSeats. rewrite onDealerHand_plyrs. reflexivity. Qed.

Lemma settleLoop_seat (dealrH : Hand) :
  forall hs p w, seatOf (fst (fst (settleLoop p hs dealrH w))) = seatOf p.
Proof.
  induction hs as [|hand more IH]; intros p w; cbn [settleLoop];
    [reflexivity|].
  pose proof (settleOne_effect p hand dealrH w) as H. cbn zeta in H.
  destruct (settleOne p hand dealrH w) as [[p1 h1] w1]. cbn [fst snd] in H.
  destruct H as (_ & _ & _ & Hi & Hn & _).
  specialize (IH p1 w1).
  destruct (settleLoop p1 more dealrH w1) as [[p2 m2] w2]. cbn [fst] in *.
  rewrite IH. unfold seatOf. congruence.
Qed.

Lemma playRnd_sameSeats : keeps sameSeats playRnd.
Proof.
  unfold playRnd, beforeSettlement.
  assert (Hbet : forall p w, seatOf (snd (fst (placeBet p w))) = seatOf p).
  { intros p w. unfold placeBet.
    destruct (promptBet (chips p) (cinInts w)) as [[b|] cin']; reflexivity. }
  assert (Hdeal : forall p w, seatOf (snd (fst (dealToFront p w))) = seatOf p).
  { intros p w. unfold dealToFront. destruct (hands p) as [|h t];
      [reflexivity|].
    destruct (dealCrd (cards h) w) as [[st cs] w']. reflexivity. }
  repeat (apply keeps_andThen;
          [exact sameSeats_trans
          | try (apply onPlayers_sameSeats; assumption);
            try apply onDealerHand_sameSeats |]).
  - intro t. reflexivity.
  - intro t. unfold playPhases.
    apply (keeps_andThen sameSeats _ _ sameSeats_trans);
      [|apply onDealerHand_sameSeats].
    unfold actionsPhase. intro t0. apply onPlayers_sameSeats.
    intros p w. destruct (negb (dealrNatOf t)); [|reflexivity].
    destruct (hdlPlay p (dealrHOf t0) w) as [[st p'] w'] eqn:E.
    destruct (hdlPlay_money _ _ _ _ _ _ E) as (_ & Hi & Hn & _).
    cbn [fst snd]. unfold seatOf. congruence.
  - intro t. unfold settlementPhase. apply onPlayers_sameSeats.
    intros p w. unfold settlePlayer.
    pose proof (settleLoop_seat (dealrHOf t) (hands p) p w) as H.
    destruct (settleLoop p (hands p) (dealrHOf t) w) as [[p1 hs] w1].
    exact H.
  - apply onDealerHand_sameSeats.
Qed.

Lemma forEachPlayer_image {A : Type} (g h : Player -> A) (P : Player -> Prop)
    (f : Player -> World -> Status * Player * World) :
  (forall p w, P p -> g (snd (fst (f p w))) = h p) ->
  forall ps w ps' w',
    forEachPlayer f ps w = (Ok, ps', w') -> Forall P ps ->
    map g ps' = map h ps.
Proof.
  intros Hf ps. induction ps as [|p more IH]; intros w ps' w';
    cbn [forEachPlayer].
  - intros H _. injection H as <- <-. reflexivity.
  - intros H HP. inversion HP as [|? ? Hp Hmore]; subst.
    specialize (Hf p w Hp). destruct (f p w) as [[st p1] w1].
    cbn [fst snd] in Hf. destruct st; try discriminate.
    destruct (forEachPlayer f more w1) as [[st2 more2] w2] eqn:E.
    injection H as -> <- <-. cbn [map]. rewrite Hf, (IH _ _ _ E Hmore).
    reflexivity.
Qed.

(** ** Balances within [int] *)

Lemma betSum_nonneg (hs : list Hand) : betsNonneg hs -> 0 <= betSum hs.
Proof.
  induction 1 as [|h hs Hh _ IH]; [cbn; lia|]. rewrite betSum_cons. lia.
Qed.

Lemma winAmt_twice (b : Z) : 0 <= b -> 2 * winAmtOf b <= 3 * b.
Proof.
  intro Hb. rewrite winAmt_floor by exact Hb.
  pose proof (Z.mul_div_le (3 * b) 2 ltac:(lia)). lia.
Qed.

(** Settling hand after hand: when the balance has room for two and a half
    times the wagers, every step is in range, the balance does not drop, and
    it grows by at most that much. *)
Lemma settleLoop_fits (dealrH : Hand) :
  forall hs p w,
    0 <= chips p -> betsNonneg hs ->
    2 * chips p + 5 * betSum hs <= 2 * INT_MAX ->
    settlesInInt p hs dealrH w
    /\ chips p <= chips (fst (fst (settleLoop p hs dealrH w)))
    /\ 2 * chips (fst (fst (settleLoop p hs dealrH w)))
       <= 2 * chips p + 5 * betSum hs.
Proof.
  induction hs as [|hand more IH]; intros p w Hc Hb Hroom;
    cbn [settleLoop settlesInInt].
  { cbn. split; [exact I | lia]. }
  inversion Hb as [|? ? Hh Hmore]; subst.
  rewrite betSum_cons in Hroom.
  pose proof (betSum_nonneg _ Hmore) as Hs.
  pose proof (winAmt_twice _ Hh) as Hw.
  pose proof (settleOne_credit_bounds p hand dealrH w Hh) as Hcr.
  assert (Hfit : payoutFits p hand) by (unfold payoutFits; repeat split; lia).
  destruct (settleOne p hand dealrH w) as [[p1 h1] w1]. cbn [fst snd] in *.
  destruct (IH p1 w1 ltac:(lia) Hmore ltac:(lia)) as (Hin & Hlo & Hhi).
  destruct (settleLoop p1 more dealrH w1) as [[p2 m2] w2]. cbn [fst snd] in *.
  rewrite betSum_cons.
  split; [split; [exact Hfit | exact Hin]|]. split; lia.
Qed.

Lemma within_andThen (B : Z) (f g : Game -> Status * Game) :
  (forall t, Forall (within B) (plyrs t) -> Forall (within B) (plyrs (snd (f t)))) ->
  (forall t, Forall (within B) (plyrs t) -> Forall (within B) (plyrs (snd (g t)))) ->
  forall t, Forall (within B) (plyrs t) ->
    Forall (within B) (plyrs (snd ((f ;; g) t))).
Proof.
  intros Hf Hg t Ht. unfold andThen. specialize (Hf t Ht).
  destruct (f t) as [st t1]. cbn [snd] in Hf.
  destruct st; try exact Hf. exact (Hg t1 Hf).
Qed.

Lemma onPlayers_within (B : Z) (f : Player -> World -> Status * Player * World) :
  (forall p w, within B p -> within B (snd (fst (f p w)))) ->
  forall t, Forall (within B) (plyrs t) ->
    Forall (within B) (plyrs (snd (onPlayers f t))).
Proof.
  intros Hf t Ht. unfold onPlayers.
  pose proof (forEachPlayer_Forall (within B) (within B) f (fun p H => H) Hf
                (plyrs t) (world t) Ht) as H.
  destruct (forEachPlayer f (plyrs t) (world t)) as [[st ps] w]. exact H.
Qed.

Lemma onDealerHand_within (B : Z) (f : Hand -> World -> Status * Hand * World) :
  forall t, Forall (within B) (plyrs t) ->
    Forall (within B) (plyrs (snd (onDealerHand f t))).
Proof. intros t Ht. rewrite onDealerHand_plyrs. exact Ht. Qed.

Lemma placeBet_within (B : Z) (p : Player) (w : World) :
  hands p = [] /\ 0 <= chips p <= B -> within B (snd (fst (placeBet p w))).
Proof.
  intros [E Hc]. unfold placeBet, within.
  pose proof (promptBet_valid (chips p) (cinInts w)) as Hv.
  destruct (promptBet (chips p) (cinInts w)) as [[b|] cin'].
  - specialize (Hv _ _ eq_refl). cbn [fst snd].
    unfold stake, betsNonneg. cbn [chips hands setChips setHands].
    rewrite E. cbn [app]. rewrite betSum_cons. cbn [bet setBet newHand betSum map fold_right].
    split; [lia|]. split; [|lia].
    constructor; [cbn [bet setBet]; lia | constructor].
  - cbn [fst snd]. unfold stake, betsNonneg. rewrite E.
    cbn [betSum map fold_right]. split; [lia|]. split; [constructor | lia].
Qed.

(** When the settlement of a round begins, and at whatever point before it
    the round may have stopped, each player has at the table what the round
    started with: no negative balance, no negative wager, and a stake of at
    most the bound on the balances at the start. *)
Lemma beforeSettlement_within (B : Z) (t : Game) :
  noHands t ->
  Forall (fun p => 0 <= chips p <= B) (plyrs t) ->
  Forall (within B) (plyrs (snd (beforeSettlement t))).
Proof.
  intros Hno Hsol. unfold beforeSettlement. unfold andThen at 1.
  cbn [reshuffleCheck].
  match goal with |- context [(?f ;; ?g) ?s] => set (t0 := s) end.
  assert (Hstart : Forall (fun p => hands p = [] /\ 0 <= chips p <= B) (plyrs t0)).
  { subst t0. cbn [plyrs]. apply Forall_forall. intros p Hin. split.
    - exact (proj1 (Forall_forall _ _) Hno p Hin).
    - exact (proj1 (Forall_forall _ _) Hsol p Hin). }
  clearbody t0. clear Hno Hsol t.
  assert (Hrest : forall t1, Forall (within B) (plyrs t1) ->
            Forall (within B)
              (plyrs (snd ((onPlayers dealToFront ;; dealToDealer ;;
                            onPlayers dealToFront ;; dealToDealer ;;
                            playPhases) t1)))).
  { assert (Hdeal : forall t1, Forall (within B) (plyrs t1) ->
                      Forall (within B) (plyrs (snd (onPlayers dealToFront t1)))).
    { apply onPlayers_within. intros p w (Hc & Hb & Hs). unfold dealToFront.
      destruct (hands p) as [|h tl] eqn:E.
      - cbn [fst snd]. unfold within, stake. rewrite E.
        unfold stake in Hs. rewrite E in Hs. auto.
      - destruct (dealCrd (cards h) w) as [[st cs] w'].
        cbn [fst snd]. unfold within, stake in *.
        cbn [hands setHands chips]. rewrite E in Hs. rewrite betSum_cons in *.
        cbn [bet setCards]. split; [exact Hc|]. split; [|exact Hs].
        inversion Hb; subst. constructor; assumption. }
    do 4 (apply within_andThen;
          [first [exact Hdeal | apply onDealerHand_within]|]).
    intros t1 Ht. unfold playPhases. cbn zeta.
    generalize (dealrNatOf t1). intro dealrNat. revert t1 Ht.
    apply within_andThen; [|apply onDealerHand_within].
    intros t1 Ht. unfold actionsPhase. revert Ht.
    apply onPlayers_within. intros p w (Hc & Hb & Hs).
    destruct (negb dealrNat); [|repeat split; assumption].
    destruct (hdlPlay p (dealrHOf t1) w) as [[st p'] w'] eqn:E.
    destruct (hdlPlay_money _ _ _ _ _ _ E) as (Hst & _ & _ & Hm).
    destruct (Hm Hb) as (Hb' & _ & Hc'). cbn [fst snd].
    split; [auto|]. split; [exact Hb' | lia]. }
  unfold andThen at 1. unfold onPlayers at 1.
  pose proof (forEachPlayer_Forall
                (fun p => hands p = [] /\ 0 <= chips p <= B) (within B) placeBet)
    as Hbet.
  specialize (Hbet ltac:(intros p [E Hc]; unfold within, stake, betsNonneg;
                         rewrite E; cbn [betSum map fold_right];
                         split; [lia | split; [constructor | lia]])
                   (placeBet_within B) (plyrs t0) (world t0) Hstart).
  destruct (forEachPlayer placeBet (plyrs t0) (world t0)) as [[st ps] w].
  cbn [fst snd] in Hbet.
  destruct st; try exact Hbet.
  apply Hrest. exact Hbet.
Qed.

(** A round started with no hand on the table and every balance between 0
    and [B] ends, however it ends, with every balance between 0 and two and
    a half times [B], and no negative wager. *)
Lemma playRnd_bound (B : Z) (t : Game) :
  noHands t ->
  Forall (fun p => 0 <= chips p <= B) (plyrs t) ->
  5 * B <= 2 * INT_MAX ->
  Forall (fun p => 0 <= chips p /\ 2 * chips p <= 5 * B /\ betsNonneg (hands p))
         (plyrs (snd (playRnd t))).
Proof.
  intros Hno Hsol HB.
  pose proof (beforeSettlement_within B t Hno Hsol) as Hw.
  set (Q := fun p : Player =>
              0 <= chips p /\ 2 * chips p <= 5 * B /\ betsNonneg (hands p)).
  assert (Hq : forall p, within B p -> Q p).
  { intros p (Hc & Hb & Hs). pose proof (betSum_nonneg _ Hb). unfold stake in Hs.
    split; [exact Hc|]. split; [lia | exact Hb]. }
  unfold playRnd. unfold andThen at 1.
  destruct (beforeSettlement t) as [st t1]. cbn [snd] in Hw.
  destruct st; try (cbn [snd]; eapply Forall_impl; [exact Hq | exact Hw]).
  unfold andThen, settlementPhase, onPlayers.
  pose proof (forEachPlayer_Forall (within B) Q (settlePlayer (dealrHOf t1)) Hq)
    as Hset.
  match type of Hset with ?A -> _ => assert (Hf : A) end.
  { intros p w (Hc & Hb & Hs). unfold settlePlayer.
    destruct (settlePlayer_spec (dealrHOf t1) p w) as (_ & Hh & _).
    unfold settlePlayer in Hh.
    pose proof (betSum_nonneg _ Hb) as Hn. unfold stake in Hs.
    destruct (settleLoop_fits (dealrHOf t1) (hands p) p w Hc Hb ltac:(lia))
      as (_ & Hlo & Hhi).
    destruct (settleLoop p (hands p) (dealrHOf t1) w) as [[p1 hs] w1].
    cbn [fst snd chips hands setHands] in *.
    unfold Q. cbn [chips hands setHands].
    split; [lia|]. split; [lia|]. rewrite Hh. constructor. }
  specialize (Hset Hf (plyrs t1) (world t1) Hw).
  destruct (forEachPlayer (settlePlayer (dealrHOf t1)) (plyrs t1) (world t1))
    as [[st ps] w]. cbn [fst snd] in Hset.
  destruct st; try exact Hset.
  unfold discardDealer. rewrite onDealerHand_plyrs. exact Hset.
Qed.

Lemma roundCap_fits : 5 * roundCap <= 2 * INT_MAX.
Proof. vm_compute. discriminate. Qed.

(** A round that runs to its end, started with no hand on the table and
    with balances a round can start from ([roundFits]: two and a half times
    the balance is still an [int]).  When the settlement begins every
    player's balance and wagers add up to the balance the round started
    with, and the settlement of the player's hands stays within [int] at
    every hand.  The round then ends with each balance raised by the payouts
    of the player's hands against the dealer's final hand, and in range.
    The players at the table are the same, in the same order. *)
Theorem playRnd_accounting (t t' : Game) :
  noHands t ->
  Forall roundFits (plyrs t) ->
  playRnd t = (Ok, t') ->
  let t1 := snd (beforeSettlement t) in
  map stake (plyrs t1) = map chips (plyrs t)
  /\ Forall (fun p => forall w, settlesInInt p (hands p) (dealrHOf t1) w)
            (plyrs t1)
  /\ map chips (plyrs t')
     = map (fun p => chips p + payoutSum (dealrHOf t1) (hands p)) (plyrs t1)
  /\ Forall (fun p => 0 <= chips p <= INT_MAX) (plyrs t')
  /\ sameSeats t t'.
Proof.
  intros Hno Hfit H t1.
  pose proof roundCap_fits as Hcap.
  split; [exact (beforeSettlement_stakes t Hno)|].
  split; [|split; [|split]].
  - pose proof (beforeSettlement_within roundCap t Hno Hfit) as Hw. fold t1 in Hw.
    eapply Forall_impl; [|exact Hw].
    intros p (Hc & Hb & Hs) w. pose proof (betSum_nonneg _ Hb). unfold stake in Hs.
    apply settleLoop_fits; [exact Hc | exact Hb | lia].
  - pose proof (beforeSettlement_wagered t Hno) as Hw. fold t1 in Hw.
    revert H. unfold playRnd. unfold andThen at 1.
    destruct (beforeSettlement t) as [st t1'] eqn:E1. subst t1.
    cbn [snd] in *. destruct st; try discriminate.
    unfold andThen, settlementPhase, onPlayers.
    destruct (forEachPlayer (settlePlayer (dealrHOf t1')) (plyrs t1') (world t1'))
      as [[st ps] w] eqn:E2.
    destruct st; try discriminate.
    intro H.
    assert (Hp : plyrs t' = ps).
    { revert H. unfold discardDealer, onDealerHand. cbn [dealr plyrs world].
      destruct (hands (dealr t1')) as [|h others]; [discriminate|].
      intro H. injection H as <-. reflexivity. }
    rewrite Hp.
    refine (forEachPlayer_image chips _ (fun p => Forall wagered (hands p))
              (settlePlayer (dealrHOf t1')) _ _ _ _ _ E2 Hw).
    intros p w0 Hpw. unfold settlePlayer.
    pose proof (settleLoop_chips (dealrHOf t1') (hands p) p w0 Hpw) as Hc.
    destruct (settleLoop p (hands p) (dealrHOf t1') w0) as [[p1 hs] w1].
    exact Hc.
  - pose proof (playRnd_bound roundCap t Hno Hfit Hcap) as Hb.
    rewrite H in Hb. cbn [snd] in Hb.
    eapply Forall_impl; [|exact Hb]. intros p (Hc & Hh & _). lia.
  - pose proof (playRnd_sameSeats t) as Hs. rewrite H in Hs. exact Hs.
Qed.

(** Ann bets 10 of her 1000 chips on a pair of aces, hits a nine for 21 and
    is paid 20 against the dealer's 19. *)
Lemma playRnd_accounting_witness :
  map chips (plyrs (snd (playRnd (acesGame [nineClubs] ["H"])))) = [1010]
  /\ sameSeats (acesGame [nineClubs] ["H"])
               (snd (playRnd (acesGame [nineClubs] ["H"]))).
Proof.
  split; [vm_compute; reflexivity|].
  refine (proj2 (proj2 (proj2 (proj2 (playRnd_accounting
                  (acesGame [nineClubs] ["H"]) _ _ _ _))))).
  - repeat constructor.
  - repeat constructor; vm_compute; discriminate.
  - vm_compute. reflexivity.
Defined.

(** ** Where the dealer stops *)

Lemma hardTotal_snoc (l : list Card) (c : Card) :
  hardTotal (l ++ [c]) = hardTotal l + (if isAce c then 1 else value c).
Proof.
  unfold hardTotal, nonAces, aceCount, sumValues.
  rewrite !filter_app, map_app, length_app, fold_right_app. cbn [filter].
  destruct (isAce c); cbn [negb map fold_right length].
  - lia.
  - assert (H : forall (l : list Z) a,
               fold_right Z.add a l = fold_right Z.add 0 l + a).
    { intros l0 a. induction l0 as [|x l0 IH]; cbn [fold_right]; lia. }
    rewrite (H _ (value c + 0)). lia.
Qed.

(** One more card on a hand below 17 cannot take it past 26. *)
Lemma calcScr_after_draw (hand : Hand) (c : Card) :
  calcScr hand < 17 -> atMostTen c ->
  calcScr (setCards hand (cards hand ++ [c])) <= 26.
Proof.
  intros Hs Hc.
  destruct (calcScr_hard hand) as [Hlow _].
  destruct (calcScr_hard (setCards hand (cards hand ++ [c]))) as [_ Hbust].
  cbn [cards setCards] in Hbust. rewrite hardTotal_snoc in Hbust.
  destruct (Z.le_gt_cases (calcScr (setCards hand (cards hand ++ [c]))) 21)
    as [H|H]; [lia|].
  rewrite (Hbust H).
  destruct Hc as [Ha|Hv]; [rewrite Ha; lia|].
  destruct (isAce c); lia.
Qed.

(** The dealer's turn, when it runs to its end.  A dealer who already has
    17 or more draws nothing: a soft 17 (an ace and a six) counts as 17, so
    the dealer stands on it.  Otherwise the dealer stops on the first score
    of 17 or more, and that score is at most 26, since the last card was
    drawn on 16 or less and no card but an ace counts for more than 10.
    Every card that [createDk] makes is such a card. *)
Theorem dealer_stops_between_17_and_26 :
  Forall atMostTen oneDeck
  /\ (forall dealrH w,
         17 <= calcScr dealrH -> dealerPlay false dealrH w = (Ok, dealrH, w))
  /\ calcScr (mkHand [aceHearts; sixDiamonds] 0 false false) = 17
  /\ (forall dealrH w h' w',
         Forall atMostTen (deck w ++ disPile w) ->
         calcScr dealrH <= 26 ->
         dealerPlay false dealrH w = (Ok, h', w') ->
         17 <= calcScr h' <= 26).
Proof.
  split; [|split; [|split]].
  - apply Forall_forall. intros c Hin. apply oneDeck_In in Hin.
    destruct Hin as [Hin _]. unfold atMostTen, isAce.
    revert Hin. generalize (rank c), (value c). intros r v Hin.
    vm_compute in Hin.
    repeat (destruct Hin as [Hin|Hin];
            [injection Hin as <- <-;
             first [left; reflexivity | right; lia]|]).
    contradiction.
  - intros dealrH w H. unfold dealerPlay. cbn [negb dealerLoop].
    replace (calcScr dealrH <? 17) with false
      by (symmetry; apply Z.ltb_ge; exact H).
    reflexivity.
  - reflexivity.
  - intros dealrH w h' w' Hsup Hstart H.
    unfold dealerPlay in H. cbn [negb] in H.
    apply dealerLoop_spec in H.
    destruct H as (drawn & Hh & Hpre & Hok & _ & _ & _ & _ & Hperm).
    split; [exact (Hok eq_refl)|].
    destruct drawn as [|x drawn0].
    + rewrite app_nil_r, setCards_same in Hh. subst h'. exact Hstart.
    + destruct (exists_last (l := x :: drawn0)) as (d0 & c & Hd);
        [discriminate|].
      rewrite Hd in *. clear Hd x drawn0. subst h'.
      specialize (Hpre (length d0)).
      unfold dealerAfter in Hpre.
      rewrite firstn_app, firstn_all, Nat.sub_diag in Hpre.
      cbn [firstn] in Hpre. rewrite app_nil_r in Hpre.
      specialize (Hpre ltac:(rewrite length_app; cbn [length]; lia)).
      assert (Hc : atMostTen c).
      { apply (proj1 (Forall_forall _ _) Hsup).
        eapply Permutation_in; [exact Hperm|].
        apply in_or_app. right. apply in_or_app. right.
        apply in_or_app. right. left. reflexivity. }
      pose proof (calcScr_after_draw _ c Hpre Hc) as Hb.
      cbn [cards setCards] in Hb.
      rewrite (calcScr_cards _ (setCards (setCards dealrH (cards dealrH ++ d0))
                                  ((cards dealrH ++ d0) ++ [c])));
        [exact Hb|].
      cbn [cards setCards]. rewrite app_assoc. reflexivity.
Qed.

Lemma dealer_stops_between_17_and_26_witness :
  17 <= calcScr (snd (fst (dealerPlay false
                   (mkHand [tenHearts; sixDiamonds] 0 false false)
                   (worldOf [fiveClubs; nineSpades] [])))) <= 26.
Proof.
  refine (proj2 (proj2 (proj2 dealer_stops_between_17_and_26))
            (mkHand [tenHearts; sixDiamonds] 0 false false)
            (worldOf [fiveClubs; nineSpades] []) _ _ _ _ _).
  - cbn [worldOf deck disPile app].
    repeat (apply Forall_cons; [right; vm_compute; discriminate|]).
    apply Forall_nil.
  - vm_compute. discriminate.
  - vm_compute. reflexivity.
Defined.

(** ** A session never reads the front of an empty list *)

Lemma safeStep_andThen (P Q R : Game -> Prop) (f g : Game -> Status * Game) :
  safeStep P Q f -> safeStep Q R g -> safeStep P R (f ;; g).
Proof.
  intros Hf Hg t HP. unfold andThen.
  destruct (Hf t HP) as [Hu Hq]. destruct (f t) as [st t1].
  cbn [fst snd] in *.
  destruct st; try (split; [exact Hu | intro H; discriminate H]);
    try contradiction.
  apply Hg. apply Hq. reflexivity.
Qed.

Lemma forEachPlayer_safe (Pp Qp : Player -> Prop)
    (f : Player -> World -> Status * Player * World) :
  (forall p w, Pp p ->
     fst (fst (f p w)) <> Undefined
     /\ (fst (fst (f p w)) = Ok -> Qp (snd (fst (f p w))))) ->
  forall ps w, Forall Pp ps ->
    fst (fst (forEachPlayer f ps w)) <> Undefined
    /\ (fst (fst (forEachPlayer f ps w)) = Ok ->
        Forall Qp (snd (fst (forEachPlayer f ps w)))).
Proof.
  intros Hf ps. induction ps as [|p more IH]; intros w HP; cbn [forEachPlayer].
  - split; [discriminate | constructor].
  - inversion HP as [|? ? Hp Hmore]; subst.
    destruct (Hf p w Hp) as [Hu Hq]. destruct (f p w) as [[st p1] w1].
    cbn [fst snd] in *.
    destruct st; try (split; [exact Hu | intro H; discriminate H]);
      try contradiction.
    destruct (IH w1 Hmore) as [Hu2 Hq2].
    destruct (forEachPlayer f more w1) as [[st2 more2] w2]. cbn [fst snd] in *.
    split; [exact Hu2|]. intro E. constructor; [apply Hq; reflexivity | auto].
Qed.

Lemma onPlayers_safe (Pp Qp : Player -> Prop)
    (f : Player -> World -> Status * Player * World) (t : Game) :
  (forall p w, Pp p ->
     fst (fst (f p w)) <> Undefined
     /\ (fst (fst (f p w)) = Ok -> Qp (snd (fst (f p w))))) ->
  dealerSeated t -> Forall Pp (plyrs t) ->
  fst (onPlayers f t) <> Undefined
  /\ (fst (onPlayers f t) = Ok ->
      dealerSeated (snd (onPlayers f t))
      /\ Forall Qp (plyrs (snd (onPlayers f t)))).
Proof.
  intros Hf Hd HP. unfold onPlayers.
  destruct (forEachPlayer_safe Pp Qp f Hf (plyrs t) (world t) HP) as [Hu Hq].
  destruct (forEachPlayer f (plyrs t) (world t)) as [[st ps] w].
  cbn [fst snd] in *. split; [exact Hu|].
  intro E. split; [exact Hd | exact (Hq E)].
Qed.

Lemma onPlayers_defined (f : Player -> World -> Status * Player * World) :
  (forall p w, fst (fst (f p w)) <> Undefined) ->
  safeStep dealerSeated dealerSeated (onPlayers f).
Proof.
  intros Hf t0 Hd.
  destruct (onPlayers_safe (fun _ => True) (fun _ => True) f t0) as [Hu Hq];
    [intros p w _; split; [apply Hf | intros _; exact I]
    | exact Hd | apply Forall_forall; intros; exact I |].
  split; [exact Hu | intro E; exact (proj1 (Hq E))].
Qed.

Lemma onDealerHand_safe (Q : Game -> Prop)
    (f : Hand -> World -> Status * Hand * World) :
  (forall h w, fst (fst (f h w)) <> Undefined) ->
  (forall t h others w,
     Q t -> Q (mkGame (plyrs t) (setHands (dealr t) (h :: others)) w)) ->
  safeStep (fun t => dealerSeated t /\ Q t) (fun t => dealerSeated t /\ Q t)
           (onDealerHand f).
Proof.
  intros Hf HQ t [Hd Hq]. unfold onDealerHand, dealerSeated in *.
  destruct (hands (dealr t)) as [|h others]; [contradiction|].
  specialize (Hf h (world t)). destruct (f h (world t)) as [[st h'] w'].
  cbn [fst snd dealr plyrs hands setHands] in *.
  split; [exact Hf|]. intros _. split; [discriminate | apply HQ; exact Hq].
Qed.

Lemma safeStep_weaken (P P' Q Q' : Game -> Prop) (f : Game -> Status * Game) :
  (forall t, P' t -> P t) -> (forall t, Q t -> Q' t) ->
  safeStep P Q f -> safeStep P' Q' f.
Proof.
  intros HP HQ Hf t Ht. destruct (Hf t (HP t Ht)) as [Hu Hq].
  split; [exact Hu | intro E; exact (HQ _ (Hq E))].
Qed.

Lemma dealCrd_defined (l : list Card) (w : World) :
  fst (fst (dealCrd l w)) <> Undefined.
Proof.
  destruct (dealCrd l w) as [[st l'] w'] eqn:E.
  destruct (dealCrd_status _ _ _ _ _ E) as [[-> _] | [-> _]]; discriminate.
Qed.

(** Without a request to split in the input, the decision loops never get
    to the access through [end()], and what they leave of the input holds
    no such request either. *)
Lemma playHand_calm :
  forall fuel p curHnd rest w st resume p' h' rest' w',
    noSplitAsked w ->
    playHand fuel p curHnd rest w = (st, resume, p', h', rest', w') ->
    st <> Undefined /\ noSplitAsked w'.
Proof.
  unfold noSplitAsked.
  induction fuel as [|fuel IH]; intros p curHnd rest w st resume p' h' rest' w' Hn;
    cbn [playHand].
  { intro H; injection H as <- <- <- <- <- <-. split; [discriminate | exact Hn]. }
  destruct (calcScr curHnd >? 21).
  { intro H; injection H as <- <- <- <- <- <-. split; [discriminate | exact Hn]. }
  destruct (calcScr curHnd =? 21).
  { intro H; injection H as <- <- <- <- <- <-. split; [discriminate | exact Hn]. }
  destruct (cinWords w) as [|word more] eqn:Ew.
  { intro H; injection H as <- <- <- <- <- <-. rewrite Ew.
    split; [discriminate | constructor]. }
  inversion Hn as [|? ? Hword Hmore]; subst.
  destruct (upcase word =? "H")%string.
  { pose proof (playHit_cin curHnd (setCinWords w more)) as Hc.
    destruct (playHit curHnd (setCinWords w more)) as [[st1 h1] w1] eqn:E.
    cbn [snd cinWords setCinWords] in Hc.
    destruct (playHit_cases _ _ _ _ _ E) as [[-> _] | [-> _]].
    - apply IH. rewrite Hc. exact Hmore.
    - intro H; injection H as <- <- <- <- <- <-. rewrite Hc.
      split; [discriminate | exact Hmore]. }
  destruct (upcase word =? "S")%string.
  { intro H; injection H as <- <- <- <- <- <-.
    split; [discriminate | exact Hmore]. }
  destruct ((upcase word =? "D")%string && canDbl p curHnd).
  { pose proof (playDD_cin p curHnd (setCinWords w more)) as Hc.
    destruct (playDD p curHnd (setCinWords w more)) as [[[st1 p1] h1] w1] eqn:E.
    cbn [snd cinWords setCinWords] in Hc.
    intro H; injection H as <- <- <- <- <- <-. rewrite Hc.
    split; [|exact Hmore].
    destruct (playDD_cases _ _ _ _ _ _ _ E)
      as [(_ & -> & _) | (_ & _ & [[-> _] | [-> _]])]; discriminate. }
  destruct (String.eqb_spec (upcase word) "P") as [Hp|_]; [contradiction|].
  cbn [andb]. apply IH. exact Hmore.
Qed.

Lemma hdlLoop_calm :
  forall fuel p prev todo w st p' hs w',
    noSplitAsked w ->
    hdlLoop fuel p prev todo w = (st, p', hs, w') ->
    st <> Undefined /\ noSplitAsked w'.
Proof.
  induction fuel as [|fuel IH]; intros p prev todo w st p' hs w' Hn;
    destruct todo as [|curHnd rest]; cbn [hdlLoop];
    try (intro H; injection H as <- <- <- <-; split; [discriminate | exact Hn]).
  destruct (ddown curHnd); [apply IH; exact Hn|].
  destruct (splitAces curHnd); [apply IH; exact Hn|].
  destruct (playHand fuel p curHnd rest w) as [[[[[st1 resume] p1] h1] r1] w1] eqn:E.
  destruct (playHand_calm _ _ _ _ _ _ _ _ _ _ _ Hn E) as [Hu Hn1].
  destruct st1;
    try (intro H; injection H as <- <- <- <-; split; [discriminate | exact Hn1]);
    try contradiction.
  destruct resume; apply IH; exact Hn1.
Qed.

Lemma hdlPlay_calm (p : Player) (dlHnd : Hand) (w : World) :
  noSplitAsked w ->
  fst (fst (hdlPlay p dlHnd w)) <> Undefined
  /\ noSplitAsked (snd (hdlPlay p dlHnd w)).
Proof.
  intro Hn. unfold hdlPlay, hdlRun.
  destruct (hdlLoop _ _ _ _ _) as [[[st p1] hs] w1] eqn:E.
  exact (hdlLoop_calm _ _ _ _ _ _ _ _ _ Hn E).
Qed.

Lemma forEachPlayer_calm (f : Player -> World -> Status * Player * World) :
  (forall p w, noSplitAsked w ->
     fst (fst (f p w)) <> Undefined /\ noSplitAsked (snd (f p w))) ->
  forall ps w, noSplitAsked w ->
    fst (fst (forEachPlayer f ps w)) <> Undefined
    /\ noSplitAsked (snd (forEachPlayer f ps w)).
Proof.
  intros Hf ps. induction ps as [|p more IH]; intros w Hn; cbn [forEachPlayer].
  { split; [discriminate | exact Hn]. }
  destruct (Hf p w Hn) as [Hu Hn1]. destruct (f p w) as [[st p1] w1].
  cbn [fst snd] in *.
  destruct st; try (split; [exact Hu | exact Hn1]).
  destruct (IH w1 Hn1) as [Hu2 Hn2].
  destruct (forEachPlayer f more w1) as [[st2 more2] w2]. cbn [fst snd] in *.
  split; assumption.
Qed.

Lemma forEachPlayer_world {A : Type} (g : World -> A)
    (f : Player -> World -> Status * Player * World) :
  (forall p w, g (snd (f p w)) = g w) ->
  forall ps w, g (snd (forEachPlayer f ps w)) = g w.
Proof.
  intros Hf ps. induction ps as [|p more IH]; intro w; [reflexivity|].
  cbn [forEachPlayer]. specialize (Hf p w).
  destruct (f p w) as [[st p1] w1]. cbn [snd] in Hf.
  destruct st; try exact Hf.
  specialize (IH w1). destruct (forEachPlayer f more w1) as [[st2 m2] w2].
  cbn [snd] in *. congruence.
Qed.

(** A step that reads no word keeps the input free of requests to split. *)
Lemma safeStep_silent (P Q : Game -> Prop) (f : Game -> Status * Game) :
  safeStep P Q f -> silent f ->
  safeStep (fun t => P t /\ noSplitAsked (world t))
           (fun t => Q t /\ noSplitAsked (world t)) f.
Proof.
  intros Hf Hs t [HP Hn]. destruct (Hf t HP) as [Hu Hq].
  split; [exact Hu|]. intro E. split; [exact (Hq E)|].
  unfold noSplitAsked. rewrite Hs. exact Hn.
Qed.

Lemma onPlayers_silent (f : Player -> World -> Status * Player * World) :
  (forall p w, cinWords (snd (f p w)) = cinWords w) -> silent (onPlayers f).
Proof.
  intros Hf t. unfold onPlayers.
  pose proof (forEachPlayer_world cinWords f Hf (plyrs t) (world t)) as H.
  destruct (forEachPlayer f (plyrs t) (world t)) as [[st ps] w]. exact H.
Qed.

Lemma onDealerHand_silent (f : Hand -> World -> Status * Hand * World) :
  (forall h w, cinWords (snd (f h w)) = cinWords w) -> silent (onDealerHand f).
Proof.
  intros Hf t. unfold onDealerHand.
  destruct (hands (dealr t)) as [|h others]; [reflexivity|].
  specialize (Hf h (world t)). destruct (f h (world t)) as [[st h'] w].
  exact Hf.
Qed.

Lemma dealToFront_cin (p : Player) (w : World) :
  cinWords (snd (dealToFront p w)) = cinWords w.
Proof.
  unfold dealToFront. destruct (hands p) as [|h t]; [reflexivity|].
  pose proof (proj1 (dealCrd_cin (cards h) w)) as H.
  destruct (dealCrd (cards h) w) as [[st cs] w']. exact H.
Qed.

Lemma dealToDealer_silent : silent dealToDealer.
Proof.
  apply onDealerHand_silent. intros h w.
  pose proof (proj1 (dealCrd_cin (cards h) w)) as H.
  destruct (dealCrd (cards h) w) as [[st cs] w']. exact H.
Qed.

Lemma placeBet_cin (p : Player) (w : World) :
  cinWords (snd (placeBet p w)) = cinWords w.
Proof.
  unfold placeBet.
  destruct (promptBet (chips p) (cinInts w)) as [[b|] cin']; reflexivity.
Qed.

Lemma settlePlayer_cin (dealrH : Hand) (p : Player) (w : World) :
  cinWords (snd (settlePlayer dealrH p w)) = cinWords w.
Proof.
  unfold settlePlayer.
  assert (H : forall hs p0 w0,
             cinWords (snd (settleLoop p0 hs dealrH w0)) = cinWords w0).
  { induction hs as [|h more IH]; intros p0 w0; cbn [settleLoop]; [reflexivity|].
    assert (H1 : cinWords (snd (settleOne p0 h dealrH w0)) = cinWords w0).
    { unfold settleOne, setHnd. destruct (bet h >? 0); reflexivity. }
    destruct (settleOne p0 h dealrH w0) as [[p1 h1] w1].
    specialize (IH p1 w1).
    destruct (settleLoop p1 more dealrH w1) as [[p2 m2] w2].
    cbn [snd] in *. congruence. }
  specialize (H (hands p) p w).
  destruct (settleLoop p (hands p) dealrH w) as [[p1 hs] w1]. exact H.
Qed.

Lemma dealerPlay_cin (dealrNat : bool) (h : Hand) (w : World) :
  cinWords (snd (dealerPlay dealrNat h w)) = cinWords w.
Proof.
  unfold dealerPlay. destruct (negb dealrNat); [|reflexivity].
  destruct (dealerLoop _ h w) as [[st h'] w'] eqn:E.
  apply dealerLoop_spec in E.
  destruct E as (drawn & _ & _ & _ & _ & _ & Hw & _). exact Hw.
Qed.

Lemma onDealerHand_defined (f : Hand -> World -> Status * Hand * World) :
  (forall h w, fst (fst (f h w)) <> Undefined) ->
  safeStep dealerSeated dealerSeated (onDealerHand f).
Proof.
  intro Hf.
  apply (safeStep_weaken (fun t => dealerSeated t /\ True)
                         _ (fun t => dealerSeated t /\ True) _);
    [intros t H; split; [exact H | exact I] | intros t [H _]; exact H |].
  apply onDealerHand_safe; [exact Hf | auto].
Qed.

Lemma placeBet_safe :
  safeStep dealerSeated (fun t => dealerSeated t /\ allDealtIn t)
           (onPlayers placeBet).
Proof.
  intros t Hd.
  apply (onPlayers_safe (fun _ => True) (fun p => hands p <> []));
    [|exact Hd | apply Forall_forall; intros; exact I].
  intros p w _. unfold placeBet.
  destruct (promptBet (chips p) (cinInts w)) as [[b|] cin'];
    cbn [fst snd hands setChips setHands].
  - split; [discriminate|]. intros _. destruct (hands p); discriminate.
  - split; [discriminate | intro H; discriminate H].
Qed.

Lemma dealToFront_safe :
  safeStep (fun t => dealerSeated t /\ allDealtIn t)
           (fun t => dealerSeated t /\ allDealtIn t)
           (onPlayers dealToFront).
Proof.
  intros t [Hd Hall].
  apply (onPlayers_safe (fun p => hands p <> []) (fun p => hands p <> []));
    [|exact Hd | exact Hall].
  intros p w Hp. unfold dealToFront.
  destruct (hands p) as [|h tl]; [contradiction|].
  pose proof (dealCrd_defined (cards h) w) as H.
  destruct (dealCrd (cards h) w) as [[st cs] w']. cbn [fst snd] in *.
  split; [exact H | intros _; discriminate].
Qed.

Lemma dealToDealer_safe :
  safeStep (fun t => dealerSeated t /\ allDealtIn t)
           (fun t => dealerSeated t /\ allDealtIn t)
           dealToDealer.
Proof.
  apply onDealerHand_safe.
  - intros h w. pose proof (dealCrd_defined (cards h) w) as H.
    destruct (dealCrd (cards h) w) as [[st cs] w']. exact H.
  - intros t h others w H. exact H.
Qed.

Lemma settlementPhase_safe : safeStep dealerSeated dealerSeated settlementPhase.
Proof.
  intros t Hd. unfold settlementPhase.
  apply onPlayers_defined; [|exact Hd].
  intros p w. rewrite (proj1 (settlePlayer_spec (dealrHOf t) p w)).
  discriminate.
Qed.

Lemma playPhases_calm : safeStep calm calm playPhases.
Proof.
  intros t Hc. unfold playPhases. cbn zeta.
  generalize (dealrNatOf t). intro dealrNat.
  refine (safeStep_andThen calm calm calm
            (actionsPhase dealrNat) (onDealerHand (dealerPlay dealrNat))
            _ _ t Hc).
  - intros t0 [Hd Hn]. unfold actionsPhase, onPlayers.
    match goal with |- context [forEachPlayer ?f (plyrs t0) (world t0)] =>
      pose proof (forEachPlayer_calm f) as H end.
    match type of H with ?A -> _ => assert (Hf : A) end.
    { intros p w Hw. destruct (negb dealrNat);
        [apply hdlPlay_calm; exact Hw | split; [discriminate | exact Hw]]. }
    specialize (H Hf (plyrs t0) (world t0) Hn).
    match goal with |- context [forEachPlayer ?f (plyrs t0) (world t0)] =>
      destruct (forEachPlayer f (plyrs t0) (world t0)) as [[st ps] w] end.
    cbn [fst snd] in *. destruct H as [Hu Hn']. split; [exact Hu|].
    intros _. split; [exact Hd | exact Hn'].
  - apply (safeStep_silent dealerSeated dealerSeated).
    + apply onDealerHand_defined. intros h w. unfold dealerPlay.
      destruct (negb dealrNat); [|discriminate].
      destruct (dealerLoop _ h w) as [[st h'] w'] eqn:E.
      apply dealerLoop_spec in E.
      destruct E as (_ & _ & _ & _ & _ & [-> | [-> | ->]] & _); discriminate.
    + apply onDealerHand_silent. intros h w. apply dealerPlay_cin.
Qed.

(** With a hand for the dealer and no request to split in the input, a
    round never makes an undefined access: each player is given a hand
    before the deal, and the only other one, the draw through [end()], needs
    a split. *)
Lemma playRnd_calm : safeStep calm calm playRnd.
Proof.
  set (dealt := fun t => (dealerSeated t /\ allDealtIn t) /\ noSplitAsked (world t)).
  unfold playRnd, beforeSettlement.
  apply (safeStep_andThen _ calm).
  - apply (safeStep_andThen _ calm).
    { intros t0 [Hd Hn]. split; [discriminate|]. intros _. split; [exact Hd|].
      unfold noSplitAsked. cbn [reshuffleCheck snd world].
      destruct (length (deck (world t0)) <? 60)%nat; [|exact Hn].
      destruct (shufDk_frame (createDk 4 (world t0))) as (_ & _ & _ & ->).
      exact Hn. }
    apply (safeStep_andThen _ dealt).
    { apply (safeStep_silent _ _ _ placeBet_safe).
      apply onPlayers_silent, placeBet_cin. }
    apply (safeStep_andThen _ dealt).
    { apply (safeStep_silent _ _ _ dealToFront_safe).
      apply onPlayers_silent, dealToFront_cin. }
    apply (safeStep_andThen _ dealt).
    { apply (safeStep_silent _ _ _ dealToDealer_safe), dealToDealer_silent. }
    apply (safeStep_andThen _ dealt).
    { apply (safeStep_silent _ _ _ dealToFront_safe).
      apply onPlayers_silent, dealToFront_cin. }
    apply (safeStep_andThen _ dealt).
    { apply (safeStep_silent _ _ _ dealToDealer_safe), dealToDealer_silent. }
    apply (safeStep_weaken calm _ calm _);
      [intros t0 [[H0 _] Hn]; split; assumption | auto | exact playPhases_calm].
  - apply (safeStep_andThen _ calm).
    { apply (safeStep_silent _ _ _ settlementPhase_safe).
      intro t0. unfold settlementPhase. apply onPlayers_silent.
      intros p w. apply settlePlayer_cin. }
    apply (safeStep_silent dealerSeated dealerSeated).
    + apply onDealerHand_defined. intros h w. discriminate.
    + apply onDealerHand_silent. intros h w. reflexivity.
Qed.

(** ** The session loop *)

Lemma resetDealer_seated (d : Player) (w : World) :
  hands (fst (resetDealer d w)) <> [].
Proof.
  unfold resetDealer. destruct (hands d) as [|h others] eqn:E; [discriminate|].
  destruct (bet h >? 0); cbn [discHnd fst hands setHands];
    [discriminate | rewrite E; discriminate].
Qed.

Lemma resetDealer_cin (d : Player) (w : World) :
  cinWords (snd (resetDealer d w)) = cinWords w.
Proof.
  unfold resetDealer. destruct (hands d) as [|h others]; [reflexivity|].
  destruct (bet h >? 0); reflexivity.
Qed.

Lemma resetDealer_idle (d : Player) (w : World) (h : Hand) (others : list Hand) :
  hands d = h :: others -> bet h <= 0 -> resetDealer d w = (d, w).
Proof.
  intros E Hb. unfold resetDealer. rewrite E.
  destruct (Z.gtb_spec (bet h) 0) as [H|_]; [lia|].
  reflexivity.
Qed.

Lemma gameLoop_step (fuel : nat) (t : Game) :
  gameLoop (S fuel) "Y" t
  = match stillIn (plyrs t) with
    | [] => (Ok, mkGame [] (dealr t) (world t))
    | _ :: _ =>
        let '(st, t') := playRnd (nextTable t) in
        match st with
        | Ok =>
            match cinWords (world t') with
            | [] => (NeedInput, t')
            | word :: more =>
                gameLoop fuel (upcase word)
                  (mkGame (plyrs t') (dealr t') (setCinWords (world t') more))
            end
        | _ => (st, t')
        end
    end.
Proof.
  cbn [gameLoop String.eqb Ascii.eqb Bool.eqb]. unfold nextTable, stillIn.
  destruct (filter _ (plyrs t)) as [|p0 ps]; [reflexivity|].
  destruct (resetDealer (dealr t) (world t)) as [d w]. reflexivity.
Qed.

Lemma gameLoop_other (fuel : nat) (playAgn : string) (t : Game) :
  playAgn <> "Y" -> gameLoop fuel playAgn t = (Ok, t).
Proof.
  intro H. apply String.eqb_neq in H.
  destruct fuel; cbn [gameLoop]; rewrite H; reflexivity.
Qed.

Lemma nextTable_calm (t : Game) : noSplitAsked (world t) -> calm (nextTable t).
Proof.
  intro Hn. split.
  - exact (resetDealer_seated (dealr t) (world t)).
  - unfold noSplitAsked, nextTable. cbn [world]. rewrite resetDealer_cin.
    exact Hn.
Qed.

Lemma gameLoop_calm :
  forall fuel playAgn t,
    noSplitAsked (world t) -> fst (gameLoop fuel playAgn t) <> Undefined.
Proof.
  induction fuel as [|fuel IH]; intros playAgn t Hn.
  - cbn [gameLoop]. destruct (playAgn =? "Y")%string; discriminate.
  - destruct (String.eqb_spec playAgn "Y") as [->|Hne];
      [|rewrite (gameLoop_other _ _ _ Hne); discriminate].
    rewrite gameLoop_step.
    destruct (stillIn (plyrs t)) as [|p0 ps]; [discriminate|].
    destruct (playRnd_calm (nextTable t) (nextTable_calm t Hn)) as [Hu Hq].
    destruct (playRnd (nextTable t)) as [st t']. cbn [fst snd] in *.
    destruct st; try discriminate; try contradiction.
    destruct (Hq eq_refl) as [_ Hn']. unfold noSplitAsked in Hn'.
    destruct (cinWords (world t')) as [|word more]; [discriminate|].
    apply IH. cbn [world]. unfold noSplitAsked. cbn [cinWords setCinWords].
    inversion Hn'; assumption.
Qed.

Lemma session_calm (names lines : list string) (w : World) :
  noSplitAsked w ->
  sessionEnd (fst (runGame names w))
  /\ sessionEnd (fst (runSession lines w)).
Proof.
  assert (H : forall names0 w0,
             noSplitAsked w0 -> sessionEnd (fst (runGame names0 w0))).
  { intros names0 w0 Hn.
    pose proof (runGame_total names0 w0) as Hf.
    assert (Hu : fst (runGame names0 w0) <> Undefined).
    { unfold runGame. apply gameLoop_calm. cbn [world]. unfold noSplitAsked.
      destruct (shufDk_frame (createDk 4 w0)) as (_ & _ & _ & ->). exact Hn. }
    unfold sessionEnd. destruct (fst (runGame names0 w0)); auto; contradiction. }
  intro Hn. split; [apply H; exact Hn|].
  unfold runSession.
  destruct (promptNum (cinInts w)) as [[numPlay|] cin']; [apply H; exact Hn|].
  right. right. reflexivity.
Qed.

(** A session in which nobody asks to split, whatever else is typed, ends in
    one of three ways: it is over (the players declined another round, or
    all ran out of chips); the supply ran dry in the middle of a round; or
    the input ran out at a prompt.  It never takes the front of an empty
    list of hands, the dealer having a hand at the start of every round and
    every player being given one before the deal; and it does not reach the
    one other undefined access of the program, the draw through [end()] in
    [playSplt].  The same holds from the first prompt on. *)
Theorem session_ends (names lines : list string) (w : World) :
  noSplitAsked w ->
  sessionEnd (fst (runGame names w))
  /\ sessionEnd (fst (runSession lines w)).
Proof. exact (session_calm names lines w). Qed.

Lemma shortSession_calm : noSplitAsked shortSession.
Proof. repeat constructor; vm_compute; discriminate. Qed.

Lemma session_ends_witness :
  fst (runGame ["Ann"] shortSession) = Ok
  /\ sessionEnd (fst (runGame ["Ann"] shortSession)).
Proof.
  split; [vm_compute; reflexivity|].
  exact (proj1 (session_ends ["Ann"] [] shortSession shortSession_calm)).
Defined.

(** ** Balances through a round *)

Lemma funded_andThen (f g : Game -> Status * Game) :
  (forall t, funded t -> funded (snd (f t))) ->
  (forall t, funded t -> funded (snd (g t))) ->
  forall t, funded t -> funded (snd ((f ;; g) t)).
Proof.
  intros Hf Hg t Ht. unfold andThen. specialize (Hf t Ht).
  destruct (f t) as [st t1]. cbn [snd] in Hf.
  destruct st; try exact Hf. exact (Hg t1 Hf).
Qed.

Lemma onPlayers_funded (f : Player -> World -> Status * Player * World) :
  (forall p w, fundedSeat p -> fundedSeat (snd (fst (f p w)))) ->
  forall t, funded t -> funded (snd (onPlayers f t)).
Proof.
  intros Hf t Ht. unfold funded, onPlayers in *.
  pose proof (forEachPlayer_Forall fundedSeat fundedSeat f (fun p H => H) Hf
                (plyrs t) (world t) Ht) as H.
  destruct (forEachPlayer f (plyrs t) (world t)) as [[st ps] w]. exact H.
Qed.

Lemma onDealerHand_funded (f : Hand -> World -> Status * Hand * World) :
  forall t, funded t -> funded (snd (onDealerHand f t)).
Proof.
  intros t Ht. unfold funded in *. rewrite onDealerHand_plyrs. exact Ht.
Qed.

Lemma settleLoop_funded (dealrH : Hand) :
  forall hs p w, chips p <= chips (fst (fst (settleLoop p hs dealrH w))).
Proof.
  induction hs as [|hand more IH]; intros p w; cbn [settleLoop]; [cbn; lia|].
  pose proof (settleOne_effect p hand dealrH w) as H. cbn zeta in H.
  destruct (settleOne p hand dealrH w) as [[p1 h1] w1]. cbn [fst snd] in H.
  destruct H as (Hc & _).
  specialize (IH p1 w1).
  destruct (settleLoop p1 more dealrH w1) as [[p2 m2] w2]. cbn [fst] in *.
  lia.
Qed.

Lemma noHand_funded (p : Player) :
  hands p = [] /\ 0 <= chips p -> fundedSeat p.
Proof.
  intros [E Hc]. split; [exact Hc|]. unfold betsNonneg. rewrite E. constructor.
Qed.

Lemma placeBet_funded (p : Player) (w : World) :
  hands p = [] /\ 0 <= chips p -> fundedSeat (snd (fst (placeBet p w))).
Proof.
  intros H. pose proof (noHand_funded p H) as Hp. destruct H as [E Hc].
  unfold placeBet.
  pose proof (promptBet_valid (chips p) (cinInts w)) as Hv.
  destruct (promptBet (chips p) (cinInts w)) as [[b|] cin']; [|exact Hp].
  specialize (Hv _ _ eq_refl). cbn [fst snd]. split.
  - cbn [chips setChips]. lia.
  - cbn [hands setChips setHands]. rewrite E. cbn [app].
    unfold betsNonneg. constructor; [cbn [bet setBet]; lia | constructor].
Qed.

(** A round started with no hand on the table and no negative balance
    leaves no negative balance and no negative wager, however it ends. *)
Lemma playRnd_funded (t : Game) :
  noHands t -> solvent t -> funded (snd (playRnd t)).
Proof.
  intros Hno Hsol. rewrite playRnd_after_reshuffle.
  destruct (reshuffleCheck_spec t) as (Hp & _). cbn zeta in Hp.
  set (t0 := snd (reshuffleCheck t)) in *.
  assert (Hstart : Forall (fun p => hands p = [] /\ 0 <= chips p) (plyrs t0)).
  { rewrite Hp. unfold noHands, solvent in *.
    apply Forall_forall. intros p Hin. split.
    - exact (proj1 (Forall_forall _ _) Hno p Hin).
    - exact (proj1 (Forall_forall _ _) Hsol p Hin). }
  clearbody t0. clear Hp Hno Hsol t.
  assert (Hrest : forall t, funded t ->
            funded (snd ((onPlayers dealToFront ;; dealToDealer ;;
                          onPlayers dealToFront ;; dealToDealer ;;
                          playPhases ;; settlementPhase ;; discardDealer) t))).
  { assert (Hdeal : forall t, funded t -> funded (snd (onPlayers dealToFront t))).
    { apply onPlayers_funded. intros p w [Hc Hb]. unfold dealToFront.
      destruct (hands p) as [|h tl] eqn:E;
        [cbn [fst snd]; split; [exact Hc | rewrite E; exact Hb]|].
      destruct (dealCrd (cards h) w) as [[st cs] w'].
      cbn [fst snd]. split; [exact Hc|].
      cbn [hands setHands]. inversion Hb; subst. constructor; assumption. }
    do 4 (apply funded_andThen;
          [first [exact Hdeal | apply onDealerHand_funded]|]).
    apply funded_andThen; [|apply funded_andThen].
    - intros t Ht. unfold playPhases. cbn zeta.
      generalize (dealrNatOf t). intro dealrNat. revert t Ht.
      apply funded_andThen; [|apply onDealerHand_funded].
      intros t Ht. unfold actionsPhase. revert Ht.
      apply onPlayers_funded. intros p w [Hc Hb].
      destruct (negb dealrNat); [|split; assumption].
      destruct (hdlPlay p (dealrHOf t) w) as [[st p'] w'] eqn:E.
      destruct (hdlPlay_money _ _ _ _ _ _ E) as (_ & _ & _ & Hm).
      destruct (Hm Hb) as (Hb' & _ & Hc'). split; [auto | exact Hb'].
    - intros t Ht. unfold settlementPhase. revert Ht.
      apply onPlayers_funded. intros p w [Hc Hb].
      destruct (settlePlayer_spec (dealrHOf t) p w) as (_ & Hh & _).
      split; [|rewrite Hh; constructor].
      unfold settlePlayer.
      pose proof (settleLoop_funded (dealrHOf t) (hands p) p w) as Hl.
      destruct (settleLoop p (hands p) (dealrHOf t) w) as [[p1 hs] w1].
      cbn [fst snd chips setHands] in *. lia.
    - apply onDealerHand_funded. }
  unfold andThen at 1. unfold onPlayers at 1.
  pose proof (forEachPlayer_Forall
                (fun p => hands p = [] /\ 0 <= chips p) fundedSeat placeBet
                noHand_funded placeBet_funded)
    as Hbet.
  specialize (Hbet (plyrs t0) (world t0) Hstart).
  destruct (forEachPlayer placeBet (plyrs t0) (world t0)) as [[st ps] w].
  cbn [fst snd] in Hbet.
  destruct st; try exact Hbet.
  apply Hrest. exact Hbet.
Qed.

(** ** What every round of a session keeps *)

Section SessionInvariant.

Variable Inv Post : Game -> Prop.

Hypothesis Post_exit : forall t, Inv t -> Post t.
Hypothesis Post_nobody : forall t, Inv t -> Post (mkGame [] (dealr t) (world t)).
Hypothesis Post_round : forall t, Inv t -> Post (snd (playRnd (nextTable t))).
Hypothesis Inv_round :
  forall t t' word more,
    Inv t -> playRnd (nextTable t) = (Ok, t') ->
    cinWords (world t') = word :: more ->
    Inv (mkGame (plyrs t') (dealr t') (setCinWords (world t') more)).

Lemma gameLoop_keeps :
  forall fuel playAgn t, Inv t -> Post (snd (gameLoop fuel playAgn t)).
Proof.
  induction fuel as [|fuel IH]; intros playAgn t Ht.
  - cbn [gameLoop]. destruct (playAgn =? "Y")%string; apply Post_exit, Ht.
  - destruct (String.eqb_spec playAgn "Y") as [->|Hn];
      [|rewrite (gameLoop_other _ _ _ Hn); apply Post_exit, Ht].
    rewrite gameLoop_step.
    destruct (stillIn (plyrs t)) as [|p0 ps]; [apply Post_nobody, Ht|].
    pose proof (Post_round t Ht) as Hpost.
    pose proof (fun word more =>
                  Inv_round t (snd (playRnd (nextTable t))) word more Ht)
      as Hinv.
    destruct (playRnd (nextTable t)) as [st t']. cbn [snd] in *.
    destruct st; try exact Hpost.
    destruct (cinWords (world t')) as [|word more]; [exact Hpost|].
    apply IH. apply (Hinv word more); reflexivity.
Qed.

End SessionInvariant.

Lemma stillIn_Forall (Q : Player -> Prop) (ps : list Player) :
  Forall Q ps -> Forall Q (stillIn ps).
Proof.
  intro H. apply Forall_forall. intros p Hin.
  apply filter_In in Hin. exact (proj1 (Forall_forall _ _) H p (proj1 Hin)).
Qed.

Lemma noHands_copies (c : Card) (ps : list Player) :
  Forall (fun p => hands p = []) ps ->
  copies c (flat_map (fun p => flat_map cards (hands p)) ps) = 0%nat.
Proof.
  induction 1 as [|p ps Hp _ IH]; [reflexivity|].
  cbn [flat_map]. rewrite Hp. exact IH.
Qed.

(** The table the next round is played at, when the last one left no hand
    behind: nothing but the players without chips has gone. *)
Lemma nextTable_betweenRounds (t : Game) :
  betweenRounds t ->
  betweenRounds (nextTable t)
  /\ dealr (nextTable t) = dealr t /\ world (nextTable t) = world t
  /\ forall c, gameCopies c (nextTable t) = gameCopies c t.
Proof.
  intros [Hno (h & Eh & Hc & Hb)]. unfold nextTable.
  rewrite (resetDealer_idle _ _ h [] Eh) by lia. cbn [fst snd].
  assert (Hno' : Forall (fun p => hands p = []) (stillIn (plyrs t)))
    by (apply stillIn_Forall; exact Hno).
  split; [|split; [reflexivity|split; [reflexivity|]]].
  - split; [exact Hno'|]. exists h. auto.
  - intro c. unfold gameCopies. cbn [plyrs dealr world].
    rewrite (noHands_copies c _ Hno'), (noHands_copies c _ Hno). reflexivity.
Qed.

Lemma playRnd_tableComplete (t : Game) :
  betweenRounds t -> tableComplete t -> tableComplete (snd (playRnd t)).
Proof.
  intros [Hno (h & Eh & Hc & _)] Hfull c.
  rewrite playRnd_after_reshuffle, (afterReshuffle_sameCards _ c).
  destruct (reshuffleCheck_spec t) as (Hp & Hd & Hs).
  unfold gameCopies at 1. rewrite Hp, Hd, Hs.
  destruct (length (deck (world t)) <? 60)%nat; [|exact (Hfull c)].
  rewrite (noHands_copies c _ Hno), Eh. unfold handsCopies.
  cbn [flat_map]. rewrite Hc. unfold fourDecks. cbn [app copies count_occ]. lia.
Qed.

Lemma playRnd_betweenRounds (t t' : Game) (more : list string) :
  betweenRounds t -> playRnd t = (Ok, t') ->
  betweenRounds (mkGame (plyrs t') (dealr t') (setCinWords (world t') more)).
Proof.
  intros [_ (h & Eh & _)] H.
  destruct (playRnd_clears_hands t t' H) as [Hno (others & Ho)].
  split; [exact Hno|]. cbn [dealr].
  pose proof (playRnd_sameDealer t) as Hk. rewrite H in Hk.
  destruct Hk as (_ & Hl & _). cbn [snd] in Hl. rewrite Eh, Ho in Hl.
  destruct others as [|x others]; [|discriminate].
  eexists. split; [exact Ho|]. split; reflexivity.
Qed.

Lemma fourDecks_count (c : Card) :
  fourDecks c = if in_dec Card_eq_dec c oneDeck then 4%nat else 0%nat.
Proof.
  unfold fourDecks. rewrite copies_decks. unfold copies.
  destruct (in_dec Card_eq_dec c oneDeck) as [Hin|Hout].
  - rewrite (proj1 (NoDup_count_occ' Card_eq_dec oneDeck) oneDeck_NoDup c Hin).
    reflexivity.
  - rewrite (proj1 (count_occ_not_In Card_eq_dec oneDeck c) Hout). reflexivity.
Qed.

Lemma startGame_ready (names : list string) (w : World) :
  betweenRounds (startGame names w)
  /\ tableComplete (startGame names w)
  /\ solvent (startGame names w).
Proof.
  assert (Hseat : Forall (fun p => chips p = 1000 /\ hands p = [])
                         (seatPlayers names)).
  { unfold seatPlayers. apply Forall_forall. intros p Hin.
    apply in_map_iff in Hin. destruct Hin as (ni & <- & _). split; reflexivity. }
  assert (Hno : Forall (fun p => hands p = []) (seatPlayers names)).
  { eapply Forall_impl; [|exact Hseat]. intros p [_ E]. exact E. }
  split; [|split].
  - split; [exact Hno|]. exists newHand. repeat split.
  - intro c. unfold gameCopies. cbn [startGame plyrs dealr world].
    rewrite (noHands_copies c _ Hno).
    destruct (shufDk_frame (createDk 4 w)) as (Hp & Hd & _).
    unfold supplyCopies. rewrite Hd, (copies_perm _ _ Hp c).
    cbn [createDk deck disPile setDeck setDisPile hands].
    change (Z.to_nat 4) with 4%nat. unfold fourDecks, handsCopies.
    cbn [flat_map cards newHand app copies count_occ]. lia.
  - unfold solvent. cbn [startGame plyrs].
    eapply Forall_impl; [|exact Hseat]. intros p [E _]. lia.
Qed.

Lemma session_invariant (names : list string) (w : World) :
  let t := snd (runGame names w) in
  tableComplete t /\ funded t /\ noNewcomer (startGame names w) t.
Proof.
  set (t0 := startGame names w).
  destruct (startGame_ready names w) as (Hb & Hc & Hs). fold t0 in Hb, Hc, Hs.
  refine (gameLoop_keeps
            (fun t => betweenRounds t /\ tableComplete t /\ solvent t
                      /\ noNewcomer t0 t)
            (fun t => tableComplete t /\ funded t /\ noNewcomer t0 t)
            _ _ _ _ _ "Y" t0 _).
  - intros t (Hbt & Hct & Hst & Hnt). split; [exact Hct|]. split; [|exact Hnt].
    destruct Hbt as [Hno _]. unfold funded.
    apply Forall_forall. intros p Hin. apply noHand_funded. split.
    + exact (proj1 (Forall_forall _ _) Hno p Hin).
    + exact (proj1 (Forall_forall _ _) Hst p Hin).
  - intros t (Hbt & Hct & Hst & Hnt). split; [|split].
    + intro c. rewrite <- (Hct c). unfold gameCopies. cbn [plyrs dealr world].
      rewrite (noHands_copies c _ (proj1 Hbt)). reflexivity.
    + constructor.
    + intros x Hx. contradiction.
  - intros t (Hbt & Hct & Hst & Hnt).
    destruct (nextTable_betweenRounds t Hbt) as (Hb1 & _ & _ & Hc1).
    split; [|split].
    + apply playRnd_tableComplete; [exact Hb1|].
      intro c. rewrite Hc1. apply Hct.
    + apply playRnd_funded; [exact (proj1 Hb1)|].
      unfold solvent, nextTable. cbn [plyrs]. apply stillIn_Forall. exact Hst.
    + unfold noNewcomer. rewrite (playRnd_sameSeats (nextTable t)).
      intros x Hx. apply Hnt. unfold nextTable in Hx. cbn [plyrs] in Hx.
      apply in_map_iff in Hx. destruct Hx as (p & <- & Hp).
      apply in_map. apply filter_In in Hp. exact (proj1 Hp).
  - intros t t' word more (Hbt & Hct & Hst & Hnt) H _.
    destruct (nextTable_betweenRounds t Hbt) as (Hb1 & _ & _ & Hc1).
    split; [exact (playRnd_betweenRounds _ _ more Hb1 H)|]. split; [|split].
    + pose proof (playRnd_tableComplete (nextTable t) Hb1
                    ltac:(intro c; rewrite Hc1; apply Hct)) as Hc2.
      rewrite H in Hc2. exact Hc2.
    + pose proof (playRnd_funded (nextTable t) (proj1 Hb1)
                    ltac:(unfold solvent, nextTable; cbn [plyrs];
                          apply stillIn_Forall; exact Hst)) as Hf.
      rewrite H in Hf. cbn [snd] in Hf. unfold solvent. cbn [plyrs].
      eapply Forall_impl; [|exact Hf]. intros p [Hp _]. exact Hp.
    + unfold noNewcomer. cbn [plyrs].
      pose proof (playRnd_sameSeats (nextTable t)) as Hs2. rewrite H in Hs2.
      unfold sameSeats in Hs2. cbn [snd] in Hs2. rewrite Hs2.
      intros x Hx. apply Hnt. unfold nextTable in Hx. cbn [plyrs] in Hx.
      apply in_map_iff in Hx. destruct Hx as (p & <- & Hp).
      apply in_map. apply filter_In in Hp. exact (proj1 Hp).
  - split; [exact Hb|]. split; [exact Hc|]. split; [exact Hs|].
    intros x Hx. exact Hx.
Qed.

(** ** The session as a whole *)

(** Through a session, however it goes and however it ends, short of the
    undefined access of a split: the table holds four copies of each card of
    the standard deck and no other card.  Counted over the undealt sequence,
    the discard stack, the players' hands and the dealer's, no card is ever
    lost or made, through every shuffle, deal, settlement, recovery of the
    discards and rebuild of the supply. *)
Theorem session_keeps_four_of_each (names : list string) (w : World) (c : Card) :
  fst (runGame names w) <> Undefined ->
  gameCopies c (snd (runGame names w))
  = if in_dec Card_eq_dec c oneDeck then 4%nat else 0%nat.
Proof.
  intros _. destruct (session_invariant names w) as (Hc & _).
  rewrite (Hc c). apply fourDecks_count.
Qed.

Lemma session_keeps_four_of_each_witness :
  gameCopies aceSpades (snd (runGame ["Ann"] shortSession)) = 4%nat.
Proof.
  rewrite (session_keeps_four_of_each ["Ann"] shortSession aceSpades);
    [vm_compute; reflexivity | vm_compute; discriminate].
Defined.

Lemma ceiling_nonneg (k : nat) : 0 <= ceiling k.
Proof.
  induction k as [|k IH]; cbn [ceiling]; [lia|].
  apply Z.div_pos; lia.
Qed.

Lemma ceiling_step (k : nat) : ceiling k <= ceiling (S k).
Proof.
  pose proof (ceiling_nonneg k). cbn [ceiling].
  apply Z.div_le_lower_bound; lia.
Qed.

Lemma ceiling_mono (j k : nat) : (j <= k)%nat -> ceiling j <= ceiling k.
Proof.
  induction 1 as [|k _ IH]; [lia|]. pose proof (ceiling_step k). lia.
Qed.

Lemma ceiling_14 : 5 * ceiling 14 <= 2 * INT_MAX.
Proof. vm_compute. discriminate. Qed.

(** Fifteen rounds at most: with no more than fourteen words to read, no
    balance leaves the range of [int], and no wager is negative. *)
Lemma session_bound (names : list string) (w : World) :
  (length (cinWords w) <= 14)%nat ->
  Forall (fun p => 0 <= chips p <= INT_MAX /\ betsNonneg (hands p))
         (plyrs (snd (runGame names w))).
Proof.
  intro Hlen.
  set (t0 := startGame names w).
  destruct (startGame_ready names w) as (Hb & _ & _). fold t0 in Hb.
  assert (Hroom : forall k, (k <= 14)%nat -> 5 * ceiling k <= 2 * INT_MAX).
  { intros k Hk. pose proof (ceiling_mono k 14 Hk). pose proof ceiling_14. lia. }
  refine (gameLoop_keeps
            (fun t => betweenRounds t
                      /\ exists k, (k + length (cinWords (world t)) <= 14)%nat
                                   /\ Forall (fun p => 0 <= chips p <= ceiling k)
                                             (plyrs t))
            (fun t => Forall (fun p => 0 <= chips p <= INT_MAX
                                       /\ betsNonneg (hands p)) (plyrs t))
            _ _ _ _ _ "Y" t0 _).
  - intros t ([Hno _] & k & Hk & Hc).
    apply Forall_forall. intros p Hin.
    pose proof (proj1 (Forall_forall _ _) Hno p Hin) as Eh. cbn beta in Eh.
    pose proof (proj1 (Forall_forall _ _) Hc p Hin) as Hp. cbn beta in Hp.
    pose proof (Hroom k ltac:(lia)). pose proof (ceiling_nonneg k).
    split; [lia|]. rewrite Eh. constructor.
  - intros t _. constructor.
  - intros t (Hbt & k & Hk & Hc).
    destruct (nextTable_betweenRounds t Hbt) as (Hb1 & _ & _ & _).
    pose proof (playRnd_bound (ceiling k) (nextTable t) (proj1 Hb1)
                  ltac:(unfold nextTable; cbn [plyrs]; apply stillIn_Forall; exact Hc)
                  (Hroom k ltac:(lia))) as Hbd.
    eapply Forall_impl; [|exact Hbd].
    intros p (H1 & H2 & H3). pose proof (Hroom k ltac:(lia)).
    split; [lia | exact H3].
  - intros t t' word more (Hbt & k & Hk & Hc) H Ew.
    destruct (nextTable_betweenRounds t Hbt) as (Hb1 & _ & Ewd & _).
    split; [exact (playRnd_betweenRounds _ _ more Hb1 H)|].
    exists (S k). cbn [plyrs world cinWords setCinWords]. split.
    + pose proof (playRnd_input (nextTable t)) as Hin.
      unfold inputShrinks in Hin. rewrite H in Hin. cbn [snd] in Hin.
      rewrite Ew, Ewd in Hin. cbn [length] in Hin. lia.
    + pose proof (playRnd_bound (ceiling k) (nextTable t) (proj1 Hb1)
                    ltac:(unfold nextTable; cbn [plyrs]; apply stillIn_Forall;
                          exact Hc)
                    (Hroom k ltac:(lia))) as Hbd.
      rewrite H in Hbd. cbn [snd] in Hbd.
      eapply Forall_impl; [|exact Hbd].
      intros p (H1 & H2 & _). split; [exact H1|]. cbn [ceiling].
      apply Z.div_le_lower_bound; lia.
  - split; [exact Hb|]. exists 0%nat. split.
    + cbn [Nat.add]. unfold t0. cbn [startGame world].
      destruct (shufDk_frame (createDk 4 w)) as (_ & _ & _ & ->). exact Hlen.
    + unfold t0. cbn [startGame plyrs ceiling]. unfold seatPlayers.
      apply Forall_forall. intros p Hin.
      apply in_map_iff in Hin. destruct Hin as (ni & <- & _). cbn [chips]. lia.
Qed.

(** Through a session of fifteen rounds at most (no more than fourteen
    words are there to be read), short of the undefined access of a split:
    however the session goes and however it ends, every balance at the table
    is between 0 and [INT_MAX] and no wager is negative; and every player at
    the table is one of those seated at the start, under the same id and
    name: players leave, none joins.  (A round at most multiplies a balance
    by two and a half, and 1000 chips so multiplied fifteen times, rounding
    down each time, are 931,307,812.) *)
Theorem session_players_stay_solvent (names : list string) (w : World) :
  fst (runGame names w) <> Undefined ->
  (length (cinWords w) <= 14)%nat ->
  Forall (fun p => 0 <= chips p <= INT_MAX /\ betsNonneg (hands p))
         (plyrs (snd (runGame names w)))
  /\ noNewcomer (startGame names w) (snd (runGame names w)).
Proof.
  intros _ Hlen. split; [exact (session_bound names w Hlen)|].
  exact (proj2 (proj2 (session_invariant names w))).
Qed.

Lemma session_players_stay_solvent_witness :
  fst (runGame ["Ann"] shortSession) = Ok
  /\ Forall (fun p => 0 <= chips p <= INT_MAX /\ betsNonneg (hands p))
            (plyrs (snd (runGame ["Ann"] shortSession))).
Proof.
  assert (E : fst (runGame ["Ann"] shortSession) = Ok) by (vm_compute; reflexivity).
  split; [exact E|].
  refine (proj1 (session_players_stay_solvent ["Ann"] shortSession _ _)).
  - rewrite E. discriminate.
  - cbn. lia.
Defined.

Lemma seatPlayers_from (k : nat) (names : list string) :
  let ps := map (fun ni => mkPlayer (Z.of_nat (S (fst ni))) (snd ni) 1000 [])
                (combine (seq k (length names)) names) in
  map name ps = names
  /\ map id ps = map Z.of_nat (seq (S k) (length names)).
Proof.
  revert k. induction names as [|n names IH]; intro k; [split; reflexivity|].
  cbn [length seq combine map fst snd id name].
  destruct (IH (S k)) as [H1 H2]. cbn zeta in H1, H2.
  rewrite H1, H2. split; reflexivity.
Qed.

Lemma readNames_spec (lines : list string) :
  forall count,
    length (readNames count lines) = count
    /\ forall i, (i < count)%nat ->
         nth i (readNames count lines) "" = nth i lines "".
Proof.
  intro count. revert lines.
  induction count as [|count IH]; intro lines; [split; [reflexivity | lia]|].
  cbn [readNames length]. destruct (IH (tl lines)) as [H1 H2].
  split; [rewrite H1; reflexivity|].
  intros [|i] Hi; cbn [nth].
  - destruct lines; reflexivity.
  - rewrite H2 by lia. destruct lines as [|l lines]; [|reflexivity].
    destruct i; reflexivity.
Qed.

Lemma promptNum_first_valid (cin : list Z) :
  match promptNum cin with
  | (Some numPlay, rest) =>
      exists skipped,
        cin = skipped ++ numPlay :: rest
        /\ Forall badCount skipped
        /\ 1 <= numPlay <= 3
  | (None, rest) => rest = [] /\ Forall badCount cin
  end.
Proof.
  induction cin as [|x cin IH]; cbn [promptNum].
  - split; [reflexivity | constructor].
  - destruct (Z.ltb_spec x 1) as [H1|H1]; cbn [orb];
      [|destruct (Z.gtb_spec x 3) as [H2|H2]].
    3:{ exists []. split; [reflexivity|]. split; [constructor | lia]. }
    all: destruct (promptNum cin) as [[b|] rest];
      [destruct IH as (skipped & -> & Hs & Hb);
       exists (x :: skipped); split; [reflexivity|];
       split; [constructor; [unfold badCount; lia | exact Hs] | exact Hb]
      |destruct IH as [-> Hs]; split; [reflexivity|];
       constructor; [unfold badCount; lia | exact Hs]].
Qed.

(** How a session is set up.  The number of players is the first value
    typed that lies between 1 and 3; every value before it was turned down.
    One line of input per player gives the names, in order (a missing line
    gives an empty name).  The players are numbered from 1 in that order and
    each starts with 1000 chips and no hand; the dealer has one empty hand
    and no wager; the supply is four decks, 208 cards, shuffled, with nothing
    discarded.  If no acceptable number is typed, the session waits at its
    first prompt with nobody seated. *)
Theorem runSession_setup (lines : list string) (w : World) :
  (forall numPlay cin',
      promptNum (cinInts w) = (Some numPlay, cin') ->
      1 <= numPlay <= 3
      /\ (exists skipped, cinInts w = skipped ++ numPlay :: cin'
                          /\ Forall badCount skipped)
      /\ length (readNames (Z.to_nat numPlay) lines) = Z.to_nat numPlay
      /\ (forall i, (i < Z.to_nat numPlay)%nat ->
            nth i (readNames (Z.to_nat numPlay) lines) "" = nth i lines "")
      /\ runSession lines w
         = runGame (readNames (Z.to_nat numPlay) lines) (setCinInts w cin'))
  /\ (forall cin',
         promptNum (cinInts w) = (None, cin') ->
         Forall badCount (cinInts w)
         /\ fst (runSession lines w) = NeedInput
         /\ plyrs (snd (runSession lines w)) = [])
  /\ (forall names w0,
         let t := startGame names w0 in
         runGame names w0 = gameLoop (S (length (cinWords w0))) "Y" t
         /\ map name (plyrs t) = names
         /\ map id (plyrs t) = map Z.of_nat (seq 1 (length names))
         /\ Forall (fun p => chips p = 1000 /\ hands p = []) (plyrs t)
         /\ dealr t = mkPlayer 0 "Dealer" 0 [mkHand [] 0 false false]
         /\ Permutation (deck (world t)) (concat (repeat oneDeck 4))
         /\ length (deck (world t)) = 208%nat
         /\ disPile (world t) = []
         /\ cinInts (world t) = cinInts w0
         /\ cinWords (world t) = cinWords w0).
Proof.
  split; [|split].
  - intros numPlay cin' E.
    pose proof (promptNum_first_valid (cinInts w)) as H. rewrite E in H.
    destruct H as (skipped & Hc & Hs & Hr).
    split; [exact Hr|]. split; [exists skipped; auto|].
    destruct (readNames_spec lines (Z.to_nat numPlay)) as [H1 H2].
    split; [exact H1|]. split; [exact H2|].
    unfold runSession. rewrite E. reflexivity.
  - intros cin' E.
    pose proof (promptNum_first_valid (cinInts w)) as H. rewrite E in H.
    destruct H as [_ Hs]. split; [exact Hs|].
    unfold runSession. rewrite E. split; reflexivity.
  - intros names w0 t.
    destruct (shufDk_frame (createDk 4 w0)) as (Hp & Hd & Hi & Hw).
    destruct (seatPlayers_from 0 names) as [Hn Hid].
    split; [unfold runGame; rewrite Hw; reflexivity|].
    split; [exact Hn|]. split; [exact Hid|].
    split.
    { unfold t, startGame, seatPlayers. cbn [plyrs]. apply Forall_forall.
      intros p Hin. apply in_map_iff in Hin.
      destruct Hin as (ni & <- & _). split; reflexivity. }
    split; [reflexivity|].
    split; [exact Hp|].
    split.
    { unfold t, startGame. cbn [world]. rewrite (Permutation_length Hp).
      reflexivity. }
    split; [exact Hd|]. split; [exact Hi | exact Hw].
Qed.

(** ** The order of the initial deal *)

Lemma dealRow_nth (ps : list Player) :
  forall d i p0,
    (i < length ps)%nat -> (length ps <= length d)%nat ->
    nth i (dealRow ps d) p0 = dealtTo (nth i d noCard) (nth i ps p0).
Proof.
  induction ps as [|p ps IH]; intros d i p0 Hi Hd; cbn [length] in *; [lia|].
  destruct d as [|c d]; cbn [length] in Hd; [lia|].
  cbn [dealRow]. destruct i as [|i]; cbn [nth]; [reflexivity|].
  apply IH; lia.
Qed.

Lemma dealRow_holding (ps : list Player) :
  forall d, Forall (fun p => hands p <> []) ps ->
            Forall (fun p => hands p <> []) (dealRow ps d).
Proof.
  induction ps as [|p ps IH]; intros d H; [constructor|].
  inversion H as [|? ? Hp Hps]; subst.
  destruct d as [|c d]; cbn [dealRow]; [exact H|].
  constructor; [|apply IH; exact Hps].
  unfold dealtTo. destruct (hands p); [contradiction | discriminate].
Qed.

Lemma dealRow_length (ps : list Player) :
  forall d, length (dealRow ps d) = length ps.
Proof.
  induction ps as [|p ps IH]; intros [|c d]; cbn [dealRow length]; auto.
Qed.

Lemma skipn_nth_cons (n : nat) (d : list Card) :
  (n < length d)%nat -> skipn n d = nth n d noCard :: skipn (S n) d.
Proof.
  revert d. induction n as [|n IH]; intros [|c d] H; cbn [length] in H;
    try lia; [reflexivity|].
  cbn [skipn nth]. apply IH. lia.
Qed.

(** One round of the table: with a card undealt for each player, each gets
    the next one, in list order, and nothing else moves. *)
Lemma dealAround (ps : list Player) :
  forall w,
    Forall (fun p => hands p <> []) ps ->
    (length ps <= length (deck w))%nat ->
    forEachPlayer dealToFront ps w
    = (Ok, dealRow ps (deck w), setDeck w (skipn (length ps) (deck w))).
Proof.
  induction ps as [|p ps IH]; intros w Hh Hl.
  - cbn [forEachPlayer dealRow length skipn]. destruct w; reflexivity.
  - inversion Hh as [|? ? Hp Hps]; subst. cbn [length] in Hl.
    destruct (deck w) as [|c d] eqn:E; cbn [length] in Hl; [lia|].
    cbn [forEachPlayer dealRow length skipn].
    unfold dealToFront at 1, dealtTo.
    destruct (hands p) as [|h others]; [contradiction|].
    rewrite (dealCrd_front _ _ _ _ E).
    rewrite IH by (cbn [deck setDeck]; first [exact Hps | lia]).
    cbn [deck setDeck]. reflexivity.
Qed.

Lemma initialDeal_deals (t : Game) (dealrH : Hand) (others : list Hand) :
  let n := length (plyrs t) in
  let d := deck (world t) in
  allDealtIn t ->
  hands (dealr t) = dealrH :: others ->
  (2 * n + 2 <= length d)%nat ->
  initialDeal t
  = (Ok,
     mkGame (dealRow (dealRow (plyrs t) d) (skipn (n + 1) d))
            (setHands (dealr t)
               (setCards dealrH
                  (cards dealrH ++ [nth n d noCard; nth (2 * n + 1) d noCard])
                :: others))
            (setDeck (world t) (skipn (2 * n + 2) d)))
  /\ (forall i p0, (i < n)%nat ->
        nth i (dealRow (dealRow (plyrs t) d) (skipn (n + 1) d)) p0
        = dealtTo (nth (n + 1 + i) d noCard)
                  (dealtTo (nth i d noCard) (nth i (plyrs t) p0)))
  /\ (60 <= length (deck (world (snd (reshuffleCheck t)))))%nat.
Proof.
  intros n d Hall Hd Hlen.
  split; [|split].
  - unfold initialDeal.
    unfold andThen at 1. unfold onPlayers at 1.
    rewrite (dealAround (plyrs t) (world t) Hall) by (fold d n; lia).
    fold d n. rewrite (skipn_nth_cons n d) by lia.
    unfold andThen at 1. unfold dealToDealer at 1, onDealerHand.
    cbn [dealr plyrs world]. rewrite Hd.
    erewrite dealCrd_front by reflexivity.
    unfold andThen at 1. unfold onPlayers at 1. cbn [dealr plyrs world].
    rewrite (dealAround (dealRow (plyrs t) d) _ (dealRow_holding _ _ Hall))
      by (cbn [deck setDeck]; rewrite dealRow_length, length_skipn;
          fold n d; lia).
    cbn [deck setDeck]. rewrite dealRow_length. fold n.
    rewrite skipn_skipn.
    replace (n + S n)%nat with (2 * n + 1)%nat by lia.
    rewrite (skipn_nth_cons (2 * n + 1) d) by lia.
    unfold dealToDealer, onDealerHand. cbn [dealr plyrs world hands setHands].
    erewrite dealCrd_front by reflexivity.
    cbn [cards setCards setDeck deck disPile gen used cinInts cinWords].
    rewrite <- app_assoc. cbn [app].
    replace (S (2 * n + 1)) with (2 * n + 2)%nat by lia.
    replace (S n) with (n + 1)%nat by lia.
    destruct (dealr t) as [di dn dc dh]. reflexivity.
  - intros i p0 Hi.
    rewrite dealRow_nth;
      [|rewrite dealRow_length; fold n; exact Hi
       |rewrite dealRow_length, length_skipn; fold n d; lia].
    rewrite dealRow_nth by (fold n d; lia).
    rewrite nth_skipn. reflexivity.
  - cbn [reshuffleCheck snd world].
    destruct (Nat.ltb_spec (length (deck (world t))) 60) as [H|H]; [|exact H].
    rewrite (Permutation_length (proj1 (shufDk_frame (createDk 4 (world t))))).
    change (length (deck (createDk 4 (world t)))) with 208%nat. lia.
Qed.

(** The initial deal, with enough cards undealt: one card to each player in
    seat order, then one to the dealer, and the same again.  With [n]
    players, player [i] (counting from 0) holds cards [i] and [n + 1 + i] of
    the undealt sequence, the dealer cards [n] and [2n + 1], and the
    sequence starts at card [2n + 2]; the discard stack and the input are
    untouched.  After the low-water check of [playRnd] at least 60 cards are
    undealt, enough for 29 players. *)
Theorem initialDeal_order (t : Game) (dealrH : Hand) (others : list Hand) :
  let n := length (plyrs t) in
  let d := deck (world t) in
  allDealtIn t ->
  hands (dealr t) = dealrH :: others ->
  (2 * n + 2 <= length d)%nat ->
  initialDeal t
  = (Ok,
     mkGame (dealRow (dealRow (plyrs t) d) (skipn (n + 1) d))
            (setHands (dealr t)
               (setCards dealrH
                  (cards dealrH ++ [nth n d noCard; nth (2 * n + 1) d noCard])
                :: others))
            (setDeck (world t) (skipn (2 * n + 2) d)))
  /\ (forall i p0, (i < n)%nat ->
        nth i (dealRow (dealRow (plyrs t) d) (skipn (n + 1) d)) p0
        = dealtTo (nth (n + 1 + i) d noCard)
                  (dealtTo (nth i d noCard) (nth i (plyrs t) p0)))
  /\ (60 <= length (deck (world (snd (reshuffleCheck t)))))%nat.
Proof. exact (initialDeal_deals t dealrH others). Qed.

Lemma initialDeal_order_witness :
  map (fun p => map cards (hands p)) (plyrs (snd (initialDeal dealTable)))
  = [[[aceSpades; nineSpades]]; [[tenHearts; kingSpades]]]
  /\ map cards (hands (dealr (snd (initialDeal dealTable))))
     = [[aceHearts; sixDiamonds]].
Proof.
  destruct (initialDeal_order dealTable newHand []) as [E _].
  - repeat constructor; discriminate.
  - reflexivity.
  - vm_compute. lia.
  - rewrite E. split; reflexivity.
Defined.

(** ** Hands already played *)

Lemma hdlLoop_forward
    (fuel : nat) (p : Player) (prev todo : list Hand) (w : World)
    (st : Status) (p' : Player) (hs : list Hand) (w' : World) :
  hdlLoop fuel p prev todo w = (st, p', hs, w') ->
  exists tail, hs = prev ++ tail /\ (length todo <= length tail)%nat.
Proof.
  intro H.
  destruct (hdlLoop_inv _ _ _ _ _ _ _ _ _ H) as (_ & _ & _ & [tail Ht] & _).
  exists tail. split; [exact Ht|].
  assert (Hlen : (length (prev ++ todo) <= length hs)%nat).
  { refine (hdlLoop_rel
              (fun s s' => (length (snd (fst s)) <= length (snd (fst s')))%nat)
              _ _ _ _ _ _ _ _ _ _ _ _ _ _ _ H); cbn [fst snd]; clear.
    - intros. lia.
    - intros. lia.
    - intros. lia.
    - intros. rewrite !length_app. cbn [length]. lia.
    - intros. rewrite !length_app. cbn [length]. lia.
    - intros p prev curHnd rest w st p' h' rest' w' E.
      rewrite !length_app. cbn [length].
      destruct (playSplt_rest _ _ _ _ _ _ _ _ _ E) as [[_ ->] | [_ Hl]]; lia. }
  rewrite Ht, !length_app in Hlen. lia.
Qed.

(** The decision loop only moves forward: the hands before the iterator are
    in the final hand sequence as they were when the iterator passed them,
    in the same places, and the hands from the iterator on are never fewer
    at the end than they were.  A hand is never removed, and a hand behind
    the iterator is never touched again.  This holds however the phase
    ends, short of the access through [end()], after which nothing is
    defined. *)
Theorem played_hands_are_final
    (p : Player) (prev todo : list Hand) (w : World)
    (st : Status) (p' : Player) (hs : list Hand) (w' : World) :
  hdlRun p prev todo w = (st, p', hs, w') ->
  st <> Undefined ->
  exists tail, hs = prev ++ tail /\ (length todo <= length tail)%nat.
Proof. intros H _. exact (hdlLoop_forward _ _ _ _ _ _ _ _ _ H). Qed.

(** Ann's natural has been passed; she hits her twenty and goes bust.  The
    natural is in the final sequence as it was. *)
Lemma played_hands_are_final_witness :
  exists tail,
    snd (fst (hdlRun annTens [staked [aceSpades; kingSpades]]
                     [staked [tenSpades; tenHearts]]
                     (worldOf [fiveClubs; sixDiamonds] ["h"; "s"])))
    = [staked [aceSpades; kingSpades]] ++ tail
    /\ (1 <= length tail)%nat.
Proof.
  destruct (hdlRun annTens [staked [aceSpades; kingSpades]]
                   [staked [tenSpades; tenHearts]]
                   (worldOf [fiveClubs; sixDiamonds] ["h"; "s"]))
    as [[[st p'] hs] w'] eqn:E.
  refine (played_hands_are_final _ _ _ _ _ _ _ _ E _).
  vm_compute in E. injection E as <- _ _ _. discriminate.
Defined.

(** ** The deal always gets through *)

Lemma forEachPlayer_status (S : Status -> Prop)
    (f : Player -> World -> Status * Player * World) :
  S Ok ->
  (forall p w, S (fst (fst (f p w)))) ->
  forall ps w, S (fst (fst (forEachPlayer f ps w))).
Proof.
  intros HOk Hf ps. induction ps as [|p more IH]; intro w; [exact HOk|].
  cbn [forEachPlayer]. specialize (Hf p w).
  destruct (f p w) as [[st p1] w1]. cbn [fst] in Hf.
  destruct st; try exact Hf.
  specialize (IH w1). destruct (forEachPlayer f more w1) as [[st2 m2] w2].
  exact IH.
Qed.

Lemma forEachPlayer_length (f : Player -> World -> Status * Player * World) :
  forall ps w, length (snd (fst (forEachPlayer f ps w))) = length ps.
Proof.
  intros ps w.
  pose proof (forEachPlayer_map (fun _ => tt) (fun _ => True) f
                (fun _ _ _ => eq_refl) ps w
                ltac:(apply Forall_forall; intros; exact I)) as H.
  apply (f_equal (@length unit)) in H. rewrite !length_map in H. exact H.
Qed.

Lemma dealRow_each (P : Player -> Prop) (ps : list Player) :
  forall d,
    Forall P ps -> (length ps <= length d)%nat ->
    Forall (fun p' => exists p c, P p /\ p' = dealtTo c p) (dealRow ps d).
Proof.
  induction ps as [|p ps IH]; intros d H Hl; [constructor|].
  inversion H as [|? ? Hp Hps]; subst.
  destruct d as [|c d]; cbn [length] in Hl; [lia|].
  cbn [dealRow]. constructor; [exists p, c; auto | apply IH; [exact Hps | lia]].
Qed.

Lemma reshuffleCheck_sixty (t : Game) :
  (60 <= length (deck (world (snd (reshuffleCheck t)))))%nat.
Proof.
  cbn [reshuffleCheck snd world].
  destruct (Nat.ltb_spec (length (deck (world t))) 60) as [H|H]; [|exact H].
  rewrite (Permutation_length (proj1 (shufDk_frame (createDk 4 (world t))))).
  change (length (deck (createDk 4 (world t)))) with 208%nat. lia.
Qed.

Lemma beforeSettlement_dealPhase (t : Game) :
  beforeSettlement t = (dealPhase ;; playPhases) t.
Proof.
  unfold beforeSettlement, dealPhase, initialDeal. symmetry.
  do 5 (rewrite andThen_assoc; apply andThen_ext; intro).
  reflexivity.
Qed.

(** The first part of a round, for a table of at most 29 with no hand left
    from before and a hand for the dealer: the low-water check leaves at
    least 60 cards undealt, which is enough, so the deal cannot fail.  The
    phase ends either waiting for a bet or with every player holding one
    hand of two cards, unflagged, with a wager of at least 1, and the dealer
    holding two more cards than before. *)
Theorem deal_phase_succeeds (t : Game) (dealrH : Hand) (others : list Hand) :
  noHands t ->
  hands (dealr t) = dealrH :: others ->
  (length (plyrs t) <= 29)%nat ->
  beforeSettlement t = (dealPhase ;; playPhases) t
  /\ (fst (dealPhase t) = NeedInput
      \/ (fst (dealPhase t) = Ok
          /\ Forall (fun p => exists h, hands p = [h] /\ freshlyDealt h)
                    (plyrs (snd (dealPhase t)))
          /\ exists c1 c2,
              hands (dealr (snd (dealPhase t)))
              = setCards dealrH (cards dealrH ++ [c1; c2]) :: others)).
Proof.
  intros Hno Hd Hn. split; [apply beforeSettlement_dealPhase|].
  set (Q := fun p : Player =>
              exists b, 1 <= b /\ hands p = [mkHand [] b false false]).
  assert (HQ : forall p w, hands p = [] ->
             fst (fst (placeBet p w)) <> Undefined
             /\ (fst (fst (placeBet p w)) = Ok -> Q (snd (fst (placeBet p w))))).
  { intros p w E. unfold placeBet.
    pose proof (promptBet_valid (chips p) (cinInts w)) as Hv.
    destruct (promptBet (chips p) (cinInts w)) as [[b|] cin'];
      cbn [fst snd]; (split; [discriminate|]); [|intro H; discriminate H].
    intros _. exists b. split; [exact (proj1 (Hv _ _ eq_refl))|].
    cbn [hands setChips setHands]. rewrite E. reflexivity. }
  pose proof (reshuffleCheck_sixty t) as H60.
  destruct (reshuffleCheck_spec t) as (Hp & Hdl & _). cbn zeta in Hp, Hdl.
  change (dealPhase t)
    with ((onPlayers placeBet ;; initialDeal) (snd (reshuffleCheck t))).
  set (t0 := snd (reshuffleCheck t)) in *. clearbody t0.
  unfold noHands in Hno.
  rewrite <- Hp in Hno, Hn. rewrite <- Hdl in Hd. clear Hp Hdl t.
  unfold andThen, onPlayers.
  pose proof (forEachPlayer_status (fun st => st = Ok \/ st = NeedInput) placeBet
                (or_introl eq_refl)) as Hst.
  specialize (Hst ltac:(intros p w; unfold placeBet;
    destruct (promptBet (chips p) (cinInts w)) as [[b|] cin']; auto)
    (plyrs t0) (world t0)).
  pose proof (forEachPlayer_world deck placeBet) as Hdeck.
  specialize (Hdeck ltac:(intros p w; unfold placeBet;
    destruct (promptBet (chips p) (cinInts w)) as [[b|] cin']; reflexivity)
    (plyrs t0) (world t0)).
  pose proof (forEachPlayer_length placeBet (plyrs t0) (world t0)) as Hlen.
  destruct (forEachPlayer_safe (fun p => hands p = []) Q placeBet
              (fun p w E => HQ p w E) (plyrs t0) (world t0) Hno) as [_ Hall].
  destruct (forEachPlayer placeBet (plyrs t0) (world t0)) as [[st ps] w1].
  cbn [fst snd] in *.
  destruct Hst as [-> | ->]; [|left; reflexivity].
  right. specialize (Hall eq_refl).
  assert (Hcards : (2 * length ps + 2 <= length (deck w1))%nat)
    by (rewrite Hdeck; lia).
  assert (Hhold : allDealtIn (mkGame ps (dealr t0) w1)).
  { unfold allDealtIn. cbn [plyrs]. eapply Forall_impl; [|exact Hall].
    intros p (b & _ & E). rewrite E. discriminate. }
  destruct (initialDeal_deals (mkGame ps (dealr t0) w1) dealrH others Hhold Hd)
    as [E _].
  { exact Hcards. }
  cbn [plyrs dealr world] in E. rewrite E. cbn [fst snd plyrs dealr].
  split; [reflexivity|]. split.
  - assert (H1 : Forall (fun p' => exists p c, Q p /\ p' = dealtTo c p)
                        (dealRow ps (deck w1)))
      by (apply dealRow_each; [exact Hall | lia]).
    pose proof (dealRow_each _ _ (skipn (length ps + 1) (deck w1)) H1) as H2.
    specialize (H2 ltac:(rewrite dealRow_length, length_skipn; lia)).
    eapply Forall_impl; [|exact H2].
    intros p2 (p1 & c2 & (p & c1 & (b & Hb & Eh) & ->) & ->).
    unfold dealtTo. rewrite Eh. cbn [hands setHands cards setCards app].
    eexists. split; [reflexivity|]. repeat split. exact Hb.
  - cbn [hands setHands]. eexists. eexists. reflexivity.
Qed.

Lemma deal_phase_succeeds_witness :
  fst (dealPhase quietGame) = Ok
  /\ map (fun p => map cards (hands p)) (plyrs (snd (dealPhase quietGame)))
     = [[[twoOfClubs; twoOfClubs]]].
Proof.
  destruct (proj2 (deal_phase_succeeds quietGame newHand []
                     ltac:(repeat constructor) eq_refl
                     ltac:(cbn; lia)))
    as [Hx | (Hok & _)].
  - vm_compute in Hx. discriminate Hx.
  - split; [exact Hok | vm_compute; reflexivity].
Defined.

(** ** Naturals and busts at settlement *)

Lemma is_nat_score (hand : Hand) : is_nat hand = true -> calcScr hand = 21.
Proof.
  unfold is_nat. rewrite !andb_true_iff, Z.eqb_eq. tauto.
Qed.

(** What the order of the payout rules comes to, for a settlement that
    stays within [int] ([payoutFits]).  Against a dealer natural no hand
    wins: a natural gets its wager back and every other hand gets nothing.
    A player natural never loses: it gets the wager back against a dealer
    natural, and the wager and one and a half times the wager on top
    otherwise.  A bust hand gets nothing, even when the dealer is bust as
    well.  The new balance is in range. *)
Theorem naturals_and_busts (p : Player) (hand dealrH : Hand) (w : World) :
  payoutFits p hand ->
  (is_nat dealrH = true ->
   credited p hand dealrH w = if is_nat hand then bet hand else 0)
  /\ (is_nat hand = true ->
      credited p hand dealrH w
      = if is_nat dealrH then bet hand else bet hand + (3 * bet hand) / 2)
  /\ (calcScr hand > 21 -> credited p hand dealrH w = 0)
  /\ inInt (chips p + credited p hand dealrH w).
Proof.
  intros (Hc & Hb & Hmax).
  assert (Hin : inInt (chips p + credited p hand dealrH w)).
  { pose proof (settleOne_credit_bounds p hand dealrH w Hb) as Hcr.
    unfold credited, inInt, INT_MIN. lia. }
  refine ((fun H => conj (proj1 H) (conj (proj1 (proj2 H))
                     (conj (proj2 (proj2 H)) Hin))) _).
  clear Hin. unfold credited, settleOne.
  destruct (Z.gtb_spec (bet hand) 0) as [Hpos|Hle].
  - rewrite setHnd_chips, winAmt_floor by exact Hb.
    split; [|split].
    + intro Hd. pose proof (is_nat_score _ Hd) as Hs. rewrite Hd, Hs.
      destruct (Z.gtb_spec (calcScr hand) 21) as [H1|H1].
      * destruct (is_nat hand) eqn:Hn; [|lia].
        apply is_nat_score in Hn. lia.
      * destruct (is_nat hand); cbn [andb]; [lia|].
        destruct (Z.gtb_spec 21 21); lia.
    + intro Hn. pose proof (is_nat_score _ Hn) as Hs. rewrite Hn, Hs.
      destruct (Z.gtb_spec 21 21) as [H1|_]; [lia|].
      destruct (is_nat dealrH); cbn [andb]; lia.
    + intro Hbust.
      destruct (Z.gtb_spec (calcScr hand) 21) as [_|H1]; lia.
  - assert (E : bet hand = 0) by lia.
    cbn [discHnd fst]. rewrite E.
    repeat split; intros; repeat match goal with
                                 | |- context [if ?b then _ else _] => destruct b
                                 end; cbn; lia.
Qed.

(** A bust twenty-one-plus against a dealer natural: nothing is paid. *)
Lemma naturals_and_busts_witness :
  credited ann (staked [tenSpades; nineSpades; twoOfClubs])
           (staked [aceHearts; kingSpades]) (worldOf [] []) = 0.
Proof.
  assert (Hfits : payoutFits ann (staked [tenSpades; nineSpades; twoOfClubs]))
    by (vm_compute; repeat split; congruence).
  exact (proj1 (naturals_and_busts ann (staked [tenSpades; nineSpades; twoOfClubs])
                  (staked [aceHearts; kingSpades]) (worldOf [] []) Hfits)
           eq_refl).
Defined.

(** ** A split on a player's only hand *)

(** The inner loop on a hand with no hand after it: either it leaves no
    hand after it, or a split ran, the inserted hand is the one hand after
    it, and the loop has ended at the access through [end()], or in the
    fatal error of the first draw. *)
Lemma playHand_lone :
  forall fuel p curHnd w st resume p' h' rest' w',
    playHand fuel p curHnd [] w = (st, resume, p', h', rest', w') ->
    (rest' = [] /\ resume <> InsertedHand)
    \/ (exists inserted,
          rest' = [inserted]
          /\ (st = Undefined \/ (st = SupplyExhausted /\ exhausted w'))).
Proof.
  induction fuel as [|fuel IH]; intros p curHnd w st resume p' h' rest' w';
    cbn [playHand].
  { intro H; injection H as <- <- <- <- <- <-. left. split; [reflexivity | discriminate]. }
  destruct (calcScr curHnd >? 21).
  { intro H; injection H as <- <- <- <- <- <-. left. split; [reflexivity | discriminate]. }
  destruct (calcScr curHnd =? 21).
  { intro H; injection H as <- <- <- <- <- <-. left. split; [reflexivity | discriminate]. }
  destruct (cinWords w) as [|word more].
  { intro H; injection H as <- <- <- <- <- <-. left. split; [reflexivity | discriminate]. }
  destruct (upcase word =? "H")%string.
  { destruct (playHit curHnd (setCinWords w more)) as [[st1 h1] w1].
    destruct st1; try (intro H; injection H as <- <- <- <- <- <-; left;
                       split; [reflexivity | discriminate]).
    apply IH. }
  destruct (upcase word =? "S")%string.
  { intro H; injection H as <- <- <- <- <- <-. left. split; [reflexivity | discriminate]. }
  destruct ((upcase word =? "D")%string && canDbl p curHnd).
  { destruct (playDD p curHnd (setCinWords w more)) as [[[st1 p1] h1] w1].
    intro H; injection H as <- <- <- <- <- <-. left. split; [reflexivity | discriminate]. }
  destruct ((upcase word =? "P")%string && canSplt curHnd); [|apply IH].
  destruct (playSplt p curHnd [] (setCinWords w more))
    as [[[[st1 p1] h1] r1] w1] eqn:E.
  intro H; injection H as <- <- <- <- <- <-.
  destruct (playSplt_cases _ _ _ _ _ _ _ _ _ E)
    as [(Er & _ & _ & _ & -> & _)
       | (_ & c1 & c2 & _ & _ &
          [(-> & _ & -> & Hx)
          | (d1 & _ &
             [(_ & -> & ->)
             | (nxtHnd & others & Hnil & _)])])].
  - left. rewrite Er. split; [reflexivity | discriminate].
  - right. eexists. split; [reflexivity|]. right. split; [reflexivity | exact Hx].
  - right. eexists. split; [reflexivity|]. left. reflexivity.
  - discriminate Hnil.
Qed.

Lemma hdlLoop_lone :
  forall fuel p prev curHnd w st p' hs w',
    hdlLoop fuel p prev [curHnd] w = (st, p', hs, w') ->
    length hs = S (length prev)
    \/ (length hs = S (S (length prev))
        /\ (st = Undefined \/ (st = SupplyExhausted /\ exhausted w'))).
Proof.
  induction fuel as [|fuel IH]; intros p prev curHnd w st p' hs w';
    cbn [hdlLoop].
  { intro H; injection H as <- <- <- <-. left.
    rewrite length_app. cbn [length]. lia. }
  assert (Hskip : hdlLoop fuel p (prev ++ [curHnd]) [] w = (st, p', hs, w') ->
                  length hs = S (length prev)).
  { destruct fuel; cbn [hdlLoop]; intro H; injection H as <- <- <- <-;
      rewrite length_app; cbn [length]; lia. }
  destruct (ddown curHnd); [intro H; left; exact (Hskip H)|].
  destruct (splitAces curHnd); [intro H; left; exact (Hskip H)|]. clear Hskip.
  destruct (playHand fuel p curHnd [] w) as [[[[[st1 resume] p1] h1] r1] w1] eqn:E.
  destruct (playHand_lone _ _ _ _ _ _ _ _ _ _ E)
    as [[-> Hres] | (inserted & -> & Hend)].
  - destruct st1;
      try (intro H; injection H as <- <- <- <-; left;
           rewrite length_app; cbn [length]; lia).
    destruct resume; [|apply IH | contradiction].
    destruct fuel; cbn [hdlLoop]; intro H; injection H as <- <- <- <-; left;
      rewrite length_app; cbn [length]; lia.
  - destruct Hend as [-> | [-> Hx]];
      intro H; injection H as <- <- <- <-; right;
      (split; [rewrite length_app; cbn [length]; lia|]).
    + left. reflexivity.
    + right. split; [reflexivity | exact Hx].
Qed.

Lemma hdlPlay_lone
    (p : Player) (dlHnd curHnd : Hand) (w : World)
    (st : Status) (p' : Player) (w' : World) :
  hands p = [curHnd] ->
  hdlPlay p dlHnd w = (st, p', w') ->
  (length (hands p') = 1%nat
   \/ (length (hands p') = 2%nat
       /\ (st = Undefined \/ (st = SupplyExhausted /\ exhausted w'))))
  /\ (st = Ok \/ st = NeedInput -> length (hands p') = 1%nat).
Proof.
  intros Eh H. unfold hdlPlay, hdlRun in H. rewrite Eh in H.
  destruct (hdlLoop _ _ _ _ _) as [[[st1 p1] hs] w1] eqn:E.
  injection H as <- <- <-. cbn [hands setHands].
  pose proof (hdlLoop_lone _ _ _ _ _ _ _ _ _ E) as Hl. cbn [length] in Hl.
  split; [exact Hl|].
  intros Hst. destruct Hl as [Hl | (_ & [-> | [-> _]])]; [exact Hl | |];
    destruct Hst; discriminate.
Qed.

(** A decision phase entered with one hand, as every round enters it, never
    comes out of a split.  Either the player still has the one hand, or a
    split was honoured: then there are two hands, and the phase has ended at
    the access through [end()], or in the fatal error (the supply had no
    card for the first draw of the split).  A phase that completes, or waits
    for input, has not split. *)
Theorem split_on_only_hand_never_returns
    (p : Player) (dlHnd curHnd : Hand) (w : World)
    (st : Status) (p' : Player) (w' : World) :
  hands p = [curHnd] ->
  hdlPlay p dlHnd w = (st, p', w') ->
  (length (hands p') = 1%nat
   \/ (length (hands p') = 2%nat
       /\ (st = Undefined \/ (st = SupplyExhausted /\ exhausted w'))))
  /\ (st = Ok \/ st = NeedInput -> length (hands p') = 1%nat).
Proof. exact (hdlPlay_lone p dlHnd curHnd w st p' w'). Qed.

(** Ann splits her tens, her only hand: two hands, and the phase is at the
    access through [end()]. *)
Lemma split_on_only_hand_never_returns_witness :
  fst (fst (hdlPlay annTens newHand
              (worldOf [fiveClubs; sixDiamonds] ["P"; "S"; "S"]))) = Undefined
  /\ (length (hands (snd (fst (hdlPlay annTens newHand
                (worldOf [fiveClubs; sixDiamonds] ["P"; "S"; "S"]))))) = 1%nat
      \/ (length (hands (snd (fst (hdlPlay annTens newHand
                   (worldOf [fiveClubs; sixDiamonds] ["P"; "S"; "S"]))))) = 2%nat
          /\ (fst (fst (hdlPlay annTens newHand
                 (worldOf [fiveClubs; sixDiamonds] ["P"; "S"; "S"]))) = Undefined
              \/ (fst (fst (hdlPlay annTens newHand
                    (worldOf [fiveClubs; sixDiamonds] ["P"; "S"; "S"])))
                  = SupplyExhausted
                  /\ exhausted (snd (hdlPlay annTens newHand
                       (worldOf [fiveClubs; sixDiamonds] ["P"; "S"; "S"]))))))).
Proof.
  split; [vm_compute; reflexivity|].
  destruct (hdlPlay annTens newHand
              (worldOf [fiveClubs; sixDiamonds] ["P"; "S"; "S"]))
    as [[st p'] w'] eqn:E.
  exact (proj1 (split_on_only_hand_never_returns annTens newHand
                  (staked [tenSpades; tenHearts]) _ _ _ _ eq_refl E)).
Defined.

(** ** No split in a round that gets to its settlement *)

Lemma andThen_ok (f g : Game -> Status * Game) (t t' : Game) :
  (f ;; g) t = (Ok, t') -> exists t1, f t = (Ok, t1) /\ g t1 = (Ok, t').
Proof.
  unfold andThen. destruct (f t) as [st t1]. destruct st; try discriminate.
  intro H. exists t1. split; [reflexivity | exact H].
Qed.

Lemma forEachPlayer_ok_Forall (P Q : Player -> Prop)
    (f : Player -> World -> Status * Player * World) :
  (forall p w p' w', P p -> f p w = (Ok, p', w') -> Q p') ->
  forall ps w ps' w',
    forEachPlayer f ps w = (Ok, ps', w') -> Forall P ps -> Forall Q ps'.
Proof.
  intros Hf ps. induction ps as [|p more IH]; intros w ps' w'; cbn [forEachPlayer].
  - intros H _. injection H as <- <-. constructor.
  - intros H HP. inversion HP as [|? ? Hp Hmore]; subst.
    destruct (f p w) as [[st p1] w1] eqn:E. destruct st; try discriminate.
    destruct (forEachPlayer f more w1) as [[st2 more2] w2] eqn:E2.
    injection H as -> <- <-.
    constructor; [exact (Hf _ _ _ _ Hp E) | exact (IH _ _ _ E2 Hmore)].
Qed.

Lemma onPlayers_ok_Forall (P Q : Player -> Prop)
    (f : Player -> World -> Status * Player * World) (t t' : Game) :
  (forall p w p' w', P p -> f p w = (Ok, p', w') -> Q p') ->
  onPlayers f t = (Ok, t') -> Forall P (plyrs t) -> Forall Q (plyrs t').
Proof.
  intros Hf. unfold onPlayers.
  destruct (forEachPlayer f (plyrs t) (world t)) as [[st ps] w] eqn:E.
  intros H HP. injection H as -> <-. cbn [plyrs].
  exact (forEachPlayer_ok_Forall P Q f Hf _ _ _ _ E HP).
Qed.

Lemma onDealerHand_ok_plyrs (f : Hand -> World -> Status * Hand * World)
    (t t' : Game) (st : Status) :
  onDealerHand f t = (st, t') -> plyrs t' = plyrs t.
Proof.
  intro H. pose proof (onDealerHand_plyrs f t) as Hp. rewrite H in Hp. exact Hp.
Qed.

Lemma beforeSettlement_lone (t t1 : Game) :
  noHands t ->
  beforeSettlement t = (Ok, t1) ->
  Forall (fun p => length (hands p) = 1%nat) (plyrs t1).
Proof.
  intros Hno H. unfold beforeSettlement in H.
  set (one := fun p : Player => length (hands p) = 1%nat).
  apply andThen_ok in H. destruct H as (t0 & H0 & H).
  assert (Hno0 : Forall (fun p => hands p = []) (plyrs t0)).
  { cbn [reshuffleCheck] in H0. injection H0 as <-. exact Hno. }
  clear H0 Hno.
  apply andThen_ok in H. destruct H as (ta & Ha & H).
  assert (H1 : Forall one (plyrs ta)).
  { refine (onPlayers_ok_Forall _ one placeBet _ _ _ Ha Hno0).
    intros p w p' w' E. unfold placeBet.
    destruct (promptBet (chips p) (cinInts w)) as [[b|] cin']; [|discriminate].
    intro Hp. injection Hp as <- _. unfold one. cbn [hands setChips setHands].
    rewrite E. reflexivity. }
  assert (Hdeal : forall ta tb, onPlayers dealToFront ta = (Ok, tb) ->
                    Forall one (plyrs ta) -> Forall one (plyrs tb)).
  { intros tx ty. apply onPlayers_ok_Forall.
    intros p w p' w' Hp. unfold dealToFront, one in *.
    destruct (hands p) as [|h tl]; [discriminate|].
    destruct (dealCrd (cards h) w) as [[st cs] w1].
    intro E. injection E as _ <- _. exact Hp. }
  apply andThen_ok in H. destruct H as (tb & Hb & H).
  pose proof (Hdeal _ _ Hb H1) as H2.
  apply andThen_ok in H. destruct H as (tc & Hc & H).
  unfold dealToDealer in Hc. rewrite <- (onDealerHand_ok_plyrs _ _ _ _ Hc) in H2.
  apply andThen_ok in H. destruct H as (td & Hd & H).
  pose proof (Hdeal _ _ Hd H2) as H3.
  apply andThen_ok in H. destruct H as (te & He & H).
  unfold dealToDealer in He. rewrite <- (onDealerHand_ok_plyrs _ _ _ _ He) in H3.
  unfold playPhases in H. cbn zeta in H.
  apply andThen_ok in H. destruct H as (tf & Hf & H).
  rewrite (onDealerHand_ok_plyrs _ _ _ _ H).
  unfold actionsPhase in Hf.
  refine (onPlayers_ok_Forall one one _ _ _ _ Hf H3).
  intros p w p' w' Hp. destruct (negb (dealrNatOf te)).
  - intro E. unfold one in Hp.
    destruct (hands p) as [|h [|h2 tl]] eqn:Eh; try discriminate.
    exact (proj2 (hdlPlay_lone _ _ _ _ _ _ _ Eh E) (or_introl eq_refl)).
  - intro E. injection E as <- _. exact Hp.
Qed.

(** A round that gets to its settlement has seen no split: started with no
    hand on the table, it reaches the settlement with exactly one hand for
    each player.  A split that is honoured in a round ends it, at the access
    through [end()] or in the fatal error. *)
Theorem no_split_in_a_settled_round (t t1 : Game) :
  noHands t ->
  beforeSettlement t = (Ok, t1) ->
  Forall (fun p => length (hands p) = 1%nat) (plyrs t1).
Proof. exact (beforeSettlement_lone t t1). Qed.

Lemma no_split_in_a_settled_round_witness :
  Forall (fun p => length (hands p) = 1%nat)
         (plyrs (snd (beforeSettlement (acesGame [nineClubs] ["H"])))).
Proof.
  apply (no_split_in_a_settled_round (acesGame [nineClubs] ["H"])).
  - repeat constructor.
  - vm_compute. reflexivity.
Defined.

(** ** Doubled hands when the decision phase ends *)

Lemma beforeSettlement_doubled (t t1 : Game) :
  noHands t ->
  beforeSettlement t = (Ok, t1) ->
  Forall (fun p => Forall doubledHasThree (hands p)) (plyrs t1).
Proof.
  intros Hno H. unfold beforeSettlement in H.
  set (one := fun p : Player => exists h, hands p = [h] /\ notDoubled h).
  apply andThen_ok in H. destruct H as (t0 & H0 & H).
  assert (Hno0 : Forall (fun p => hands p = []) (plyrs t0)).
  { cbn [reshuffleCheck] in H0. injection H0 as <-. exact Hno. }
  clear H0 Hno.
  apply andThen_ok in H. destruct H as (ta & Ha & H).
  assert (H1 : Forall one (plyrs ta)).
  { refine (onPlayers_ok_Forall _ one placeBet _ _ _ Ha Hno0).
    intros p w p' w' E. unfold placeBet.
    destruct (promptBet (chips p) (cinInts w)) as [[b|] cin']; [|discriminate].
    intro Hp. injection Hp as <- _. unfold one. cbn [hands setChips setHands].
    rewrite E. eexists. split; reflexivity. }
  assert (Hdeal : forall ta tb, onPlayers dealToFront ta = (Ok, tb) ->
                    Forall one (plyrs ta) -> Forall one (plyrs tb)).
  { intros tx ty. apply onPlayers_ok_Forall.
    intros p w p' w' (h & Eh & Hd). unfold dealToFront, one. rewrite Eh.
    destruct (dealCrd (cards h) w) as [[st cs] w1].
    intro E. injection E as _ <- _. cbn [hands setHands].
    eexists. split; [reflexivity | exact Hd]. }
  apply andThen_ok in H. destruct H as (tb & Hb & H).
  pose proof (Hdeal _ _ Hb H1) as H2.
  apply andThen_ok in H. destruct H as (tc & Hc & H).
  unfold dealToDealer in Hc. rewrite <- (onDealerHand_ok_plyrs _ _ _ _ Hc) in H2.
  apply andThen_ok in H. destruct H as (td & Hd & H).
  pose proof (Hdeal _ _ Hd H2) as H3.
  apply andThen_ok in H. destruct H as (te & He & H).
  unfold dealToDealer in He. rewrite <- (onDealerHand_ok_plyrs _ _ _ _ He) in H3.
  unfold playPhases in H. cbn zeta in H.
  apply andThen_ok in H. destruct H as (tf & Hf & H).
  rewrite (onDealerHand_ok_plyrs _ _ _ _ H).
  unfold actionsPhase in Hf.
  refine (onPlayers_ok_Forall one _ _ _ _ _ Hf H3).
  intros p w p' w' (h & Eh & Hd'). destruct (negb (dealrNatOf te)).
  - intro E. destruct (hdlPlay_inv _ _ _ _ _ _ E) as (_ & _ & Hth & _).
    apply Hth; [|reflexivity]. rewrite Eh.
    split; [|constructor].
    constructor; [|constructor]. intro Hx. unfold notDoubled in Hd'. congruence.
  - intro E. injection E as <- _. rewrite Eh.
    constructor; [|constructor]. intro Hx. unfold notDoubled in Hd'. congruence.
Qed.

(** C6.  At the prompt, a request to double is honoured exactly when the
    hand has two cards and the balance covers the wager; otherwise nothing
    changes and the prompt comes again.  When it is honoured (and the draw
    delivers) the balance drops by the wager, the wager doubles, the flag is
    set, one card is added, and the hand joins the hands already played
    without its score being looked at: it is in the final hand sequence as it
    is then.  Hence, when the decision phase of a player ends, every doubled
    hand holds three cards.  This holds in every round started with no hand
    on the table, whatever is typed (third part), and for [hdlPlay] called
    on any hands of which the doubled ones hold three cards and none after
    the first is doubled (second part).  The condition on the hands after
    the first cannot be dropped: a doubled hand standing right after a pair
    would be handed a fourth card by [playSplt].  The program enters the
    phase with one hand, so no round gets there. *)
Theorem C6_double_wager :
  (forall (p : Player) (prev rest : list Hand) (curHnd : Hand) (w : World)
          (word : string) (more : list string),
      prompted curHnd w word more ->
      upcase word = "D" ->
      (~ doubleEligible p curHnd ->
       hdlRun p prev (curHnd :: rest) w
       = hdlRun p prev (curHnd :: rest) (setCinWords w more))
      /\ (doubleEligible p curHnd ->
          forall l1 w1,
            dealCrd (cards curHnd) (setCinWords w more) = (Ok, l1, w1) ->
            let doubled := mkHand l1 (bet curHnd * 2) (isplit curHnd) true in
            (exists d, l1 = cards curHnd ++ [d])
            /\ length l1 = 3%nat
            /\ hdlRun p prev (curHnd :: rest) w
               = hdlRun (setChips p (chips p - bet curHnd))
                        (prev ++ [doubled]) rest w1
            /\ exists tail,
                snd (fst (hdlRun p prev (curHnd :: rest) w))
                = prev ++ doubled :: tail))
  /\ (forall (p : Player) (dlHnd : Hand) (w : World) (p' : Player) (w' : World),
         Forall doubledHasThree (hands p) ->
         Forall notDoubled (tl (hands p)) ->
         hdlPlay p dlHnd w = (Ok, p', w') ->
         Forall doubledHasThree (hands p'))
  /\ (forall t t1 : Game,
         noHands t ->
         beforeSettlement t = (Ok, t1) ->
         Forall (fun p => Forall doubledHasThree (hands p)) (plyrs t1)).
Proof.
  split; [|split].
  - intros p prev rest curHnd w word more Hp Hu. split.
    + intro Hne. exact (double_denied_run _ _ _ _ _ _ _ Hp Hu Hne).
    + intros He l1 w1 H1 doubled.
      pose proof (double_executed_run p prev curHnd rest w word more l1 w1
                    Hp Hu He H1) as Hrun.
      fold doubled in Hrun.
      destruct (dealCrd_status _ _ _ _ _ H1) as [[_ [d Hd]] | [Hx _]];
        [|discriminate].
      split; [exists d; exact Hd|].
      split; [rewrite Hd, length_app; destruct He as [-> _]; reflexivity|].
      split; [exact Hrun|].
      rewrite Hrun. unfold hdlRun.
      destruct (hdlLoop _ _ _ _ _) as [[[st p'] hs] w'] eqn:E.
      apply hdlLoop_inv in E. destruct E as (_ & _ & _ & [tail Ht] & _).
      exists tail. cbn [fst snd]. rewrite Ht, <- app_assoc. reflexivity.
  - intros p dlHnd w p' w' Hh Hu H.
    destruct (hdlPlay_inv _ _ _ _ _ _ H) as (_ & _ & Hd & _).
    apply Hd; [split; [exact Hh | exact Hu] | reflexivity].
  - exact beforeSettlement_doubled.
Qed.

(** Ann doubles on her pair of tens and takes the king.  In a round, dealt
    two aces against the dealer's nineteen, she doubles and takes the nine:
    three cards and a wager of 20 when the settlement begins. *)
Lemma C6_double_witness :
  hdlPlay annTens newHand (worldOf [kingSpades; sixDiamonds] ["d"])
  = (Ok,
     mkPlayer 1 "Ann" 980 [mkHand [tenSpades; tenHearts; kingSpades] 20 false true],
     worldOf [sixDiamonds] [])
  /\ Forall doubledHasThree
       [mkHand [tenSpades; tenHearts; kingSpades] 20 false true]
  /\ map hands (plyrs (snd (beforeSettlement (acesGame [nineClubs] ["D"]))))
     = [[mkHand [aceSpades; aceHearts; nineClubs] 20 false true]]
  /\ Forall (fun p => Forall doubledHasThree (hands p))
            (plyrs (snd (beforeSettlement (acesGame [nineClubs] ["D"])))).
Proof.
  assert (E : hdlPlay annTens newHand (worldOf [kingSpades; sixDiamonds] ["d"])
              = (Ok,
                 mkPlayer 1 "Ann" 980
                   [mkHand [tenSpades; tenHearts; kingSpades] 20 false true],
                 worldOf [sixDiamonds] [])) by (vm_compute; reflexivity).
  split; [exact E|]. split; [|split; [vm_compute; reflexivity|]].
  - refine (proj1 (proj2 C6_double_wager) annTens newHand _ _ _ _ _ E).
    + constructor; [intro H; discriminate | constructor].
    + constructor.
  - apply (proj2 (proj2 C6_double_wager) (acesGame [nineClubs] ["D"])).
    + repeat constructor.
    + vm_compute. reflexivity.
Defined.

(** Why the phase must not start with a doubled hand after the first: a
    doubled nine, two and five standing after a pair of tens is handed the
    six by the split of the tens, and is passed over with four cards. *)
Lemma doubled_hand_after_a_pair :
  hdlPlay (mkPlayer 1 "Ann" 970
             [staked [tenSpades; tenHearts];
              mkHand [nineSpades; twoOfClubs; fiveClubs] 20 false true])
          newHand (worldOf [fiveClubs; sixDiamonds] ["P"; "S"])
  = (Ok,
     mkPlayer 1 "Ann" 960
              [staked [tenSpades; fiveClubs];
               mkHand [tenHearts] 10 true false;
               mkHand [nineSpades; twoOfClubs; fiveClubs; sixDiamonds]
                      20 false true],
     worldOf [] []).
Proof. vm_compute. reflexivity. Qed.
